(** * promise-observer: an emitter whose [emit] waits for its subscribers

    A state-passing model of [src/index.ts] and [src/helpers.ts].

    The library code ([create], [subscribe], [remove], [next], [emit],
    [timeout], [waitAll]) is written as functions over a machine state that
    holds what the JavaScript closures share: the subscription tables, the
    promises with their reaction lists, the microtask queue, the timers,
    the [current] variable of every [emit] call, the counter [n] of every
    [waitAll] call and the [TimeoutError] objects.  Listeners are user code:
    they are given as small scripts of calls into the library. *)

From Stdlib Require Import ZArith String.
From stdpp Require Import base tactics option list strings.

(** ** Values, listeners and scripts *)

(** An emitter is identified by its position in the store of emitters.  The
    [subscribe] function object of an emitter (its [Observable]) is created
    together with it, so the same number identifies the observable. *)
Abbreviation EmitterId := nat (only parsing).
Abbreviation PromiseId := nat (only parsing).

(** Plain (non-thenable) JavaScript values.  A [TimeoutError] is a mutable
    object: the value is a reference into the store of its
    [timedoutListener] fields. *)
Inductive Val : Type :=
| VUndefined
| VNum (n : Z)
| VStr (s : string)
| VError (msg : string)
| VTimeoutError (r : nat).

(** The initial value of [TimeoutError.timedoutListener]. *)
Definition unknown_listener : string := "<unknown>"%string.

(** The body of a listener, as the sequence of library calls it makes
    before it returns.  The last constructor reached says what it returns:
    a value, an exception, or a promise. *)
Inductive Script : Type :=
| SReturn (v : Val)                    (* return v *)
| SThrow (e : Val)                     (* throw e *)
| SReject (e : Val)                    (* return Promise.reject(e) *)
| SNever                               (* return new Promise(() => {}) *)
| SDelay (d : nat) (k : Script)        (* return delay(d).then(() => k) *)
| SAwait (p : PromiseId) (k : Val -> Script)   (* return p.then(k) *)
| SRemove (obs target : EmitterId) (k : Script)   (* obs.remove(target); k *)
| SSubscribe (obs : EmitterId) (text : string) (body : Val -> Script)
             (k : EmitterId -> Script)
    (* var s = obs(function text(item) { body }); k *)
| SNext (obs : EmitterId) (pred : option (Val -> bool))
        (k : PromiseId -> Script).     (* var p = obs.next(pred); k *)

Inductive Listener : Type :=
| LUser (text : string) (body : Val -> Script)
    (* a listener passed to subscribe; [text] is its source text *)
| LNext (pred : option (Val -> bool)) (parent sub : EmitterId) (p : PromiseId).
    (* the arrow function built by [next]: it closes over [predicate],
       over [remove] of the emitter [parent], over the variable [sub] and
       over [resolve] of the promise [p] *)

(** [String(listener)] *)
Definition listener_text (l : Listener) : string :=
  match l with
  | LUser text _ => text
  | LNext _ _ _ _ =>
      "item => { if (predicate == null || predicate(item)) { remove(sub); resolve(item); } }"%string
  end.

(** interface Subscription: [emit] is the closure
    [item => Promise.resolve(listener(item)).then(emitter.emit)] where
    [emitter] is the child emitter whose observable is [target]; it is
    determined by the two other fields (see [subscription_emit]). *)
Record Subscription := mkSubscription {
  target : EmitterId;
  listener : Listener
}.

(** What [create] closes over: [opts.emitTimeout] ([None] for both a
    missing and a null option) and the array [subscriptions]. *)
Record Emitter := mkEmitter {
  emitTimeout : option nat;
  subscriptions : list Subscription
}.

(** ** Promises of the host *)

(** The callbacks that the library passes to [then], [catch] and
    [setTimeout]. *)
Inductive Handler : Type :=
| HEmit (em : EmitterId)        (* emitter.emit, passed to then by subscribe *)
| HResolveFn (p : PromiseId)    (* the resolve function of p *)
| HRejectFn (p : PromiseId)     (* the reject function of p *)
| HCount (w : nat)              (* the closure count of the waitAll call w *)
| HStamp (cur : nat)            (* the catch callback of emit; cur is the
                                   variable current of that emit call *)
| HScript (k : Val -> Script).  (* a continuation of user code *)

Record Reaction := mkReaction {
  onFulfilled : option Handler;
  onRejected : option Handler;
  derived : PromiseId
}.

Inductive PState : Type :=
| Pending (rs : list Reaction)
| Fulfilled (v : Val)
| Rejected (e : Val).

Inductive Job : Type :=
| JReact (h : option Handler) (rejected : bool) (arg : Val) (d : PromiseId)
    (* run a then-callback and settle the derived promise d *)
| JThenable (p q : PromiseId).
    (* p was resolved with the promise q: call q.then(resolve_p, reject_p) *)

Inductive TimerAction : Type :=
| TResolve (p : PromiseId) (v : Val)
| TReject (p : PromiseId) (e : Val).

Record Timer := mkTimer { due : nat; action : TimerAction }.

(** The closure of one [waitAll] call: its variable [n], its argument
    [promises] and the promise it returns. *)
Record WaitAll := mkWaitAll {
  wa_n : Z;
  wa_inputs : list PromiseId;
  wa_promise : PromiseId
}.

(** How a promise was made.  This is a record kept beside the promises for
    reasoning; no operation reads it. *)
Inductive Origin : Type :=
| OPlain                       (* by user code, or Promise.resolve(value) *)
| ONext                        (* new Promise(...) of next *)
| OTimer                       (* new Promise(...) of timeout *)
| ORace (ps : list PromiseId)  (* Promise.race(ps) *)
| OWaitAll (w : nat)           (* new Promise(...) of the waitAll call w *)
| OThen (src : PromiseId) (f g : option Handler).   (* src.then(f, g) *)

(** One call of [emit] that returned: the emitter, the value, the array
    [results] and the promise returned. *)
Record EmitCall := mkEmitCall {
  ec_emitter : EmitterId;
  ec_value : Val;
  ec_results : list PromiseId;
  ec_promise : PromiseId
}.

Record State := mkState {
  emitters : list Emitter;
  promises : list PState;
  microtasks : list Job;
  timers : list Timer;            (* in creation order *)
  now : nat;
  cells : list (option Subscription);   (* var current, one per emit call *)
  counters : list WaitAll;
  terrs : list string;            (* timedoutListener of each TimeoutError *)
  invoked : list (EmitterId * Val);
    (* history: the target of each entry whose listener was called, and the
       value it was called with, oldest first *)
  origins : list Origin;          (* history: how each promise was made *)
  emits : list EmitCall           (* history: the calls of emit that returned *)
}.

Definition init : State := mkState [] [] [] [] 0 [] [] [] [] [] [].

Definition set_emitters (f : list Emitter -> list Emitter) (st : State) : State :=
  mkState (f (emitters st)) (promises st) (microtasks st) (timers st) (now st) (cells st) (counters st) (terrs st) (invoked st) (origins st) (emits st).
Definition set_promises (f : list PState -> list PState) (st : State) : State :=
  mkState (emitters st) (f (promises st)) (microtasks st) (timers st) (now st) (cells st) (counters st) (terrs st) (invoked st) (origins st) (emits st).
Definition set_microtasks (f : list Job -> list Job) (st : State) : State :=
  mkState (emitters st) (promises st) (f (microtasks st)) (timers st) (now st) (cells st) (counters st) (terrs st) (invoked st) (origins st) (emits st).
Definition set_timers (f : list Timer -> list Timer) (st : State) : State :=
  mkState (emitters st) (promises st) (microtasks st) (f (timers st)) (now st) (cells st) (counters st) (terrs st) (invoked st) (origins st) (emits st).
Definition set_now (t : nat) (st : State) : State :=
  mkState (emitters st) (promises st) (microtasks st) (timers st) t (cells st) (counters st) (terrs st) (invoked st) (origins st) (emits st).
Definition set_cells (f : list (option Subscription) -> list (option Subscription)) (st : State) : State :=
  mkState (emitters st) (promises st) (microtasks st) (timers st) (now st) (f (cells st)) (counters st) (terrs st) (invoked st) (origins st) (emits st).
Definition set_counters (f : list WaitAll -> list WaitAll) (st : State) : State :=
  mkState (emitters st) (promises st) (microtasks st) (timers st) (now st) (cells st) (f (counters st)) (terrs st) (invoked st) (origins st) (emits st).
Definition set_terrs (f : list string -> list string) (st : State) : State :=
  mkState (emitters st) (promises st) (microtasks st) (timers st) (now st) (cells st) (counters st) (f (terrs st)) (invoked st) (origins st) (emits st).
Definition set_invoked (f : list (EmitterId * Val) -> list (EmitterId * Val)) (st : State) : State :=
  mkState (emitters st) (promises st) (microtasks st) (timers st) (now st) (cells st) (counters st) (terrs st) (f (invoked st)) (origins st) (emits st).
Definition set_origins (f : list Origin -> list Origin) (st : State) : State :=
  mkState (emitters st) (promises st) (microtasks st) (timers st) (now st) (cells st) (counters st) (terrs st) (invoked st) (f (origins st)) (emits st).
Definition set_emits (f : list EmitCall -> list EmitCall) (st : State) : State :=
  mkState (emitters st) (promises st) (microtasks st) (timers st) (now st) (cells st) (counters st) (terrs st) (invoked st) (origins st) (f (emits st)).

(** [new Promise(...)] before its executor settles it *)
Definition new_promise (s : PState) (o : Origin) (st : State)
  : PromiseId * State :=
  (length (promises st),
   set_origins (fun os => os ++ [o]) (set_promises (fun ps => ps ++ [s]) st)).

Definition pstate (st : State) (p : PromiseId) : option PState := promises st !! p.

(** The job that a reaction becomes once its promise is settled. *)
Definition reaction_job (rejected : bool) (arg : Val) (r : Reaction) : Job :=
  JReact (if rejected then onRejected r else onFulfilled r) rejected arg (derived r).

(** Settling a promise: a pending promise takes the settlement and its
    reactions are queued as microtasks, in registration order; a promise
    that is already settled ignores the call. *)
Definition settle (p : PromiseId) (rejected : bool) (x : Val) (st : State) : State :=
  match pstate st p with
  | Some (Pending rs) =>
      set_microtasks (fun q => q ++ map (reaction_job rejected x) rs)
        (set_promises
           (fun ps => <[p := if rejected then Rejected x else Fulfilled x]> ps) st)
  | _ => st
  end.

(** [p.then(onFulfilled, onRejected)]: a new derived promise; the reaction
    is stored while [p] is pending and queued at once when [p] is settled. *)
Definition then_ (p : PromiseId) (f g : option Handler) (st : State)
  : PromiseId * State :=
  let '(d, st1) := new_promise (Pending []) (OThen p f g) st in
  let r := mkReaction f g d in
  (d,
   match pstate st p with
   | Some (Pending rs) => set_promises (fun ps => <[p := Pending (rs ++ [r])]> ps) st1
   | Some (Fulfilled v) => set_microtasks (fun q => q ++ [reaction_job false v r]) st1
   | Some (Rejected e) => set_microtasks (fun q => q ++ [reaction_job true e r]) st1
   | None => st1
   end).

(** [setTimeout(cb, delay)] *)
Definition setTimeout (a : TimerAction) (delay : nat) (st : State) : State :=
  set_timers (fun ts => ts ++ [mkTimer (now st + delay) a]) st.

(** [Promise.race(ps)]: a new promise whose resolving functions are given
    to [then] of every element, in order. *)
Fixpoint race_register (r : PromiseId) (ps : list PromiseId) (st : State) : State :=
  match ps with
  | [] => st
  | p :: ps' =>
      race_register r ps'
        (snd (then_ p (Some (HResolveFn r)) (Some (HRejectFn r)) st))
  end.

Definition promise_race (ps : list PromiseId) (st : State) : PromiseId * State :=
  let '(r, st1) := new_promise (Pending []) (ORace ps) st in
  (r, race_register r ps st1).

(** ** The subscription table *)

Definition table (st : State) (em : EmitterId) : list Subscription :=
  match emitters st !! em with
  | Some e => subscriptions e
  | None => []
  end.

Definition opts_emitTimeout (st : State) (em : EmitterId) : option nat :=
  match emitters st !! em with
  | Some e => emitTimeout e
  | None => None
  end.

Definition set_table (em : EmitterId) (f : list Subscription -> list Subscription)
    (st : State) : State :=
  set_emitters
    (alter (fun e => mkEmitter (emitTimeout e) (f (subscriptions e))) em) st.

(** [create(opts)]: a new emitter with an empty table.  Returns the emitter;
    its [subscribe] observable has the same identity in this model. *)
Definition create (opts : option nat) (st : State) : EmitterId * State :=
  (length (emitters st), set_emitters (fun es => es ++ [mkEmitter opts []]) st).

(** [subscribe(listener)] of the emitter [obs]: the child is [create()], with
    no options; the entry is pushed at the end of the table. *)
Definition subscribe (obs : EmitterId) (l : Listener) (st : State)
  : EmitterId * State :=
  let '(sub, st1) := create None st in
  (sub, set_table obs (fun subs => subs ++ [mkSubscription sub l]) st1).

(** The loop of [remove]: the first index [k] with
    [subscriptions[k].target == target]. *)
Fixpoint find_target (tgt : EmitterId) (subs : list Subscription) (k : nat)
  : option nat :=
  match subs with
  | [] => None
  | s :: rest => if decide (target s = tgt) then Some k else find_target tgt rest (S k)
  end.

(** [subscriptions.splice(k, 1)] *)
Definition splice1 (k : nat) (subs : list Subscription) : list Subscription :=
  take k subs ++ drop (S k) subs.

Definition remove_entry (tgt : EmitterId) (subs : list Subscription)
  : list Subscription :=
  match find_target tgt subs 0 with
  | Some k => splice1 k subs
  | None => subs
  end.

(** [remove(target)] of the emitter [obs] *)
Definition remove (obs : EmitterId) (tgt : EmitterId) (st : State) : State :=
  set_table obs (remove_entry tgt) st.

(** [sub.unlink = () => remove(sub)], for the [sub] returned by [subscribe]
    of [parent] *)
Definition unlink (parent sub : EmitterId) (st : State) : State :=
  remove parent sub st.

(** [next(predicate)] of the emitter [obs].  The executor runs at once: it
    subscribes the arrow function, which closes over [resolve] and over the
    variable [sub] that receives what [subscribe] returns. *)
Definition next (obs : EmitterId) (pred : option (Val -> bool)) (st : State)
  : PromiseId * State :=
  let '(p, st1) := new_promise (Pending []) ONext st in
  let sub := length (emitters st1) in
  let '(_, st2) := subscribe obs (LNext pred obs sub p) st1 in
  (p, st2).

(** ** Running user code *)

(** What a call of user code gives back: a plain value, an exception, or a
    promise. *)
Inductive Completion : Type :=
| RetV (v : Val)
| RetP (p : PromiseId)
| Threw (e : Val).

Fixpoint run_script (s : Script) (st : State) : Completion * State :=
  match s with
  | SReturn v => (RetV v, st)
  | SThrow e => (Threw e, st)
  | SReject e =>
      let '(p, st1) := new_promise (Rejected e) OPlain st in (RetP p, st1)
  | SNever =>
      let '(p, st1) := new_promise (Pending []) OPlain st in (RetP p, st1)
  | SDelay d k =>
      let '(p, st1) := new_promise (Pending []) OPlain st in
      let st2 := setTimeout (TResolve p VUndefined) d st1 in
      let '(q, st3) := then_ p (Some (HScript (fun _ => k))) None st2 in
      (RetP q, st3)
  | SAwait p k =>
      let '(q, st1) := then_ p (Some (HScript k)) None st in (RetP q, st1)
  | SRemove obs tgt k => run_script k (remove obs tgt st)
  | SSubscribe obs text body k =>
      let '(sub, st1) := subscribe obs (LUser text body) st in run_script (k sub) st1
  | SNext obs pred k =>
      let '(p, st1) := next obs pred st in run_script (k p) st1
  end.

(** [predicate == null || predicate(item)] *)
Definition matches (pred : option (Val -> bool)) (item : Val) : bool :=
  match pred with
  | None => true
  | Some f => f item
  end.

(** [listener(item)] *)
Definition call_listener (l : Listener) (item : Val) (st : State)
  : Completion * State :=
  match l with
  | LUser _ body => run_script (body item) st
  | LNext pred parent sub p =>
      if matches pred item
      then (RetV VUndefined, settle p false item (remove parent sub st))
      else (RetV VUndefined, st)
  end.

(** [Promise.resolve(x)]: a promise is returned as it is, a plain value gives
    a new fulfilled promise. *)
Definition promise_resolve (x : Val + PromiseId) (st : State) : PromiseId * State :=
  match x with
  | inl v => new_promise (Fulfilled v) OPlain st
  | inr p => (p, st)
  end.

(** The result of a function that may throw. *)
Inductive Res (A : Type) : Type :=
| Normal (a : A) (st : State)
| Raise (e : Val) (st : State)
| Diverge.
Arguments Normal {A} a st.
Arguments Raise {A} e st.
Arguments Diverge {A}.

(** The field [emit] of a subscription:
    [item => Promise.resolve(listener(item)).then(emitter.emit)].  The call
    is recorded in the history before the listener runs. *)
Definition subscription_emit (s : Subscription) (item : Val) (st : State)
  : Res PromiseId :=
  match call_listener (listener s) item
          (set_invoked (fun h => h ++ [(target s, item)]) st) with
  | (Threw e, st1) => Raise e st1
  | (RetV v, st1) =>
      let '(l, st2) := promise_resolve (inl v) st1 in
      let '(d, st3) := then_ l (Some (HEmit (target s))) None st2 in
      Normal d st3
  | (RetP q, st1) =>
      let '(l, st2) := promise_resolve (inr q) st1 in
      let '(d, st3) := then_ l (Some (HEmit (target s))) None st2 in
      Normal d st3
  end.

(** ** helpers.ts: waitAll *)

(** The loop [for (k = 0; k < n; ++k) Promise.resolve(promises[k]).then(count, reject)];
    [w] is the closure that holds [n], [r] the promise being built. *)
Fixpoint waitAll_register (w : nat) (r : PromiseId) (ps : list PromiseId)
    (st : State) : State :=
  match ps with
  | [] => st
  | p :: ps' =>
      waitAll_register w r ps'
        (snd (then_ p (Some (HCount w)) (Some (HRejectFn r)) st))
  end.

Definition waitAll (ps : list PromiseId) (st : State) : PromiseId * State :=
  let n := length ps in
  if decide (n = 0) then new_promise (Fulfilled VUndefined) OPlain st
  else
    let w := length (counters st) in
    let '(r, st1) := new_promise (Pending []) (OWaitAll w) st in
    let st2 := set_counters (fun cs => cs ++ [mkWaitAll (Z.of_nat n) ps r]) st1 in
    (r, waitAll_register w r ps st2).

(** [count = () => { if (--n === 0) resolve(void 0) }] *)
Definition count (w : nat) (st : State) : State :=
  match counters st !! w with
  | Some c =>
      let n' := (wa_n c - 1)%Z in
      let st1 :=
        set_counters (fun cs => <[w := mkWaitAll n' (wa_inputs c) (wa_promise c)]> cs) st in
      if decide (n' = 0%Z) then settle (wa_promise c) false VUndefined st1 else st1
  | None => st
  end.

(** ** index.ts: timeout and emit *)

(** [new TimeoutError(...)] *)
Definition new_TimeoutError (st : State) : Val * State :=
  (VTimeoutError (length (terrs st)),
   set_terrs (fun es => es ++ [unknown_listener]) st).

(** [timeout(p, delay)] *)
Definition timeout (p : PromiseId) (delay : nat) (st : State) : PromiseId * State :=
  let '(e, st1) := new_TimeoutError st in
  let '(t, st2) := new_promise (Pending []) OTimer st1 in
  let st3 := setTimeout (TReject t e) delay st2 in
  promise_race [t; p] st3.

(** The callback that [emit] gives to [catch]:
    [e => { if (e.timedoutListener === '<unknown>')
              e.timedoutListener = String(current.listener); throw e; }].
    It reads the variable [current] of its [emit] call when it runs.
    Reading a property of [undefined] throws a TypeError; the other values
    that are not a [TimeoutError] have no such property.  The result is what
    the callback throws. *)
Definition stamp (cur : nat) (e : Val) (st : State) : Val * State :=
  match e with
  | VUndefined =>
      (VError "TypeError: Cannot read properties of undefined (reading 'timedoutListener')", st)
  | VTimeoutError r =>
      match terrs st !! r, cells st !! cur with
      | Some s, Some (Some c) =>
          if decide (s = unknown_listener)
          then (e, set_terrs (fun es => <[r := listener_text (listener c)]> es) st)
          else (e, st)
      | _, _ => (e, st)
      end
  | _ => (e, st)
  end.

(** The loop of [emit].  [cur] is the variable [current], [k] the index and
    [results] the array built so far.  The test [current === subscriptions[k]]
    compares object identities: an entry is created by one call of
    [subscribe], together with its child, so two entries are the same object
    exactly when they have the same target. *)
Fixpoint emit_loop (fuel : nat) (em : EmitterId) (t : Val) (cur : nat) (k : nat)
    (results : list PromiseId) (st : State) : Res (list PromiseId) :=
  match fuel with
  | O => Diverge
  | S fuel' =>
      match table st em !! k with
      | None => Normal results st
      | Some current =>
          let st1 := set_cells (fun cs => <[cur := Some current]> cs) st in
          match subscription_emit current t st1 with
          | Diverge => Diverge
          | Raise e st2 => Raise e st2
          | Normal emitPromise st2 =>
              let '(emitPromise', st3) :=
                match opts_emitTimeout st2 em with
                | Some delay =>
                    let '(r, st') := timeout emitPromise delay st2 in
                    then_ r None (Some (HStamp cur)) st'
                | None => (emitPromise, st2)
                end in
              let k' :=
                match table st3 em !! k with
                | Some s' => if decide (target s' = target current) then S k else k
                | None => k
                end in
              emit_loop fuel' em t cur k' (results ++ [emitPromise']) st3
          end
      end
  end.

(** [emit(t)] of the emitter [em] *)
Definition emit (fuel : nat) (em : EmitterId) (t : Val) (st : State)
  : Res PromiseId :=
  let cur := length (cells st) in
  let st0 := set_cells (fun cs => cs ++ [None]) st in
  match emit_loop fuel em t cur 0 [] st0 with
  | Normal results st1 =>
      let '(w, st2) := waitAll results st1 in
      Normal w (set_emits (fun cs => cs ++ [mkEmitCall em t results w]) st2)
  | Raise e st1 => Raise e st1
  | Diverge => Diverge
  end.

(** ** The event loop *)

(** Resolving the derived promise of a reaction with what the callback
    gave. *)
Definition resolve_with (d : PromiseId) (c : Completion) (st : State) : State :=
  match c with
  | RetV v => settle d false v st
  | RetP q => set_microtasks (fun js => js ++ [JThenable d q]) st
  | Threw e => settle d true e st
  end.

Definition run_handler (fuel : nat) (h : Handler) (arg : Val) (st : State)
  : option (Completion * State) :=
  match h with
  | HEmit em =>
      match emit fuel em arg st with
      | Normal w st1 => Some (RetP w, st1)
      | Raise e st1 => Some (Threw e, st1)
      | Diverge => None
      end
  | HResolveFn p => Some (RetV VUndefined, settle p false arg st)
  | HRejectFn p => Some (RetV VUndefined, settle p true arg st)
  | HCount w => Some (RetV VUndefined, count w st)
  | HStamp cur => let '(e, st1) := stamp cur arg st in Some (Threw e, st1)
  | HScript k => Some (run_script (k arg) st)
  end.

Definition run_job (fuel : nat) (j : Job) (st : State) : option State :=
  match j with
  | JReact None rejected arg d => Some (settle d rejected arg st)
  | JReact (Some h) _ arg d =>
      match run_handler fuel h arg st with
      | Some (c, st1) => Some (resolve_with d c st1)
      | None => None
      end
  | JThenable p q =>
      Some (snd (then_ q (Some (HResolveFn p)) (Some (HRejectFn p)) st))
  end.

Definition fire (a : TimerAction) (st : State) : State :=
  match a with
  | TResolve p v => settle p false v st
  | TReject p e => settle p true e st
  end.

(** The position of the timer that fires next: the earliest due time, and
    among equal due times the one created first. *)
Fixpoint earliest (ts : list Timer) : option (nat * Timer) :=
  match ts with
  | [] => None
  | t :: ts' =>
      match earliest ts' with
      | Some (i, t') => if decide (due t' < due t) then Some (S i, t') else Some (0, t)
      | None => Some (0, t)
      end
  end.

Inductive Turn : Type :=
| Idle                 (* no microtask and no timer is left *)
| Stuck                (* a loop of emit ran out of fuel *)
| Next (st : State).

(** One turn: the oldest microtask if there is one, else the next timer. *)
Definition turn (fuel : nat) (st : State) : Turn :=
  match microtasks st with
  | j :: js =>
      match run_job fuel j (set_microtasks (fun _ => js) st) with
      | Some st' => Next st'
      | None => Stuck
      end
  | [] =>
      match earliest (timers st) with
      | Some (i, t) =>
          Next (fire (action t)
                  (set_now (now st `max` due t)
                     (set_timers (fun ts => delete i ts) st)))
      | None => Idle
      end
  end.

(** At most [n] turns. *)
Fixpoint run (fuel : nat) (n : nat) (st : State) : option State :=
  match n with
  | O => Some st
  | S n' =>
      match turn fuel st with
      | Idle => Some st
      | Stuck => None
      | Next st' => run fuel n' st'
      end
  end.

(** The operations are unfolded by hand in the proofs. *)
Arguments settle : simpl never.
Arguments then_ : simpl never.
Arguments setTimeout : simpl never.
Arguments promise_race : simpl never.
Arguments table : simpl never.
Arguments opts_emitTimeout : simpl never.
Arguments set_table : simpl never.
Arguments subscribe : simpl never.
Arguments remove : simpl never.
Arguments next : simpl never.
Arguments call_listener : simpl never.
Arguments subscription_emit : simpl never.
Arguments waitAll : simpl never.
Arguments count : simpl never.
Arguments timeout : simpl never.
Arguments stamp : simpl never.
Arguments emit : simpl never.
Arguments run_handler : simpl never.
Arguments run_job : simpl never.
Arguments turn : simpl never.

(** ** Well-formed stores of emitters *)

(** The target of an entry is an emitter made by [subscribe]: it exists and
    it was created without options. *)
Definition wf_entry (es : list Emitter) (s : Subscription) : Prop :=
  emitTimeout <$> es !! target s = Some None.

(** Within one table, no two entries have the same target. *)
Definition wf_emitter (es : list Emitter) (e : Emitter) : Prop :=
  NoDup (map target (subscriptions e)) /\ Forall (wf_entry es) (subscriptions e).

Definition wf (st : State) : Prop :=
  Forall (wf_emitter (emitters st)) (emitters st).

#[global] Instance wf_entry_dec es s : Decision (wf_entry es s).
Proof. unfold wf_entry. apply _. Defined.
#[global] Instance wf_emitter_dec es e : Decision (wf_emitter es e).
Proof. unfold wf_emitter. apply _. Defined.
#[global] Instance wf_dec st : Decision (wf st).
Proof. unfold wf. apply _. Defined.

(** ** What a listener may do to the table that calls it *)

(** [spares em A s]: the script [s] returns without throwing; while it
    runs it removes from the table of [em] no entry whose target is in [A],
    and it adds no entry to that table.  What it schedules for later (the
    continuations of [SDelay] and [SAwait]) is not constrained. *)
Inductive spares (em : EmitterId) (A : EmitterId -> Prop) : Script -> Prop :=
| spares_return v : spares em A (SReturn v)
| spares_reject e : spares em A (SReject e)
| spares_never : spares em A SNever
| spares_delay d k : spares em A (SDelay d k)
| spares_await p k : spares em A (SAwait p k)
| spares_remove obs tgt k :
    (obs = em -> ~ A tgt) -> spares em A k -> spares em A (SRemove obs tgt k)
| spares_subscribe obs text body k :
    obs <> em -> (forall sub, spares em A (k sub)) ->
    spares em A (SSubscribe obs text body k)
| spares_next obs pred k :
    obs <> em -> (forall p, spares em A (k p)) -> spares em A (SNext obs pred k).





(** ** Reachable states *)

(** The states that a program can be in: it starts with nothing, calls the
    library, and lets the event loop take turns. *)
Inductive reachable : State -> Prop :=
| reach_init : reachable init
| reach_create opts st :
    reachable st -> reachable (create opts st).2
| reach_subscribe obs text body st :
    reachable st -> reachable (subscribe obs (LUser text body) st).2
| reach_remove obs tgt st :
    reachable st -> reachable (remove obs tgt st)
| reach_next obs pred st :
    reachable st -> reachable (next obs pred st).2
| reach_emit fuel em v st w st' :
    reachable st -> emit fuel em v st = Normal w st' -> reachable st'
| reach_emit_raise fuel em v st e st' :
    reachable st -> emit fuel em v st = Raise e st' -> reachable st'
| reach_turn fuel st st' :
    reachable st -> turn fuel st = Next st' -> reachable st'.

(** A listener that, called with [v], leaves the table of [em] as it is,
    returns without throwing and resolves nothing. *)
Definition listener_idle (em : EmitterId) (v : Val) (l : Listener) : Prop :=
  match l with
  | LUser _ body => spares em (fun _ => True) (body v)
  | LNext pred _ _ _ => matches pred v = false
  end.

(** Whether and how a promise is settled: [None] for a promise that does not
    exist, [Some None] for a pending one. *)
Definition outcome (st : State) (p : PromiseId) : option (option (bool * Val)) :=
  match pstate st p with
  | None => None
  | Some (Pending _) => Some None
  | Some (Fulfilled v) => Some (Some (false, v))
  | Some (Rejected e) => Some (Some (true, e))
  end.

(** ** waitAll as its inputs settle *)

(** [then] calls one of the two callbacks that [waitAll] gave it when the
    input settles: [count] for a success, [reject] with the failure value
    for a failure.  [o] is that settlement: [(false, v)] or [(true, e)]. *)
Definition waitAll_callback (w : nat) (r : PromiseId) (o : bool * Val)
    (st : State) : State :=
  if o.1 then settle r true o.2 st else count w st.

(** What [waitAll] has arranged for the input [q]: the two callbacks are in
    the reactions of [q] when it is pending, and in a queued job when it is
    settled. *)
Definition registered (st : State) (w : nat) (r : PromiseId) (q : PromiseId) : Prop :=
  match pstate st q with
  | Some (Pending rs) =>
      exists d, mkReaction (Some (HCount w)) (Some (HRejectFn r)) d ∈ rs
  | Some (Fulfilled v) =>
      exists d, JReact (Some (HCount w)) false v d ∈ microtasks st
  | Some (Rejected e) =>
      exists d, JReact (Some (HRejectFn r)) true e d ∈ microtasks st
  | None => False
  end.

(** The first failure among settlements. *)
Fixpoint first_failure (os : list (bool * Val)) : option Val :=
  match os with
  | [] => None
  | (true, e) :: _ => Some e
  | (false, _) :: os' => first_failure os'
  end.

(** ** Relations between states, used in the proofs *)

Ltac destruct_lets :=
  repeat match goal with
  | |- context [let '(_, _) := ?x in _] => destruct x as [? ?] eqn:?
  end.

(** ** Steps that touch the promise machinery only *)

(** [heap_only st st']: going from [st] to [st'] changed neither a
    subscription table nor the history of listener calls. *)
Definition heap_only (st st' : State) : Prop :=
  emitters st' = emitters st /\ invoked st' = invoked st.

(** The scripts that make no call into a table. *)
Definition is_leaf (s : Script) : Prop :=
  match s with
  | SRemove _ _ _ | SSubscribe _ _ _ _ | SNext _ _ _ => False
  | _ => True
  end.

(** The table [subs] without the entries whose target is in [X]. *)
Definition without (X : list nat) (subs : list Subscription) : list Subscription :=
  filter (fun s => target s ∉ X) subs.

Definition not_thrown (c : Completion) : Prop :=
  match c with Threw _ => False | _ => True end.

(** [calm st st']: every promise of [st] is in [st'] what it was in [st],
    pending or settled with the same value. *)
Definition calm (st st' : State) : Prop :=
  length (promises st) <= length (promises st') /\
  forall p, p < length (promises st) -> outcome st' p = outcome st p.

(** The state in which the listener of [s] starts: [current] is assigned
    and the call is recorded. *)
Definition enter (cur : nat) (s : Subscription) (v : Val) (st : State) : State :=
  set_invoked (fun h => h ++ [(target s, v)])
    (set_cells (fun cs => <[cur := Some s]> cs) st).

(** [grows st st']: the emitters of [st] are still there in [st'], with the
    options they were created with. *)
Definition grows (st st' : State) : Prop :=
  length (emitters st) <= length (emitters st') /\
  forall em, em < length (emitters st) ->
    opts_emitTimeout st' em = opts_emitTimeout st em.

(** ** Scenarios *)

(** [function name() { return delay(d); }] *)
Definition delay_listener (text : string) (d : nat) : Listener :=
  LUser text (fun _ => SDelay d (SReturn VUndefined)).

(** The two listeners of the test 'timeouts'. *)
Definition slow : Listener :=
  delay_listener "function slow() { return delay(50); }" 50.
Definition fast : Listener :=
  delay_listener "function fast() { return delay(1); }" 1.

(** A listener whose promise fails after 1 ms and one that throws. *)
Definition failing : Listener :=
  LUser "function failing() { return delay(1).then(() => { throw new Error('boom'); }); }"
    (fun _ => SDelay 1 (SThrow (VError "boom"))).
Definition thrower : Listener :=
  LUser "function thrower() { throw new Error('boom'); }"
    (fun _ => SThrow (VError "boom")).

(** [var e = create(opts); e.subscribe(first); e.subscribe(second)]: the
    emitter is 0, the children are 1 and 2. *)
Definition two_listeners (opts : option nat) (first second : Listener) : State :=
  (subscribe 0 second (subscribe 0 first (create opts init).2).2).2.

(** [emit], then the event loop until no microtask and no timer is left
    (at most 200 turns). *)
Definition emit_and_run (em : EmitterId) (v : Val) (st : State)
  : option (PromiseId * State) :=
  match emit 16 em v st with
  | Normal w st1 =>
      match run 16 200 st1 with
      | Some st2 => Some (w, st2)
      | None => None
      end
  | _ => None
  end.

(** ** The timers of emit *)



(** A listener that removes the entry [tgt] from the table of [obs]; with
    its own target, it is a listener that unlinks itself. *)
Definition remover (text : string) (obs tgt : EmitterId) : Listener :=
  LUser text (fun _ => SRemove obs tgt (SReturn VUndefined)).

(** Five subscriptions to the emitter 0 (children 1 to 5): the second
    removes itself when called, the third removes the fourth. *)
Definition removal_scene : State :=
  (subscribe 0 fast
     (subscribe 0 slow
        (subscribe 0 (remover "function c() { d.unlink(); }" 0 4)
           (subscribe 0 (remover "function b() { b.unlink(); }" 0 2)
              (subscribe 0 fast (create None init).2).2).2).2).2).2.

(** A listener that subscribes another one to the emitter 0 when called. *)
Definition adder : Listener :=
  LUser "function adder() { e.subscribe(function added() {}); }"
    (fun _ => SSubscribe 0 "function added() {}" (fun _ => SReturn VUndefined)
                (fun _ => SReturn VUndefined)).

(** [v => v === n] *)
Definition is_num (n : Z) (v : Val) : bool :=
  match v with
  | VNum m => Z.eqb m n
  | _ => false
  end.

(** ** How the promises of an emission depend on each other *)

(** The invariant of the machine that makes [emit] wait for the whole tree
    of subscriptions.  It is stated on the history of how each promise was
    made: what may settle a promise is fixed by its origin. *)

Definition orig (st : State) (p : PromiseId) : option Origin := origins st !! p.

Definition settled (st : State) (p : PromiseId) : Prop :=
  exists o, outcome st p = Some (Some o).

(** A call [emit(v)] of the emitter [em] has returned the promise [w]. *)
Definition emitted (st : State) (em : EmitterId) (v : Val) (w : PromiseId) : Prop :=
  exists rs, mkEmitCall em v rs w ∈ emits st.

(** The reaction that will settle [d] is stored in a pending promise, or
    its job is queued. *)
Definition in_reactions (st : State) (d : PromiseId) : Prop :=
  exists q rs r, pstate st q = Some (Pending rs) /\ r ∈ rs /\ derived r = d.
Definition in_jobs (st : State) (d : PromiseId) : Prop :=
  exists h b x, JReact h b x d ∈ microtasks st.
Definition idle (st : State) (d : PromiseId) : Prop :=
  ~ in_reactions st d /\ ~ in_jobs st d.

(** [resolves st d q]: the resolving functions of [d] may have been given
    to [then] of [q].  For a forward chain [l.then(child.emit)], [q] is the
    promise that [child.emit(u)] returned, [u] being the result of the
    listener; for a race, [q] is one of the contestants. *)
Definition resolves (st : State) (d q : PromiseId) : Prop :=
  match orig st d with
  | Some (OThen l (Some (HEmit ch)) None) =>
      exists u, outcome st l = Some (Some (false, u)) /\ emitted st ch u q
  | Some (OThen l (Some (HScript _)) None) => settled st l
  | Some (ORace ps) => q ∈ ps
  | _ => False
  end.

(** The promise that [then] returned to the loop of [waitAll] for the
    input at index [i]: the loop runs right after the promise of [waitAll]
    is made. *)
Definition aux (c : WaitAll) (i : nat) : PromiseId := wa_promise c + 1 + i.

(** The pairs of callbacks that are ever given to [then], with the promise
    [q] they are given to and the promise [a] that [then] returns. *)
Inductive shape (st : State) (a q : PromiseId)
  : option Handler -> option Handler -> Prop :=
| shape_emit ch : shape st a q (Some (HEmit ch)) None
| shape_script k : shape st a q (Some (HScript k)) None
| shape_resolve d :
    resolves st d q -> shape st a q (Some (HResolveFn d)) (Some (HRejectFn d))
| shape_count w c i :
    counters st !! w = Some c -> wa_inputs c !! i = Some q -> a = aux c i ->
    shape st a q (Some (HCount w)) (Some (HRejectFn (wa_promise c)))
| shape_stamp cur : shape st a q None (Some (HStamp cur)).

(** The input at index [i] of the [waitAll] call [w] has succeeded and its
    callback [count] has run. *)
Definition is_done (st : State) (w : nat) (c : WaitAll) (i : nat) : bool :=
  match orig st (aux c i), outcome st (aux c i), wa_inputs c !! i with
  | Some (OThen _ (Some (HCount w')) _), Some (Some _), Some q =>
      bool_decide (w' = w) &&
      match outcome st q with Some (Some (false, _)) => true | _ => false end
  | _, _, _ => false
  end.

Definition ndone (st : State) (w : nat) (c : WaitAll) : nat :=
  length (filter (fun i => is_done st w c i = true) (seq 0 (length (wa_inputs c)))).

(** A [waitAll] call: its promise, made after its inputs. *)
Definition counter_ok (st : State) (w : nat) (c : WaitAll) : Prop :=
  orig st (wa_promise c) = Some (OWaitAll w) /\
  Forall (fun q => q < wa_promise c) (wa_inputs c).

(** The variable [n] of every [waitAll] call counts the inputs that are not
    done. *)
Definition counted (st : State) : Prop :=
  forall w c, counters st !! w = Some c ->
    wa_n c = (Z.of_nat (length (wa_inputs c)) - Z.of_nat (ndone st w c))%Z.

(** The [TypeError] that the catch callback of [emit] throws when the
    failure is [undefined]. *)
Definition stamped (e0 e : Val) : Prop :=
  e = e0 \/
  (e0 = VUndefined /\
   e = VError "TypeError: Cannot read properties of undefined (reading 'timedoutListener')").

(** What the settlement of a promise tells, by its origin. *)
Definition justified (st : State) (p : PromiseId) (o : Origin) : Prop :=
  match o with
  | OPlain => True
  | ONext => forall e, outcome st p <> Some (Some (true, e))
  | OTimer => forall v, outcome st p <> Some (Some (false, v))
  | ORace ps =>
      forall x, outcome st p = Some (Some x) ->
        exists q, q ∈ ps /\ outcome st q = Some (Some x)
  | OWaitAll w =>
      exists c, counters st !! w = Some c /\
        (forall v, outcome st p = Some (Some (false, v)) ->
           forall q, q ∈ wa_inputs c -> exists v', outcome st q = Some (Some (false, v'))) /\
        (forall e, outcome st p = Some (Some (true, e)) ->
           exists q, q ∈ wa_inputs c /\ outcome st q = Some (Some (true, e)))
  | OThen l f g =>
      (settled st p -> settled st l) /\
      match f, g with
      | Some (HEmit ch), None =>
          (forall v, outcome st p = Some (Some (false, v)) ->
             exists u w, outcome st l = Some (Some (false, u)) /\
               emitted st ch u w /\ outcome st w = Some (Some (false, v))) /\
          (forall e, outcome st p = Some (Some (true, e)) ->
             outcome st l = Some (Some (true, e)) \/
             exists u, outcome st l = Some (Some (false, u)))
      | None, Some (HStamp _) =>
          (forall v, outcome st p = Some (Some (false, v)) ->
             outcome st l = Some (Some (false, v))) /\
          (forall e, outcome st p = Some (Some (true, e)) ->
             exists e0, outcome st l = Some (Some (true, e0)) /\ stamped e0 e)
      | Some (HResolveFn d), _ => settled st p -> settled st d
      | Some (HCount _), Some (HRejectFn r) =>
          settled st p -> forall e, outcome st l = Some (Some (true, e)) -> settled st r
      | _, _ => True
      end
  end.

(** Where the settlement of a pending promise [d = q.then(f, g)] will come
    from. *)
Definition waits (st : State) (d q : PromiseId) : Prop :=
  (exists rs r, pstate st q = Some (Pending rs) /\ r ∈ rs /\ derived r = d) \/
  in_jobs st d \/
  (exists q', JThenable d q' ∈ microtasks st) \/
  (exists a q' g, orig st a = Some (OThen q' (Some (HResolveFn d)) g) /\ q' < a).

(** The promise that [emit] pushes to [results] for one entry: the forward
    chain [d = l.then(child.emit)] of the entry, [l] being the result of the
    listener, or with [emitTimeout] the catch of the race [r] of a timer
    promise [t] and that chain; [a] is what [then] returned when the race
    gave it the resolving functions of [r]. *)
Definition contribution (st : State) (c : PromiseId) : Prop :=
  exists d l ch,
    orig st d = Some (OThen l (Some (HEmit ch)) None) /\ l < d /\
    (c = d \/
     exists r t cur a,
       orig st c = Some (OThen r None (Some (HStamp cur))) /\ r < c /\
       orig st r = Some (ORace [t; d]) /\ orig st t = Some OTimer /\
       orig st a = Some (OThen d (Some (HResolveFn r)) (Some (HRejectFn r))) /\
       d < a).

(** A returned call of [emit]: its promise is the one of [waitAll] of the
    contributions. *)
Definition emit_ok (st : State) (ec : EmitCall) : Prop :=
  Forall (contribution st) (ec_results ec) /\
  match ec_results ec with
  | [] => outcome st (ec_promise ec) = Some (Some (false, VUndefined))
  | _ =>
      exists w c, orig st (ec_promise ec) = Some (OWaitAll w) /\
        counters st !! w = Some c /\ wa_inputs c = ec_results ec /\
        wa_promise c = ec_promise ec /\
        forall i q, wa_inputs c !! i = Some q ->
          orig st (aux c i) =
            Some (OThen q (Some (HCount w)) (Some (HRejectFn (wa_promise c))))
  end.

Definition job_derived (j : Job) : list PromiseId :=
  match j with
  | JReact _ _ _ d => [d]
  | JThenable _ _ => []
  end.

Record inv (st : State) : Prop := mk_inv {
  inv_origins : length (origins st) = length (promises st);
  inv_shape : forall a q f g,
    orig st a = Some (OThen q f g) -> shape st a q f g;
  inv_reactions : forall q rs r,
    pstate st q = Some (Pending rs) -> r ∈ rs ->
    orig st (derived r) = Some (OThen q (onFulfilled r) (onRejected r)) /\
    outcome st (derived r) = Some None;
  inv_reactions_nodup : forall q rs,
    pstate st q = Some (Pending rs) -> NoDup (map derived rs);
  inv_jobs : forall h b x d,
    JReact h b x d ∈ microtasks st ->
    exists q f g, orig st d = Some (OThen q f g) /\
      h = (if b then g else f) /\ outcome st q = Some (Some (b, x)) /\
      outcome st d = Some None;
  inv_jobs_nodup : NoDup (microtasks st ≫= job_derived);
  inv_thenables : forall d q,
    JThenable d q ∈ microtasks st ->
    resolves st d q /\ idle st d /\ q < length (promises st);
  inv_resolvers : forall a q d g,
    orig st a = Some (OThen q (Some (HResolveFn d)) g) -> idle st d;
  inv_timers : forall t, t ∈ timers st ->
    match action t with
    | TResolve p _ => orig st p = Some OPlain
    | TReject p _ => orig st p = Some OTimer
    end;
  inv_tables : forall em s, s ∈ table st em ->
    match listener s with
    | LNext _ _ _ p => orig st p = Some ONext
    | LUser _ _ => True
    end;
  inv_counters : forall w c, counters st !! w = Some c -> counter_ok st w c;
  inv_justified : forall p o, orig st p = Some o -> justified st p o;
  inv_emits : forall ec, ec ∈ emits st -> emit_ok st ec
}.

(** Every pending promise [d = q.then(f, g)], but those in [D], has
    something to wait for. *)
Definition live_but (D : list PromiseId) (st : State) : Prop :=
  forall d q f g,
    orig st d = Some (OThen q f g) -> q < d -> outcome st d = Some None ->
    d ∉ D -> waits st d q.

Definition live (st : State) : Prop := live_but [] st.

(** [adv st st']: what [st] records stays in [st']: the origins, the
    settlements, the returned calls of [emit], and the inputs and the
    promise of every [waitAll] call. *)
Definition adv (st st' : State) : Prop :=
  (forall p o, orig st p = Some o -> orig st' p = Some o) /\
  (forall p x, outcome st p = Some (Some x) -> outcome st' p = Some (Some x)) /\
  (forall ec, ec ∈ emits st -> ec ∈ emits st') /\
  (forall w c, counters st !! w = Some c ->
     exists c', counters st' !! w = Some c' /\
       wa_inputs c' = wa_inputs c /\ wa_promise c' = wa_promise c).

(** [same_heap st st']: the two states have the same promises, jobs,
    [waitAll] calls and history of promises and of [emit] calls. *)
Definition same_heap (st st' : State) : Prop :=
  promises st' = promises st /\ origins st' = origins st /\
  microtasks st' = microtasks st /\ counters st' = counters st /\
  emits st' = emits st.

(** The invariant, the counters and the progress of the promises together;
    the promises in [D] are those whose job is being run: no reaction and
    no other job is left for them. *)
Definition sound (D : list PromiseId) (st : State) : Prop :=
  inv st /\ counted st /\ live_but D st /\
  forall d, d ∈ D -> idle st d /\ d < length (promises st).

(** The promises that [then] returns to the loop of [waitAll]. *)
Definition count_aux (o : Origin) : Prop :=
  match o with OThen _ (Some (HCount _)) _ => True | _ => False end.

(** ** Settlements *)

Definition fulfilled (st : State) (p : PromiseId) (v : Val) : Prop :=
  outcome st p = Some (Some (false, v)).
Definition failed (st : State) (p : PromiseId) (e : Val) : Prop :=
  outcome st p = Some (Some (true, e)).
Definition pending (st : State) (p : PromiseId) : Prop :=
  outcome st p = Some None.

(** No job is queued: the state between two macrotasks. *)
Definition quiescent (st : State) : Prop := microtasks st = [].

(** [d] is the forward chain [l.then(child.emit)] of an entry whose child
    is [ch]; [l] is the result of the listener. *)
Definition chain (st : State) (d l : PromiseId) (ch : EmitterId) : Prop :=
  orig st d = Some (OThen l (Some (HEmit ch)) None) /\ l < d.

(** [c] is the catch of the race [r] of the timer promise [t] and the
    chain [d], which [emit] pushes for an entry when [emitTimeout] is set;
    [a] is what [then] returned to the race for [d]. *)
Definition timed (st : State) (c r t d a : PromiseId) : Prop :=
  (exists cur, orig st c = Some (OThen r None (Some (HStamp cur)))) /\ r < c /\
  orig st r = Some (ORace [t; d]) /\ orig st t = Some OTimer /\
  orig st a = Some (OThen d (Some (HResolveFn r)) (Some (HRejectFn r))) /\ d < a.

(** [c] is what [emit] pushes to [results] for an entry whose child is
    [tg]: the chain of the entry, or the catch of its race. *)
Definition contributes (st : State) (tg : EmitterId) (c : PromiseId) : Prop :=
  exists d l, chain st d l tg /\ (c = d \/ exists r t a, timed st c r t d a).

(** ** Later states *)

(** [reaches st st']: [st'] comes from [st] by calls of the library and
    turns of the event loop. *)
Inductive reaches (st : State) : State -> Prop :=
| reaches_refl : reaches st st
| reaches_create opts st' :
    reaches st st' -> reaches st (create opts st').2
| reaches_subscribe obs text body st' :
    reaches st st' -> reaches st (subscribe obs (LUser text body) st').2
| reaches_remove obs tgt st' :
    reaches st st' -> reaches st (remove obs tgt st')
| reaches_next obs pred st' :
    reaches st st' -> reaches st (next obs pred st').2
| reaches_emit fuel em v st1 w st2 :
    reaches st st1 -> emit fuel em v st1 = Normal w st2 -> reaches st st2
| reaches_emit_raise fuel em v st1 e st2 :
    reaches st st1 -> emit fuel em v st1 = Raise e st2 -> reaches st st2
| reaches_turn fuel st1 st2 :
    reaches st st1 -> turn fuel st1 = Next st2 -> reaches st st2.

(** The variable [n] of a [waitAll] call is positive until the promise of
    the call is settled. *)
Definition zeroed (st : State) : Prop :=
  forall w c, counters st !! w = Some c ->
    (0 < wa_n c)%Z \/ settled st (wa_promise c).

(** The [TimeoutError] [r] carries the text of a listener. *)
Definition named (st : State) (r : nat) (s : string) : Prop :=
  terrs st !! r = Some s /\ s <> unknown_listener.

(** ** helpers.ts: composePromise *)

(** [composePromise(f1, f2)(x)]: the result [p] of [f2(x)] is given to [f1]
    at once when it is a plain value, and through [p.then(f1)] when it is a
    promise; what [f2] throws is thrown. *)
Definition composePromise (f1 f2 : Val -> Script) (x : Val) (st : State)
  : Completion * State :=
  match run_script (f2 x) st with
  | (Threw e, st1) => (Threw e, st1)
  | (RetV p, st1) => run_script (f1 p) st1
  | (RetP p, st1) =>
      let '(d, st2) := then_ p (Some (HScript f1)) None st1 in (RetP d, st2)
  end.

(** ** The tree of an emission *)

(** [covered st n w]: [w] is the promise of a returned call of [emit], and
    down to depth [n] the tree below it is done: for each promise [c] that
    the call pushed, [c] is fulfilled, the result [l] of the listener was
    fulfilled with some [u], and the child of the entry was made to emit
    [u] by a call whose promise [w'] is fulfilled and covered to depth
    [n - 1]. *)
Fixpoint covered (st : State) (n : nat) (w : PromiseId) : Prop :=
  match n with
  | O => True
  | S n' =>
      exists ec, ec ∈ emits st /\ ec_promise ec = w /\
        Forall (fun c => exists d l ch u w',
                  chain st d l ch /\ (c = d \/ exists r t a, timed st c r t d a) /\
                  (exists z, fulfilled st c z) /\ fulfilled st l u /\
                  emitted st ch u w' /\ (exists z, fulfilled st w' z) /\
                  covered st n' w')
               (ec_results ec)
  end.

(** The emitter of [two_listeners] with a grandchild: [slow] is subscribed
    to the child 1 of the first entry (its own child is 3). *)
Definition nested_scene : State :=
  (subscribe 1 slow (two_listeners None fast slow)).2.

(** [waiting st n w]: [w] is the promise of a returned call of [emit] that
    waits for one of its entries: a promise [c] that the call pushed is
    pending, with the forward chain [d] of its entry, because the result
    [l] of the listener is pending, or because [l] was fulfilled with some
    [u] and the child was made to emit [u] by a call whose promise [w'] is
    pending and, down to depth [n - 1], waits in the same way. *)
Fixpoint waiting (st : State) (n : nat) (w : PromiseId) : Prop :=
  match n with
  | O => True
  | S n' =>
      exists ec c d l ch,
        ec ∈ emits st /\ ec_promise ec = w /\ c ∈ ec_results ec /\
        chain st d l ch /\ (c = d \/ exists r t a, timed st c r t d a) /\
        pending st c /\ pending st d /\
        (pending st l \/
         exists u w', fulfilled st l u /\ emitted st ch u w' /\ pending st w' /\
                      waiting st n' w')
  end.

(** ** A chain takes the outcome of the emission of the child *)

(** [a = q.then(resolve_d, reject_d)]: the promise [d] was resolved with
    the promise [q], and [a] is what [then] returned for it. *)
Definition resolver (st : State) (a q d : PromiseId) : Prop :=
  orig st a = Some (OThen q (Some (HResolveFn d)) (Some (HRejectFn d))).

(** [d] is a forward chain [l.then(child.emit)]. *)
Definition is_chain (st : State) (d : PromiseId) : Prop :=
  exists l ch, orig st d = Some (OThen l (Some (HEmit ch)) None).

(** The job that will give [d] the promise it was resolved with is
    queued. *)
Definition thenable (st : State) (d : PromiseId) : Prop :=
  exists q, JThenable d q ∈ microtasks st.

Definition is_react (j : Job) : Prop :=
  match j with JReact _ _ _ _ => True | JThenable _ _ => False end.

(** [ext st st']: from [st] to [st'] promises were made and jobs were
    queued, but no job that resolves a promise with a promise, and the
    resolving functions of no promise but a race were given to [then]. *)
Definition ext (st st' : State) : Prop :=
  (exists os, origins st' = origins st ++ os) /\
  (exists js, microtasks st' = microtasks st ++ js /\ Forall is_react js) /\
  (forall a q d g, orig st' a = Some (OThen q (Some (HResolveFn d)) g) ->
     orig st a = Some (OThen q (Some (HResolveFn d)) g) \/
     exists ps, orig st' d = Some (ORace ps)).

(** A chain that was resolved with a promise: this happened once, the
    promise it was resolved with was made before, the chain is pending
    until the callbacks have run, and then it has the outcome of that
    promise. *)
Record adopt (st : State) : Prop := mk_adopt {
  adopt_resolver : forall a q d,
    resolver st a q d -> is_chain st d ->
    q < a /\ ~ thenable st d /\
    (forall a' q', resolver st a' q' d -> a' = a) /\
    (outcome st a = Some None -> outcome st d = Some None) /\
    (settled st a -> outcome st d = outcome st q);
  adopt_thenable : forall d,
    is_chain st d -> thenable st d ->
    outcome st d = Some None /\
    forall i j q q',
      microtasks st !! i = Some (JThenable d q) ->
      microtasks st !! j = Some (JThenable d q') -> i = j
}.

(** [broken st n w]: the promise [w] of a call of [emit] is rejected, or
    down to depth [n] something below it has failed: for an entry of the
    call, the result of the listener or the forward chain is rejected, or
    the chain was resolved with the promise of an emission of the child
    that is broken to depth [n - 1]. *)
Fixpoint broken (st : State) (n : nat) (w : PromiseId) : Prop :=
  (exists e, failed st w e) \/
  match n with
  | O => False
  | S n' =>
      exists ec c d l ch,
        ec ∈ emits st /\ ec_promise ec = w /\ c ∈ ec_results ec /\
        chain st d l ch /\ (c = d \/ exists r t a, timed st c r t d a) /\
        ((exists e, failed st l e) \/ (exists e, failed st d e) \/
         exists a q, resolver st a q d /\ broken st n' q)
  end.




(** ** The entries of next *)



(** ** The timers of timeout *)






(** A decidable closed proposition, by evaluation. *)
Ltac by_decide :=
  match goal with
  | |- ?P => exact (bool_decide_unpack P ltac:(vm_compute; exact I))
  end.

(** * Facts about the model *)

Lemma heap_only_refl st : heap_only st st.
Proof. by split. Qed.

Lemma heap_only_trans st1 st2 st3 :
  heap_only st1 st2 -> heap_only st2 st3 -> heap_only st1 st3.
Proof. intros [? ?] [? ?]. split; congruence. Qed.

Lemma new_promise_heap_only s o st p st' :
  new_promise s o st = (p, st') -> heap_only st st'.
Proof. intros [= <- <-]. by split. Qed.

Lemma settle_heap_only p b x st : heap_only st (settle p b x st).
Proof. unfold settle. by repeat case_match. Qed.

Lemma then_heap_only p f g st d st' : then_ p f g st = (d, st') -> heap_only st st'.
Proof. unfold then_. simpl. intros [= <- <-]. by repeat case_match. Qed.

Lemma setTimeout_heap_only a d st : heap_only st (setTimeout a d st).
Proof. by split. Qed.

Lemma race_register_heap_only r ps st : heap_only st (race_register r ps st).
Proof.
  revert st. induction ps as [|p ps IH]; intros st; cbn [race_register].
  - apply heap_only_refl.
  - eapply heap_only_trans; [|apply IH].
    destruct (then_ p _ _ st) eqn:E. eapply then_heap_only, E.
Qed.

Lemma promise_race_heap_only ps st r st' :
  promise_race ps st = (r, st') -> heap_only st st'.
Proof.
  unfold promise_race. destruct_lets. intros [= <- <-].
  eapply heap_only_trans; [eapply new_promise_heap_only; eauto|].
  apply race_register_heap_only.
Qed.

Lemma new_TimeoutError_heap_only st e st' :
  new_TimeoutError st = (e, st') -> heap_only st st'.
Proof. intros [= <- <-]. by split. Qed.

Lemma timeout_heap_only p d st r st' : timeout p d st = (r, st') -> heap_only st st'.
Proof.
  unfold timeout. destruct_lets. intros E.
  eapply heap_only_trans; [eapply new_TimeoutError_heap_only; eauto|].
  eapply heap_only_trans; [eapply new_promise_heap_only; eauto|].
  eapply heap_only_trans; [apply setTimeout_heap_only|].
  eapply promise_race_heap_only; eauto.
Qed.

Lemma waitAll_register_heap_only w r ps st : heap_only st (waitAll_register w r ps st).
Proof.
  revert st. induction ps as [|p ps IH]; intros st; cbn [waitAll_register].
  - apply heap_only_refl.
  - eapply heap_only_trans; [|apply IH].
    destruct (then_ p _ _ st) eqn:E. eapply then_heap_only, E.
Qed.

Lemma waitAll_heap_only ps st w st' : waitAll ps st = (w, st') -> heap_only st st'.
Proof.
  unfold waitAll. case_decide.
  - apply new_promise_heap_only.
  - destruct_lets. intros [= <- <-].
    eapply heap_only_trans; [eapply new_promise_heap_only; eauto|].
    eapply heap_only_trans; [|apply waitAll_register_heap_only]. by split.
Qed.

Lemma count_heap_only w st : heap_only st (count w st).
Proof.
  unfold count. repeat case_match; try apply heap_only_refl.
  - eapply heap_only_trans; [|apply settle_heap_only]. by split.
  - by split.
Qed.

Lemma stamp_heap_only cur e st e' st' : stamp cur e st = (e', st') -> heap_only st st'.
Proof. unfold stamp. repeat case_match; intros [= <- <-]; by split. Qed.

Lemma set_cells_heap_only f st : heap_only st (set_cells f st).
Proof. by split. Qed.

(** The table and the option of an emitter depend on the store of emitters
    only. *)
Lemma table_same st st' em : emitters st' = emitters st -> table st' em = table st em.
Proof. unfold table. by intros ->. Qed.


(** ** The table operations *)

Lemma table_set_table_ne em f st em' :
  em <> em' -> table (set_table em f st) em' = table st em'.
Proof. intros Hne. unfold table, set_table. simpl. by rewrite list_lookup_alter_ne. Qed.

Lemma table_set_table_eq em f st :
  em < length (emitters st) \/ f [] = [] ->
  table (set_table em f st) em = f (table st em).
Proof.
  intros H. unfold table, set_table. simpl. rewrite list_lookup_alter_eq.
  destruct (emitters st !! em) eqn:E; simpl; [done|].
  destruct H as [H|H]; [|done]. apply lookup_ge_None in E. lia.
Qed.

Lemma opts_set_table em f st em' :
  opts_emitTimeout (set_table em f st) em' = opts_emitTimeout st em'.
Proof.
  unfold opts_emitTimeout, set_table. simpl.
  destruct (decide (em = em')) as [<-|Hne].
  - rewrite list_lookup_alter_eq. by destruct (emitters st !! em).
  - by rewrite list_lookup_alter_ne.
Qed.

Lemma length_emitters_set_table em f st :
  length (emitters (set_table em f st)) = length (emitters st).
Proof. unfold set_table. simpl. by rewrite length_alter. Qed.

(** [remove] deletes the first entry with the given target and nothing
    else. *)
Lemma find_target_S tgt subs k :
  find_target tgt subs (S k) = S <$> find_target tgt subs k.
Proof.
  revert k. induction subs as [|s subs IH]; intros k; simpl; [done|].
  case_decide; [done|]. apply IH.
Qed.

Lemma remove_entry_cons tgt s subs :
  remove_entry tgt (s :: subs) =
  if decide (target s = tgt) then subs else s :: remove_entry tgt subs.
Proof.
  unfold remove_entry. simpl. case_decide; [done|].
  rewrite find_target_S. by destruct (find_target tgt subs 0).
Qed.

Lemma remove_entry_nil tgt : remove_entry tgt [] = [].
Proof. done. Qed.

Lemma remove_entry_absent tgt subs :
  tgt ∉ map target subs -> remove_entry tgt subs = subs.
Proof.
  induction subs as [|s subs IH]; [done|]. simpl.
  rewrite not_elem_of_cons. intros [Hs Hsubs].
  rewrite remove_entry_cons. case_decide; [congruence|]. by rewrite IH.
Qed.

(** With distinct targets, [remove] is a filter. *)
Lemma remove_entry_filter tgt subs :
  NoDup (map target subs) ->
  remove_entry tgt subs = filter (fun s => target s <> tgt) subs.
Proof.
  induction subs as [|s subs IH]; [done|]. simpl.
  rewrite NoDup_cons. intros [Hs Hnd].
  rewrite remove_entry_cons. case_decide as Ht.
  - rewrite filter_cons_False by naive_solver.
    rewrite <- IH by done. symmetry. apply remove_entry_absent. by rewrite <- Ht.
  - rewrite filter_cons_True by done. by rewrite IH.
Qed.

Lemma remove_entry_sublist tgt subs : remove_entry tgt subs `sublist_of` subs.
Proof.
  induction subs as [|s subs IH]; [done|].
  rewrite remove_entry_cons. case_decide.
  - by apply sublist_cons.
  - by apply sublist_skip.
Qed.

Lemma remove_entry_gone tgt subs :
  NoDup (map target subs) -> tgt ∉ map target (remove_entry tgt subs).
Proof.
  intros Hnd. rewrite remove_entry_filter by done.
  rewrite list_elem_of_fmap. intros (s & Heq & Hs).
  apply list_elem_of_filter in Hs as [Hs _]. by apply Hs.
Qed.

(** ** Well-formedness is preserved *)

Lemma wf_same st st' : emitters st' = emitters st -> wf st -> wf st'.
Proof. unfold wf. by intros ->. Qed.

Lemma wf_heap_only st st' : heap_only st st' -> wf st -> wf st'.
Proof. intros [H _]. by apply wf_same. Qed.

Lemma wf_table st em :
  wf st -> NoDup (map target (table st em)) /\
           Forall (wf_entry (emitters st)) (table st em).
Proof.
  intros Hwf. unfold table. destruct (emitters st !! em) as [e|] eqn:E.
  - eapply Forall_lookup_1 in Hwf; eauto.
  - split; [apply NoDup_nil_2|apply Forall_nil_2].
Qed.

Lemma wf_entry_lt es s : wf_entry es s -> target s < length es.
Proof.
  unfold wf_entry. intros H. destruct (es !! target s) eqn:E; [|done].
  by eapply lookup_lt_Some.
Qed.

Lemma wf_init : wf init.
Proof. apply Forall_nil_2. Qed.

Lemma wf_entry_app es es' s : wf_entry es s -> wf_entry (es ++ es') s.
Proof.
  unfold wf_entry. intros H. destruct (es !! target s) eqn:E; [|done].
  by erewrite lookup_app_l_Some.
Qed.

Lemma wf_entry_alter es f i s :
  (forall e, emitTimeout (f e) = emitTimeout e) ->
  wf_entry es s -> wf_entry (alter f i es) s.
Proof.
  unfold wf_entry. intros Hf H.
  destruct (decide (i = target s)) as [->|Hne].
  - rewrite list_lookup_alter_eq. destruct (es !! target s); [|done].
    simpl in *. by rewrite Hf.
  - by rewrite list_lookup_alter_ne.
Qed.

Lemma wf_create opts st : wf st -> wf (create opts st).2.
Proof.
  unfold wf, create. simpl. intros H. apply Forall_app. split.
  - eapply Forall_impl; [exact H|]. intros e [Hnd He]. split; [done|].
    eapply Forall_impl; [exact He|]. intros s. apply wf_entry_app.
  - apply Forall_singleton. split; [apply NoDup_nil_2|apply Forall_nil_2].
Qed.

(** Changing one table keeps the store well-formed when the new table is. *)
Lemma wf_set_table em f st :
  wf st ->
  (forall e, emitters st !! em = Some e ->
     NoDup (map target (f (subscriptions e))) /\
     Forall (wf_entry (emitters st)) (f (subscriptions e))) ->
  wf (set_table em f st).
Proof.
  unfold wf, set_table. simpl. intros H Hf.
  set (g := fun e => mkEmitter (emitTimeout e) (f (subscriptions e))).
  assert (Hg : forall e, emitTimeout (g e) = emitTimeout e) by done.
  apply Forall_alter.
  - eapply Forall_impl; [exact H|]. intros e [Hnd He]. split; [done|].
    eapply Forall_impl; [exact He|]. intros s. by apply wf_entry_alter.
  - intros e He _. destruct (Hf _ He) as [Hnd' Hes']. split; [done|].
    eapply Forall_impl; [exact Hes'|]. intros s. by apply wf_entry_alter.
Qed.

Lemma Forall_sublist_of {A} (P : A -> Prop) (l k : list A) :
  l `sublist_of` k -> Forall P k -> Forall P l.
Proof.
  intros Hsub. rewrite !Forall_forall. intros H x Hx. apply H.
  eapply elem_of_sublist; eauto.
Qed.

Lemma wf_remove obs tgt st : wf st -> wf (remove obs tgt st).
Proof.
  intros H. apply wf_set_table; [done|]. intros e He.
  eapply Forall_lookup_1 in H as [Hnd Hes]; eauto.
  pose proof (remove_entry_sublist tgt (subscriptions e)) as Hsub. split.
  - eapply sublist_NoDup; [exact Hnd|]. by apply fmap_sublist.
  - eapply Forall_sublist_of; eauto.
Qed.

Lemma wf_subscribe obs l st sub st' :
  subscribe obs l st = (sub, st') -> wf st -> wf st'.
Proof.
  unfold subscribe. cbn -[set_table]. intros [= <- <-] H.
  apply wf_set_table; [by apply (wf_create None)|].
  simpl. intros e He.
  assert (Hnew : wf_entry (emitters st ++ [mkEmitter None []])
                   (mkSubscription (length (emitters st)) l)).
  { unfold wf_entry. simpl. by rewrite list_lookup_middle. }
  apply lookup_app_Some in He as [He|[_ He]].
  - eapply Forall_lookup_1 in H as [Hnd Hes]; eauto. split.
    + rewrite map_app. simpl. apply NoDup_app.
      split_and!; [done| |apply NoDup_singleton].
      intros t Ht ->%list_elem_of_singleton.
      apply list_elem_of_fmap in Ht as (s & Hs & Hin).
      rewrite Forall_forall in Hes. apply Hes, wf_entry_lt in Hin. lia.
    + apply Forall_app. split; [|by apply Forall_singleton].
      eapply Forall_impl; [exact Hes|]. intros s. apply wf_entry_app.
  - apply list_lookup_singleton_Some in He as [_ <-]. simpl. split.
    + apply NoDup_singleton.
    + by apply Forall_singleton.
Qed.

Lemma wf_next obs pred st p st' : next obs pred st = (p, st') -> wf st -> wf st'.
Proof.
  unfold next. destruct_lets. intros [= <- <-] H.
  eapply wf_subscribe; [eauto|].
  eapply wf_heap_only; [|exact H]. by eapply new_promise_heap_only.
Qed.

Lemma run_script_leaf s st : is_leaf s -> heap_only st (run_script s st).2.
Proof.
  destruct s; simpl; try done; intros _; try by split.
  - destruct_lets. simpl.
    eapply heap_only_trans; [eapply new_promise_heap_only; eauto|].
    eapply heap_only_trans; [apply setTimeout_heap_only|].
    eapply then_heap_only; eauto.
  - destruct_lets. simpl. eapply then_heap_only; eauto.
Qed.

Lemma wf_run_script s st : wf st -> wf (run_script s st).2.
Proof.
  revert st. induction s as [| | | |d k IH|p k IH|obs tgt k IH|obs text body IHb k IH|obs pred k IH];
    intros st H.
  1-6: by eapply wf_heap_only; [apply run_script_leaf|].
  all: cbn [run_script].
  - apply IH. by apply wf_remove.
  - destruct_lets. apply IH. by eapply wf_subscribe.
  - destruct_lets. apply IH. by eapply wf_next.
Qed.

(** ** The effect of a listener on one table *)

Lemma without_nil subs : without [] subs = subs.
Proof.
  unfold without. induction subs as [|s subs IH]; [done|].
  rewrite filter_cons_True by apply not_elem_of_nil. by rewrite IH.
Qed.

Lemma without_without X Y subs : without Y (without X subs) = without (X ++ Y) subs.
Proof.
  unfold without. rewrite list_filter_filter. apply list_filter_iff.
  intros s. rewrite elem_of_app. tauto.
Qed.

Lemma without_app X a b : without X (a ++ b) = without X a ++ without X b.
Proof. apply filter_app. Qed.


Lemma without_id X subs :
  (forall t, t ∈ X -> t ∉ map target subs) -> without X subs = subs.
Proof.
  intros H. unfold without. induction subs as [|s subs IH]; [done|].
  rewrite filter_cons_True.
  - rewrite IH; [done|]. intros t Ht Hin. apply (H t Ht). simpl. by right.
  - intros Hs. apply (H _ Hs). simpl. by left.
Qed.

Lemma remove_entry_without tgt subs :
  NoDup (map target subs) -> remove_entry tgt subs = without [tgt] subs.
Proof.
  intros Hnd. rewrite remove_entry_filter by done. unfold without.
  apply list_filter_iff. intros s. rewrite list_elem_of_singleton. done.
Qed.

Lemma table_create opts st em : table (create opts st).2 em = table st em.
Proof.
  unfold table, create. simpl.
  destruct (emitters st !! em) as [e|] eqn:E.
  - by erewrite lookup_app_l_Some.
  - apply lookup_ge_None in E. destruct (decide (em = length (emitters st))) as [->|Hne].
    + by rewrite list_lookup_middle.
    + rewrite lookup_ge_None_2; [done|]. rewrite length_app. simpl. lia.
Qed.

Lemma table_remove_ne obs tgt st em : obs <> em -> table (remove obs tgt st) em = table st em.
Proof. intros. by apply table_set_table_ne. Qed.

Lemma table_remove_eq em tgt st :
  wf st -> table (remove em tgt st) em = without [tgt] (table st em).
Proof.
  intros Hwf. unfold remove. rewrite table_set_table_eq by (by right).
  apply remove_entry_without. by apply wf_table.
Qed.

Lemma table_subscribe_ne obs l st sub st' em :
  subscribe obs l st = (sub, st') -> obs <> em -> table st' em = table st em.
Proof.
  unfold subscribe. cbn -[set_table]. intros [= <- <-] Hne.
  rewrite table_set_table_ne by done. apply (table_create None).
Qed.

Lemma table_subscribe_eq em l st sub st' :
  subscribe em l st = (sub, st') -> em < length (emitters st) ->
  sub = length (emitters st) /\
  table st' em = table st em ++ [mkSubscription sub l].
Proof.
  unfold subscribe. cbn -[set_table]. intros [= <- <-] Hlt. split; [done|].
  rewrite table_set_table_eq.
  - f_equal. apply (table_create None).
  - left. simpl. rewrite length_app. lia.
Qed.

Lemma subscribe_invoked obs l st sub st' :
  subscribe obs l st = (sub, st') -> invoked st' = invoked st.
Proof. unfold subscribe. cbn -[set_table]. by intros [= <- <-]. Qed.


Lemma table_next_ne obs pred st p st' em :
  next obs pred st = (p, st') -> obs <> em -> table st' em = table st em.
Proof.
  unfold next. destruct_lets. intros [= <- <-] Hne.
  erewrite table_subscribe_ne by eauto.
  apply table_same. by eapply new_promise_heap_only.
Qed.

Lemma next_invoked obs pred st p st' :
  next obs pred st = (p, st') -> invoked st' = invoked st.
Proof.
  unfold next. destruct_lets. intros [= <- <-].
  erewrite subscribe_invoked by eauto. by eapply new_promise_heap_only.
Qed.


(** A script never writes the history. *)
Lemma run_script_invoked s st : invoked (run_script s st).2 = invoked st.
Proof.
  revert st. induction s as [| | | |d k IH|p k IH|obs tgt k IH|obs text body IHb k IH|obs pred k IH];
    intros st.
  1-6: by apply run_script_leaf.
  all: cbn [run_script].
  - by rewrite IH.
  - destruct_lets. rewrite IH. by eapply subscribe_invoked.
  - destruct_lets. rewrite IH. by eapply next_invoked.
Qed.


Lemma run_script_leaf_not_thrown s st :
  is_leaf s -> (forall e, s <> SThrow e) -> not_thrown (run_script s st).1.
Proof. destruct s; simpl; try done; intros _ H; [by eapply H|..]; by destruct_lets. Qed.

Lemma spares_effect em A s st :
  wf st -> spares em A s ->
  not_thrown (run_script s st).1 /\
  exists X, (forall t, t ∈ X -> ~ A t) /\
            table (run_script s st).2 em = without X (table st em).
Proof.
  intros Hwf Hs. revert st Hwf.
  induction Hs as [v|e| |d k|p k|obs tgt k Hobs Hk IH|obs text body k Hobs Hk IH|obs pred k Hobs Hk IH];
    intros st Hwf.
  1-5: split; [by apply run_script_leaf_not_thrown|]; exists [];
       (split; [by intros t ?%elem_of_nil|]); rewrite without_nil;
       by apply table_same, run_script_leaf.
  all: cbn [run_script].
  - destruct (IH (remove obs tgt st)) as (Hc & X & HX & Ht); [by apply wf_remove|].
    split; [done|]. destruct (decide (obs = em)) as [->|Hne].
    + exists (tgt :: X). split.
      * intros t [->|Ht']%elem_of_cons; auto.
      * rewrite Ht, table_remove_eq by done. by rewrite without_without.
    + exists X. split; [done|]. by rewrite Ht, table_remove_ne.
  - destruct (subscribe obs _ st) as [sub st1] eqn:E.
    destruct (IH sub st1) as (Hc & X & HX & Ht); [by eapply wf_subscribe|].
    split; [done|]. exists X. split; [done|].
    rewrite Ht. f_equal. by eapply table_subscribe_ne.
  - destruct (next obs pred st) as [q st1] eqn:E.
    destruct (IH q st1) as (Hc & X & HX & Ht); [by eapply wf_next|].
    split; [done|]. exists X. split; [done|].
    rewrite Ht. f_equal. by eapply table_next_ne.
Qed.

(** ** Steps that settle no promise *)

Lemma calm_refl st : calm st st.
Proof. by split. Qed.

Lemma calm_trans st1 st2 st3 : calm st1 st2 -> calm st2 st3 -> calm st1 st3.
Proof.
  intros [Hl1 H1] [Hl2 H2]. split; [lia|]. intros p Hp.
  rewrite H2 by lia. by apply H1.
Qed.

Lemma calm_same st st' : promises st' = promises st -> calm st st'.
Proof. intros H. unfold calm, outcome, pstate. by rewrite H. Qed.

Lemma calm_new_promise s o st p st' : new_promise s o st = (p, st') -> calm st st'.
Proof.
  intros [= <- <-]. split; simpl; [rewrite length_app; lia|].
  intros p Hp. unfold outcome, pstate. simpl. by rewrite lookup_app_l.
Qed.

Lemma outcome_insert_pending st p rs rs' q :
  pstate st p = Some (Pending rs) ->
  outcome (set_promises (fun ps => <[p:=Pending rs']> ps) st) q = outcome st q.
Proof.
  intros Hp. unfold outcome, pstate in *. simpl.
  destruct (decide (p = q)) as [<-|Hne].
  - rewrite list_lookup_insert_eq by (by eapply lookup_lt_Some). by rewrite Hp.
  - by rewrite list_lookup_insert_ne.
Qed.

Lemma calm_then p f g st d st' : then_ p f g st = (d, st') -> calm st st'.
Proof.
  unfold then_. destruct (new_promise _ _ st) as [d' st1] eqn:E1. intros [= <- <-].
  eapply calm_trans; [eapply calm_new_promise; eauto|].
  destruct (pstate st p) as [[rs|v|e]|] eqn:Ep; try by apply calm_same.
  split; [simpl; by rewrite length_insert|].
  intros q _. eapply outcome_insert_pending.
  injection E1 as <- <-. unfold pstate in *. simpl. by erewrite lookup_app_l_Some.
Qed.

Lemma calm_setTimeout a d st : calm st (setTimeout a d st).
Proof. by apply calm_same. Qed.

Lemma calm_set_table em f st : calm st (set_table em f st).
Proof. by apply calm_same. Qed.

Lemma calm_subscribe obs l st sub st' : subscribe obs l st = (sub, st') -> calm st st'.
Proof. unfold subscribe. cbn -[set_table]. intros [= <- <-]. by apply calm_same. Qed.

Lemma calm_next obs pred st p st' : next obs pred st = (p, st') -> calm st st'.
Proof.
  unfold next. destruct_lets. intros [= <- <-].
  eapply calm_trans; [eapply calm_new_promise; eauto|]. eapply calm_subscribe; eauto.
Qed.

Lemma calm_run_script s st : calm st (run_script s st).2.
Proof.
  revert st. induction s as [| | | |d k IH|p k IH|obs tgt k IH|obs text body IHb k IH|obs pred k IH];
    intros st; cbn [run_script].
  - apply calm_refl.
  - apply calm_refl.
  - destruct_lets. simpl. eapply calm_new_promise; eauto.
  - destruct_lets. simpl. eapply calm_new_promise; eauto.
  - destruct_lets. simpl.
    eapply calm_trans; [eapply calm_new_promise; eauto|].
    eapply calm_trans; [apply calm_setTimeout|]. eapply calm_then; eauto.
  - destruct_lets. simpl. eapply calm_then; eauto.
  - eapply calm_trans; [apply calm_set_table|apply IH].
  - destruct (subscribe obs _ st) as [sub st1] eqn:E.
    eapply calm_trans; [eapply calm_subscribe; eauto|apply IH].
  - destruct (next obs pred st) as [q st1] eqn:E.
    eapply calm_trans; [eapply calm_next; eauto|apply IH].
Qed.

Lemma calm_race_register r ps st : calm st (race_register r ps st).
Proof.
  revert st. induction ps as [|p ps IH]; intros st; cbn [race_register].
  - apply calm_refl.
  - eapply calm_trans; [|apply IH].
    destruct (then_ p _ _ st) eqn:E. eapply calm_then, E.
Qed.

Lemma calm_promise_race ps st r st' : promise_race ps st = (r, st') -> calm st st'.
Proof.
  unfold promise_race. destruct (new_promise _ _ st) as [r' st1] eqn:E1.
  intros [= <- <-].
  eapply calm_trans; [eapply calm_new_promise; eauto|]. apply calm_race_register.
Qed.

Lemma calm_timeout p d st r st' : timeout p d st = (r, st') -> calm st st'.
Proof.
  unfold timeout. destruct (new_TimeoutError st) as [e st1] eqn:E1.
  destruct (new_promise _ _ st1) as [t st2] eqn:E2. intros E3.
  eapply calm_trans; [apply (calm_same st st1); by injection E1 as <- <-|].
  eapply calm_trans; [eapply calm_new_promise; eauto|].
  eapply calm_trans; [apply calm_setTimeout|].
  eapply calm_promise_race; eauto.
Qed.

Lemma calm_waitAll_register w r ps st : calm st (waitAll_register w r ps st).
Proof.
  revert st. induction ps as [|p ps IH]; intros st; cbn [waitAll_register].
  - apply calm_refl.
  - eapply calm_trans; [|apply IH].
    destruct (then_ p _ _ st) eqn:E. eapply calm_then, E.
Qed.

Lemma calm_waitAll ps st w st' : waitAll ps st = (w, st') -> calm st st'.
Proof.
  unfold waitAll. case_decide.
  - apply calm_new_promise.
  - destruct_lets. intros [= <- <-].
    eapply calm_trans; [eapply calm_new_promise; eauto|].
    eapply calm_trans; [|apply calm_waitAll_register]. by apply calm_same.
Qed.




(** ** Calling a listener *)

Lemma wf_call_listener l v st : wf st -> wf (call_listener l v st).2.
Proof.
  intros H. unfold call_listener. destruct l as [text body|pred parent sub p].
  - by apply wf_run_script.
  - destruct (matches pred v); simpl; [|done].
    eapply wf_heap_only; [apply settle_heap_only|]. by apply wf_remove.
Qed.

Lemma call_listener_invoked l v st : invoked (call_listener l v st).2 = invoked st.
Proof.
  unfold call_listener. destruct l as [text body|pred parent sub p].
  - apply run_script_invoked.
  - destruct (matches pred v); simpl; [|done]. by rewrite (proj2 (settle_heap_only _ _ _ _)).
Qed.



(** ** One iteration of the loop of emit *)

Lemma enter_emitters cur s v st : emitters (enter cur s v st) = emitters st.
Proof. done. Qed.

Lemma enter_invoked cur s v st :
  invoked (enter cur s v st) = invoked st ++ [(target s, v)].
Proof. done. Qed.

Lemma calm_call_listener_idle em v l st :
  listener_idle em v l -> calm st (call_listener l v st).2.
Proof.
  unfold call_listener. destruct l as [text body|pred parent sub p]; simpl.
  - intros _. apply calm_run_script.
  - intros ->. apply calm_refl.
Qed.

Lemma emit_loop_iter em v cur k results st s :
  table st em !! k = Some s ->
  not_thrown (call_listener (listener s) v (enter cur s v st)).1 ->
  exists p st3,
    heap_only (call_listener (listener s) v (enter cur s v st)).2 st3 /\
    calm (call_listener (listener s) v (enter cur s v st)).2 st3 /\
    forall fuel,
    emit_loop (S fuel) em v cur k results st =
    emit_loop fuel em v cur
      (match table st3 em !! k with
       | Some s' => if decide (target s' = target s) then S k else k
       | None => k
       end) (results ++ [p]) st3.
Proof.
  intros Hk Hc. cbn [emit_loop]. rewrite Hk.
  unfold subscription_emit. fold (enter cur s v st).
  destruct (call_listener (listener s) v (enter cur s v st)) as [c st1] eqn:Ecall.
  simpl in Hc.
  assert (exists d st2, heap_only st1 st2 /\ calm st1 st2 /\
    match c with
    | RetV v0 => let '(l, st2) := promise_resolve (inl v0) st1 in
                 let '(d, st3) := then_ l (Some (HEmit (target s))) None st2 in
                 Normal d st3
    | RetP q => let '(l, st2) := promise_resolve (inr q) st1 in
                let '(d, st3) := then_ l (Some (HEmit (target s))) None st2 in
                Normal d st3
    | Threw e => Raise e st1
    end = Normal d st2) as (d & st2 & Hho & Hcalm & ->).
  { destruct c as [v0|q|e]; [| |done]; unfold promise_resolve; destruct_lets.
    - eexists _, _. split_and!; [| |done].
      + eapply heap_only_trans; [eapply new_promise_heap_only; eauto|].
        eapply then_heap_only; eauto.
      + eapply calm_trans; [eapply calm_new_promise; eauto|].
        eapply calm_then; eauto.
    - eexists _, _. split_and!; [| |done].
      + eapply then_heap_only; eauto.
      + eapply calm_then; eauto. }
  destruct (opts_emitTimeout st2 em) as [delay|].
  - destruct (timeout d delay st2) as [r st'] eqn:Et.
    destruct (then_ r None (Some (HStamp cur)) st') as [p st3] eqn:Eth.
    exists p, st3. split_and!; [| |done]; simpl.
    + eapply heap_only_trans; [exact Hho|].
      eapply heap_only_trans; [eapply timeout_heap_only; eauto|].
      eapply then_heap_only; eauto.
    + eapply calm_trans; [exact Hcalm|].
      eapply calm_trans; [eapply calm_timeout; eauto|].
      eapply calm_then; eauto.
  - exists d, st2. by split_and!.
Qed.

Lemma without_cons_in X s subs :
  target s ∈ X -> without X (s :: subs) = without X subs.
Proof. intros H. unfold without. rewrite filter_cons_False; [done|]. naive_solver. Qed.




(** More fuel does not change a result. *)
Lemma emit_loop_fuel_mono fuel :
  forall fuel' em v cur k results st r st',
  emit_loop fuel em v cur k results st = Normal r st' -> fuel <= fuel' ->
  emit_loop fuel' em v cur k results st = Normal r st'.
Proof.
  induction fuel as [|fuel IH]; intros fuel' em v cur k results st r st' H Hle; [done|].
  destruct fuel' as [|fuel']; [lia|]. cbn [emit_loop] in *.
  destruct (table st em !! k) as [s|]; [|done].
  destruct (subscription_emit s v _) as [p st2|e st2|]; [|done|done].
  destruct (match opts_emitTimeout st2 em with Some _ => _ | None => _ end) as [p' st3].
  apply IH; [done|lia].
Qed.

Lemma emit_fuel_mono fuel fuel' em v st w st' :
  emit fuel em v st = Normal w st' -> fuel <= fuel' ->
  emit fuel' em v st = Normal w st'.
Proof.
  unfold emit. intros H Hle.
  destruct (emit_loop fuel em v _ 0 [] _) as [r st1|e st1|] eqn:E; [|done|done].
  by erewrite emit_loop_fuel_mono by eauto.
Qed.

(** ** Listeners that subscribe during the emission *)





(** ** Well-formedness along every step *)

Lemma wf_subscription_emit s v st :
  wf st ->
  match subscription_emit s v st with
  | Normal _ st' | Raise _ st' => wf st'
  | Diverge => True
  end.
Proof.
  intros H. unfold subscription_emit.
  pose proof (wf_call_listener (listener s) v
                (set_invoked (fun h => h ++ [(target s, v)]) st)) as Hc.
  destruct (call_listener _ _ _) as [c st1]. simpl in Hc.
  assert (Hwf1 : wf st1) by (by apply Hc).
  destruct c as [x|q|e]; [| |done]; unfold promise_resolve; destruct_lets.
  - eapply wf_heap_only; [|exact Hwf1].
    eapply heap_only_trans; [eapply new_promise_heap_only; eauto|].
    eapply then_heap_only; eauto.
  - eapply wf_heap_only; [|exact Hwf1]. eapply then_heap_only; eauto.
Qed.

Lemma wf_emit_loop fuel :
  forall em v cur k results st, wf st ->
  match emit_loop fuel em v cur k results st with
  | Normal _ st' | Raise _ st' => wf st'
  | Diverge => True
  end.
Proof.
  induction fuel as [|fuel IH]; intros em v cur k results st H; [done|].
  cbn [emit_loop]. destruct (table st em !! k) as [s|]; [|done].
  pose proof (wf_subscription_emit s v (set_cells (fun cs => <[cur:=Some s]> cs) st)) as Hs.
  destruct (subscription_emit s v _) as [p st2|e st2|]; [|by apply Hs|done].
  assert (Hwf2 : wf st2) by (by apply Hs).
  destruct (opts_emitTimeout st2 em) as [delay|].
  - destruct (timeout p delay st2) as [r st'] eqn:Et.
    destruct (then_ r None (Some (HStamp cur)) st') as [p' st3] eqn:Eth.
    apply IH. eapply wf_heap_only; [|exact Hwf2].
    eapply heap_only_trans; [eapply timeout_heap_only; eauto|].
    eapply then_heap_only; eauto.
  - by apply IH.
Qed.

Lemma wf_emit fuel em v st :
  wf st ->
  match emit fuel em v st with
  | Normal _ st' | Raise _ st' => wf st'
  | Diverge => True
  end.
Proof.
  intros H. unfold emit.
  pose proof (wf_emit_loop fuel em v (length (cells st)) 0 []
                (set_cells (fun cs => cs ++ [None]) st)) as Hl.
  destruct (emit_loop _ _ _ _ _ _ _) as [r st1|e st1|]; [|by apply Hl|done].
  destruct (waitAll r st1) as [w st2] eqn:Ew.
  eapply (wf_same st2); [done|].
  eapply wf_heap_only; [eapply waitAll_heap_only; eauto|]. by apply Hl.
Qed.

Lemma wf_run_handler fuel h arg st c st' :
  run_handler fuel h arg st = Some (c, st') -> wf st -> wf st'.
Proof.
  unfold run_handler. intros Hr H. destruct h as [em|p|p|w|cur|k].
  - pose proof (wf_emit fuel em arg st H) as He.
    destruct (emit fuel em arg st); simplify_eq; done.
  - simplify_eq. eapply wf_heap_only; [apply settle_heap_only|done].
  - simplify_eq. eapply wf_heap_only; [apply settle_heap_only|done].
  - simplify_eq. eapply wf_heap_only; [apply count_heap_only|done].
  - destruct (stamp cur arg st) as [e st1] eqn:Es. simplify_eq.
    eapply wf_heap_only; [eapply stamp_heap_only; eauto|done].
  - simplify_eq. pose proof (wf_run_script (k arg) st H) as Hs.
    by destruct (run_script (k arg) st); simplify_eq.
Qed.

Lemma resolve_with_heap_only d c st : heap_only st (resolve_with d c st).
Proof. destruct c; simpl; try apply settle_heap_only. by split. Qed.

Lemma wf_run_job fuel j st st' : run_job fuel j st = Some st' -> wf st -> wf st'.
Proof.
  unfold run_job. intros Hr H. destruct j as [[h|] b arg d|p q].
  - destruct (run_handler fuel h arg st) as [[c st1]|] eqn:E; [|done]. simplify_eq.
    eapply wf_heap_only; [apply resolve_with_heap_only|]. by eapply wf_run_handler.
  - simplify_eq. eapply wf_heap_only; [apply settle_heap_only|done].
  - simplify_eq. destruct (then_ q _ _ st) eqn:E. simpl.
    eapply wf_heap_only; [eapply then_heap_only; eauto|done].
Qed.

Lemma wf_turn fuel st st' : turn fuel st = Next st' -> wf st -> wf st'.
Proof.
  unfold turn. intros Ht H. destruct (microtasks st) as [|j js].
  - destruct (earliest (timers st)) as [[i t]|]; [|done]. simplify_eq.
    destruct (action t); simpl; (eapply wf_heap_only; [apply settle_heap_only|done]).
  - destruct (run_job fuel j _) as [st1|] eqn:E; [|done]. simplify_eq.
    eapply wf_run_job; eauto.
Qed.

Lemma reachable_wf st : reachable st -> wf st.
Proof.
  induction 1 as [|opts st _ IH|obs text body st _ IH|obs tgt st _ IH|obs pred st _ IH
                  |fuel em v st w st' _ IH He|fuel em v st e st' _ IH He
                  |fuel st st' _ IH Ht].
  - apply wf_init.
  - by apply wf_create.
  - destruct (subscribe obs _ st) eqn:E. by eapply wf_subscribe.
  - by apply wf_remove.
  - destruct (next obs pred st) eqn:E. by eapply wf_next.
  - pose proof (wf_emit fuel em v st IH) as H. by rewrite He in H.
  - pose proof (wf_emit fuel em v st IH) as H. by rewrite He in H.
  - by eapply wf_turn.
Qed.

(** ** remove *)

Lemma set_table_id em f st :
  f (table st em) = table st em -> set_table em f st = st.
Proof.
  intros Hf. unfold set_table, set_emitters. destruct st as [es ps ms ts n cs ws te iv].
  simpl. f_equal. unfold table in Hf. simpl in Hf.
  transitivity (alter (fun e : Emitter => e) em es); [|by apply list_alter_id].
  apply list_alter_ext; [|done]. intros e He. rewrite He in Hf.
  destruct e as [o subs]. simpl in *. by rewrite Hf.
Qed.

Lemma remove_absent obs tgt st :
  tgt ∉ map target (table st obs) -> remove obs tgt st = st.
Proof. intros H. apply set_table_id. by apply remove_entry_absent. Qed.

Lemma table_remove obs tgt st em :
  table (remove obs tgt st) em =
  if decide (obs = em) then remove_entry tgt (table st em) else table st em.
Proof.
  case_decide as H.
  - subst. unfold remove. apply table_set_table_eq. by right.
  - by apply table_remove_ne.
Qed.

(** ** No timeout without the option *)

Lemma opts_create opts st em :
  em < length (emitters st) ->
  opts_emitTimeout (create opts st).2 em = opts_emitTimeout st em.
Proof.
  intros H. unfold opts_emitTimeout, create. simpl. by rewrite lookup_app_l.
Qed.

Lemma opts_wf_entry st s :
  wf_entry (emitters st) s -> opts_emitTimeout st (target s) = None.
Proof.
  unfold wf_entry, opts_emitTimeout. destruct (emitters st !! target s); [|done].
  simpl. by intros [= ->].
Qed.

Lemma terrs_then p f g st : terrs (then_ p f g st).2 = terrs st.
Proof. unfold then_. simpl. by repeat case_match. Qed.

Lemma terrs_settle p b x st : terrs (settle p b x st) = terrs st.
Proof. unfold settle. by repeat case_match. Qed.

Lemma terrs_set_table em f st : terrs (set_table em f st) = terrs st.
Proof. done. Qed.

Lemma terrs_subscribe obs l st : terrs (subscribe obs l st).2 = terrs st.
Proof. done. Qed.

Lemma terrs_next obs pred st : terrs (next obs pred st).2 = terrs st.
Proof. done. Qed.

Lemma terrs_run_script s st : terrs (run_script s st).2 = terrs st.
Proof.
  revert st. induction s as [| | | |d k IH|p k IH|obs tgt k IH|obs text body IHb k IH|obs pred k IH];
    intros st; cbn [run_script]; try done.
  - destruct (new_promise _ _ st) as [p st1] eqn:E1.
    destruct (then_ p _ _ _) as [q st3] eqn:E3. simpl.
    change st3 with (q, st3).2. rewrite <- E3, terrs_then.
    by injection E1 as <- <-.
  - destruct (then_ p _ _ _) as [q st3] eqn:E3. simpl.
    change st3 with (q, st3).2. by rewrite <- E3, terrs_then.
  - by rewrite IH.
  - destruct (subscribe obs _ st) as [sub st1] eqn:E. rewrite IH.
    change st1 with (sub, st1).2. by rewrite <- E.
  - destruct (next obs pred st) as [q st1] eqn:E. rewrite IH.
    change st1 with (q, st1).2. by rewrite <- E.
Qed.

Lemma terrs_call_listener l v st : terrs (call_listener l v st).2 = terrs st.
Proof.
  unfold call_listener. destruct l as [text body|pred parent sub p].
  - apply terrs_run_script.
  - destruct (matches pred v); simpl; [|done]. by rewrite terrs_settle.
Qed.

Lemma terrs_subscription_emit s v st :
  match subscription_emit s v st with
  | Normal _ st' | Raise _ st' => terrs st' = terrs st
  | Diverge => True
  end.
Proof.
  unfold subscription_emit.
  pose proof (terrs_call_listener (listener s) v
                (set_invoked (fun h => h ++ [(target s, v)]) st)) as Hc.
  destruct (call_listener _ _ _) as [c st1]. simpl in Hc.
  destruct c as [x|q|e]; [| |done]; unfold promise_resolve.
  - destruct (new_promise _ _ st1) as [l st2] eqn:E1.
    destruct (then_ l _ _ st2) as [d st3] eqn:E3.
    change st3 with (d, st3).2. rewrite <- E3, terrs_then.
    by injection E1 as <- <-.
  - destruct (then_ q _ _ st1) as [d st3] eqn:E3.
    change st3 with (d, st3).2. by rewrite <- E3, terrs_then.
Qed.

Lemma terrs_waitAll_register w r ps st : terrs (waitAll_register w r ps st) = terrs st.
Proof.
  revert st. induction ps as [|p ps IH]; intros st; cbn [waitAll_register]; [done|].
  by rewrite IH, terrs_then.
Qed.

Lemma terrs_waitAll ps st : terrs (waitAll ps st).2 = terrs st.
Proof.
  unfold waitAll. case_decide; [done|]. simpl. by rewrite terrs_waitAll_register.
Qed.

Lemma grows_refl st : grows st st.
Proof. by split. Qed.

Lemma grows_trans st1 st2 st3 : grows st1 st2 -> grows st2 st3 -> grows st1 st3.
Proof.
  intros [Hl1 H1] [Hl2 H2]. split; [lia|]. intros em Hem.
  rewrite H2 by lia. by apply H1.
Qed.

Lemma grows_heap_only st st' : heap_only st st' -> grows st st'.
Proof. intros [H _]. unfold grows, opts_emitTimeout. by rewrite H. Qed.

Lemma grows_set_table em f st : grows st (set_table em f st).
Proof.
  split; [by rewrite length_emitters_set_table|]. intros em' _. apply opts_set_table.
Qed.

Lemma grows_create opts st : grows st (create opts st).2.
Proof.
  split; [unfold create; simpl; rewrite length_app; lia|].
  intros em. apply opts_create.
Qed.

Lemma grows_subscribe obs l st sub st' : subscribe obs l st = (sub, st') -> grows st st'.
Proof.
  unfold subscribe. cbn -[set_table]. intros [= <- <-].
  eapply grows_trans; [apply (grows_create None)|apply grows_set_table].
Qed.

Lemma grows_next obs pred st p st' : next obs pred st = (p, st') -> grows st st'.
Proof.
  unfold next. destruct_lets. intros [= <- <-].
  eapply grows_trans; [|eapply grows_subscribe; eauto].
  apply grows_heap_only. by eapply new_promise_heap_only.
Qed.

Lemma grows_run_script s st : grows st (run_script s st).2.
Proof.
  revert st. induction s as [| | | |d k IH|p k IH|obs tgt k IH|obs text body IHb k IH|obs pred k IH];
    intros st.
  1-6: by apply grows_heap_only, run_script_leaf.
  all: cbn [run_script].
  - eapply grows_trans; [apply grows_set_table|apply IH].
  - destruct (subscribe obs _ st) as [sub st1] eqn:E.
    eapply grows_trans; [eapply grows_subscribe; eauto|apply IH].
  - destruct (next obs pred st) as [q st1] eqn:E.
    eapply grows_trans; [eapply grows_next; eauto|apply IH].
Qed.

Lemma grows_call_listener l v st : grows st (call_listener l v st).2.
Proof.
  unfold call_listener. destruct l as [text body|pred parent sub p].
  - apply grows_run_script.
  - destruct (matches pred v); simpl; [|apply grows_refl].
    eapply grows_trans; [apply grows_set_table|].
    apply grows_heap_only, settle_heap_only.
Qed.

Lemma grows_subscription_emit s v st :
  match subscription_emit s v st with
  | Normal _ st' | Raise _ st' => grows st st'
  | Diverge => True
  end.
Proof.
  unfold subscription_emit.
  pose proof (grows_call_listener (listener s) v
                (set_invoked (fun h => h ++ [(target s, v)]) st)) as Hc.
  destruct (call_listener _ _ _) as [c st1]. simpl in Hc.
  assert (Hg : grows st st1) by done.
  destruct c as [x|q|e]; [| |done]; unfold promise_resolve; destruct_lets.
  - eapply grows_trans; [exact Hg|]. apply grows_heap_only.
    eapply heap_only_trans; [eapply new_promise_heap_only; eauto|].
    eapply then_heap_only; eauto.
  - eapply grows_trans; [exact Hg|]. apply grows_heap_only.
    eapply then_heap_only; eauto.
Qed.

Lemma table_lookup_valid st em k s :
  table st em !! k = Some s -> em < length (emitters st).
Proof.
  unfold table. destruct (emitters st !! em) eqn:E; [|done].
  intros _. by eapply lookup_lt_Some.
Qed.

(** Without the option, the loop builds no timeout: no [TimeoutError] is
    created. *)
Lemma emit_loop_untimed fuel :
  forall em v cur k results st,
  opts_emitTimeout st em = None ->
  match emit_loop fuel em v cur k results st with
  | Normal _ st' | Raise _ st' => terrs st' = terrs st
  | Diverge => True
  end.
Proof.
  induction fuel as [|fuel IH]; intros em v cur k results st Ho; [done|].
  cbn [emit_loop]. destruct (table st em !! k) as [s|] eqn:Ek; [|done].
  apply table_lookup_valid in Ek.
  set (st1 := set_cells (fun cs => <[cur:=Some s]> cs) st).
  pose proof (grows_subscription_emit s v st1) as Hg.
  pose proof (terrs_subscription_emit s v st1) as Ht.
  destruct (subscription_emit s v st1) as [p st2|e st2|]; [|done|done].
  assert (Ho2 : opts_emitTimeout st2 em = None).
  { destruct Hg as [_ Hg]. by rewrite Hg. }
  rewrite Ho2. specialize (IH em v cur
    (match table st2 em !! k with
     | Some s' => if decide (target s' = target s) then S k else k
     | None => k
     end) (results ++ [p]) st2 Ho2).
  assert (Ht1 : terrs st1 = terrs st) by done.
  destruct (emit_loop fuel _ _ _ _ _ _); [congruence|congruence|done].
Qed.

Lemma emit_untimed fuel em v st :
  opts_emitTimeout st em = None ->
  match emit fuel em v st with
  | Normal _ st' | Raise _ st' => terrs st' = terrs st
  | Diverge => True
  end.
Proof.
  intros Ho. unfold emit.
  pose proof (emit_loop_untimed fuel em v (length (cells st)) 0 []
                (set_cells (fun cs => cs ++ [None]) st) Ho) as Hl.
  destruct (emit_loop _ _ _ _ _ _ _) as [r st1|e st1|]; [|done|done].
  destruct (waitAll r st1) as [w st2] eqn:Ew.
  change (terrs st2 = terrs st). change st2 with (w, st2).2.
  by rewrite <- Ew, terrs_waitAll.
Qed.

(** * The claims *)

(** C8. Removing a child that is not in the subscription table changes
    nothing, and nothing is raised ([remove] is a total function of the
    state); so a second [unlink] of the same linked observable is a no-op:
    removing twice is removing once. *)
Theorem remove_absent_is_noop (st : State) (obs tgt : EmitterId) :
  wf st ->
  (tgt ∉ map target (table st obs) -> remove obs tgt st = st) /\
  unlink obs tgt (unlink obs tgt st) = unlink obs tgt st.
Proof.
  intros Hwf. split; [apply remove_absent|].
  unfold unlink. apply remove_absent. rewrite table_remove, decide_True by done.
  apply remove_entry_gone. by apply wf_table.
Qed.

(** C9. A child emitter is created by [subscribe] without options: the
    option of the parent is not passed on.  So in every reachable state the
    target of every table entry has no [emitTimeout], and an [emit] of an
    emitter without [emitTimeout] sets up no timeout race: it creates no
    [TimeoutError]. *)
Theorem child_emitters_have_no_timeout (st : State) :
  reachable st ->
  (forall obs l,
     opts_emitTimeout (subscribe obs l st).2 (subscribe obs l st).1 = None /\
     (obs < length (emitters st) ->
      opts_emitTimeout (subscribe obs l st).2 obs = opts_emitTimeout st obs)) /\
  (forall em s, s ∈ table st em -> opts_emitTimeout st (target s) = None) /\
  (forall em fuel v, opts_emitTimeout st em = None ->
     match emit fuel em v st with
     | Normal _ st' | Raise _ st' => terrs st' = terrs st
     | Diverge => True
     end).
Proof.
  intros Hr. apply reachable_wf in Hr. split_and!.
  - intros obs l. split.
    + unfold subscribe. cbn -[set_table]. rewrite opts_set_table.
      unfold opts_emitTimeout. simpl. by rewrite list_lookup_middle.
    + intros Hobs. destruct (subscribe obs l st) as [sub st'] eqn:E. simpl.
      by apply (grows_subscribe _ _ _ _ _ E).
  - intros em s Hs. apply opts_wf_entry.
    destruct (wf_table st em Hr) as [_ Hes]. rewrite Forall_forall in Hes. auto.
  - intros em fuel v Ho. by apply emit_untimed.
Qed.



(** ** Idle listeners *)

Lemma call_idle em v l st :
  wf st -> listener_idle em v l ->
  not_thrown (call_listener l v st).1 /\
  table (call_listener l v st).2 em = table st em.
Proof.
  intros Hwf Hl. unfold call_listener. destruct l as [text body|pred parent sub p]; simpl in *.
  - destruct (spares_effect em _ (body v) st Hwf Hl) as (Hc & X & HX & Ht).
    split; [done|]. rewrite Ht. destruct X as [|t X]; [apply without_nil|].
    destruct (HX t); [by left|done].
  - by rewrite Hl.
Qed.

(** The loop of [emit] across a run [qs] of idle listeners: each is called
    and the loop arrives behind them with the same table. *)
Lemma emit_loop_idle_run em v cur qs :
  forall kept rest results st,
  wf st -> table st em = kept ++ qs ++ rest ->
  Forall (fun s => listener_idle em v (listener s)) qs ->
  exists results1 st1,
    (forall fuel,
       emit_loop (length qs + fuel) em v cur (length kept) results st =
       emit_loop fuel em v cur (length kept + length qs) results1 st1) /\
    wf st1 /\ table st1 em = table st em /\
    invoked st1 = invoked st ++ map (fun s => (target s, v)) qs /\
    calm st st1.
Proof.
  induction qs as [|s qs IH]; intros kept rest results st Hwf Htab Hqs.
  - exists results, st. rewrite Nat.add_0_r, app_nil_r. split_and!; try done.
  - apply Forall_cons in Hqs as [Hs Hqs].
    assert (Hk : table st em !! length kept = Some s)
      by (rewrite Htab; by apply list_lookup_middle).
    set (st0 := enter cur s v st).
    assert (Hwf0 : wf st0) by (by eapply wf_same; [apply enter_emitters|]).
    destruct (call_idle em v (listener s) st0 Hwf0 Hs) as [Hc Ht1].
    destruct (emit_loop_iter em v cur (length kept) results st s Hk Hc)
      as (p & st3 & Hho & Hcalm & Hstep). fold st0 in Hho, Hcalm.
    assert (Hwf3 : wf st3).
    { eapply wf_heap_only; [exact Hho|]. by apply wf_call_listener. }
    assert (Htab3 : table st3 em = table st em).
    { by rewrite (table_same _ _ _ (proj1 Hho)), Ht1. }
    destruct (IH (kept ++ [s]) rest (results ++ [p]) st3)
      as (results1 & st1 & Hrun & Hwf1 & Htab1 & Hinv1 & Hcalm1);
      [done|by rewrite Htab3, Htab, <- app_assoc|done|].
    exists results1, st1. split_and!; try done.
    + intros fuel. cbn [length Nat.add]. rewrite Hstep, Htab3, Hk.
      rewrite decide_True by done.
      replace (S (length kept)) with (length (kept ++ [s]))
        by (rewrite length_app; simpl; lia).
      rewrite Hrun. f_equal. rewrite length_app. simpl. lia.
    + by rewrite Htab1.
    + rewrite Hinv1, (proj2 Hho), call_listener_invoked. simpl.
      by rewrite <- app_assoc.
    + eapply calm_trans; [|exact Hcalm1].
      eapply calm_trans; [|exact Hcalm].
      eapply calm_trans; [|by eapply calm_call_listener_idle]. by apply calm_same.
Qed.

Lemma outcome_pending st p rs : pstate st p = Some (Pending rs) -> outcome st p = Some None.
Proof. unfold outcome. by intros ->. Qed.

Lemma outcome_pending_inv st p :
  outcome st p = Some None -> exists rs, pstate st p = Some (Pending rs).
Proof. unfold outcome. destruct (pstate st p) as [[rs|?|?]|]; try done. eauto. Qed.

Lemma outcome_fulfilled st p v :
  outcome st p = Some (Some (false, v)) <-> pstate st p = Some (Fulfilled v).
Proof.
  unfold outcome. destruct (pstate st p) as [[rs|?|?]|]; split; intros; by simplify_eq.
Qed.

Lemma outcome_rejected st p e :
  outcome st p = Some (Some (true, e)) <-> pstate st p = Some (Rejected e).
Proof.
  unfold outcome. destruct (pstate st p) as [[rs|?|?]|]; split; intros; by simplify_eq.
Qed.

Lemma calm_outcome st st' p x : calm st st' -> outcome st p = Some x -> outcome st' p = Some x.
Proof.
  intros [_ H] Hp. rewrite H; [done|].
  unfold outcome, pstate in Hp. destruct (promises st !! p) eqn:E; [|done].
  by eapply lookup_lt_Some.
Qed.

Lemma settle_pending p b x rs st :
  pstate st p = Some (Pending rs) ->
  pstate (settle p b x st) p = Some (if b then Rejected x else Fulfilled x).
Proof.
  intros Hp. unfold settle. rewrite Hp. unfold pstate in *. simpl.
  apply list_lookup_insert_eq. by eapply lookup_lt_Some.
Qed.

(** The loop of [emit] at an entry whose listener throws. *)
Lemma emit_loop_throw fuel em v cur k results st s text body e :
  table st em !! k = Some s -> listener s = LUser text body -> body v = SThrow e ->
  emit_loop (S fuel) em v cur k results st = Raise e (enter cur s v st).
Proof.
  intros Hk Hl Hb. cbn [emit_loop]. rewrite Hk. unfold subscription_emit, call_listener.
  rewrite Hl, Hb. done.
Qed.

(** C2, as the code has it.  A listener that throws when [emit] calls it
    makes [emit] itself raise the error to its caller: no promise is
    returned and the entries behind it are not called (here the entries
    before it are idle).  When that [emit] was called as the [then] callback
    of a forward chain, the raise is the failure of the chain's promise. *)
Theorem emit_raises_listener_throw (st : State) (em : EmitterId) (v e : Val)
    (pre post : list Subscription) (s : Subscription) (text : string)
    (body : Val -> Script) (fuel : nat) :
  wf st ->
  table st em = pre ++ s :: post ->
  Forall (fun x => listener_idle em v (listener x)) pre ->
  listener s = LUser text body -> body v = SThrow e ->
  length pre < fuel ->
  (exists st', emit fuel em v st = Raise e st' /\
     invoked st' = invoked st ++ map (fun x => (target x, v)) (pre ++ [s])) /\
  (forall d rs, pstate st d = Some (Pending rs) ->
     exists st', run_job fuel (JReact (Some (HEmit em)) false v d) st = Some st' /\
                 pstate st' d = Some (Rejected e)).
Proof.
  intros Hwf Htab Hpre Hl Hb Hfuel.
  set (st0 := set_cells (fun cs => cs ++ [None]) st).
  destruct (emit_loop_idle_run em v (length (cells st)) pre [] (s :: post) [] st0)
    as (results1 & st1 & Hrun & Hwf1 & Htab1 & Hinv1 & Hcalm1); [done|done|done|].
  assert (Hemit : emit fuel em v st = Raise e (enter (length (cells st)) s v st1)).
  { unfold emit. fold st0. replace fuel with (length pre + S (fuel - S (length pre))) by lia.
    simpl in Hrun. rewrite Hrun. erewrite emit_loop_throw; [done| |done|done].
    rewrite Htab1. change (table st0 em) with (table st em). rewrite Htab.
    by apply list_lookup_middle. }
  split.
  - eexists. split; [exact Hemit|]. simpl. rewrite Hinv1, map_app. simpl.
    by rewrite <- app_assoc.
  - intros d rs Hd. unfold run_job, run_handler. rewrite Hemit. eexists. split; [done|].
    simpl. assert (Ho : outcome (enter (length (cells st)) s v st1) d = Some None).
    { eapply (calm_outcome st0).
      - eapply calm_trans; [exact Hcalm1|]. by apply calm_same.
      - by eapply outcome_pending. }
    apply outcome_pending_inv in Ho as [rs' Hrs']. by eapply settle_pending.
Qed.

(** ** next *)


Lemma emit_loop_end fuel em v cur k results st :
  table st em !! k = None -> emit_loop (S fuel) em v cur k results st = Normal results st.
Proof. intros H. cbn [emit_loop]. by rewrite H. Qed.


Lemma without_middle sub s a b :
  NoDup (map target (a ++ s :: b)) -> target s = sub ->
  without [sub] (a ++ s :: b) = a ++ b.
Proof.
  intros Hnd Hs. rewrite map_app in Hnd. simpl in Hnd.
  apply NoDup_app in Hnd as (_ & Ha & Hb). apply NoDup_cons in Hb as [Hb _].
  rewrite without_app, without_cons_in by (rewrite Hs; by left).
  rewrite !without_id; [done| |].
  - intros t ->%list_elem_of_singleton. by rewrite <- Hs.
  - intros t ->%list_elem_of_singleton Hin. apply (Ha _ Hin). rewrite Hs. by left.
Qed.

(** ** waitAll *)

Lemma pstate_settle_ne p b x st q : p <> q -> pstate (settle p b x st) q = pstate st q.
Proof.
  intros Hne. unfold settle. destruct (pstate st p) as [[rs|?|?]|]; try done.
  unfold pstate. simpl. by apply list_lookup_insert_ne.
Qed.

Lemma settle_settled p b x st :
  outcome st p <> Some None -> settle p b x st = st.
Proof.
  unfold settle, outcome. by destruct (pstate st p) as [[rs|?|?]|].
Qed.

Lemma counters_settle p b x st : counters (settle p b x st) = counters st.
Proof. unfold settle. by repeat case_match. Qed.

Lemma counters_then p f g st : counters (then_ p f g st).2 = counters st.
Proof. unfold then_. simpl. by repeat case_match. Qed.

Lemma counters_waitAll_register w r ps st :
  counters (waitAll_register w r ps st) = counters st.
Proof.
  revert st. induction ps as [|p ps IH]; intros st; cbn [waitAll_register]; [done|].
  by rewrite IH, counters_then.
Qed.

Lemma pstate_count w st q :
  (forall c, counters st !! w = Some c -> wa_promise c <> q) ->
  pstate (count w st) q = pstate st q.
Proof.
  intros H. unfold count. destruct (counters st !! w) as [c|]; [|done].
  case_decide; [|done]. rewrite pstate_settle_ne; [done|]. by apply H.
Qed.

(** Once the promise of [waitAll] is settled, no callback changes it. *)
Lemma waitAll_callback_settled w r o st x :
  counters st !! w = Some x -> wa_promise x = r ->
  outcome st r <> Some None ->
  outcome (waitAll_callback w r o st) r = outcome st r /\
  exists x', counters (waitAll_callback w r o st) !! w = Some x' /\ wa_promise x' = r.
Proof.
  intros Hw Hr Hset. unfold waitAll_callback. destruct o as [[|] y]; simpl.
  - rewrite settle_settled by done. eauto.
  - unfold count. rewrite Hw, Hr. case_decide.
    + rewrite settle_settled by done. split; [done|]. simpl.
      rewrite list_lookup_insert_eq by (by eapply lookup_lt_Some). eauto.
    + split; [done|]. simpl.
      rewrite list_lookup_insert_eq by (by eapply lookup_lt_Some). eauto.
Qed.

Lemma waitAll_callbacks_settled w r os : forall st x,
  counters st !! w = Some x -> wa_promise x = r ->
  outcome st r <> Some None ->
  outcome (foldl (fun s o => waitAll_callback w r o s) st os) r = outcome st r.
Proof.
  induction os as [|o os IH]; intros st x Hw Hr Hset; [done|]. simpl.
  destruct (waitAll_callback_settled w r o st x Hw Hr Hset) as (Ho & x' & Hw' & Hr').
  rewrite (IH _ x') by (done || by rewrite Ho). done.
Qed.

(** The callbacks of [waitAll] while its promise is pending: [n] more
    successes are awaited. *)
Lemma waitAll_callbacks w r ps os : forall st (n : nat),
  counters st !! w = Some (mkWaitAll (Z.of_nat n) ps r) ->
  outcome st r = Some None ->
  0 < n -> length os <= n ->
  outcome (foldl (fun s o => waitAll_callback w r o s) st os) r =
  match first_failure os with
  | Some e => Some (Some (true, e))
  | None => if decide (length os = n) then Some (Some (false, VUndefined))
            else Some None
  end.
Proof.
  induction os as [|[[|] y] os IH]; intros st n Hw Hp Hn Hlen; simpl in *.
  - rewrite decide_False by lia. done.
  - apply outcome_pending_inv in Hp as [rs Hrs].
    assert (Hs : waitAll_callback w r (true, y) st = settle r true y st) by done.
    assert (Ho : outcome (settle r true y st) r = Some (Some (true, y))).
    { apply outcome_rejected. by erewrite settle_pending. }
    rewrite Hs.
    rewrite (waitAll_callbacks_settled w r os _ (mkWaitAll (Z.of_nat n) ps r));
      [exact Ho|by rewrite counters_settle|done|by rewrite Ho].
  - assert (Hc : waitAll_callback w r (false, y) st = count w st) by done.
    rewrite Hc. unfold count. rewrite Hw. simpl.
    replace (Z.of_nat n - 1)%Z with (Z.of_nat (n - 1)) by lia.
    destruct (decide (n = 1)) as [->|Hn1].
    + simpl.
      destruct os; [|simpl in Hlen; lia]. simpl.
      apply outcome_pending_inv in Hp as [rs Hrs].
      apply outcome_fulfilled. erewrite settle_pending; [done|]. exact Hrs.
    + rewrite decide_False by lia.
      erewrite IH with (n := n - 1).
      * destruct (first_failure os); [done|].
        destruct (decide (length os = n - 1)), (decide (S (length os) = n)); done || lia.
      * simpl. by rewrite list_lookup_insert_eq by (by eapply lookup_lt_Some).
      * done.
      * lia.
      * lia.
Qed.


Lemma registered_then p f g st w r q :
  registered st w r q -> registered (then_ p f g st).2 w r q.
Proof.
  unfold registered, then_, new_promise, pstate. simpl.
  destruct (promises st !! q) as [x|] eqn:Eq; [|done].
  intros H. destruct (promises st !! p) as [[rs|v|e]|] eqn:Ep; simpl.
  - destruct (decide (p = q)) as [->|Hne].
    + rewrite list_lookup_insert_eq by (rewrite length_app; apply lookup_lt_Some in Eq; lia).
      simplify_eq. destruct H as [d Hd]. exists d. apply elem_of_app. by left.
    + rewrite list_lookup_insert_ne by done. by erewrite lookup_app_l_Some.
  - erewrite lookup_app_l_Some by eauto. destruct x as [rs|v'|e']; [done| |].
    + destruct H as [d Hd]. exists d. apply elem_of_app. by left.
    + destruct H as [d Hd]. exists d. apply elem_of_app. by left.
  - erewrite lookup_app_l_Some by eauto. destruct x as [rs|v'|e']; [done| |].
    + destruct H as [d Hd]. exists d. apply elem_of_app. by left.
    + destruct H as [d Hd]. exists d. apply elem_of_app. by left.
  - by erewrite lookup_app_l_Some.
Qed.

Lemma then_registers p st w r :
  p < length (promises st) ->
  registered (then_ p (Some (HCount w)) (Some (HRejectFn r)) st).2 w r p.
Proof.
  intros Hp. unfold registered, then_, new_promise, pstate. simpl.
  destruct (promises st !! p) as [[rs|v|e]|] eqn:Ep; simpl.
  - rewrite list_lookup_insert_eq by (rewrite length_app; lia).
    eexists. apply elem_of_app. right. by left.
  - erewrite lookup_app_l_Some by eauto. eexists. apply elem_of_app. right. by left.
  - erewrite lookup_app_l_Some by eauto. eexists. apply elem_of_app. right. by left.
  - apply lookup_ge_None in Ep. lia.
Qed.

Lemma length_promises_then p f g st :
  length (promises (then_ p f g st).2) = S (length (promises st)).
Proof.
  unfold then_, new_promise. simpl.
  destruct (pstate st p) as [[rs|v|e]|]; simpl; rewrite ?length_insert, length_app;
    simpl; lia.
Qed.

Lemma waitAll_register_registers w r ps : forall st,
  Forall (fun q => q < length (promises st)) ps ->
  Forall (registered (waitAll_register w r ps st) w r) ps.
Proof.
  induction ps as [|p ps IH]; intros st Hps; [done|].
  apply Forall_cons in Hps as [Hp Hps]. cbn [waitAll_register].
  set (st1 := (then_ p (Some (HCount w)) (Some (HRejectFn r)) st).2).
  assert (Hps1 : Forall (fun q => q < length (promises st1)) ps).
  { eapply Forall_impl; [exact Hps|]. intros q Hq. unfold st1.
    rewrite length_promises_then. simpl in Hq. lia. }
  apply Forall_cons. split; [|by apply IH].
  assert (Hreg : registered st1 w r p) by (by apply then_registers).
  clear IH Hps Hps1 Hp. revert Hreg. generalize st1. clear st1.
  induction ps as [|q ps IH]; intros st1 Hreg; [done|].
  cbn [waitAll_register]. apply IH. by apply registered_then.
Qed.

(** C5. [waitAll] of the empty sequence returns a promise that is already
    fulfilled.  For a sequence of existing promises that is not empty it
    returns a pending promise and gives to [then] of each input the
    callbacks [count] and [reject].  Whatever the order in which the inputs
    settle, each calling its callback once: the promise is rejected, with
    the value of the first failure, from the moment an input has failed,
    whatever comes after; it is fulfilled exactly when all the inputs have
    succeeded; else it is still pending. *)
Theorem waitAll_settles (st : State) (ps : list PromiseId) :
  Forall (fun q => q < length (promises st)) ps ->
  exists r st1,
    waitAll ps st = (r, st1) /\
    (ps = [] -> pstate st1 r = Some (Fulfilled VUndefined)) /\
    (ps <> [] ->
       let w := length (counters st) in
       outcome st1 r = Some None /\
       Forall (registered st1 w r) ps /\
       forall os, length os <= length ps ->
         outcome (foldl (fun s o => waitAll_callback w r o s) st1 os) r =
         match first_failure os with
         | Some e => Some (Some (true, e))
         | None => if decide (length os = length ps)
                   then Some (Some (false, VUndefined)) else Some None
         end).
Proof.
  intros Hps. unfold waitAll. case_decide as Hn.
  - eexists _, _. split; [done|]. split.
    + intros _. unfold pstate. simpl. by rewrite list_lookup_middle.
    + intros Hne. destruct ps; [done|simpl in Hn; lia].
  - set (w := length (counters st)). set (r := length (promises st)).
    set (st2 := set_counters (fun cs => cs ++ [mkWaitAll (Z.of_nat (length ps)) ps r])
                  (new_promise (Pending []) (OWaitAll w) st).2).
    exists r, (waitAll_register w r ps st2). split; [done|].
    split; [intros ->; simpl in Hn; lia|]. intros _.
    assert (Hr : outcome (waitAll_register w r ps st2) r = Some None).
    { eapply calm_outcome; [apply calm_waitAll_register|].
      unfold outcome, pstate, st2, r. simpl. by rewrite list_lookup_middle. }
    split_and!; [done| |].
    + apply waitAll_register_registers. eapply Forall_impl; [exact Hps|].
      intros q Hq. unfold st2. simpl. rewrite length_app. simpl in Hq. lia.
    + intros os Hos. apply (waitAll_callbacks w r ps); [|done|lia|done].
      rewrite counters_waitAll_register. unfold st2, w. simpl.
      by rewrite list_lookup_middle.
Qed.

(** ** The turns of the event loop *)

Lemma microtasks_settle_pending p b x rs st :
  pstate st p = Some (Pending rs) ->
  microtasks (settle p b x st) = microtasks st ++ map (reaction_job b x) rs.
Proof. intros Hp. unfold settle. by rewrite Hp. Qed.

Lemma cells_settle p b x st : cells (settle p b x st) = cells st.
Proof. unfold settle. by repeat case_match. Qed.

Lemma now_settle p b x st : now (settle p b x st) = now st.
Proof. unfold settle. by repeat case_match. Qed.

Lemma turn_job fuel j js st :
  microtasks st = j :: js ->
  turn fuel st =
  match run_job fuel j (set_microtasks (fun _ => js) st) with
  | Some st' => Next st'
  | None => Stuck
  end.
Proof. intros H. unfold turn. by rewrite H. Qed.

Lemma turn_timer fuel i t st :
  microtasks st = [] -> earliest (timers st) = Some (i, t) ->
  turn fuel st =
  Next (fire (action t)
          (set_now (now st `max` due t) (set_timers (fun ts => delete i ts) st))).
Proof. intros H1 H2. unfold turn. by rewrite H1, H2. Qed.

(** A job that calls [reject] of the pending promise [r]: [r] is rejected,
    its reactions are queued, then the derived promise of the job is
    fulfilled. *)
Lemma run_job_reject fuel r e d rs st :
  pstate st r = Some (Pending rs) -> r <> d ->
  pstate st d = Some (Pending []) ->
  exists st',
    run_job fuel (JReact (Some (HRejectFn r)) true e d) st = Some st' /\
    pstate st' r = Some (Rejected e) /\
    microtasks st' = microtasks st ++ map (reaction_job true e) rs /\
    (forall q, q <> r -> q <> d -> pstate st' q = pstate st q) /\
    terrs st' = terrs st /\ cells st' = cells st /\ now st' = now st.
Proof.
  intros Hr Hne Hd. unfold run_job, run_handler. eexists. split; [done|].
  cbn [resolve_with].
  assert (Hd' : pstate (settle r true e st) d = Some (Pending [])).
  { by rewrite pstate_settle_ne. }
  split_and!.
  - rewrite pstate_settle_ne by done. by erewrite settle_pending.
  - erewrite microtasks_settle_pending by eauto. simpl. rewrite app_nil_r.
    by apply microtasks_settle_pending.
  - intros q Hq1 Hq2. by rewrite !pstate_settle_ne.
  - by rewrite !terrs_settle.
  - by rewrite !cells_settle.
  - by rewrite !now_settle.
Qed.

(** The catch callback of [emit] on a [TimeoutError] that nobody has named
    yet: the error gets the text of the listener that the variable
    [current] holds now, and the derived promise is rejected with it. *)
Lemma run_job_stamp fuel cur r c d rs st :
  terrs st !! r = Some unknown_listener ->
  cells st !! cur = Some (Some c) ->
  pstate st d = Some (Pending rs) ->
  exists st',
    run_job fuel (JReact (Some (HStamp cur)) true (VTimeoutError r) d) st = Some st' /\
    pstate st' d = Some (Rejected (VTimeoutError r)) /\
    microtasks st' =
      microtasks st ++ map (reaction_job true (VTimeoutError r)) rs /\
    (forall q, q <> d -> pstate st' q = pstate st q) /\
    terrs st' = <[r := listener_text (listener c)]> (terrs st) /\
    now st' = now st.
Proof.
  intros Hr Hc Hd. unfold run_job, run_handler, stamp. rewrite Hr, Hc.
  rewrite decide_True by done. eexists. split; [done|]. cbn [resolve_with].
  set (st1 := set_terrs _ st).
  assert (Hd1 : pstate st1 d = Some (Pending rs)) by done.
  split_and!.
  - by erewrite settle_pending.
  - by erewrite microtasks_settle_pending.
  - intros q Hq. by rewrite pstate_settle_ne.
  - by rewrite terrs_settle.
  - by rewrite now_settle.
Qed.

Lemma run_next fuel n st st' :
  turn fuel st = Next st' -> run fuel (S n) st = run fuel n st'.
Proof. intros H. cbn [run]. by rewrite H. Qed.

Lemma turn_job_next fuel j js st st' :
  microtasks st = j :: js ->
  run_job fuel j (set_microtasks (fun _ => js) st) = Some st' ->
  turn fuel st = Next st'.
Proof. intros H1 H2. erewrite turn_job by eauto. by rewrite H2. Qed.

(** The four turns from the firing of the timer of one entry of an emission:
    the timer promise [t], the race [r], the promise [p] of the catch that
    [emit] pushed, and the promise [w] that [emit] returned. *)
Lemma timeout_path fuel st i dt e t r p w a1 a2 cur wc c rsw :
  microtasks st = [] ->
  earliest (timers st) = Some (i, mkTimer dt (TReject t (VTimeoutError e))) ->
  pstate st t =
    Some (Pending [mkReaction (Some (HResolveFn r)) (Some (HRejectFn r)) a1]) ->
  pstate st r = Some (Pending [mkReaction None (Some (HStamp cur)) p]) ->
  pstate st p =
    Some (Pending [mkReaction (Some (HCount wc)) (Some (HRejectFn w)) a2]) ->
  pstate st w = Some (Pending rsw) ->
  pstate st a1 = Some (Pending []) -> pstate st a2 = Some (Pending []) ->
  NoDup [t; r; p; w; a1; a2] ->
  terrs st !! e = Some unknown_listener ->
  cells st !! cur = Some (Some c) ->
  exists st',
    run fuel 4 st = Some st' /\
    pstate st' w = Some (Rejected (VTimeoutError e)) /\
    terrs st' !! e = Some (listener_text (listener c)) /\
    now st' = now st `max` dt.
Proof.
  intros Hq Hti Ht Hr Hp Hw Ha1 Ha2 Hnd He Hc.
  assert (Hdist : t <> r /\ t <> p /\ t <> w /\ t <> a1 /\ t <> a2 /\ r <> p /\ r <> w /\
                  r <> a1 /\ r <> a2 /\ p <> w /\ p <> a1 /\ p <> a2 /\ w <> a1 /\
                  w <> a2 /\ a1 <> a2).
  { repeat (apply NoDup_cons in Hnd as [? Hnd]).
    repeat match goal with H : _ ∉ _ |- _ => rewrite !not_elem_of_cons in H end.
    intuition congruence. }
  destruct Hdist as (? & ? & ? & ? & ? & ? & ? & ? & ? & ? & ? & ? & ? & ? & ?).
  (* first turn: the timer *)
  set (st0 := set_now (now st `max` dt) (set_timers (fun ts => delete i ts) st)).
  set (st1 := settle t true (VTimeoutError e) st0).
  assert (Hturn1 : turn fuel st = Next st1) by (by rewrite (turn_timer fuel i _ st Hq Hti)).
  assert (Ht0 : pstate st0 t = Some (Pending
            [mkReaction (Some (HResolveFn r)) (Some (HRejectFn r)) a1])) by done.
  assert (Hq1 : microtasks st1 = [JReact (Some (HRejectFn r)) true (VTimeoutError e) a1]).
  { unfold st1. erewrite microtasks_settle_pending by eauto.
    change (microtasks st0) with (microtasks st). by rewrite Hq. }
  assert (Hps1 : forall q, q <> t -> pstate st1 q = pstate st q).
  { intros q Hqt. unfold st1. by rewrite pstate_settle_ne. }
  assert (Hte1 : terrs st1 = terrs st) by (unfold st1; by rewrite terrs_settle).
  assert (Hce1 : cells st1 = cells st) by (unfold st1; by rewrite cells_settle).
  assert (Hnow1 : now st1 = now st `max` dt) by (unfold st1; by rewrite now_settle).
  (* second turn: reject of the race *)
  destruct (run_job_reject fuel r (VTimeoutError e) a1
              [mkReaction None (Some (HStamp cur)) p]
              (set_microtasks (fun _ => []) st1))
    as (st2 & Hrun2 & Hr2 & Hq2 & Hps2 & Hte2 & Hce2 & Hnow2);
    [by rewrite <- Hr, <- (Hps1 r)|done|by rewrite <- Ha1, <- (Hps1 a1)|].
  simpl in Hq2.
  assert (Hturn2 : turn fuel st1 = Next st2) by (by eapply turn_job_next).
  change (terrs st2 = terrs st1) in Hte2. change (cells st2 = cells st1) in Hce2.
  change (now st2 = now st1) in Hnow2.
  assert (Hps2' : forall q, q <> r -> q <> a1 -> pstate st2 q = pstate st1 q)
    by exact Hps2.
  (* third turn: the catch callback *)
  destruct (run_job_stamp fuel cur e c p
              [mkReaction (Some (HCount wc)) (Some (HRejectFn w)) a2]
              (set_microtasks (fun _ => []) st2))
    as (st3 & Hrun3 & Hp3 & Hq3 & Hps3 & Hte3 & Hnow3).
  { change (terrs st2 !! e = Some unknown_listener). by rewrite Hte2, Hte1. }
  { change (cells st2 !! cur = Some (Some c)). by rewrite Hce2, Hce1. }
  { change (pstate st2 p = Some (Pending
      [mkReaction (Some (HCount wc)) (Some (HRejectFn w)) a2])).
    rewrite Hps2', Hps1 by done. done. }
  simpl in Hq3.
  assert (Hturn3 : turn fuel st2 = Next st3) by (by eapply turn_job_next).
  change (terrs st3 = <[e:=listener_text (listener c)]> (terrs st2)) in Hte3.
  change (now st3 = now st2) in Hnow3.
  assert (Hps3' : forall q, q <> p -> pstate st3 q = pstate st2 q) by exact Hps3.
  (* fourth turn: reject of the promise of emit *)
  destruct (run_job_reject fuel w (VTimeoutError e) a2 rsw
              (set_microtasks (fun _ => []) st3))
    as (st4 & Hrun4 & Hw4 & _ & _ & Hte4 & _ & Hnow4).
  { change (pstate st3 w = Some (Pending rsw)).
    rewrite Hps3', Hps2', Hps1 by done. done. }
  { done. }
  { change (pstate st3 a2 = Some (Pending [])).
    rewrite Hps3', Hps2', Hps1 by done. done. }
  assert (Hturn4 : turn fuel st3 = Next st4) by (by eapply turn_job_next).
  change (terrs st4 = terrs st3) in Hte4. change (now st4 = now st3) in Hnow4.
  exists st4. split_and!.
  - rewrite (run_next _ _ _ _ Hturn1), (run_next _ _ _ _ Hturn2),
      (run_next _ _ _ _ Hturn3), (run_next _ _ _ _ Hturn4). done.
  - done.
  - rewrite Hte4, Hte3. apply list_lookup_insert_eq.
    rewrite Hte2, Hte1. by eapply lookup_lt_Some.
  - by rewrite Hnow4, Hnow3, Hnow2, Hnow1.
Qed.

(** The test 'timeouts' as it is written, [fast] subscribed first: the
    error names [slow]. *)
Example timeouts_test_passes :
  exists w st',
    emit_and_run 0 (VNum 0) (two_listeners (Some 10) fast slow) = Some (w, st') /\
    pstate st' w = Some (Rejected (VTimeoutError 1)) /\
    terrs st' = [unknown_listener; listener_text slow].
Proof. eexists _, _. split; [vm_compute; reflexivity|]. by vm_compute. Qed.

(** C1, at the failing input: with [slow] subscribed first and [fast]
    second, the race of [slow] times out and [emit] fails with its
    [TimeoutError] (the first one created), but the error names [fast], the
    listener that the variable [current] holds when the callback runs. *)
Theorem timeout_blames_last_listener :
  exists w st',
    emit_and_run 0 (VNum 0) (two_listeners (Some 10) slow fast) = Some (w, st') /\
    pstate st' w = Some (Rejected (VTimeoutError 0)) /\
    terrs st' = [listener_text fast; unknown_listener].
Proof. eexists _, _. split; [vm_compute; reflexivity|]. by vm_compute. Qed.

(** C2 is false as stated: with one listener that throws, [emit] raises
    the error and returns no promise. *)
Lemma emit_raises_counterexample :
  exists st',
    emit 16 0 (VNum 0) (two_listeners None thrower fast) = Raise (VError "boom") st' /\
    invoked st' = [(1, VNum 0)] /\
    forall w st'', emit 16 0 (VNum 0) (two_listeners None thrower fast) <> Normal w st''.
Proof.
  eexists. split; [vm_compute; reflexivity|]. split; [done|].
  intros w st''. by vm_compute.
Qed.


(** ** No timer without the option *)












(** * The invariant of the promises *)

(** ** What stays true as the machine advances *)

Lemma adv_refl st : adv st st.
Proof. unfold adv. naive_solver. Qed.

Lemma adv_trans st1 st2 st3 : adv st1 st2 -> adv st2 st3 -> adv st1 st3.
Proof.
  intros (Ho1 & Hs1 & He1 & Hc1) (Ho2 & Hs2 & He2 & Hc2). split_and!; [naive_solver..|].
  intros w c Hw. destruct (Hc1 w c Hw) as (c' & Hw' & Hi & Hp).
  destruct (Hc2 w c' Hw') as (c'' & Hw'' & Hi' & Hp').
  exists c''. split_and!; [done|congruence..].
Qed.

Lemma settled_adv st st' p : adv st st' -> settled st p -> settled st' p.
Proof. intros (_ & Hs & _) [o Ho]. exists o. by apply Hs. Qed.

Lemma emitted_adv st st' em v w : adv st st' -> emitted st em v w -> emitted st' em v w.
Proof. intros (_ & _ & He & _) [rs H]. exists rs. by apply He. Qed.

Lemma resolves_adv st st' d q : adv st st' -> resolves st d q -> resolves st' d q.
Proof.
  intros Ha. unfold resolves. destruct (orig st d) as [o|] eqn:Ho; [|done].
  rewrite (proj1 Ha _ _ Ho).
  destruct o as [| | | | |l [[]|] []]; try done.
  - intros (u & Hu & He). exists u. split; [by apply Ha|by eapply emitted_adv].
  - by apply settled_adv.
Qed.

Lemma shape_adv st st' a q f g : adv st st' -> shape st a q f g -> shape st' a q f g.
Proof.
  intros Ha [ch|k|d Hd|w c i Hw Hi Hq|cur]; try by constructor.
  - constructor. by eapply resolves_adv.
  - destruct (proj2 (proj2 (proj2 Ha)) w c Hw) as (c' & Hw' & Hi' & Hp').
    rewrite <- Hp'. eapply shape_count; [done|by rewrite Hi'|].
    unfold aux. by rewrite Hp'.
Qed.

Lemma contribution_adv st st' c : adv st st' -> contribution st c -> contribution st' c.
Proof.
  intros Ha (d & l & ch & Hd & Hl & [->|(r & t & cur & a & Hc & Hr & Hr' & Ht & Hra & Hda)]).
  - exists d, l, ch. split_and!; [by apply Ha|done|by left].
  - exists d, l, ch. split_and!; [by apply Ha|done|].
    right. exists r, t, cur, a. split_and!; [by apply Ha|done|by apply Ha..|done].
Qed.

Lemma counter_ok_adv st st' w c c' :
  adv st st' -> wa_inputs c' = wa_inputs c -> wa_promise c' = wa_promise c ->
  counter_ok st w c -> counter_ok st' w c'.
Proof.
  intros Ha Hi Hp [Ho Hlt]. unfold counter_ok. rewrite Hi, Hp.
  split; [by apply Ha|done].
Qed.

Lemma emit_ok_adv st st' ec : adv st st' -> emit_ok st ec -> emit_ok st' ec.
Proof.
  intros Ha [Hc Hw]. split.
  - eapply Forall_impl; [exact Hc|]. intros c. by apply contribution_adv.
  - destruct (ec_results ec) as [|c0 rs]; [by apply Ha|].
    destruct Hw as (w & c & Ho & Hw & Hi & Hp & Haux).
    destruct (proj2 (proj2 (proj2 Ha)) w c Hw) as (c' & Hw' & Hi' & Hp').
    exists w, c'. split_and!; [by apply Ha|done|congruence..|].
    intros i q Hq. unfold aux. rewrite Hp'. rewrite Hi' in Hq.
    apply Ha. by apply Haux.
Qed.

Lemma justified_adv st st' p o :
  adv st st' -> outcome st' p = outcome st p ->
  justified st p o -> justified st' p o.
Proof.
  intros Ha Hp. pose proof Ha as (Hao & Has & Hae & Hac).
  destruct o as [| | |ps|w|l f g]; simpl; rewrite ?Hp; try done.
  - intros H x Hx. destruct (H x Hx) as (q & Hq & Hqx). exists q. split; [done|by apply Has].
  - intros (c & Hw & Hf & Hr). destruct (Hac w c Hw) as (c' & Hw' & Hi' & Hp').
    exists c'. rewrite Hi'. split_and!; [done| |].
    + intros v Hv q Hq. destruct (Hf v Hv q Hq) as [v' Hv']. exists v'. by apply Has.
    + intros e He. destruct (Hr e He) as (q & Hq & Hqe). exists q. split; [done|by apply Has].
  - assert (Hback : settled st' p -> settled st p).
    { intros [x Hx]. exists x. by rewrite <- Hp. }
    intros [Hgen Hspec]. split.
    + intros H. eapply settled_adv; [done|]. by apply Hgen, Hback.
    + destruct f as [[ch|d|d|w|cur|k]|], g as [[]|]; try done;
        try (intros H; eapply settled_adv; [done|]; by apply Hspec, Hback).
      * destruct Hspec as [Hf Hr]. split.
        -- intros v Hv. destruct (Hf v Hv) as (u & w & Hu & He & Hw).
           exists u, w. split_and!; [by apply Has|by eapply emitted_adv|by apply Has].
        -- intros e He. destruct (Hr e He) as [H|[u H]]; [left|right; exists u]; by apply Has.
      * intros Hs e He. eapply settled_adv; [done|].
        destruct (Hgen (Hback Hs)) as [[b y] Hy].
        assert (Hl : outcome st l = Some (Some (true, e))).
        { pose proof (Has _ _ Hy) as Hy'. rewrite Hy' in He. by rewrite Hy, He. }
        by eapply Hspec; [apply Hback|].
      * destruct Hspec as [Hf Hr]. split.
        -- intros v Hv. apply Has. by apply Hf.
        -- intros e He. destruct (Hr e He) as (e0 & H0 & Hst). exists e0. split; [by apply Has|done].
Qed.

(** ** Steps that leave the promises alone *)

Section same_heap.
Context (st st' : State) (H : same_heap st st').

Lemma same_pstate p : pstate st' p = pstate st p.
  Proof. unfold pstate. by rewrite (proj1 H). Qed.

Lemma same_outcome p : outcome st' p = outcome st p.
  Proof. unfold outcome. by rewrite same_pstate. Qed.

Lemma same_orig p : orig st' p = orig st p.
  Proof. unfold orig. by rewrite (proj1 (proj2 H)). Qed.

Lemma same_adv : adv st st'.
  Proof.
    destruct H as (Hp & Ho & Hm & Hc & He). split_and!.
    - intros p o. by rewrite same_orig.
    - intros p x. by rewrite same_outcome.
    - intros ec. by rewrite He.
    - intros w c Hw. exists c. by rewrite Hc.
  Qed.

Lemma same_in_reactions d : in_reactions st' d <-> in_reactions st d.
  Proof. unfold in_reactions. by setoid_rewrite same_pstate. Qed.

Lemma same_in_jobs d : in_jobs st' d <-> in_jobs st d.
  Proof. unfold in_jobs. by rewrite (proj1 (proj2 (proj2 H))). Qed.

Lemma same_idle d : idle st' d <-> idle st d.
  Proof. unfold idle. by rewrite same_in_reactions, same_in_jobs. Qed.

Lemma same_is_done w c i : is_done st' w c i = is_done st w c i.
  Proof. unfold is_done. rewrite same_orig, !same_outcome.
    destruct (orig st (aux c i)) as [[| | | | |l [[]|] g]|]; try done.
    destruct (outcome st (aux c i)) as [[]|]; try done.
    destruct (wa_inputs c !! i); try done. by rewrite same_outcome. Qed.

Lemma same_ndone w c : ndone st' w c = ndone st w c.
  Proof.
    unfold ndone. f_equal. apply list_filter_iff. intros i. by rewrite same_is_done.
  Qed.
End same_heap.

Lemma same_heap_sym st st' : same_heap st st' -> same_heap st' st.
Proof. intros (H1 & H2 & H3 & H4 & H5). by split_and!. Qed.

Lemma same_counted st st' : same_heap st st' -> counted st -> counted st'.
Proof.
  intros H Hc w c Hw. rewrite (same_ndone _ _ H). apply Hc.
  by rewrite <- (proj1 (proj2 (proj2 (proj2 H)))).
Qed.

Lemma same_waits st st' d q : same_heap st st' -> waits st d q -> waits st' d q.
Proof.
  intros H. unfold waits. setoid_rewrite (same_pstate _ _ H).
  rewrite (same_in_jobs _ _ H). setoid_rewrite (same_orig _ _ H).
  by rewrite (proj1 (proj2 (proj2 H))).
Qed.

Lemma same_live_but st st' D : same_heap st st' -> live_but D st -> live_but D st'.
Proof.
  intros H Hl d q f g Ho Hq Hd HD. eapply same_waits; [done|].
  rewrite (same_orig _ _ H) in Ho. rewrite (same_outcome _ _ H) in Hd. by eapply Hl.
Qed.

(** The invariant needs of the timers and of the tables only that the
    promises they can settle have the right origin. *)
Lemma inv_frame st st' :
  same_heap st st' ->
  (forall t, t ∈ timers st' ->
     t ∈ timers st \/
     match action t with
     | TResolve p _ => orig st p = Some OPlain
     | TReject p _ => orig st p = Some OTimer
     end) ->
  (forall em s, s ∈ table st' em ->
     (exists em', s ∈ table st em') \/
     match listener s with
     | LNext _ _ _ p => orig st p = Some ONext
     | LUser _ _ => True
     end) ->
  inv st -> inv st'.
Proof.
  intros H Ht Htab Hinv.
  pose proof (same_adv _ _ H) as Ha.
  pose proof (same_adv _ _ (same_heap_sym _ _ H)) as Ha'.
  destruct H as (Hp & Ho & Hm & Hc & He) eqn:EH. clear EH.
  assert (HP : forall p, pstate st' p = pstate st p) by (intros; unfold pstate; by rewrite Hp).
  assert (HO : forall p, orig st' p = orig st p) by (intros; unfold orig; by rewrite Ho).
  assert (HU : forall p, outcome st' p = outcome st p) by (intros; unfold outcome; by rewrite HP).
  assert (HI : forall d, idle st d -> idle st' d).
  { intros d. unfold idle, in_reactions, in_jobs. setoid_rewrite HP. by rewrite Hm. }
  constructor.
  - rewrite Ho, Hp. apply Hinv.
  - intros a q f g. rewrite HO. intros. eapply shape_adv; [done|]. by apply Hinv.
  - intros q rs r. rewrite HP, HO, HU. apply Hinv.
  - intros q rs. rewrite HP. apply Hinv.
  - intros h b x d. rewrite Hm. setoid_rewrite HO. setoid_rewrite HU. apply Hinv.
  - rewrite Hm. apply Hinv.
  - intros d q. rewrite Hm. intros Hj. destruct (inv_thenables _ Hinv d q Hj) as (?&?&?).
    split_and!; [by eapply resolves_adv|by apply HI|by rewrite Hp].
  - intros a q d g. rewrite HO. intros Hx. apply HI. by eapply inv_resolvers.
  - intros t Hin. apply Ht in Hin as [Hin|Hx].
    + pose proof (inv_timers _ Hinv t Hin) as Hx. destruct (action t); by rewrite HO.
    + destruct (action t); by rewrite HO.
  - intros em s Hin. destruct (Htab em s Hin) as [[em' Hin']|Hx].
    + pose proof (inv_tables _ Hinv em' s Hin') as Hx.
      destruct (listener s); [done|]. by rewrite HO.
    + destruct (listener s); [done|]. by rewrite HO.
  - intros w c. rewrite Hc. intros Hw. eapply counter_ok_adv; [done..|]. by apply Hinv.
  - intros p o. rewrite HO. intros. eapply justified_adv; [done|by rewrite HU|]. by apply Hinv.
  - intros ec. rewrite He. intros. eapply emit_ok_adv; [done|]. by apply Hinv.
Qed.

(** ** Counting with [filter] *)

Lemma filter_none {A} (P : A -> Prop) `{!forall x, Decision (P x)} (l : list A) :
  (forall x, x ∈ l -> ~ P x) -> filter P l = [].
Proof.
  induction l as [|x l IH]; intros Hall; [done|].
  rewrite filter_cons_False by (apply Hall; left).
  apply IH. intros y Hy. apply Hall. by right.
Qed.

(** Two predicates that differ at [i0] only, where the second holds. *)
Lemma length_filter_flip (f f' : nat -> bool) (n i0 : nat) :
  i0 < n -> f i0 = false -> f' i0 = true ->
  (forall i, i <> i0 -> f' i = f i) ->
  length (filter (fun i => f' i = true) (seq 0 n)) =
  S (length (filter (fun i => f i = true) (seq 0 n))).
Proof.
  intros Hlt H0 H0' Hne.
  replace n with (i0 + (1 + (n - S i0))) by lia.
  rewrite !seq_app, !filter_app, !length_app. simpl.
  rewrite (filter_cons_True (fun i => f' i = true)) by done.
  rewrite (filter_cons_False (fun i => f i = true)) by (by rewrite H0).
  assert (Heq : forall l : list nat, i0 ∉ l ->
    filter (fun i => f' i = true) l = filter (fun i => f i = true) l).
  { intros l Hl. induction l as [|x l IH]; [done|].
    apply not_elem_of_cons in Hl as [Hx Hl].
    rewrite !filter_cons. rewrite (Hne x) by done.
    destruct (decide (f x = true)); by rewrite IH. }
  rewrite !Heq by first [apply not_elem_of_nil | rewrite elem_of_seq; lia].
  simpl; lia.
Qed.

(** ** States with the same settlements *)

Lemma is_done_ext st st' w c i :
  (forall p, orig st' p = orig st p) -> (forall p, outcome st' p = outcome st p) ->
  is_done st' w c i = is_done st w c i.
Proof.
  intros Ho Hu. unfold is_done. rewrite Ho, !Hu.
  destruct (orig st (aux c i)) as [[| | | | |l [[]|] g]|]; try done.
  destruct (outcome st (aux c i)) as [[]|]; try done.
  destruct (wa_inputs c !! i); try done. by rewrite Hu.
Qed.

Lemma counted_ext st st' :
  (forall p, orig st' p = orig st p) -> (forall p, outcome st' p = outcome st p) ->
  counters st' = counters st -> counted st -> counted st'.
Proof.
  intros Ho Hu Hc Hcd w c. rewrite Hc. intros Hw.
  rewrite (Hcd w c Hw). unfold ndone. do 3 f_equal.
  apply list_filter_iff. intros i. by rewrite (is_done_ext st st').
Qed.

Lemma adv_ext st st' :
  (forall p, orig st' p = orig st p) -> (forall p, outcome st' p = outcome st p) ->
  counters st' = counters st -> emits st' = emits st -> adv st st'.
Proof.
  intros Ho Hu Hc He. split_and!.
  - intros p o. by rewrite Ho.
  - intros p x. by rewrite Hu.
  - intros ec. by rewrite He.
  - intros w c Hw. exists c. by rewrite Hc.
Qed.

(** ** Reading a shape *)

Lemma shape_count_inv st a q w g :
  shape st a q (Some (HCount w)) g ->
  exists c i, counters st !! w = Some c /\ wa_inputs c !! i = Some q /\
    a = aux c i /\ g = Some (HRejectFn (wa_promise c)).
Proof. inversion 1; subst. eauto 10. Qed.

Lemma shape_resolve_inv st a q d g :
  shape st a q (Some (HResolveFn d)) g -> resolves st d q /\ g = Some (HRejectFn d).
Proof. inversion 1; subst. eauto. Qed.

Lemma shape_reject_inv st a q f r :
  shape st a q f (Some (HRejectFn r)) ->
  (f = Some (HResolveFn r) /\ resolves st r q) \/
  (exists w c i, f = Some (HCount w) /\ counters st !! w = Some c /\
     wa_inputs c !! i = Some q /\ a = aux c i /\ r = wa_promise c).
Proof. inversion 1; subst; [left|right]; eauto 10. Qed.

Lemma shape_none_inv st a q g : shape st a q None g -> exists cur, g = Some (HStamp cur).
Proof. inversion 1; subst. eauto. Qed.

Lemma shape_emit_inv st a q ch g : shape st a q (Some (HEmit ch)) g -> g = None.
Proof. by inversion 1. Qed.

Lemma shape_script_inv st a q k g : shape st a q (Some (HScript k)) g -> g = None.
Proof. by inversion 1. Qed.

Lemma shape_f_inv st a q f g :
  shape st a q f g ->
  match f with
  | Some (HRejectFn _) | Some (HStamp _) => False
  | _ => True
  end.
Proof. by inversion 1. Qed.

Lemma shape_g_inv st a q f g :
  shape st a q f g ->
  match g with
  | None | Some (HRejectFn _) | Some (HStamp _) => True
  | _ => False
  end.
Proof. by inversion 1. Qed.

Lemma sound_frame D st st' :
  same_heap st st' ->
  (forall t, t ∈ timers st' ->
     t ∈ timers st \/
     match action t with
     | TResolve p _ => orig st p = Some OPlain
     | TReject p _ => orig st p = Some OTimer
     end) ->
  (forall em s, s ∈ table st' em ->
     (exists em', s ∈ table st em') \/
     match listener s with
     | LNext _ _ _ p => orig st p = Some ONext
     | LUser _ _ => True
     end) ->
  sound D st -> sound D st' /\ adv st st'.
Proof.
  intros H Ht Htab (Hinv & Hcd & Hl & HD). split; [split_and!|].
  - by eapply inv_frame.
  - by eapply same_counted.
  - by eapply same_live_but.
  - intros d Hd. destruct (HD d Hd) as [Hi Hlt]. split.
    + by apply (same_idle _ _ H).
    + by rewrite (proj1 H).
  - by apply same_adv.
Qed.

(** ** Existing promises *)

Lemma orig_lt st p o : inv st -> orig st p = Some o -> p < length (promises st).
Proof.
  intros Hinv Ho. rewrite <- (inv_origins _ Hinv). by eapply lookup_lt_Some.
Qed.

Lemma outcome_lt st p x : outcome st p = Some x -> p < length (promises st).
Proof.
  unfold outcome, pstate. destruct (promises st !! p) eqn:E; [|done].
  intros _. by eapply lookup_lt_Some.
Qed.

Lemma outcome_ge st p : length (promises st) <= p -> outcome st p = None.
Proof. intros H. unfold outcome, pstate. by rewrite lookup_ge_None_2. Qed.

Lemma orig_ge st p : inv st -> length (promises st) <= p -> orig st p = None.
Proof.
  intros Hinv H. unfold orig. apply lookup_ge_None_2. by rewrite (inv_origins _ Hinv).
Qed.

Lemma in_reactions_lt st d : inv st -> in_reactions st d -> d < length (promises st).
Proof.
  intros Hinv (q & rs & r & Hq & Hr & <-).
  destruct (inv_reactions _ Hinv q rs r Hq Hr) as [Ho _]. by eapply orig_lt.
Qed.

Lemma in_jobs_lt st d : inv st -> in_jobs st d -> d < length (promises st).
Proof.
  intros Hinv (h & b & x & Hj).
  destruct (inv_jobs _ Hinv h b x d Hj) as (q & f & g & Ho & _). by eapply orig_lt.
Qed.

(** A promise that waits for its reaction was made by [then]. *)
Lemma idle_not_then st d :
  inv st -> (forall q f g, orig st d <> Some (OThen q f g)) -> idle st d.
Proof.
  intros Hinv Hd. split.
  - intros (q & rs & r & Hq & Hr & <-).
    destruct (inv_reactions _ Hinv q rs r Hq Hr) as [Ho _]. by eapply Hd.
  - intros (h & b & x & Hj).
    destruct (inv_jobs _ Hinv h b x d Hj) as (q & f & g & Ho & _). by eapply Hd.
Qed.

(** ** A new promise that [then] did not make *)

Section alloc.
Context (st st' : State) (s : PState) (o : Origin) (cs : list WaitAll).
Context (Hinv : inv st).
Context (Hp : promises st' = promises st ++ [s]).
Context (Ho : origins st' = origins st ++ [o]).
Context (Hm : microtasks st' = microtasks st).
Context (Hc : counters st' = counters st ++ cs).
Context (He : emits st' = emits st).
Context (Ht : timers st' = timers st).
Context (Hes : emitters st' = emitters st).

Local Abbreviation n := (length (promises st)).

Lemma alloc_pstate p : p < n -> pstate st' p = pstate st p.
  Proof. intros H. unfold pstate. rewrite Hp. by apply lookup_app_l. Qed.

Lemma alloc_pstate_new : pstate st' n = Some s.
  Proof. unfold pstate. rewrite Hp. by apply list_lookup_middle. Qed.

Lemma alloc_outcome p : p < n -> outcome st' p = outcome st p.
  Proof. intros H. unfold outcome. by rewrite alloc_pstate. Qed.

Lemma alloc_orig p : p < n -> orig st' p = orig st p.
  Proof.
    intros H. unfold orig. rewrite Ho. apply lookup_app_l.
    by rewrite (inv_origins _ Hinv).
  Qed.

Lemma alloc_orig_new : orig st' n = Some o.
  Proof.
    unfold orig. rewrite Ho. apply list_lookup_middle. by rewrite (inv_origins _ Hinv).
  Qed.

Lemma alloc_pstate_inv p x :
    pstate st' p = Some x -> (p < n /\ pstate st p = Some x) \/ (p = n /\ x = s).
  Proof.
    unfold pstate. rewrite Hp. intros H. apply lookup_app_Some in H as [H|[Hge H]].
    - left. split; [by eapply lookup_lt_Some|done].
    - right. destruct (p - n) as [|k] eqn:E; simpl in H; [|by destruct k].
      split; [lia|congruence].
  Qed.

Lemma alloc_orig_inv p x :
    orig st' p = Some x -> (p < n /\ orig st p = Some x) \/ (p = n /\ x = o).
  Proof.
    unfold orig. rewrite Ho. intros H. apply lookup_app_Some in H as [H|[Hge H]].
    - left. split; [|done]. rewrite <- (inv_origins _ Hinv). by eapply lookup_lt_Some.
    - right. rewrite (inv_origins _ Hinv) in *.
      destruct (p - n) as [|k] eqn:E; simpl in H; [|by destruct k].
      split; [lia|congruence].
  Qed.

Lemma alloc_adv : adv st st'.
  Proof.
    split_and!.
    - intros p x H. rewrite alloc_orig; [done|]. by eapply orig_lt.
    - intros p x H. rewrite alloc_outcome; [done|]. by eapply outcome_lt.
    - intros ec. by rewrite He.
    - intros w c H. exists c. split; [|done]. rewrite Hc. by apply lookup_app_l_Some.
  Qed.

Context (Hs : match s with Pending rs => rs = [] | _ => True end).

Lemma alloc_in_reactions d : in_reactions st' d -> in_reactions st d.
  Proof.
    intros (q & rs & r & Hq & Hr & Hd).
    apply alloc_pstate_inv in Hq as [[_ Hq]|[_ <-]].
    - by exists q, rs, r.
    - subst rs. by apply elem_of_nil in Hr.
  Qed.

Lemma alloc_idle d : idle st d -> idle st' d.
  Proof.
    intros [H1 H2]. split.
    - intros H. by apply H1, alloc_in_reactions.
    - unfold in_jobs. by rewrite Hm.
  Qed.

Context (Hthen : forall q f g, o = OThen q f g ->
    s = Pending [] /\ shape st' n q f g /\
    forall d, f = Some (HResolveFn d) -> idle st d).

Lemma alloc_is_done w c i :
    counter_ok st w c -> is_done st' w c i = is_done st w c i.
  Proof.
    intros [Hw Hlt]. unfold is_done.
    destruct (decide (aux c i < n)) as [Hlt'|Hge].
    - rewrite alloc_orig, alloc_outcome by done.
      destruct (orig st (aux c i)) as [[| | | | |l [[]|] g]|]; try done.
      destruct (outcome st (aux c i)) as [[]|]; try done.
      destruct (wa_inputs c !! i) as [q|] eqn:Eq; try done.
      rewrite alloc_outcome; [done|].
      apply (Forall_lookup_1 _ _ _ _ Hlt) in Eq. unfold aux in Hlt'. lia.
    - rewrite (orig_ge st) by (done || lia).
      destruct (decide (aux c i = n)) as [->|Hne].
      + rewrite alloc_orig_new. destruct o as [| | | | |l f g] eqn:Eo; try done.
        destruct (Hthen l f g eq_refl) as (Hs' & _).
        unfold outcome. rewrite alloc_pstate_new, Hs'. by destruct f as [[]|].
      + destruct (orig st' (aux c i)) as [x|] eqn:E; [|done].
        apply alloc_orig_inv in E. lia.
  Qed.

Lemma alloc_ndone w c : counter_ok st w c -> ndone st' w c = ndone st w c.
  Proof.
    intros H. unfold ndone. f_equal. apply list_filter_iff. intros i.
    by rewrite alloc_is_done.
  Qed.

Context (Hcs : forall c, c ∈ cs ->
    cs = [c] /\ wa_promise c = n /\ o = OWaitAll (length (counters st)) /\
    Forall (fun q => q < n) (wa_inputs c) /\ wa_n c = Z.of_nat (length (wa_inputs c))).
Context (Hj : justified st' n o).

Lemma alloc_counters w c :
    counters st' !! w = Some c ->
    counters st !! w = Some c \/ (w = length (counters st) /\ c ∈ cs).
  Proof.
    rewrite Hc. intros H. apply lookup_app_Some in H as [H|[Hge H]]; [by left|right].
    assert (Hin : c ∈ cs) by (by eapply list_elem_of_lookup_2).
    destruct (Hcs c Hin) as (-> & _). split; [|done].
    apply lookup_lt_Some in H. simpl in H. lia.
  Qed.

Lemma inv_alloc : inv st'.
  Proof.
    pose proof alloc_adv as Ha. constructor.
    - rewrite Ho, Hp, !length_app. simpl. by rewrite (inv_origins _ Hinv).
    - intros a q f g H. apply alloc_orig_inv in H as [[_ H]|[-> <-]].
      + eapply shape_adv; [done|]. by apply Hinv.
      + by apply (Hthen q f g).
    - intros q rs r Hq Hr. apply alloc_pstate_inv in Hq as [[_ Hq]|[_ <-]].
      + destruct (inv_reactions _ Hinv q rs r Hq Hr) as [H1 H2].
        split; [by apply Ha|]. rewrite alloc_outcome; [done|]. by eapply orig_lt.
      + subst rs. by apply elem_of_nil in Hr.
    - intros q rs Hq. apply alloc_pstate_inv in Hq as [[_ Hq]|[_ <-]].
      + by eapply inv_reactions_nodup.
      + subst rs. constructor.
    - intros h b x d. rewrite Hm. intros Hjob.
      destruct (inv_jobs _ Hinv h b x d Hjob) as (q & f & g & H1 & H2 & H3 & H4).
      exists q, f, g. split_and!; [by apply Ha|done|by apply Ha|].
      rewrite alloc_outcome; [done|]. by eapply orig_lt.
    - rewrite Hm. apply Hinv.
    - intros d q. rewrite Hm. intros Hjob.
      destruct (inv_thenables _ Hinv d q Hjob) as (?&?&?).
      split_and!; [by eapply resolves_adv|by apply alloc_idle|].
      rewrite Hp, length_app. lia.
    - intros a q d g H. apply alloc_idle.
      apply alloc_orig_inv in H as [[_ H]|[-> <-]]; [by eapply inv_resolvers|].
      by apply (Hthen q (Some (HResolveFn d)) g).
    - intros t. rewrite Ht. intros Hin. pose proof (inv_timers _ Hinv t Hin) as Hx.
      destruct (action t); by apply Ha.
    - intros em s0. unfold table. rewrite Hes. intros Hin.
      pose proof (inv_tables _ Hinv em s0 Hin) as Hx.
      destruct (listener s0); [done|]. by apply Ha.
    - intros w c H. apply alloc_counters in H as [H|[-> Hin]].
      + eapply counter_ok_adv; [done..|]. by apply Hinv.
      + destruct (Hcs c Hin) as (_ & Hpc & Ho' & Hlt & _). split.
        * rewrite Hpc, alloc_orig_new. by rewrite Ho'.
        * by rewrite Hpc.
    - intros p x H. apply alloc_orig_inv in H as [[Hlt H]|[-> ->]]; [|done].
      eapply justified_adv; [done|by apply alloc_outcome|]. by apply Hinv.
    - intros ec. rewrite He. intros Hin. eapply emit_ok_adv; [done|]. by apply Hinv.
  Qed.

Lemma counted_alloc : counted st -> counted st'.
  Proof.
    intros Hcd w c H. apply alloc_counters in H as [H|[-> Hin]].
    - rewrite alloc_ndone by (by apply Hinv). by apply Hcd.
    - destruct (Hcs c Hin) as (_ & Hpc & Ho' & Hlt & ->).
      assert (ndone st' (length (counters st)) c = 0) as ->; [|lia].
      unfold ndone. rewrite filter_none; [done|]. intros i _.
      unfold is_done, aux. rewrite Hpc.
      destruct (orig st' (n + 1 + i)) as [x|] eqn:E; [|by rewrite not_true_iff_false].
      apply alloc_orig_inv in E. lia.
  Qed.
Lemma live_alloc D : live_but (n :: D) st -> live_but (n :: D) st'.
  Proof.
    intros Hl d q f g Hd Hq Hpend HD.
    apply alloc_orig_inv in Hd as [[Hlt Hd]|[-> _]]; [|by apply not_elem_of_cons in HD as [? _]].
    rewrite alloc_outcome in Hpend by done.
    destruct (Hl d q f g Hd Hq Hpend HD) as [(rs & r & H1 & H2 & H3)|[H|[H|H]]].
    - left. exists rs, r. rewrite alloc_pstate by lia. done.
    - right; left. unfold in_jobs. by rewrite Hm.
    - right; right; left. by rewrite Hm.
    - right; right; right. destruct H as (a & q' & g' & Ha & Hlt').
      exists a, q', g'. split; [by apply alloc_adv|done].
  Qed.
End alloc.

(** ** Registering the reaction of a new promise *)

Section reg.
Context (st st' : State) (d p : PromiseId) (f g : option Handler).
Context (Hinv : inv st).
Context (Hd : orig st d = Some (OThen p f g)).
Context (Hpend : outcome st d = Some None).
Context (Hidle : idle st d).
Context (Hnr : forall a q g', orig st a <> Some (OThen q (Some (HResolveFn d)) g')).
Context (Hnt : forall q, JThenable d q ∉ microtasks st).
Context (Ho : origins st' = origins st).
Context (Hc : counters st' = counters st).
Context (He : emits st' = emits st).
Context (Ht : timers st' = timers st).
Context (Hes : emitters st' = emitters st).

Local Abbreviation r := (mkReaction f g d).

Lemma reg_orig q : orig st' q = orig st q.
  Proof. unfold orig. by rewrite Ho. Qed.

Section pending.
Context (rs : list Reaction) (Hp : pstate st p = Some (Pending rs)).
Context (Hps : promises st' = <[p := Pending (rs ++ [r])]> (promises st)).
Context (Hm : microtasks st' = microtasks st).

Lemma reg_pstate_eq : pstate st' p = Some (Pending (rs ++ [r])).
    Proof.
      unfold pstate. rewrite Hps. apply list_lookup_insert_eq.
      by eapply lookup_lt_Some.
    Qed.

Lemma reg_pstate_ne q : q <> p -> pstate st' q = pstate st q.
    Proof. intros H. unfold pstate. rewrite Hps. by apply list_lookup_insert_ne. Qed.

Lemma reg_outcome q : outcome st' q = outcome st q.
    Proof.
      unfold outcome. destruct (decide (q = p)) as [->|Hne].
      - by rewrite reg_pstate_eq, Hp.
      - by rewrite reg_pstate_ne.
    Qed.

Lemma reg_pstate_inv q rs0 r0 :
      pstate st' q = Some (Pending rs0) -> r0 ∈ rs0 ->
      (exists rs1, pstate st q = Some (Pending rs1) /\ r0 ∈ rs1) \/
      (q = p /\ r0 = r /\ rs0 = rs ++ [r]).
    Proof.
      intros Hq Hr0. destruct (decide (q = p)) as [->|Hne].
      - rewrite reg_pstate_eq in Hq. injection Hq as <-.
        apply elem_of_app in Hr0 as [Hr0|Hr0].
        + left. by exists rs.
        + right. apply list_elem_of_singleton in Hr0. done.
      - rewrite reg_pstate_ne in Hq by done. left. by exists rs0.
    Qed.

Lemma reg_idle d0 : d0 <> d -> idle st d0 -> idle st' d0.
    Proof.
      intros Hne [H1 H2]. split.
      - intros (q & rs0 & r0 & Hq & Hr0 & Hd0).
        destruct (reg_pstate_inv _ _ _ Hq Hr0) as [(rs1 & Hq1 & Hr1)|(_ & -> & _)].
        + apply H1. by exists q, rs1, r0.
        + simpl in Hd0. done.
      - unfold in_jobs. by rewrite Hm.
    Qed.

Lemma inv_reg_pending : inv st'.
    Proof.
      assert (Ha : adv st st') by (apply adv_ext; auto using reg_orig, reg_outcome).
      constructor.
      - rewrite Ho, Hps, length_insert. apply Hinv.
      - intros a q f0 g0. rewrite reg_orig. intros H.
        eapply shape_adv; [done|]. by apply Hinv.
      - intros q rs0 r0 Hq Hr0. rewrite reg_orig, reg_outcome.
        destruct (reg_pstate_inv _ _ _ Hq Hr0) as [(rs1 & Hq1 & Hr1)|(-> & -> & _)].
        + by eapply inv_reactions.
        + done.
      - intros q rs0 Hq. destruct (decide (q = p)) as [->|Hne].
        + rewrite reg_pstate_eq in Hq. injection Hq as <-.
          rewrite map_app. apply NoDup_app. split_and!.
          * by eapply inv_reactions_nodup.
          * intros x Hx Hx'. apply list_elem_of_singleton in Hx'. subst x.
            apply list_elem_of_fmap in Hx as (r0 & Hr0 & Hin).
            apply (proj1 Hidle). by exists p, rs, r0.
          * apply NoDup_singleton.
        + rewrite reg_pstate_ne in Hq by done. by eapply inv_reactions_nodup.
      - intros h b x d0. rewrite Hm. setoid_rewrite reg_orig. setoid_rewrite reg_outcome.
        apply Hinv.
      - rewrite Hm. apply Hinv.
      - intros d0 q. rewrite Hm. intros Hj.
        destruct (inv_thenables _ Hinv d0 q Hj) as (?&?&?).
        split_and!; [by eapply resolves_adv| |by rewrite Hps, length_insert].
        apply reg_idle; [|done]. intros ->. by eapply Hnt.
      - intros a q d0 g0. rewrite reg_orig. intros H. apply reg_idle.
        + intros ->. by eapply Hnr.
        + by eapply inv_resolvers.
      - intros t. rewrite Ht. intros Hin. pose proof (inv_timers _ Hinv t Hin) as Hx.
        destruct (action t); by rewrite reg_orig.
      - intros em s0. unfold table. rewrite Hes. intros Hin.
        pose proof (inv_tables _ Hinv em s0 Hin) as Hx.
        destruct (listener s0); [done|]. by rewrite reg_orig.
      - intros w c. rewrite Hc. intros Hw. eapply counter_ok_adv; [done..|]. by apply Hinv.
      - intros q o. rewrite reg_orig. intros H.
        eapply justified_adv; [done|by apply reg_outcome|]. by apply Hinv.
      - intros ec. rewrite He. intros Hin. eapply emit_ok_adv; [done|]. by apply Hinv.
    Qed.

Lemma counted_reg_pending : counted st -> counted st'.
    Proof. apply counted_ext; auto using reg_orig, reg_outcome. Qed.

Lemma live_reg_pending D : p < d -> live_but (d :: D) st -> live_but D st'.
    Proof.
      intros Hlt Hl d0 q0 f0 g0. rewrite reg_orig, reg_outcome. intros H0 Hq0 Hp0 HD.
      destruct (decide (d0 = d)) as [->|Hne].
      - left. rewrite Hd in H0. injection H0 as <- <- <-.
        exists (rs ++ [r]), r. split; [apply reg_pstate_eq|]. split; [|done].
        apply elem_of_app. right. by apply list_elem_of_singleton.
      - assert (HD' : d0 ∉ d :: D) by (by apply not_elem_of_cons).
        destruct (Hl d0 q0 f0 g0 H0 Hq0 Hp0 HD') as [(rs0 & r0 & H1 & H2 & H3)|[H|[H|H]]].
        + left. destruct (decide (q0 = p)) as [->|Hqp].
          * rewrite Hp in H1. injection H1 as <-. exists (rs ++ [r]), r0.
            split; [apply reg_pstate_eq|]. split; [|done]. apply elem_of_app. by left.
          * exists rs0, r0. by rewrite reg_pstate_ne.
        + right; left. unfold in_jobs. by rewrite Hm.
        + right; right; left. by rewrite Hm.
        + right; right; right. destruct H as (a & q' & g' & Hx & Hlt').
          exists a, q', g'. by rewrite reg_orig.
    Qed.
End pending.
Section settled.
Context (b : bool) (x : Val) (Hp : outcome st p = Some (Some (b, x))).
Context (Hps : promises st' = promises st).
Context (Hm : microtasks st' = microtasks st ++ [reaction_job b x r]).

Lemma regs_pstate q : pstate st' q = pstate st q.
    Proof. unfold pstate. by rewrite Hps. Qed.

Lemma regs_outcome q : outcome st' q = outcome st q.
    Proof. unfold outcome. by rewrite regs_pstate. Qed.

Lemma regs_idle d0 : d0 <> d -> idle st d0 -> idle st' d0.
    Proof.
      intros Hne [H1 H2]. split.
      - unfold in_reactions. by setoid_rewrite regs_pstate.
      - intros (h & b0 & x0 & Hj). rewrite Hm in Hj.
        apply elem_of_app in Hj as [Hj|Hj]; [apply H2; by exists h, b0, x0|].
        apply list_elem_of_singleton in Hj. unfold reaction_job in Hj. simpl in Hj.
        congruence.
    Qed.

Lemma inv_reg_settled : inv st'.
    Proof.
      assert (Ha : adv st st') by (apply adv_ext; auto using reg_orig, regs_outcome).
      constructor.
      - rewrite Ho, Hps. apply Hinv.
      - intros a q f0 g0. rewrite reg_orig. intros H.
        eapply shape_adv; [done|]. by apply Hinv.
      - intros q rs0 r0. rewrite regs_pstate, reg_orig, regs_outcome. apply Hinv.
      - intros q rs0. rewrite regs_pstate. apply Hinv.
      - intros h b0 x0 d0. rewrite Hm. setoid_rewrite reg_orig.
        setoid_rewrite regs_outcome. intros Hj.
        apply elem_of_app in Hj as [Hj|Hj]; [by apply Hinv|].
        apply list_elem_of_singleton in Hj. unfold reaction_job in Hj. simpl in Hj.
        injection Hj as -> -> -> ->. by exists p, f, g.
      - rewrite Hm, bind_app. apply NoDup_app. split_and!.
        + apply Hinv.
        + intros y Hy Hy'. simpl in Hy'. apply list_elem_of_singleton in Hy'. subst y.
          apply list_elem_of_bind in Hy as (j & Hj & Hin).
          destruct j as [h b0 x0 d0|]; simpl in Hj; [|by apply elem_of_nil in Hj].
          apply list_elem_of_singleton in Hj. subst d0.
          apply (proj2 Hidle). by exists h, b0, x0.
        + simpl. apply NoDup_singleton.
      - intros d0 q. rewrite Hm. intros Hj.
        apply elem_of_app in Hj as [Hj|Hj].
        2: { apply list_elem_of_singleton in Hj. done. }
        destruct (inv_thenables _ Hinv d0 q Hj) as (?&?&?).
        split_and!; [by eapply resolves_adv| |by rewrite Hps].
        apply regs_idle; [|done]. intros ->. by eapply Hnt.
      - intros a q d0 g0. rewrite reg_orig. intros H. apply regs_idle.
        + intros ->. by eapply Hnr.
        + by eapply inv_resolvers.
      - intros t. rewrite Ht. intros Hin. pose proof (inv_timers _ Hinv t Hin) as Hx.
        destruct (action t); by rewrite reg_orig.
      - intros em s0. unfold table. rewrite Hes. intros Hin.
        pose proof (inv_tables _ Hinv em s0 Hin) as Hx.
        destruct (listener s0); [done|]. by rewrite reg_orig.
      - intros w c. rewrite Hc. intros Hw. eapply counter_ok_adv; [done..|]. by apply Hinv.
      - intros q o. rewrite reg_orig. intros H.
        eapply justified_adv; [done|by apply regs_outcome|]. by apply Hinv.
      - intros ec. rewrite He. intros Hin. eapply emit_ok_adv; [done|]. by apply Hinv.
    Qed.

Lemma counted_reg_settled : counted st -> counted st'.
    Proof. apply counted_ext; auto using reg_orig, regs_outcome. Qed.

Lemma live_reg_settled D : live_but (d :: D) st -> live_but D st'.
    Proof.
      intros Hl d0 q0 f0 g0. rewrite reg_orig, regs_outcome. intros H0 Hq0 Hp0 HD.
      destruct (decide (d0 = d)) as [->|Hne].
      - right; left. exists (if b then g else f), b, x. rewrite Hm.
        apply elem_of_app. right. by apply list_elem_of_singleton.
      - assert (HD' : d0 ∉ d :: D) by (by apply not_elem_of_cons).
        destruct (Hl d0 q0 f0 g0 H0 Hq0 Hp0 HD') as [(rs0 & r0 & H1 & H2 & H3)|[H|[H|H]]].
        + left. exists rs0, r0. by rewrite regs_pstate.
        + right; left. destruct H as (h & b0 & x0 & Hj). exists h, b0, x0.
          rewrite Hm. apply elem_of_app. by left.
        + right; right; left. destruct H as [q' Hj]. exists q'.
          rewrite Hm. apply elem_of_app. by left.
        + right; right; right. destruct H as (a & q' & g' & Hx & Hlt').
          exists a, q', g'. by rewrite reg_orig.
    Qed.
End settled.
End reg.

(** ** [then] *)

Lemma live_but_weaken D D' st : D ⊆ D' -> live_but D st -> live_but D' st.
Proof.
  intros Hs Hl d q f g H1 H2 H3 H4. apply (Hl d q f g H1 H2 H3).
  intros Hin. apply H4. by apply Hs.
Qed.

Lemma resolves_fresh st d q : inv st -> length (promises st) <= d -> ~ resolves st d q.
Proof. intros Hinv Hd. unfold resolves. rewrite orig_ge by done. tauto. Qed.

Lemma sound_then D st p f g d st' :
  sound D st ->
  shape st (length (promises st)) p f g ->
  (forall d0, f = Some (HResolveFn d0) -> idle st d0) ->
  then_ p f g st = (d, st') ->
  sound D st' /\ adv st st' /\ d = length (promises st) /\
  orig st' d = Some (OThen p f g) /\ outcome st' d = Some None.
Proof.
  intros (Hinv & Hcd & Hl & HD) Hsh Hres. unfold then_.
  destruct (new_promise _ _ st) as [d1 st1] eqn:E1. injection E1 as <- <-.
  set (st1 := set_origins _ _).
  assert (Hp1 : promises st1 = promises st ++ [Pending []]) by done.
  assert (Ho1 : origins st1 = origins st ++ [OThen p f g]) by done.
  assert (Hc1 : counters st1 = counters st ++ []) by (symmetry; apply app_nil_r).
  assert (Ha1 : adv st st1) by (by eapply (alloc_adv st st1)).
  assert (Hpn : outcome st1 (length (promises st)) = Some None).
  { unfold outcome. by rewrite (alloc_pstate_new st st1 (Pending []) Hp1). }
  assert (Hinv1 : inv st1).
  { eapply (inv_alloc st st1 (Pending []) (OThen p f g) []); try done.
    - intros q f0 g0 [= <- <- <-]. split; [done|]. split; [by eapply shape_adv|done].
    - intros c Hc. by apply elem_of_nil in Hc.
    - unfold justified. split.
      + intros [x Hx]. by rewrite Hpn in Hx.
      + destruct f as [[]|], g as [[]|]; try done;
          first [ by (intros [x Hx]; rewrite Hpn in Hx)
                | split; intros ?; by rewrite Hpn ]. }
  assert (Hcd1 : counted st1).
  { eapply (counted_alloc st st1 (Pending []) (OThen p f g) []); try done.
    - intros q f0 g0 [= <- <- <-]. split; [done|]. split; [by eapply shape_adv|done].
    - intros c Hc. by apply elem_of_nil in Hc. }
  assert (Hl1 : live_but ((length (promises st)) :: D) st1).
  { eapply (live_alloc st st1 (Pending []) (OThen p f g) []); try done.
    eapply live_but_weaken; [|done]. intros y Hy. by right. }
  assert (Hd1 : orig st1 (length (promises st)) = Some (OThen p f g)) by (by eapply (alloc_orig_new st st1)).
  assert (Hpend1 : outcome st1 (length (promises st)) = Some None).
  { unfold outcome. by rewrite (alloc_pstate_new st st1 (Pending []) Hp1). }
  assert (Hidle1 : idle st1 (length (promises st))).
  { split.
    - intros H. apply (alloc_in_reactions st st1 (Pending []) Hp1 eq_refl) in H.
      apply (in_reactions_lt _ _ Hinv) in H. lia.
    - intros H. assert (H' : in_jobs st (length (promises st))) by exact H.
      apply (in_jobs_lt _ _ Hinv) in H'. lia. }
  assert (Hnr1 : forall a q g', orig st1 a <> Some (OThen q (Some (HResolveFn (length (promises st)))) g')).
  { intros a q g' H.
    apply (alloc_orig_inv st st1 (OThen p f g) Hinv Ho1) in H
      as [[_ H]|[_ [= Hq Hf Hg]]].
    - apply (inv_shape _ Hinv) in H. inversion H as [| |d0 Hr| |]; subst.
      by eapply resolves_fresh in Hr.
    - rewrite <- Hf in Hsh. inversion Hsh as [| |d0 Hr| |]; subst.
      by eapply resolves_fresh in Hr. }
  assert (Hnt1 : forall q, JThenable (length (promises st)) q ∉ microtasks st1).
  { intros q H. apply (inv_thenables _ Hinv) in H as (H & _ & _).
    by eapply resolves_fresh in H. }
  assert (HD1 : forall d0, d0 ∈ D ->
    idle st1 d0 /\ d0 < length (promises st1) /\ d0 <> length (promises st)).
  { intros d0 Hd0. destruct (HD d0 Hd0) as [Hi Hlt]. split_and!.
    - by apply (alloc_idle st st1 (Pending []) Hp1 eq_refl eq_refl).
    - rewrite Hp1, length_app. lia.
    - lia. }
  intros [= <- <-].
  destruct (pstate st p) as [[rs|v|e]|] eqn:Ep.
  - assert (Hlt : p < (length (promises st))) by (by eapply lookup_lt_Some).
    assert (Hp' : pstate st1 p = Some (Pending rs)).
    { by rewrite (alloc_pstate st st1 (Pending []) Hp1). }
    split_and!.
    + split_and!.
      * eapply (inv_reg_pending st1 _ (length (promises st)) p f g); try done.
      * eapply (counted_reg_pending st1 _ (length (promises st)) p f g); try done.
      * eapply (live_reg_pending st1 _ (length (promises st)) p f g); try done.
      * intros d0 Hd0. destruct (HD1 d0 Hd0) as (Hi & Hlt' & Hne). split.
        -- eapply (reg_idle st1 _ (length (promises st)) p f g rs); try done.
        -- simpl. by rewrite length_insert.
    + eapply adv_trans; [done|]. apply adv_ext; try done.
      intros q. by eapply (reg_outcome st1 _ (length (promises st)) p f g).
    + done.
    + done.
    + by erewrite (reg_outcome st1 _ (length (promises st)) p f g).
  - assert (Hp' : outcome st1 p = Some (Some (false, v))).
    { apply Ha1. unfold outcome. by rewrite Ep. }
    split_and!.
    + split_and!.
      * eapply inv_reg_settled with (st := st1) (d := length (promises st)) (p := p) (f := f) (g := g); try done.
      * eapply counted_reg_settled with (st := st1); try done.
      * eapply live_reg_settled with (st := st1) (d := length (promises st)) (f := f) (g := g); try done.
      * intros d0 Hd0. destruct (HD1 d0 Hd0) as (Hi & Hlt' & Hne). split; [|done].
        eapply regs_idle with (st := st1) (d := length (promises st)) (f := f) (g := g); try done.
    + eapply adv_trans; [done|]. by apply adv_ext.
    + done.
    + done.
    + done.
  - assert (Hp' : outcome st1 p = Some (Some (true, e))).
    { apply Ha1. unfold outcome. by rewrite Ep. }
    split_and!.
    + split_and!.
      * eapply inv_reg_settled with (st := st1) (d := length (promises st)) (p := p) (f := f) (g := g); try done.
      * eapply counted_reg_settled with (st := st1); try done.
      * eapply live_reg_settled with (st := st1) (d := length (promises st)) (f := f) (g := g); try done.
      * intros d0 Hd0. destruct (HD1 d0 Hd0) as (Hi & Hlt' & Hne). split; [|done].
        eapply regs_idle with (st := st1) (d := length (promises st)) (f := f) (g := g); try done.
    + eapply adv_trans; [done|]. by apply adv_ext.
    + done.
    + done.
    + done.
  - split_and!; try done. split_and!; try done.
    2: { intros d0 Hd0. destruct (HD1 d0 Hd0) as (Hi & Hlt' & Hne). done. }
    intros d0 q0 f0 g0 H0 Hq0 Hp0 HD0.
    destruct (decide (d0 = (length (promises st)))) as [->|Hne].
    + rewrite Hd1 in H0. injection H0 as <- <- <-.
      unfold pstate in Ep. apply lookup_ge_None_1 in Ep. lia.
    + eapply Hl1; try done. by apply not_elem_of_cons.
Qed.

(** ** Settling a promise *)

Section settle.
Context (st : State) (p : PromiseId) (b : bool) (x : Val) (rs : list Reaction).
Context (o : Origin).
Context (Hinv : inv st).
Context (Hp : pstate st p = Some (Pending rs)).
Context (Ho : orig st p = Some o).
Context (Hidle : idle st p).

Local Abbreviation st' := (settle p b x st).

Lemma settle_outcome_eq : outcome st' p = Some (Some (b, x)).
  Proof. unfold outcome. rewrite (settle_pending _ _ _ rs) by done. by destruct b. Qed.

Lemma settle_outcome_ne q : q <> p -> outcome st' q = outcome st q.
  Proof. intros H. unfold outcome. by rewrite pstate_settle_ne. Qed.

Lemma settle_orig q : orig st' q = orig st q.
  Proof. unfold orig, settle. by rewrite Hp. Qed.

Lemma settle_adv : adv st st'.
  Proof.
    split_and!.
    - intros q y. by rewrite settle_orig.
    - intros q y Hq. rewrite settle_outcome_ne; [done|].
      intros ->. apply outcome_pending in Hp. congruence.
    - intros ec. unfold settle. by rewrite Hp.
    - intros w c Hw. exists c. by rewrite counters_settle.
  Qed.

Lemma settle_in_reactions d : in_reactions st' d -> in_reactions st d.
  Proof.
    intros (q & rs0 & r0 & Hq & Hr0 & Hd).
    destruct (decide (q = p)) as [->|Hne].
    - rewrite (settle_pending _ _ _ rs) in Hq by done. by destruct b.
    - rewrite pstate_settle_ne in Hq by done. by exists q, rs0, r0.
  Qed.

Lemma settle_in_jobs d : in_jobs st' d -> in_jobs st d \/ in_reactions st d.
  Proof.
    intros (h & b0 & x0 & Hj). rewrite (microtasks_settle_pending _ _ _ rs) in Hj by done.
    apply elem_of_app in Hj as [Hj|Hj]; [left; by exists h, b0, x0|right].
    apply list_elem_of_fmap in Hj as (r0 & Hr0 & Hin).
    unfold reaction_job in Hr0. injection Hr0 as _ _ _ ->. by exists p, rs, r0.
  Qed.

Lemma settle_idle d : idle st d -> idle st' d.
  Proof.
    intros [H1 H2]. split.
    - intros H. by apply H1, settle_in_reactions.
    - intros H. apply settle_in_jobs in H as [H|H]; tauto.
  Qed.

Lemma not_waiting_ne d : in_reactions st d \/ in_jobs st d -> d <> p.
  Proof. intros H ->. destruct Hidle. tauto. Qed.

Context (Hj : justified st' p o).

Lemma inv_settle : inv st'.
  Proof.
    pose proof settle_adv as Ha. constructor.
    - unfold settle. rewrite Hp. simpl. rewrite length_insert. apply Hinv.
    - intros a q f g. rewrite settle_orig. intros H.
      eapply shape_adv; [done|]. by apply Hinv.
    - intros q rs0 r0 Hq Hr0.
      assert (Hne : q <> p).
      { intros ->. rewrite (settle_pending _ _ _ rs) in Hq by done. by destruct b. }
      rewrite pstate_settle_ne in Hq by done.
      destruct (inv_reactions _ Hinv q rs0 r0 Hq Hr0) as [H1 H2].
      rewrite settle_orig. split; [done|]. rewrite settle_outcome_ne; [done|].
      apply not_waiting_ne. left. by exists q, rs0, r0.
    - intros q rs0 Hq.
      assert (Hne : q <> p).
      { intros ->. rewrite (settle_pending _ _ _ rs) in Hq by done. by destruct b. }
      rewrite pstate_settle_ne in Hq by done. by eapply inv_reactions_nodup.
    - intros h b0 x0 d Hjob.
      rewrite (microtasks_settle_pending _ _ _ rs) in Hjob by done.
      apply elem_of_app in Hjob as [Hjob|Hjob].
      + destruct (inv_jobs _ Hinv h b0 x0 d Hjob) as (q & f & g & H1 & H2 & H3 & H4).
        exists q, f, g. rewrite settle_orig. split_and!; [done|done|by apply Ha|].
        rewrite settle_outcome_ne; [done|]. apply not_waiting_ne. right. by exists h, b0, x0.
      + apply list_elem_of_fmap in Hjob as (r0 & Hr0 & Hin).
        unfold reaction_job in Hr0. injection Hr0 as -> -> -> ->.
        destruct (inv_reactions _ Hinv p rs r0 Hp Hin) as [H1 H2].
        exists p, (onFulfilled r0), (onRejected r0). rewrite settle_orig.
        split_and!; [done|done|apply settle_outcome_eq|].
        rewrite settle_outcome_ne; [done|]. apply not_waiting_ne. left. by exists p, rs, r0.
    - rewrite (microtasks_settle_pending _ _ _ rs) by done.
      rewrite bind_app. apply NoDup_app. split_and!.
      + apply Hinv.
      + intros d Hd Hd'.
        apply list_elem_of_bind in Hd as (j & Hjd & Hjin).
        destruct j as [h b0 x0 d0|]; simpl in Hjd; [|by apply elem_of_nil in Hjd].
        apply list_elem_of_singleton in Hjd. subst d0.
        destruct (inv_jobs _ Hinv h b0 x0 d Hjin) as (q & f & g & H1 & H2 & H3 & H4).
        apply list_elem_of_bind in Hd' as (j' & Hjd' & Hjin').
        apply list_elem_of_fmap in Hjin' as (r0 & -> & Hin).
        simpl in Hjd'. apply list_elem_of_singleton in Hjd'. subst d.
        destruct (inv_reactions _ Hinv p rs r0 Hp Hin) as [H1' H2'].
        rewrite H1 in H1'. injection H1' as -> _ _.
        apply outcome_pending in Hp. congruence.
      + assert (Heq : map (reaction_job b x) rs ≫= job_derived = map derived rs).
        { clear. induction rs as [|r0 l IH]; [done|]. simpl. by rewrite <- IH. }
        rewrite Heq. by eapply inv_reactions_nodup.
    - intros d q Hjob. rewrite (microtasks_settle_pending _ _ _ rs) in Hjob by done.
      apply elem_of_app in Hjob as [Hjob|Hjob].
      2: { apply list_elem_of_fmap in Hjob as (r0 & Hr0 & _). done. }
      destruct (inv_thenables _ Hinv d q Hjob) as (?&?&?).
      split_and!; [by eapply resolves_adv|by apply settle_idle|].
      unfold settle. rewrite Hp. simpl. by rewrite length_insert.
    - intros a q d g. rewrite settle_orig. intros H. apply settle_idle.
      by eapply inv_resolvers.
    - intros t Hin. assert (Hin' : t ∈ timers st).
      { revert Hin. unfold settle. by rewrite Hp. }
      pose proof (inv_timers _ Hinv t Hin') as Hx.
      destruct (action t); by rewrite settle_orig.
    - intros em s0 Hin. assert (Hin' : s0 ∈ table st em).
      { revert Hin. unfold table, settle. by rewrite Hp. }
      pose proof (inv_tables _ Hinv em s0 Hin') as Hx.
      destruct (listener s0); [done|]. by rewrite settle_orig.
    - intros w c. rewrite counters_settle. intros Hw.
      eapply counter_ok_adv; [done..|]. by apply Hinv.
    - intros q y. rewrite settle_orig. intros H.
      destruct (decide (q = p)) as [->|Hne].
      + rewrite Ho in H. by injection H as <-.
      + eapply justified_adv; [done|by apply settle_outcome_ne|]. by apply Hinv.
    - intros ec Hin. assert (Hin' : ec ∈ emits st).
      { revert Hin. unfold settle. by rewrite Hp. }
      eapply emit_ok_adv; [done|]. by apply Hinv.
  Qed.
Lemma settle_is_done_gen w c i :
    counters st !! w = Some c ->
    (aux c i = p -> forall l g, o = OThen l (Some (HCount w)) g ->
       exists e, outcome st l = Some (Some (true, e))) ->
    is_done st' w c i = is_done st w c i.
  Proof.
    intros Hw Hca. unfold is_done. rewrite settle_orig.
    destruct (orig st (aux c i)) as [[| | | | |l [[ | | |w'| | ]|] g]|] eqn:Ea; try done.
    destruct (shape_count_inv _ _ _ _ _ (inv_shape _ Hinv _ _ _ _ Ea))
      as (c0 & i0 & Hw0 & Hi0 & Ha0 & Hg).
    destruct (inv_counters _ Hinv w c Hw) as [_ Hlt].
    assert (Hsame : w' = w -> forall q, wa_inputs c !! i = Some q -> q = l).
    { intros -> q Eq. rewrite Hw in Hw0. injection Hw0 as <-.
      assert (i0 = i) as -> by (unfold aux in Ha0; lia). congruence. }
    destruct (decide (aux c i = p)) as [E|Hne].
    - rewrite E, settle_outcome_eq. rewrite (outcome_pending _ _ _ Hp).
      destruct (wa_inputs c !! i) as [q|] eqn:Eq; try done.
      destruct (bool_decide (w' = w)) eqn:Ew; [|done].
      apply bool_decide_eq_true in Ew. simpl.
      rewrite (Hsame Ew q eq_refl).
      rewrite E, Ho in Ea. injection Ea as Ea. subst w'.
      destruct (Hca E _ _ Ea) as [e He].
      rewrite settle_outcome_ne, He; [done|].
      intros ->. apply outcome_pending in Hp. congruence.
    - rewrite (settle_outcome_ne _ Hne).
      destruct (outcome st (aux c i)) as [[y|]|] eqn:Eo; try done.
      destruct (wa_inputs c !! i) as [q|] eqn:Eq; try done.
      destruct (decide (q = p)) as [->|Hqp]; [|by rewrite settle_outcome_ne].
      destruct (bool_decide (w' = w)) eqn:Ew; [|done].
      apply bool_decide_eq_true in Ew. exfalso.
      pose proof (Hsame Ew p eq_refl) as <-.
      destruct (inv_justified _ Hinv _ _ Ea) as [Hgen _].
      destruct Hgen as [z Hz]; [by exists y|].
      apply outcome_pending in Hp. congruence.
  Qed.

Context (Hca : forall l w g, o = OThen l (Some (HCount w)) g ->
    exists e, outcome st l = Some (Some (true, e))).

Lemma settle_is_done w c i :
    counters st !! w = Some c -> is_done st' w c i = is_done st w c i.
  Proof. intros Hw. apply settle_is_done_gen; [done|]. intros _ l g. apply Hca. Qed.

Lemma counted_settle : counted st -> counted st'.
  Proof.
    intros Hcd w c. rewrite counters_settle. intros Hw. rewrite (Hcd w c Hw).
    unfold ndone. do 3 f_equal. apply list_filter_iff. intros i.
    by rewrite settle_is_done.
  Qed.

Lemma live_settle D : live_but D st -> live_but D st'.
  Proof.
    intros Hl d q f g. rewrite settle_orig. intros Hd Hq Hpend HD.
    assert (Hne : d <> p).
    { intros ->. rewrite settle_outcome_eq in Hpend. done. }
    rewrite settle_outcome_ne in Hpend by done.
    destruct (Hl d q f g Hd Hq Hpend HD) as [(rs0 & r0 & H1 & H2 & H3)|[H|[H|H]]].
    - destruct (decide (q = p)) as [->|Hqp].
      + right; left. rewrite Hp in H1. injection H1 as <-.
        exists (if b then onRejected r0 else onFulfilled r0), b, x.
        rewrite (microtasks_settle_pending _ _ _ rs) by done.
        apply elem_of_app. right. apply list_elem_of_fmap. exists r0.
        split; [|done]. unfold reaction_job. by rewrite H3.
      + left. exists rs0, r0. by rewrite pstate_settle_ne.
    - right; left. destruct H as (h & b0 & x0 & Hjob). exists h, b0, x0.
      rewrite (microtasks_settle_pending _ _ _ rs) by done. apply elem_of_app. by left.
    - right; right; left. destruct H as [q' Hjob]. exists q'.
      rewrite (microtasks_settle_pending _ _ _ rs) by done. apply elem_of_app. by left.
    - right; right; right. destruct H as (a & q' & g' & Hx & Hlt).
      exists a, q', g'. by rewrite settle_orig.
  Qed.
End settle.

Lemma sound_settle D st p b x o :
  sound D st -> orig st p = Some o -> idle st p ->
  (forall l w g, o = OThen l (Some (HCount w)) g ->
     exists e, outcome st l = Some (Some (true, e))) ->
  (outcome st p = Some None -> justified (settle p b x st) p o) ->
  sound D (settle p b x st) /\ adv st (settle p b x st) /\
  (forall q, q <> p -> outcome (settle p b x st) q = outcome st q) /\
  (outcome st p = Some None -> outcome (settle p b x st) p = Some (Some (b, x))).
Proof.
  intros (Hinv & Hcd & Hl & HD) Ho Hidle Hca Hj.
  destruct (outcome st p) as [[y|]|] eqn:Eo.
  - rewrite settle_settled by congruence. split_and!; [done|apply adv_refl|done|done].
  - apply outcome_pending_inv in Eo as [rs Hp]. specialize (Hj eq_refl).
    split_and!.
    + split_and!.
      * by eapply inv_settle.
      * by eapply counted_settle.
      * by eapply live_settle.
      * intros d Hd. destruct (HD d Hd) as [Hi Hlt]. split.
        -- by eapply settle_idle.
        -- unfold settle. rewrite Hp. simpl. by rewrite length_insert.
    + by eapply settle_adv.
    + intros q Hq. by apply settle_outcome_ne.
    + intros _. by eapply settle_outcome_eq.
  - rewrite settle_settled by congruence. split_and!; [done|apply adv_refl|done|done].
Qed.

Lemma outcome_settle_pending st p b x :
  outcome st p = Some None -> outcome (settle p b x st) p = Some (Some (b, x)).
Proof.
  intros H. apply outcome_pending_inv in H as [rs Hp]. by eapply settle_outcome_eq.
Qed.

Lemma settle_outcome_ne_any st p b x q :
  q <> p -> outcome (settle p b x st) q = outcome st q.
Proof. intros H. unfold outcome. by rewrite pstate_settle_ne. Qed.

Lemma settle_adv_any st p b x : adv st (settle p b x st).
Proof.
  destruct (outcome st p) as [[y|]|] eqn:E.
  - rewrite settle_settled by congruence. apply adv_refl.
  - apply outcome_pending_inv in E as [rs Hp]. by eapply settle_adv.
  - rewrite settle_settled by congruence. apply adv_refl.
Qed.

(** ** The invariant and the tables, the timers and the variables *)

Lemma elem_of_table_set_table obs f st em s :
  s ∈ table (set_table obs f st) em -> s ∈ f (table st em) \/ s ∈ table st em.
Proof.
  destruct (decide (obs = em)) as [->|Hne].
  - unfold table, set_table. simpl. rewrite list_lookup_alter_eq.
    destruct (emitters st !! em) as [e|]; simpl; [by left|by right].
  - rewrite table_set_table_ne by done. by right.
Qed.

Lemma sound_create D opts st : sound D st -> sound D (create opts st).2 /\ adv st (create opts st).2.
Proof.
  intros H. eapply sound_frame; [done| | |done].
  - intros t Ht. by left.
  - intros em s. rewrite table_create. intros Hs. left. by exists em.
Qed.

Lemma sound_subscribe D obs l st :
  sound D st ->
  match l with LNext _ _ _ p => orig st p = Some ONext | LUser _ _ => True end ->
  sound D (subscribe obs l st).2 /\ adv st (subscribe obs l st).2.
Proof.
  intros H Hl. eapply sound_frame; [done| | |done].
  - intros t Ht. by left.
  - intros em s. unfold subscribe. cbn -[set_table]. intros Hs.
    change (set_emitters _ st) with (create None st).2 in Hs.
    apply elem_of_table_set_table in Hs as [Hs|Hs].
    + rewrite (table_create None) in Hs. apply elem_of_app in Hs as [Hs|Hs].
      * left. by exists em.
      * right. apply list_elem_of_singleton in Hs. by subst s.
    + rewrite (table_create None) in Hs. left. by exists em.
Qed.

Lemma sound_remove D obs tgt st : sound D st -> sound D (remove obs tgt st) /\ adv st (remove obs tgt st).
Proof.
  intros H. eapply sound_frame; [done| | |done].
  - intros t Ht. by left.
  - intros em s Hs. left. exists em. unfold remove in Hs.
    apply elem_of_table_set_table in Hs as [Hs|Hs]; [|done].
    eapply elem_of_sublist; [done|]. apply remove_entry_sublist.
Qed.

Lemma sound_setTimeout D a delay st :
  sound D st ->
  match a with
  | TResolve p _ => orig st p = Some OPlain
  | TReject p _ => orig st p = Some OTimer
  end ->
  sound D (setTimeout a delay st) /\ adv st (setTimeout a delay st).
Proof.
  intros H Ha. eapply sound_frame; [done| | |done].
  - intros t Ht. unfold setTimeout in Ht. simpl in Ht.
    apply elem_of_app in Ht as [Ht|Ht]; [by left|right].
    apply list_elem_of_singleton in Ht. by subst t.
  - intros em s Hs. left. by exists em.
Qed.

Lemma sound_set_cells D f st : sound D st -> sound D (set_cells f st) /\ adv st (set_cells f st).
Proof.
  intros H. eapply sound_frame; [done| | |done].
  - intros t Ht. by left.
  - intros em s Hs. left. by exists em.
Qed.

Lemma sound_set_invoked D f st :
  sound D st -> sound D (set_invoked f st) /\ adv st (set_invoked f st).
Proof.
  intros H. eapply sound_frame; [done| | |done].
  - intros t Ht. by left.
  - intros em s Hs. left. by exists em.
Qed.

Lemma sound_set_terrs D f st : sound D st -> sound D (set_terrs f st) /\ adv st (set_terrs f st).
Proof.
  intros H. eapply sound_frame; [done| | |done].
  - intros t Ht. by left.
  - intros em s Hs. left. by exists em.
Qed.

(** ** New promises *)

Lemma sound_new D st s o :
  sound D st ->
  match o with
  | OPlain => match s with Pending rs => rs = [] | _ => True end
  | ONext | OTimer | ORace _ => s = Pending []
  | _ => False
  end ->
  sound D (new_promise s o st).2 /\ adv st (new_promise s o st).2 /\
  orig (new_promise s o st).2 (length (promises st)) = Some o /\
  pstate (new_promise s o st).2 (length (promises st)) = Some s.
Proof.
  intros (Hinv & Hcd & Hl & HD) Hso.
  set (st' := (new_promise s o st).2).
  assert (Hp : promises st' = promises st ++ [s]) by done.
  assert (Ho : origins st' = origins st ++ [o]) by done.
  assert (Hc : counters st' = counters st ++ []) by (symmetry; apply app_nil_r).
  assert (Hs : match s with Pending rs => rs = [] | _ => True end).
  { destruct o; try done; by subst s. }
  assert (Hnt : forall q f g, o = OThen q f g ->
    s = Pending [] /\ shape st' (length (promises st)) q f g /\
    forall d, f = Some (HResolveFn d) -> idle st d).
  { intros q f g ->. done. }
  assert (Hcs : forall c : WaitAll, c ∈ [] ->
    [] = [c] /\ wa_promise c = length (promises st) /\
    o = OWaitAll (length (counters st)) /\
    Forall (fun q => q < length (promises st)) (wa_inputs c) /\
    wa_n c = Z.of_nat (length (wa_inputs c))).
  { intros c Hin. by apply elem_of_nil in Hin. }
  assert (Hpn : pstate st' (length (promises st)) = Some s).
  { by apply (alloc_pstate_new st st' s). }
  assert (Hon : orig st' (length (promises st)) = Some o).
  { by apply (alloc_orig_new st st' o). }
  split_and!; [split_and!| | |]; try done.
  - eapply (inv_alloc st st' s o []); try done.
    destruct o; try done; subst s; unfold justified, outcome; rewrite Hpn; done.
  - by eapply (counted_alloc st st' s o []).
  - intros d q f g Hd Hq Hpend HD0.
    destruct (decide (d = length (promises st))) as [->|Hne].
    + rewrite Hon in Hd. injection Hd as ->. done.
    + assert (Hl' : live_but (length (promises st) :: D) st').
      { eapply (live_alloc st st'); try done.
        eapply live_but_weaken; [|done]. intros y Hy. by right. }
      eapply Hl'; try done. by apply not_elem_of_cons.
  - intros d Hd. destruct (HD d Hd) as [Hi Hlt]. split.
    + by apply (alloc_idle st st' s Hp eq_refl Hs).
    + rewrite Hp, length_app. lia.
  - by eapply (alloc_adv st st' s o []).
Qed.

Lemma sound_next D obs pred st p st' :
  sound D st -> next obs pred st = (p, st') -> sound D st' /\ adv st st'.
Proof.
  intros Hs. unfold next.
  destruct (new_promise _ _ st) as [p1 st1] eqn:E1.
  destruct (subscribe _ _ st1) as [sub st2] eqn:E2. intros [= <- <-].
  destruct (sound_new D st (Pending []) ONext Hs eq_refl) as (Hs1 & Ha1 & Ho1 & _).
  rewrite E1 in Hs1, Ha1, Ho1. simpl in *.
  assert (p1 = length (promises st)) as -> by (by injection E1 as <- _).
  destruct (sound_subscribe D obs (LNext pred obs (length (emitters st1)) (length (promises st)))
              st1 Hs1 Ho1) as [Hs2 Ha2].
  rewrite E2 in Hs2, Ha2. split; [done|]. by eapply adv_trans.
Qed.

(** ** [Promise.race] and [timeout] *)

Lemma sound_race_register D r ps0 ps st :
  sound D st -> orig st r = Some (ORace ps0) -> (forall p, p ∈ ps -> p ∈ ps0) ->
  sound D (race_register r ps st) /\ adv st (race_register r ps st) /\
  forall p, p ∈ ps -> exists a,
    orig (race_register r ps st) a =
      Some (OThen p (Some (HResolveFn r)) (Some (HRejectFn r))) /\
    length (promises st) <= a.
Proof.
  revert st. induction ps as [|p ps IH]; intros st Hs Hr Hsub.
  { split_and!; [done|apply adv_refl|]. intros p Hp. by apply elem_of_nil in Hp. }
  cbn [race_register].
  destruct (then_ p (Some (HResolveFn r)) (Some (HRejectFn r)) st) as [d st1] eqn:E.
  destruct (sound_then D st p (Some (HResolveFn r)) (Some (HRejectFn r)) d st1 Hs)
    as (Hs1 & Ha1 & Hd & Ho1 & _); [| |done|].
  - constructor. unfold resolves. rewrite Hr. apply Hsub. by left.
  - intros d0 [= <-]. apply idle_not_then; [apply Hs|]. intros q f g. by rewrite Hr.
  - simpl. destruct (IH st1 Hs1) as (Hs2 & Ha2 & Hall).
    + by apply Ha1.
    + intros q Hq. apply Hsub. by right.
    + split_and!; [done|by eapply adv_trans|].
      assert (Hlen : length (promises st) < length (promises st1)).
      { rewrite <- Hd. by eapply orig_lt; [apply Hs1|]. }
      intros q Hq. apply elem_of_cons in Hq as [->|Hq].
      * exists d. split; [by apply Ha2|lia].
      * destruct (Hall q Hq) as (a & Ha & Hle). exists a. split; [done|lia].
Qed.

Lemma sound_promise_race D ps st r st' :
  sound D st -> promise_race ps st = (r, st') ->
  sound D st' /\ adv st st' /\ r = length (promises st) /\ orig st' r = Some (ORace ps) /\
  forall p, p ∈ ps -> exists a,
    orig st' a = Some (OThen p (Some (HResolveFn r)) (Some (HRejectFn r))) /\
    length (promises st) <= a.
Proof.
  intros Hs. unfold promise_race.
  destruct (new_promise _ _ st) as [r1 st1] eqn:E1. intros [= <- <-].
  destruct (sound_new D st (Pending []) (ORace ps) Hs eq_refl) as (Hs1 & Ha1 & Ho1 & _).
  rewrite E1 in Hs1, Ha1, Ho1. simpl in *.
  assert (r1 = length (promises st)) as -> by (by injection E1 as <- _).
  assert (Hlen : length (promises st) <= length (promises st1)).
  { injection E1 as <-. simpl. rewrite length_app. lia. }
  destruct (sound_race_register D (length (promises st)) ps ps st1 Hs1 Ho1)
    as (Hs2 & Ha2 & Hall); [done|].
  split_and!; [done|by eapply adv_trans|done|by apply Ha2|].
  intros p Hp. destruct (Hall p Hp) as (a & Ha & Hle). exists a. split; [done|lia].
Qed.

Lemma sound_timeout D p delay st r st' :
  sound D st -> timeout p delay st = (r, st') ->
  sound D st' /\ adv st st' /\ length (promises st) < r /\
  exists t a, orig st' r = Some (ORace [t; p]) /\ orig st' t = Some OTimer /\
    orig st' a = Some (OThen p (Some (HResolveFn r)) (Some (HRejectFn r))) /\
    length (promises st) <= a.
Proof.
  intros Hs. unfold timeout, new_TimeoutError.
  destruct (sound_set_terrs D (fun es => es ++ [unknown_listener]) st Hs) as [Hs1 Ha1].
  destruct (sound_new D _ (Pending []) OTimer Hs1 eq_refl) as (Hs2 & Ha2 & Ho2 & _).
  destruct (new_promise _ _ _) as [t st2] eqn:E2.
  assert (t = length (promises st)) as -> by (by injection E2 as <- _).
  assert (Hlen : length (promises st2) = S (length (promises st))).
  { injection E2 as <-. simpl. rewrite length_app. simpl. lia. }
  simpl in Hs2, Ha2, Ho2. intros E3.
  destruct (sound_setTimeout D (TReject (length (promises st))
              (VTimeoutError (length (terrs st)))) delay st2 Hs2 Ho2) as [Hs3 Ha3].
  destruct (sound_promise_race D _ _ _ _ Hs3 E3) as (Hs4 & Ha4 & Hr & Ho4 & Hall).
  split_and!; [done|eauto using adv_trans| |].
  - rewrite Hr. change (promises (setTimeout _ _ st2)) with (promises st2). lia.
  - destruct (Hall p) as (a & Ha & Hle); [by right; left|].
    exists (length (promises st)), a. split_and!; [done|by apply Ha4, Ha3|done|].
    change (promises (setTimeout _ _ st2)) with (promises st2) in Hle. lia.
Qed.

(** ** User code *)

Lemma sound_run_script D s st c st' :
  sound D st -> run_script s st = (c, st') ->
  sound D st' /\ adv st st' /\ forall p, c = RetP p -> p < length (promises st').
Proof.
  revert st c st'.
  induction s as [v|e|e| |d k IH|p k IH|obs tgt k IH|obs text body IHb k IH|obs pred k IH];
    intros st c st' Hs; cbn [run_script].
  - intros [= <- <-]. split_and!; [done|apply adv_refl|done].
  - intros [= <- <-]. split_and!; [done|apply adv_refl|done].
  - destruct (sound_new D st (Rejected e) OPlain Hs I) as (Hs1 & Ha1 & Ho1 & _).
    destruct (new_promise _ _ st) as [p st1] eqn:E. intros [= <- <-].
    split_and!; [done..|]. intros q [= <-].
    injection E as <- _. by eapply orig_lt; [apply Hs1|].
  - destruct (sound_new D st (Pending []) OPlain Hs eq_refl) as (Hs1 & Ha1 & Ho1 & _).
    destruct (new_promise _ _ st) as [p st1] eqn:E. intros [= <- <-].
    split_and!; [done..|]. intros q [= <-].
    injection E as <- _. by eapply orig_lt; [apply Hs1|].
  - destruct (sound_new D st (Pending []) OPlain Hs eq_refl) as (Hs1 & Ha1 & Ho1 & _).
    destruct (new_promise _ _ st) as [p st1] eqn:E.
    assert (p = length (promises st)) as -> by (by injection E as <- _).
    simpl in Hs1, Ha1, Ho1.
    destruct (sound_setTimeout D (TResolve (length (promises st)) VUndefined) d st1 Hs1 Ho1)
      as [Hs2 Ha2].
    destruct (then_ _ _ _ _) as [q st3] eqn:E3. intros [= <- <-].
    destruct (sound_then D _ _ _ _ _ _ Hs2 (shape_script _ _ _ _) ltac:(done) E3)
      as (Hs3 & Ha3 & _ & Ho3 & _).
    split_and!; [done|eauto using adv_trans|].
    intros q' [= <-]. by eapply orig_lt; [apply Hs3|].
  - destruct (then_ _ _ _ _) as [q st1] eqn:E1. intros [= <- <-].
    destruct (sound_then D _ _ _ _ _ _ Hs (shape_script _ _ _ _) ltac:(done) E1)
      as (Hs1 & Ha1 & _ & Ho1 & _).
    split_and!; [done..|]. intros q' [= <-]. by eapply orig_lt; [apply Hs1|].
  - intros E. destruct (sound_remove D obs tgt st Hs) as [Hs1 Ha1].
    destruct (IH _ _ _ Hs1 E) as (Hs2 & Ha2 & Hp). split_and!; [done|eauto using adv_trans|done].
  - destruct (sound_subscribe D obs (LUser text body) st Hs I) as [Hs1 Ha1].
    destruct (subscribe _ _ st) as [sub st1] eqn:E1. intros E.
    destruct (IH _ _ _ _ Hs1 E) as (Hs2 & Ha2 & Hp). split_and!; [done|eauto using adv_trans|done].
  - destruct (next obs pred st) as [p st1] eqn:E1. intros E.
    destruct (sound_next D _ _ _ _ _ Hs E1) as [Hs1 Ha1].
    destruct (IH _ _ _ _ Hs1 E) as (Hs2 & Ha2 & Hp). split_and!; [done|eauto using adv_trans|done].
Qed.

Lemma sound_call_listener D l v st c st' :
  sound D st ->
  match l with LNext _ _ _ p => orig st p = Some ONext | LUser _ _ => True end ->
  call_listener l v st = (c, st') ->
  sound D st' /\ adv st st' /\ forall p, c = RetP p -> p < length (promises st').
Proof.
  intros Hs Hl. unfold call_listener. destruct l as [text body|pred parent sub p].
  - by apply sound_run_script.
  - destruct (matches pred v); intros [= <- <-].
    2: { split_and!; [done|apply adv_refl|done]. }
    destruct (sound_remove D parent sub st Hs) as [Hs1 Ha1].
    destruct (sound_settle D (remove parent sub st) p false v ONext Hs1) as (Hs2 & Ha2 & _).
    + by apply Ha1.
    + apply idle_not_then; [apply Hs1|]. intros q f g. by rewrite (proj1 Ha1 _ _ Hl).
    + done.
    + intros Hp e. by rewrite outcome_settle_pending.
    + split_and!; [done|eauto using adv_trans|done].
Qed.

Lemma sound_subscription_emit D s item st :
  sound D st ->
  match listener s with LNext _ _ _ p => orig st p = Some ONext | LUser _ _ => True end ->
  match subscription_emit s item st with
  | Normal d st' =>
      sound D st' /\ adv st st' /\ d < length (promises st') /\
      exists l, orig st' d = Some (OThen l (Some (HEmit (target s))) None) /\ l < d
  | Raise e st' => sound D st' /\ adv st st'
  | Diverge => True
  end.
Proof.
  intros Hs Hl. unfold subscription_emit.
  destruct (sound_set_invoked D (fun h => h ++ [(target s, item)]) st Hs) as [Hs0 Ha0].
  destruct (call_listener _ _ _) as [c st1] eqn:E1.
  assert (Hl0 : match listener s with
                | LNext _ _ _ p =>
                    orig (set_invoked (fun h => h ++ [(target s, item)]) st) p = Some ONext
                | LUser _ _ => True
                end).
  { destruct (listener s); [done|]. by apply Ha0. }
  destruct (sound_call_listener D _ _ _ _ _ Hs0 Hl0 E1) as (Hs1 & Ha1 & Hc).
  assert (Ha01 : adv st st1) by eauto using adv_trans.
  destruct c as [v|q|e]; [| |done].
  - unfold promise_resolve.
    destruct (sound_new D st1 (Fulfilled v) OPlain Hs1 I) as (Hs2 & Ha2 & Ho2 & _).
    destruct (new_promise _ _ st1) as [l st2] eqn:E2.
    assert (l = length (promises st1)) as -> by (by injection E2 as <- _).
    simpl in Hs2, Ha2, Ho2.
    destruct (then_ _ _ _ st2) as [d st3] eqn:E3.
    destruct (sound_then D _ _ _ _ _ _ Hs2 (shape_emit _ _ _ _) ltac:(done) E3)
      as (Hs3 & Ha3 & Hd & Ho3 & _).
    split_and!; [done|eauto using adv_trans|by eapply orig_lt; [apply Hs3|]|].
    eexists. split; [done|]. rewrite Hd.
    by eapply orig_lt; [apply Hs2|].
  - unfold promise_resolve.
    destruct (then_ _ _ _ st1) as [d st3] eqn:E3.
    destruct (sound_then D _ _ _ _ _ _ Hs1 (shape_emit _ _ _ _) ltac:(done) E3)
      as (Hs3 & Ha3 & Hd & Ho3 & _).
    split_and!; [done|eauto using adv_trans|by eapply orig_lt; [apply Hs3|]|].
    eexists. split; [done|]. rewrite Hd. by apply Hc.
Qed.

(** ** [waitAll] *)

Lemma sound_waitAll_register D w c r ps0 ps : forall i st,
  counters st !! w = Some c -> wa_inputs c = ps0 -> wa_promise c = r ->
  drop i ps0 = ps -> length (promises st) = r + 1 + i -> sound D st ->
  sound D (waitAll_register w r ps st) /\ adv st (waitAll_register w r ps st) /\
  forall j q, i <= j -> ps0 !! j = Some q ->
    orig (waitAll_register w r ps st) (aux c j) =
      Some (OThen q (Some (HCount w)) (Some (HRejectFn r))).
Proof.
  induction ps as [|p ps IH]; intros i st Hw Hi Hr Hdrop Hlen Hs.
  { split_and!; [done|apply adv_refl|]. intros j q Hj Hq.
    apply lookup_lt_Some in Hq. apply (f_equal length) in Hdrop.
    rewrite length_drop in Hdrop. simpl in Hdrop. lia. }
  cbn [waitAll_register].
  assert (Hp : ps0 !! i = Some p).
  { rewrite <- (Nat.add_0_r i), <- lookup_drop, Hdrop. done. }
  assert (Hdrop' : drop (S i) ps0 = ps).
  { replace (S i) with (i + 1) by lia. by rewrite <- drop_drop, Hdrop. }
  destruct (then_ p (Some (HCount w)) (Some (HRejectFn r)) st) as [d st1] eqn:E.
  destruct (sound_then D st p (Some (HCount w)) (Some (HRejectFn r)) d st1 Hs)
    as (Hs1 & Ha1 & Hd & Ho1 & _); [| |done|].
  - rewrite <- Hr. eapply shape_count; [done|by rewrite Hi|unfold aux; lia].
  - done.
  - simpl. destruct (IH (S i) st1) as (Hs2 & Ha2 & Hall); try done.
    + replace st1 with (then_ p (Some (HCount w)) (Some (HRejectFn r)) st).2 by (by rewrite E).
      by rewrite counters_then.
    + replace st1 with (then_ p (Some (HCount w)) (Some (HRejectFn r)) st).2 by (by rewrite E).
      rewrite length_promises_then. lia.
    + split_and!; [done|eauto using adv_trans|].
      intros j q Hj Hq. destruct (decide (j = i)) as [->|Hne].
      * apply Ha2. rewrite Hp in Hq. injection Hq as <-.
        replace (aux c i) with d; [done|]. unfold aux. lia.
      * apply Hall; [lia|done].
Qed.

Lemma sound_waitAll D ps st r st' :
  sound D st -> Forall (fun q => q < length (promises st)) ps ->
  waitAll ps st = (r, st') ->
  sound D st' /\ adv st st' /\ r = length (promises st) /\
  match ps with
  | [] => outcome st' r = Some (Some (false, VUndefined))
  | _ =>
      exists w c, orig st' r = Some (OWaitAll w) /\
        counters st' !! w = Some c /\ wa_inputs c = ps /\ wa_promise c = r /\
        forall i q, wa_inputs c !! i = Some q ->
          orig st' (aux c i) =
            Some (OThen q (Some (HCount w)) (Some (HRejectFn (wa_promise c))))
  end.
Proof.
  intros Hs Hps. unfold waitAll. case_decide as Hn.
  - destruct ps; [|done].
    destruct (sound_new D st (Fulfilled VUndefined) OPlain Hs I) as (Hs1 & Ha1 & Ho1 & Hp1).
    destruct (new_promise _ _ st) as [r1 st1] eqn:E. intros [= <- <-].
    assert (r1 = length (promises st)) as -> by (by injection E as <- _).
    split_and!; [done..|]. unfold outcome. simpl in Hp1. by rewrite Hp1.
  - set (w := length (counters st)).
    destruct (new_promise _ _ st) as [r1 st1] eqn:E.
    assert (r1 = length (promises st)) as -> by (by injection E as <- _).
    assert (st1 = (new_promise (Pending []) (OWaitAll w) st).2) as Est by (by rewrite E).
    set (c0 := mkWaitAll (Z.of_nat (length ps)) ps (length (promises st))).
    set (st2 := set_counters (fun cs => cs ++ [c0]) st1).
    intros [= <- <-].
    destruct Hs as (Hinv & Hcd & Hl & HD).
    assert (Hp2 : promises st2 = promises st ++ [Pending []]) by (unfold st2; by rewrite Est).
    assert (Ho2 : origins st2 = origins st ++ [OWaitAll w]) by (unfold st2; by rewrite Est).
    assert (Hm2 : microtasks st2 = microtasks st) by (unfold st2; by rewrite Est).
    assert (Hc2 : counters st2 = counters st ++ [c0]) by (unfold st2; by rewrite Est).
    assert (He2 : emits st2 = emits st) by (unfold st2; by rewrite Est).
    assert (Ht2 : timers st2 = timers st) by (unfold st2; by rewrite Est).
    assert (Hes2 : emitters st2 = emitters st) by (unfold st2; by rewrite Est).
    assert (Hnt : forall q f g, OWaitAll w = OThen q f g ->
      Pending [] = Pending [] /\ shape st2 (length (promises st)) q f g /\
      forall d, f = Some (HResolveFn d) -> idle st d) by done.
    assert (Hcs : forall c : WaitAll, c ∈ [c0] ->
      [c0] = [c] /\ wa_promise c = length (promises st) /\
      OWaitAll w = OWaitAll (length (counters st)) /\
      Forall (fun q => q < length (promises st)) (wa_inputs c) /\
      wa_n c = Z.of_nat (length (wa_inputs c))).
    { intros c Hin. apply list_elem_of_singleton in Hin. by subst c. }
    assert (Hw2 : counters st2 !! w = Some c0).
    { rewrite Hc2. by apply list_lookup_middle. }
    assert (Hpn : outcome st2 (length (promises st)) = Some None).
    { unfold outcome. by rewrite (alloc_pstate_new st st2 (Pending []) Hp2). }
    assert (Hj : justified st2 (length (promises st)) (OWaitAll w)).
    { exists c0. split; [done|]. split; intros ?; by rewrite Hpn. }
    assert (Hs2 : sound D st2).
    { split_and!.
      - by eapply (inv_alloc st st2 (Pending []) (OWaitAll w) [c0]).
      - by eapply (counted_alloc st st2 (Pending []) (OWaitAll w) [c0]).
      - intros d q f g Hd Hq Hpend HD0.
        destruct (decide (d = length (promises st))) as [->|Hne].
        + by rewrite (alloc_orig_new st st2 (OWaitAll w) Hinv Ho2) in Hd.
        + assert (Hl' : live_but (length (promises st) :: D) st2).
          { eapply (live_alloc st st2); try done.
            eapply live_but_weaken; [|done]. intros y Hy. by right. }
          eapply Hl'; try done. by apply not_elem_of_cons.
      - intros d Hd. destruct (HD d Hd) as [Hi Hlt]. split.
        + by apply (alloc_idle st st2 (Pending []) Hp2 Hm2 eq_refl).
        + rewrite Hp2, length_app. lia. }
    assert (Ha2 : adv st st2) by (by eapply (alloc_adv st st2 (Pending []) (OWaitAll w) [c0])).
    destruct (sound_waitAll_register D w c0 (length (promises st)) ps ps 0 st2)
      as (Hs3 & Ha3 & Hall); try done.
    { rewrite Hp2, length_app. simpl. lia. }
    split_and!; [done|eauto using adv_trans|done|].
    destruct ps as [|p0 ps']; [done|].
    exists w, c0. split_and!; try done.
    + apply Ha3. by apply (alloc_orig_new st st2 (OWaitAll w)).
    + by rewrite counters_waitAll_register.
    + intros i q Hq. apply Hall; [lia|done].
Qed.

(** ** [emit] *)

Lemma sound_set_emits D ec st :
  sound D st -> emit_ok st ec ->
  sound D (set_emits (fun cs => cs ++ [ec]) st) /\
  adv st (set_emits (fun cs => cs ++ [ec]) st).
Proof.
  intros (Hinv & Hcd & Hl & HD) Hec. set (st' := set_emits _ st).
  assert (Ha : adv st st').
  { split_and!; try done.
    - intros ec' Hin. apply elem_of_app. by left.
    - intros w c Hw. by exists c. }
  split; [split_and!|done].
  - constructor.
    + apply Hinv.
    + intros a q f g H. eapply shape_adv; [done|]. by apply Hinv.
    + apply Hinv.
    + apply Hinv.
    + apply Hinv.
    + apply Hinv.
    + intros d q Hj. destruct (inv_thenables _ Hinv d q Hj) as (?&?&?).
      split_and!; [by eapply resolves_adv|done..].
    + apply Hinv.
    + apply Hinv.
    + apply Hinv.
    + intros w c Hw. eapply counter_ok_adv; [done..|]. by apply Hinv.
    + intros p o H. eapply justified_adv; [done..|]. by apply Hinv.
    + intros ec' Hin. apply elem_of_app in Hin as [Hin|Hin].
      * eapply emit_ok_adv; [done|]. by apply Hinv.
      * apply list_elem_of_singleton in Hin. subst ec'. by eapply emit_ok_adv.
  - by apply (counted_ext st st').
  - exact Hl.
  - exact HD.
Qed.

Lemma contribution_lt st c : inv st -> contribution st c -> c < length (promises st).
Proof.
  intros Hinv (d & l & ch & Hd & Hl & [->|(r & t & cur & a & Hc & _)]); by eapply orig_lt.
Qed.

Lemma contributes_adv st st' tg c : adv st st' -> contributes st tg c -> contributes st' tg c.
Proof.
  intros Ha (d & l & [Hd Hl] & H). exists d, l. split; [split; [by apply Ha|done]|].
  destruct H as [->|(r & t & a & [cur Hc] & Hrc & Hr & Ht & Hra & Hda)]; [by left|right].
  exists r, t, a. split_and!; [exists cur; by apply Ha|done|by apply Ha..|done].
Qed.

Lemma contributes_contribution st tg c : contributes st tg c -> contribution st c.
Proof.
  intros (d & l & [Hd Hl] & H). exists d, l, tg. split_and!; [done..|].
  destruct H as [->|(r & t & a & [cur Hc] & Hrc & Hr & Ht & Hra & Hda)]; [by left|right].
  by exists r, t, cur, a.
Qed.

Lemma subscription_emit_invoked s item st d st' :
  subscription_emit s item st = Normal d st' ->
  invoked st' = invoked st ++ [(target s, item)].
Proof.
  unfold subscription_emit.
  pose proof (call_listener_invoked (listener s) item
                (set_invoked (fun h => h ++ [(target s, item)]) st)) as Hc.
  destruct (call_listener _ _ _) as [c st1]. simpl in Hc.
  destruct c as [v|q|e]; [| |done].
  - unfold promise_resolve. destruct (new_promise _ _ st1) as [l st2] eqn:E2.
    destruct (then_ _ _ _ st2) as [d' st3] eqn:E3. intros [= <- <-].
    rewrite (proj2 (then_heap_only _ _ _ _ _ _ E3)).
    rewrite (proj2 (new_promise_heap_only _ _ _ _ _ E2)). done.
  - unfold promise_resolve.
    destruct (then_ _ _ _ st1) as [d' st3] eqn:E3. intros [= <- <-].
    rewrite (proj2 (then_heap_only _ _ _ _ _ _ E3)). done.
Qed.

Lemma sound_emit_loop D em t cur fuel : forall k results tgts st,
  sound D st -> Forall2 (fun c tg => contributes st tg c) results tgts ->
  match emit_loop fuel em t cur k results st with
  | Normal rs st' =>
      sound D st' /\ adv st st' /\
      exists tgts', invoked st' = invoked st ++ map (fun tg => (tg, t)) tgts' /\
        Forall2 (fun c tg => contributes st' tg c) rs (tgts ++ tgts')
  | Raise e st' => sound D st' /\ adv st st'
  | Diverge => True
  end.
Proof.
  induction fuel as [|fuel IH]; intros k results tgts st Hs Hres; [done|].
  cbn [emit_loop].
  destruct (table st em !! k) as [current|] eqn:Ek.
  2: { split_and!; [done|apply adv_refl|]. exists []. simpl. by rewrite !app_nil_r. }
  destruct (sound_set_cells D (fun cs => <[cur := Some current]> cs) st Hs) as [Hs1 Ha1].
  pose proof (sound_subscription_emit D current t _ Hs1) as Hse.
  destruct (subscription_emit current t _) as [d st2|e st2|] eqn:Ese; [| |done].
  2: { destruct Hse as [Hs2 Ha2]; [|split; [done|eauto using adv_trans]].
       pose proof (inv_tables _ (proj1 Hs) em current (list_elem_of_lookup_2 _ _ _ Ek)) as Hx.
       destruct (listener current); [done|]. by apply Ha1. }
  destruct Hse as (Hs2 & Ha2 & Hd & l & Hod & Hl).
  { pose proof (inv_tables _ (proj1 Hs) em current (list_elem_of_lookup_2 _ _ _ Ek)) as Hx.
    destruct (listener current); [done|]. by apply Ha1. }
  assert (Ha02 : adv st st2) by eauto using adv_trans.
  pose proof (subscription_emit_invoked _ _ _ _ _ Ese) as Hi2. simpl in Hi2.
  assert (Hstep : forall c st3 k',
    sound D st3 -> adv st2 st3 -> invoked st3 = invoked st2 ->
    contributes st3 (target current) c ->
    match emit_loop fuel em t cur k' (results ++ [c]) st3 with
    | Normal rs st' =>
        sound D st' /\ adv st st' /\
        exists tgts', invoked st' = invoked st ++ map (fun tg => (tg, t)) tgts' /\
          Forall2 (fun c tg => contributes st' tg c) rs (tgts ++ tgts')
    | Raise e st' => sound D st' /\ adv st st'
    | Diverge => True
    end).
  { intros c st3 k' Hs3 Ha3 Hi3 Hc.
    assert (Ha03 : adv st st3) by eauto using adv_trans.
    specialize (IH k' (results ++ [c]) (tgts ++ [target current]) st3 Hs3).
    destruct (emit_loop fuel em t cur k' _ st3) as [rs st'|e st'|]; [| |done].
    - destruct IH as (Hs5 & Ha5 & tgts' & Hi5 & Hrs).
      { apply Forall2_app; [|by apply Forall2_cons].
        eapply Forall2_impl; [exact Hres|]. intros c0 tg. by apply contributes_adv. }
      split_and!; [done|eauto using adv_trans|].
      exists (target current :: tgts'). rewrite Hi5, Hi3, Hi2. simpl.
      rewrite <- !app_assoc. simpl. split; [done|].
      by rewrite <- app_assoc in Hrs.
    - destruct IH as (Hs5 & Ha5).
      { apply Forall2_app; [|by apply Forall2_cons].
        eapply Forall2_impl; [exact Hres|]. intros c0 tg. by apply contributes_adv. }
      split; [done|eauto using adv_trans]. }
  destruct (opts_emitTimeout st2 em) as [delay|].
  - destruct (timeout d delay st2) as [r st3] eqn:E3.
    destruct (sound_timeout D _ _ _ _ _ Hs2 E3)
      as (Hs3 & Ha3 & Hr & t0 & a0 & Hor & Hot & Hoa & Hla).
    destruct (then_ r None (Some (HStamp cur)) st3) as [c st4] eqn:E4.
    destruct (sound_then D _ _ _ _ _ _ Hs3 (shape_stamp _ _ _ _) ltac:(done) E4)
      as (Hs4 & Ha4 & Hc & Hoc & _).
    apply Hstep; [done|eauto using adv_trans| |].
    + rewrite (proj2 (then_heap_only _ _ _ _ _ _ E4)).
      by rewrite (proj2 (timeout_heap_only _ _ _ _ _ E3)).
    + exists d, l. split; [split; [by apply Ha4, Ha3|done]|]. right.
      exists r, t0, a0. split_and!; [by exists cur| |by apply Ha4..|lia].
      rewrite Hc. by eapply orig_lt; [apply Hs3|].
  - apply Hstep; [done|apply adv_refl|done|].
    exists d, l. split; [done|by left].
Qed.

Lemma sound_emit D fuel em v st :
  sound D st ->
  match emit fuel em v st with
  | Normal w st' =>
      sound D st' /\ adv st st' /\ emitted st' em v w /\ w < length (promises st') /\
      exists rs tgts, mkEmitCall em v rs w ∈ emits st' /\
        invoked st' = invoked st ++ map (fun tg => (tg, v)) tgts /\
        Forall2 (fun c tg => contributes st' tg c) rs tgts
  | Raise e st' => sound D st' /\ adv st st'
  | Diverge => True
  end.
Proof.
  intros Hs. unfold emit.
  destruct (sound_set_cells D (fun cs => cs ++ [None]) st Hs) as [Hs0 Ha0].
  pose proof (sound_emit_loop D em v (length (cells st)) fuel 0 [] [] _ Hs0
                ltac:(constructor)) as Hloop.
  destruct (emit_loop fuel em v _ 0 [] _) as [results st1|e st1|]; [| |done].
  2: { destruct Hloop as [Hs1 Ha1]. split; [done|eauto using adv_trans]. }
  destruct Hloop as (Hs1 & Ha1 & tgts & Hinvk & Hres2).
  assert (Hres : Forall (contribution st1) results).
  { apply Forall_forall. intros c Hc. apply list_elem_of_lookup in Hc as [i Hc].
    destruct (Forall2_lookup_l _ _ _ _ _ Hres2 Hc) as (tg & _ & Hct).
    by eapply contributes_contribution. }
  destruct (waitAll results st1) as [w st2] eqn:Ew.
  destruct (sound_waitAll D results st1 w st2 Hs1) as (Hs2 & Ha2 & Hw & Hok); [|done|].
  { eapply Forall_impl; [exact Hres|]. intros c. apply contribution_lt, Hs1. }
  destruct (sound_set_emits D (mkEmitCall em v results w) st2 Hs2) as [Hs3 Ha3].
  { split.
    - simpl. eapply Forall_impl; [exact Hres|]. intros c. by apply contribution_adv.
    - simpl. destruct results; done. }
  assert (Hin : mkEmitCall em v results w ∈
                emits (set_emits (fun cs => cs ++ [mkEmitCall em v results w]) st2)).
  { apply elem_of_app. right. by apply list_elem_of_singleton. }
  split_and!; [done|eauto using adv_trans|by exists results| |].
  - change (w < length (promises st2)).
    destruct results as [|c0 rs].
    + by eapply outcome_lt.
    + destruct Hok as (w0 & c & Ho & _). by eapply orig_lt; [apply Hs2|].
  - exists results, tgts. split_and!; [done| |].
    + change (invoked st2 = invoked st ++ map (fun tg => (tg, v)) tgts).
      by rewrite (proj2 (waitAll_heap_only _ _ _ _ Ew)), Hinvk.
    + eapply Forall2_impl; [exact Hres2|]. intros c tg.
      apply contributes_adv. eauto using adv_trans.
Qed.

(** ** Taking a job from the queue *)

Section pop.
Context (D : list PromiseId) (st : State) (j : Job) (js : list Job).
Context (Hs : sound D st) (Hm : microtasks st = j :: js).

Local Abbreviation st0 := (set_microtasks (fun _ => js) st).

Lemma pop_adv : adv st st0.
  Proof. by apply adv_ext. Qed.

Lemma pop_in_jobs d : in_jobs st0 d -> in_jobs st d.
  Proof.
    intros (h & b & x & Hj). exists h, b, x. rewrite Hm. by right.
  Qed.

Lemma pop_idle d : idle st d -> idle st0 d.
  Proof. intros [H1 H2]. split; [done|]. intros H. by apply H2, pop_in_jobs. Qed.

Lemma inv_pop : inv st0.
  Proof.
    destruct Hs as (Hinv & _). pose proof pop_adv as Ha. constructor.
    - apply Hinv.
    - intros a q f g H. eapply shape_adv; [done|]. by apply Hinv.
    - apply Hinv.
    - apply Hinv.
    - intros h b x d Hj. apply (inv_jobs _ Hinv). rewrite Hm. by right.
    - pose proof (inv_jobs_nodup _ Hinv) as Hnd. rewrite Hm in Hnd.
      simpl in Hnd. by apply NoDup_app in Hnd as (_ & _ & Hnd).
    - intros d q Hj. destruct (inv_thenables _ Hinv d q) as (?&?&?).
      { rewrite Hm. by right. }
      split_and!; [by eapply resolves_adv|by apply pop_idle|done].
    - intros a q d g H. apply pop_idle. by eapply inv_resolvers.
    - apply Hinv.
    - apply Hinv.
    - intros w c Hw. eapply counter_ok_adv; [done..|]. by apply Hinv.
    - intros p o H. eapply justified_adv; [done..|]. by apply Hinv.
    - intros ec Hin. eapply emit_ok_adv; [done|]. by apply Hinv.
  Qed.

Lemma counted_pop : counted st0.
  Proof. destruct Hs as (_ & Hcd & _). by apply (counted_ext st st0). Qed.

Lemma idle_pop d : d ∈ D -> idle st0 d /\ d < length (promises st0).
  Proof.
    intros Hd. destruct Hs as (_ & _ & _ & HD). destruct (HD d Hd). split; [|done].
    by apply pop_idle.
  Qed.

Lemma live_pop d :
    match j with JReact _ _ _ d' => d' = d | JThenable d' _ => d' = d end ->
    live_but (d :: D) st0.
  Proof.
    intros Hj. destruct Hs as (_ & _ & Hl & _).
    intros d0 q f g Hd Hq Hpend HD. apply not_elem_of_cons in HD as [Hne HD].
    destruct (Hl d0 q f g Hd Hq Hpend HD) as [H|[H|[H|H]]].
    - by left.
    - right; left. destruct H as (h & b & x & Hin). exists h, b, x.
      rewrite Hm in Hin. apply elem_of_cons in Hin as [<-|Hin]; [|done]. done.
    - right; right; left. destruct H as [q' Hin]. exists q'.
      rewrite Hm in Hin. apply elem_of_cons in Hin as [<-|Hin]; [|done]. done.
    - by right; right; right.
  Qed.
End pop.

Lemma sound_pop_react D st h b x d js :
  sound D st -> microtasks st = JReact h b x d :: js ->
  sound (d :: D) (set_microtasks (fun _ => js) st) /\
  adv st (set_microtasks (fun _ => js) st) /\
  exists q f g,
    orig st d = Some (OThen q f g) /\ h = (if b then g else f) /\
    outcome st q = Some (Some (b, x)) /\ outcome st d = Some None /\
    shape st d q f g.
Proof.
  intros Hs Hm. pose proof Hs as (Hinv & _).
  destruct (inv_jobs _ Hinv h b x d) as (q & f & g & Ho & Hh & Hq & Hd).
  { rewrite Hm. by left. }
  split_and!.
  - split_and!.
    + by eapply inv_pop.
    + by eapply counted_pop.
    + by eapply live_pop.
    + intros d0 Hd0. apply elem_of_cons in Hd0 as [->|Hd0]; [|by eapply idle_pop].
      split; [|by eapply outcome_lt]. split.
      * intros (q' & rs & r & Hq' & Hr & Hdr).
        change (pstate st q' = Some (Pending rs)) in Hq'.
        destruct (inv_reactions _ Hinv q' rs r Hq' Hr) as [Ho' _].
        rewrite Hdr, Ho in Ho'. injection Ho' as -> _ _.
        apply outcome_pending in Hq'. congruence.
      * intros (h' & b' & x' & Hin). simpl in Hin.
        pose proof (inv_jobs_nodup _ Hinv) as Hnd. rewrite Hm in Hnd. simpl in Hnd.
        apply NoDup_cons in Hnd as [Hnd _]. apply Hnd.
        apply list_elem_of_bind. exists (JReact h' b' x' d). split; [|done].
        simpl. by left.
  - by eapply pop_adv.
  - exists q, f, g. split_and!; try done. by apply Hinv.
Qed.

Lemma sound_pop_thenable D st d q js :
  sound D st -> microtasks st = JThenable d q :: js ->
  sound (d :: D) (set_microtasks (fun _ => js) st) /\
  adv st (set_microtasks (fun _ => js) st) /\
  resolves st d q /\ q < length (promises st).
Proof.
  intros Hs Hm. pose proof Hs as (Hinv & _).
  destruct (inv_thenables _ Hinv d q) as (Hr & Hi & Hq).
  { rewrite Hm. by left. }
  split_and!; try done.
  - split_and!.
    + by eapply inv_pop.
    + by eapply counted_pop.
    + by eapply live_pop.
    + intros d0 Hd0. apply elem_of_cons in Hd0 as [->|Hd0]; [|by eapply idle_pop].
      split; [by eapply pop_idle|].
      unfold resolves in Hr. destruct (orig st d) eqn:E; [|done].
      exact (orig_lt st d _ Hinv E).
  - by eapply pop_adv.
Qed.

(** ** Finishing a job *)

Lemma sound_drop D d st :
  sound (d :: D) st ->
  (forall q f g, orig st d = Some (OThen q f g) -> q < d ->
     outcome st d = Some None -> waits st d q) ->
  sound D st.
Proof.
  intros (Hinv & Hcd & Hl & HD) Hd. split_and!; try done.
  - intros d0 q f g Ho Hq Hpend HD0. destruct (decide (d0 = d)) as [->|Hne].
    + by eapply Hd.
    + eapply Hl; try done. by apply not_elem_of_cons.
  - intros d0 Hd0. apply HD. by right.
Qed.

Lemma sound_drop_settled D d st :
  sound (d :: D) st -> outcome st d <> Some None -> sound D st.
Proof. intros Hs Hd. eapply sound_drop; [done|]. intros. done. Qed.

Lemma sound_push_thenable D d q st :
  sound (d :: D) st -> resolves st d q -> q < length (promises st) ->
  sound D (set_microtasks (fun js => js ++ [JThenable d q]) st) /\
  adv st (set_microtasks (fun js => js ++ [JThenable d q]) st).
Proof.
  intros Hs Hr Hq. pose proof Hs as (Hinv & Hcd & Hl & HD).
  set (st' := set_microtasks _ st).
  assert (Ha : adv st st') by (by apply adv_ext).
  assert (Hidle : forall d0, idle st d0 -> idle st' d0).
  { intros d0 [H1 H2]. split; [done|]. intros (h & b & x & Hin). apply H2.
    exists h, b, x. simpl in Hin. apply elem_of_app in Hin as [Hin|Hin]; [done|].
    by apply list_elem_of_singleton in Hin. }
  split; [|done]. eapply (sound_drop D d).
  - split_and!.
    + constructor.
      * apply Hinv.
      * intros a q0 f g H. eapply shape_adv; [done|]. by apply Hinv.
      * apply Hinv.
      * apply Hinv.
      * intros h b x d0 Hin. simpl in Hin. apply elem_of_app in Hin as [Hin|Hin].
        -- by apply (inv_jobs _ Hinv).
        -- by apply list_elem_of_singleton in Hin.
      * simpl. rewrite bind_app. simpl. rewrite app_nil_r. apply Hinv.
      * intros d0 q0 Hin. simpl in Hin. apply elem_of_app in Hin as [Hin|Hin].
        -- destruct (inv_thenables _ Hinv d0 q0 Hin) as (?&?&?).
           split_and!; [by eapply resolves_adv|by apply Hidle|done].
        -- apply list_elem_of_singleton in Hin. injection Hin as -> ->.
           split_and!; [by eapply resolves_adv| |done].
           apply Hidle. apply HD. by left.
      * intros a q0 d0 g H. apply Hidle. by eapply inv_resolvers.
      * apply Hinv.
      * apply Hinv.
      * intros w c Hw. eapply counter_ok_adv; [done..|]. by apply Hinv.
      * intros p o H. eapply justified_adv; [done..|]. by apply Hinv.
      * intros ec Hin. eapply emit_ok_adv; [done|]. by apply Hinv.
    + by apply (counted_ext st st').
    + intros d0 q0 f g Ho Hq0 Hpend HD0.
      destruct (Hl d0 q0 f g Ho Hq0 Hpend HD0) as [H|[H|[H|H]]].
      * by left.
      * right; left. destruct H as (h & b & x & Hin). exists h, b, x.
        simpl. apply elem_of_app. by left.
      * right; right; left. destruct H as [q' Hin]. exists q'.
        simpl. apply elem_of_app. by left.
      * by right; right; right.
    + intros d0 Hd0. destruct (HD d0 Hd0). split; [by apply Hidle|done].
  - intros q0 f g Ho Hq0 Hpend. right; right; left. exists q.
    simpl. apply elem_of_app. right. by apply list_elem_of_singleton.
Qed.

Lemma sound_settle_own D d b x o st :
  sound (d :: D) st -> orig st d = Some o ->
  (forall l w g, o = OThen l (Some (HCount w)) g ->
     exists e, outcome st l = Some (Some (true, e))) ->
  (outcome st d = Some None -> justified (settle d b x st) d o) ->
  sound D (settle d b x st) /\ adv st (settle d b x st).
Proof.
  intros Hs Ho Hca Hj.
  assert (Hidle : idle st d).
  { destruct Hs as (_ & _ & _ & HD). apply HD. by left. }
  destruct (sound_settle (d :: D) st d b x o Hs Ho Hidle Hca Hj) as (Hs1 & Ha1 & _ & Hd).
  split; [|done]. eapply sound_drop_settled; [done|].
  destruct (outcome st d) as [[y|]|] eqn:E.
  - rewrite (proj1 (proj2 Ha1) _ _ E). done.
  - by rewrite Hd.
  - rewrite settle_settled by congruence. congruence.
Qed.

(** A reaction without a callback passes the settlement on. *)
Lemma sound_job_pass D d (b : bool) x q (f g : option Handler) st :
  sound (d :: D) st ->
  orig st d = Some (OThen q f g) -> (if b then g else f) = None ->
  outcome st q = Some (Some (b, x)) -> shape st d q f g ->
  sound D (settle d b x st) /\ adv st (settle d b x st).
Proof.
  intros Hs Ho Hh Hq Hsh. apply (sound_settle_own D d b x (OThen q f g) st Hs Ho).
  - intros l w g' [= -> -> ->]. apply shape_count_inv in Hsh as (c & i & _ & _ & _ & ->).
    by destruct b.
  - intros Hpend. pose proof (outcome_settle_pending st d b x Hpend) as Hd.
    assert (Hq' : outcome (settle d b x st) q = Some (Some (b, x))).
    { rewrite settle_outcome_ne_any; [done|]. intros ->. congruence. }
    unfold justified. split; [intros _; by eexists|].
    destruct Hsh as [ch|k|d0 Hd0|w c i Hw Hi Ha|cur]; destruct b; try done.
    + split; intros y Hy; rewrite Hd in Hy; [done|]. injection Hy as <-. by left.
    + split; intros y Hy; rewrite Hd in Hy; [|done]. by injection Hy as <-.
Qed.

(** ** The jobs of user code, of [emit] and of the catch of [emit] *)

Lemma sound_job_script D d x q k c st st1 :
  sound (d :: D) st ->
  orig st d = Some (OThen q (Some (HScript k)) None) ->
  outcome st q = Some (Some (false, x)) ->
  run_script (k x) st = (c, st1) ->
  sound D (resolve_with d c st1) /\ adv st (resolve_with d c st1).
Proof.
  intros Hs Ho Hq Hrun.
  destruct (sound_run_script _ _ _ _ _ Hs Hrun) as (Hs1 & Ha1 & Hc).
  assert (Ho1 : orig st1 d = Some (OThen q (Some (HScript k)) None)) by (by apply Ha1).
  assert (Hq1 : settled st1 q) by (eexists; by apply Ha1).
  destruct c as [v|p|e]; simpl.
  - destruct (sound_settle_own D d false v _ st1 Hs1 Ho1) as [Hs2 Ha2]; [done| |].
    + intros _. split; [|done]. intros _. by eapply settled_adv; [eapply settle_adv_any|].
    + split; [done|eauto using adv_trans].
  - destruct (sound_push_thenable D d p st1 Hs1) as [Hs2 Ha2].
    + unfold resolves. by rewrite Ho1.
    + by apply Hc.
    + split; [done|eauto using adv_trans].
  - destruct (sound_settle_own D d true e _ st1 Hs1 Ho1) as [Hs2 Ha2]; [done| |].
    + intros _. split; [|done]. intros _. by eapply settled_adv; [eapply settle_adv_any|].
    + split; [done|eauto using adv_trans].
Qed.

Lemma sound_job_emit D fuel d x q em st :
  sound (d :: D) st ->
  orig st d = Some (OThen q (Some (HEmit em)) None) ->
  outcome st q = Some (Some (false, x)) ->
  match emit fuel em x st with
  | Normal w st1 =>
      sound D (resolve_with d (RetP w) st1) /\ adv st (resolve_with d (RetP w) st1)
  | Raise e st1 =>
      sound D (resolve_with d (Threw e) st1) /\ adv st (resolve_with d (Threw e) st1)
  | Diverge => True
  end.
Proof.
  intros Hs Ho Hq. pose proof (sound_emit (d :: D) fuel em x st Hs) as He.
  destruct (emit fuel em x st) as [w st1|e st1|]; [| |done].
  - destruct He as (Hs1 & Ha1 & Hem & Hw & _). simpl.
    destruct (sound_push_thenable D d w st1 Hs1) as [Hs2 Ha2]; [|done|].
    + unfold resolves. rewrite (proj1 Ha1 _ _ Ho). exists x. split; [by apply Ha1|done].
    + split; [done|eauto using adv_trans].
  - destruct He as (Hs1 & Ha1). simpl.
    assert (Ho1 : orig st1 d = Some (OThen q (Some (HEmit em)) None)) by (by apply Ha1).
    assert (Hq1 : outcome st1 q = Some (Some (false, x))) by (by apply Ha1).
    destruct (sound_settle_own D d true e _ st1 Hs1 Ho1) as [Hs2 Ha2]; [done| |].
    + intros Hpend. pose proof (outcome_settle_pending st1 d true e Hpend) as Hd.
      pose proof (settle_adv_any st1 d true e) as Ha.
      split; [intros _; eexists; by apply Ha|]. split.
      * intros v Hv. rewrite Hd in Hv. done.
      * intros e' _. right. exists x. by apply Ha.
    + split; [done|eauto using adv_trans].
Qed.

Lemma stamp_stamped cur e st e' st' : stamp cur e st = (e', st') -> stamped e e'.
Proof.
  unfold stamp, stamped. destruct e; try (intros [= <- <-]; by left).
  - intros [= <- <-]. by right.
  - destruct (terrs st !! r), (cells st !! cur) as [[c|]|]; try (intros [= <- <-]; by left).
    case_decide; intros [= <- <-]; by left.
Qed.

Lemma sound_stamp D cur e st e' st' :
  sound D st -> stamp cur e st = (e', st') -> sound D st' /\ adv st st'.
Proof.
  intros Hs. unfold stamp.
  assert (H0 : sound D st /\ adv st st) by (split; [done|apply adv_refl]).
  destruct e; try (by intros [= <- <-]).
  destruct (terrs st !! r), (cells st !! cur) as [[c|]|]; try (by intros [= <- <-]).
  case_decide; intros [= <- <-]; [|done]. by apply sound_set_terrs.
Qed.

Lemma sound_job_stamp D d x q cur st e' st1 :
  sound (d :: D) st ->
  orig st d = Some (OThen q None (Some (HStamp cur))) ->
  outcome st q = Some (Some (true, x)) ->
  stamp cur x st = (e', st1) ->
  sound D (resolve_with d (Threw e') st1) /\ adv st (resolve_with d (Threw e') st1).
Proof.
  intros Hs Ho Hq Hst. destruct (sound_stamp _ _ _ _ _ _ Hs Hst) as [Hs1 Ha1]. simpl.
  assert (Ho1 : orig st1 d = Some (OThen q None (Some (HStamp cur)))) by (by apply Ha1).
  assert (Hq1 : outcome st1 q = Some (Some (true, x))) by (by apply Ha1).
  destruct (sound_settle_own D d true e' _ st1 Hs1 Ho1) as [Hs2 Ha2]; [done| |].
  - intros Hpend. pose proof (outcome_settle_pending st1 d true e' Hpend) as Hd.
    pose proof (settle_adv_any st1 d true e') as Ha.
    split; [intros _; eexists; by apply Ha|]. split.
    + intros v Hv. rewrite Hd in Hv. done.
    + intros e Hv. rewrite Hd in Hv. injection Hv as <-. exists x.
      split; [by apply Ha|]. by eapply stamp_stamped.
  - split; [done|eauto using adv_trans].
Qed.

(** ** The jobs of resolving functions *)

Lemma orig_outcome st p o : inv st -> orig st p = Some o -> exists y, outcome st p = Some y.
Proof.
  intros Hinv Ho. apply (orig_lt _ _ _ Hinv) in Ho.
  unfold outcome, pstate. destruct (lookup_lt_is_Some_2 _ _ Ho) as [s ->].
  destruct s; eauto.
Qed.

Lemma settled_after_settle st p b x o :
  inv st -> orig st p = Some o -> settled (settle p b x st) p.
Proof.
  intros Hinv Ho. destruct (orig_outcome _ _ _ Hinv Ho) as [[y|] Hy].
  - exists y. pose proof (settle_adv_any st p b x) as Ha. by apply Ha.
  - exists (b, x). by apply outcome_settle_pending.
Qed.

Lemma sound_job_resolve D d b x q p st :
  sound (d :: D) st ->
  orig st d = Some (OThen q (Some (HResolveFn p)) (Some (HRejectFn p))) ->
  outcome st q = Some (Some (b, x)) -> resolves st p q ->
  sound D (settle d false VUndefined (settle p b x st)) /\
  adv st (settle d false VUndefined (settle p b x st)).
Proof.
  intros Hs Ho Hq Hres. pose proof Hs as (Hinv & _).
  pose proof (settle_adv_any st p b x) as Ha.
  assert (Hq1 : outcome (settle p b x st) q = Some (Some (b, x))) by (by apply Ha).
  destruct (orig st p) as [o|] eqn:Eo.
  2: { unfold resolves in Hres. by rewrite Eo in Hres. }
  destruct (sound_settle (d :: D) st p b x o Hs Eo) as (Hs1 & Ha1 & _ & Hp).
  { by eapply inv_resolvers. }
  { intros l w g ->. unfold resolves in Hres. by rewrite Eo in Hres. }
  { intros Hpend. specialize (outcome_settle_pending st p b x Hpend) as Hp'.
    unfold resolves in Hres. rewrite Eo in Hres.
    destruct o as [| | |ps|w|l [[ch| | | | |k]|] [g|]]; try done.
    - intros y Hy. rewrite Hp' in Hy. injection Hy as <-. by exists q.
    - destruct Hres as (u & Hu & Hem). split; [intros _; eexists; by apply Ha|]. split.
      + intros v Hv. rewrite Hp' in Hv. injection Hv as -> ->. exists u, q.
        split_and!; [by apply Ha|by eapply emitted_adv|done].
      + intros e He. right. exists u. by apply Ha.
    - split; [|done]. intros _. by eapply settled_adv. }
  assert (Ho1 : orig (settle p b x st) d =
                Some (OThen q (Some (HResolveFn p)) (Some (HRejectFn p)))) by (by apply Ha).
  destruct (sound_settle_own D d false VUndefined _ _ Hs1 Ho1) as [Hs2 Ha2]; [done| |].
  - intros Hpend. pose proof (settle_adv_any (settle p b x st) d false VUndefined) as Ha'.
    split; [intros _; eexists; by apply Ha'|].
    intros _. eapply settled_adv; [done|]. by eapply settled_after_settle.
  - split; [done|eauto using adv_trans].
Qed.

Lemma sound_job_reject_all D d x q w c i st :
  sound (d :: D) st ->
  orig st d = Some (OThen q (Some (HCount w)) (Some (HRejectFn (wa_promise c)))) ->
  outcome st q = Some (Some (true, x)) ->
  counters st !! w = Some c -> wa_inputs c !! i = Some q ->
  sound D (settle d false VUndefined (settle (wa_promise c) true x st)) /\
  adv st (settle d false VUndefined (settle (wa_promise c) true x st)).
Proof.
  intros Hs Ho Hq Hw Hi. pose proof Hs as (Hinv & _).
  set (r := wa_promise c).
  pose proof (settle_adv_any st r true x) as Ha.
  assert (Hq1 : outcome (settle r true x st) q = Some (Some (true, x))) by (by apply Ha).
  destruct (inv_counters _ Hinv w c Hw) as [Hor _].
  destruct (sound_settle (d :: D) st r true x _ Hs Hor) as (Hs1 & Ha1 & _ & Hp).
  { apply idle_not_then; [done|]. intros q0 f g. unfold r. by rewrite Hor. }
  { done. }
  { intros Hpend. specialize (outcome_settle_pending st r true x Hpend) as Hp'.
    exists c. split; [by rewrite counters_settle|]. split.
    - intros v Hv. by rewrite Hp' in Hv.
    - intros e He. rewrite Hp' in He. injection He as <-. exists q.
      split; [by eapply list_elem_of_lookup_2|done]. }
  assert (Ho1 : orig (settle r true x st) d =
                Some (OThen q (Some (HCount w)) (Some (HRejectFn r)))) by (by apply Ha).
  destruct (sound_settle_own D d false VUndefined _ _ Hs1 Ho1) as [Hs2 Ha2].
  - intros l w0 g [= <- <- <-]. by exists x.
  - intros Hpend. pose proof (settle_adv_any (settle r true x st) d false VUndefined) as Ha'.
    split; [intros _; eexists; by apply Ha'|].
    intros _ e _. eapply settled_adv; [done|]. by eapply settled_after_settle.
  - split; [done|eauto using adv_trans].
Qed.

(** ** The job of [count] *)

Section set_counter.
Context (st : State) (w : nat) (c : WaitAll) (n' : Z).
Context (Hinv : inv st) (Hw : counters st !! w = Some c).

Local Abbreviation c' := (mkWaitAll n' (wa_inputs c) (wa_promise c)).
Local Abbreviation st1 := (set_counters (fun cs => <[w := c']> cs) st).

Lemma set_counter_lookup w0 c0 :
    counters st1 !! w0 = Some c0 ->
    (w0 = w /\ c0 = c') \/ (w0 <> w /\ counters st !! w0 = Some c0).
  Proof.
    simpl. destruct (decide (w0 = w)) as [->|Hne].
    - rewrite list_lookup_insert_eq by (by eapply lookup_lt_Some). intros [= <-]. by left.
    - rewrite list_lookup_insert_ne by done. by right.
  Qed.

Lemma set_counter_adv : adv st st1.
  Proof.
    split_and!; try done. intros w0 c0 H0. destruct (decide (w0 = w)) as [->|Hne].
    - exists c'. simpl. rewrite list_lookup_insert_eq by (by eapply lookup_lt_Some).
      rewrite Hw in H0. by injection H0 as <-.
    - exists c0. simpl. by rewrite list_lookup_insert_ne.
  Qed.

Lemma inv_set_counter : inv st1.
  Proof.
    pose proof set_counter_adv as Ha. constructor.
    - apply Hinv.
    - intros a q f g H. eapply shape_adv; [done|]. by apply Hinv.
    - apply Hinv.
    - apply Hinv.
    - apply Hinv.
    - apply Hinv.
    - intros d q Hj. destruct (inv_thenables _ Hinv d q Hj) as (?&?&?).
      split_and!; [by eapply resolves_adv|done..].
    - apply Hinv.
    - apply Hinv.
    - apply Hinv.
    - intros w0 c0 H0. apply set_counter_lookup in H0 as [[-> ->]|[_ H0]].
      + eapply (counter_ok_adv st st1 w c); [done..|]. by apply Hinv.
      + eapply counter_ok_adv; [done..|]. by apply Hinv.
    - intros p o H. eapply justified_adv; [done..|]. by apply Hinv.
    - intros ec Hin. eapply emit_ok_adv; [done|]. by apply Hinv.
  Qed.

Lemma set_counter_is_done w0 c0 i : is_done st1 w0 c0 i = is_done st w0 c0 i.
  Proof. by apply is_done_ext. Qed.
End set_counter.

(** When all the inputs but one are done, they have all succeeded. *)
Lemma all_done st w c i :
  i < length (wa_inputs c) -> is_done st w c i = false ->
  ndone st w c = length (wa_inputs c) - 1 ->
  forall j q, j <> i -> wa_inputs c !! j = Some q ->
    exists v, outcome st q = Some (Some (false, v)).
Proof.
  intros Hi Hdi Hn j q Hne Hq.
  assert (Hj : is_done st w c j = true).
  { destruct (is_done st w c j) eqn:E; [done|]. exfalso.
    set (f := fun k => is_done st w c k).
    set (f1 := fun k => if decide (k = i) then true else f k).
    set (f2 := fun k => if decide (k = j) then true else f1 k).
    assert (H1 : length (filter (fun k => f1 k = true) (seq 0 (length (wa_inputs c)))) =
                 S (ndone st w c)).
    { apply (length_filter_flip f f1 _ i); unfold f1; try done.
      - by rewrite decide_True.
      - intros k Hk. by rewrite decide_False. }
    assert (H2 : length (filter (fun k => f2 k = true) (seq 0 (length (wa_inputs c)))) =
                 S (S (ndone st w c))).
    { rewrite <- H1. apply (length_filter_flip f1 f2 _ j); unfold f2.
      - by eapply lookup_lt_Some.
      - unfold f1. by rewrite decide_False.
      - by rewrite decide_True.
      - intros k Hk. by rewrite decide_False. }
    pose proof (length_filter (fun k => f2 k = true) (seq 0 (length (wa_inputs c)))) as H3.
    rewrite length_seq in H3. lia. }
  unfold is_done in Hj.
  destruct (orig st (aux c j)) as [[| | | | |l [[ | | |w'| | ]|] g]|]; try done.
  destruct (outcome st (aux c j)) as [[y|]|]; try done.
  rewrite Hq in Hj. apply andb_true_iff in Hj as [_ Hj].
  destruct (outcome st q) as [[[[] v]|]|]; try done. by exists v.
Qed.

(** Settling a promise, without the counters. *)
Lemma settle_core D st p b x o :
  inv st -> live_but D st ->
  (forall d, d ∈ D -> idle st d /\ d < length (promises st)) ->
  orig st p = Some o -> idle st p ->
  (outcome st p = Some None -> justified (settle p b x st) p o) ->
  inv (settle p b x st) /\ live_but D (settle p b x st) /\
  (forall d, d ∈ D -> idle (settle p b x st) d /\ d < length (promises (settle p b x st))).
Proof.
  intros Hinv Hl HD Ho Hidle Hj.
  destruct (outcome st p) as [[y|]|] eqn:Eo.
  - rewrite settle_settled by congruence. done.
  - apply outcome_pending_inv in Eo as [rs Hp]. specialize (Hj eq_refl).
    split_and!.
    + by eapply inv_settle.
    + by eapply live_settle.
    + intros d Hd. destruct (HD d Hd) as [Hi Hlt]. split.
      * by eapply settle_idle.
      * unfold settle. rewrite Hp. simpl. by rewrite length_insert.
  - rewrite settle_settled by congruence. done.
Qed.

Lemma is_done_pending st w c i :
  outcome st (aux c i) = Some None -> is_done st w c i = false.
Proof.
  intros H. unfold is_done. rewrite H.
  by destruct (orig st (aux c i)) as [[| | | | |l [[ | | |w'| | ]|] g]|].
Qed.

Lemma is_done_settle_other st p b x o w c i :
  inv st -> orig st p = Some o -> idle st p ->
  counters st !! w = Some c ->
  (aux c i = p -> forall l g, o = OThen l (Some (HCount w)) g ->
     exists e, outcome st l = Some (Some (true, e))) ->
  is_done (settle p b x st) w c i = is_done st w c i.
Proof.
  intros Hinv Ho Hidle Hw Hca.
  destruct (outcome st p) as [[y|]|] eqn:Eo.
  - by rewrite settle_settled by congruence.
  - apply outcome_pending_inv in Eo as [rs Hp]. by eapply settle_is_done_gen.
  - by rewrite settle_settled by congruence.
Qed.

Lemma sound_job_count D d x q w c i st :
  sound (d :: D) st ->
  orig st d = Some (OThen q (Some (HCount w)) (Some (HRejectFn (wa_promise c)))) ->
  outcome st q = Some (Some (false, x)) -> outcome st d = Some None ->
  counters st !! w = Some c -> wa_inputs c !! i = Some q -> d = aux c i ->
  sound D (settle d false VUndefined (count w st)) /\
  adv st (settle d false VUndefined (count w st)).
Proof.
  intros (Hinv & Hcd & Hl & HD) Ho Hq Hd Hw Hi Hdi.
  unfold count. rewrite Hw.
  set (n' := (wa_n c - 1)%Z).
  set (c' := mkWaitAll n' (wa_inputs c) (wa_promise c)).
  set (st1 := set_counters (fun cs => <[w := c']> cs) st).
  set (r := wa_promise c).
  pose proof (inv_set_counter st w c n' Hinv Hw) as Hinv1. fold c' st1 in Hinv1.
  pose proof (set_counter_adv st w c n' Hw) as Ha1. fold c' st1 in Ha1.
  assert (Hw1 : counters st1 !! w = Some c').
  { simpl. apply list_lookup_insert_eq. by eapply lookup_lt_Some. }
  destruct (inv_counters _ Hinv w c Hw) as [Hor Hlt].
  assert (Hor1 : orig st1 r = Some (OWaitAll w)) by done.
  assert (Hidle_r : idle st1 r).
  { apply idle_not_then; [done|]. intros q0 f g. by rewrite Hor1. }
  assert (Hilt : i < length (wa_inputs c)) by (by eapply lookup_lt_Some).
  assert (Hdone_i : is_done st w c i = false).
  { apply is_done_pending. by rewrite <- Hdi. }
  set (stB := if decide (n' = 0%Z) then settle r false VUndefined st1 else st1).
  assert (HaB : adv st1 stB).
  { unfold stB. case_decide; [apply settle_adv_any|apply adv_refl]. }
  assert (HB : inv stB /\ live_but (d :: D) stB /\
    (forall d0, d0 ∈ d :: D -> idle stB d0 /\ d0 < length (promises stB))).
  { unfold stB. case_decide as Hn; [|done].
    apply (settle_core (d :: D) st1 r false VUndefined (OWaitAll w)); try done.
    intros Hpend. pose proof (outcome_settle_pending st1 r false VUndefined Hpend) as Hp'.
    pose proof (settle_adv_any st1 r false VUndefined) as Ha.
    exists c'. split; [by rewrite counters_settle|]. split.
    - intros v _ q0 Hq0. apply list_elem_of_lookup in Hq0 as [j Hj].
      destruct (decide (j = i)) as [->|Hne].
      + simpl in Hj. rewrite Hi in Hj. injection Hj as <-. exists x. by apply Ha, Ha1.
      + destruct (all_done st w c i Hilt Hdone_i) with (j := j) (q := q0) as [v' Hv']; try done.
        * specialize (Hcd w c Hw). unfold n' in Hn. lia.
        * exists v'. by apply Ha, Ha1.
    - intros e He. by rewrite Hp' in He. }
  destruct HB as (HinvB & HlB & HDB).
  assert (HoB : orig stB d = Some (OThen q (Some (HCount w)) (Some (HRejectFn r))))
    by (by apply HaB, Ha1).
  assert (HqB : outcome stB q = Some (Some (false, x))) by (by apply HaB, Ha1).
  assert (HdB : outcome stB d = Some None).
  { unfold stB. case_decide; [|done]. rewrite settle_outcome_ne_any; [done|].
    intros E. unfold r in E. rewrite E in Ho. congruence. }
  set (stC := settle d false VUndefined stB).
  pose proof (settle_adv_any stB d false VUndefined) as HaC. fold stC in HaC.
  pose proof (outcome_settle_pending stB d false VUndefined HdB) as HdC. fold stC in HdC.
  destruct (settle_core (d :: D) stB d false VUndefined _ HinvB HlB HDB HoB)
    as (HinvC & HlC & HDC).
  { apply HDB. by left. }
  { intros _. split; [intros _; eexists; by apply HaC|].
    intros _ e He. pose proof (proj1 (proj2 HaC) _ _ HqB) as Hq'.
    fold stC in He. congruence. }
  fold stC in HinvC, HlC, HDC.
  assert (Hsame : forall w0 c0 j,
    counters st1 !! w0 = Some c0 -> (w0 = w -> j <> i) ->
    is_done stC w0 c0 j = is_done st w0 c0 j).
  { intros w0 c0 j H0 Hne.
    assert (H0B : counters stB !! w0 = Some c0).
    { unfold stB. case_decide; [by rewrite counters_settle|done]. }
    unfold stC. rewrite (is_done_settle_other stB d false VUndefined _ w0 c0 j HinvB HoB);
      [|by apply HDB; left|done|].
    2: { intros E l g [= _ <-]. exfalso. apply Hne; [done|].
         rewrite Hw1 in H0. injection H0 as <-. rewrite Hdi in E.
         unfold aux in E. simpl in E. lia. }
    unfold stB. case_decide.
    - rewrite (is_done_settle_other st1 r false VUndefined _ w0 c0 j Hinv1 Hor1);
        [by apply set_counter_is_done|done..].
    - by apply set_counter_is_done. }
  split.
  2: { eauto using adv_trans. }
  eapply sound_drop_settled; [|by rewrite HdC].
  split_and!; [done| |done..].
  change (counted stC). intros w0 c0 H0.
  assert (H01 : counters st1 !! w0 = Some c0).
  { revert H0. unfold stC, stB. rewrite counters_settle. case_decide; [|done].
    by rewrite counters_settle. }
  destruct (set_counter_lookup st w c n' Hw w0 c0 H01) as [[-> ->]|[Hne H0']].
  - assert (Hnd : ndone stC w c' = S (ndone st w c)).
    { unfold ndone. simpl.
      apply (length_filter_flip (is_done st w c) (is_done stC w c') _ i);
        [done|exact Hdone_i| |].
      - unfold is_done. change (aux c' i) with (aux c i). rewrite <- Hdi.
        change (wa_inputs c') with (wa_inputs c).
        rewrite (proj1 HaC _ _ HoB), HdC, Hi, bool_decide_eq_true_2 by done.
        by rewrite (proj1 (proj2 HaC) _ _ HqB).
      - intros j Hj. rewrite (Hsame w c' j Hw1) by done. done. }
    change (wa_n c' = (Z.of_nat (length (wa_inputs c')) - Z.of_nat (ndone stC w c'))%Z).
    rewrite Hnd. simpl. specialize (Hcd w c Hw). unfold n'. lia.
  - rewrite (Hcd w0 c0 H0'). unfold ndone. do 3 f_equal.
    apply list_filter_iff. intros j. by rewrite (Hsame w0 c0 j H01).
Qed.

(** ** The event loop *)

Lemma sound_job_thenable D d q st :
  sound (d :: D) st -> resolves st d q -> q < length (promises st) ->
  sound D (then_ q (Some (HResolveFn d)) (Some (HRejectFn d)) st).2 /\
  adv st (then_ q (Some (HResolveFn d)) (Some (HRejectFn d)) st).2.
Proof.
  intros Hs Hr Hq.
  destruct (then_ q _ _ st) as [a st'] eqn:E.
  destruct (sound_then (d :: D) st q _ _ a st' Hs (shape_resolve _ _ _ _ Hr))
    as (Hs1 & Ha1 & Ha & Ho & _); [|done|].
  { intros d0 [= <-]. destruct Hs as (_ & _ & _ & HD). apply HD. by left. }
  simpl. split; [|done]. eapply sound_drop; [done|].
  intros q0 f g _ _ _. right; right; right. exists a, q, (Some (HRejectFn d)).
  split; [done|]. lia.
Qed.

Lemma sound_run_job D fuel j js st st' :
  sound D st -> microtasks st = j :: js ->
  run_job fuel j (set_microtasks (fun _ => js) st) = Some st' ->
  sound D st' /\ adv st st'.
Proof.
  intros Hs Hm. set (st0 := set_microtasks (fun _ => js) st).
  destruct j as [h b x d|d q].
  - destruct (sound_pop_react D st h b x d js Hs Hm)
      as (Hs0 & Ha0 & q & f & g & Ho & Hh & Hq & Hd & Hsh).
    fold st0 in Hs0, Ha0.
    assert (Ho0 : orig st0 d = Some (OThen q f g)) by done.
    assert (Hq0 : outcome st0 q = Some (Some (b, x))) by done.
    assert (Hd0 : outcome st0 d = Some None) by done.
    assert (Hsh0 : shape st0 d q f g) by (by eapply shape_adv).
    assert (Hfin : forall st1, sound D st1 /\ adv st0 st1 -> sound D st1 /\ adv st st1).
    { intros st1 [H1 H2]. split; [done|eauto using adv_trans]. }
    unfold run_job. destruct h as [h|].
    2: { intros [= <-]. apply Hfin.
         by apply (sound_job_pass D d b x q f g st0 Hs0 Ho0 (eq_sym Hh) Hq0 Hsh0). }
    destruct Hsh0 as [ch|k|d0 Hd0r|w c i Hw Hi Ha|cur];
      destruct b; simpl in Hh; try done; injection Hh as ->; unfold run_handler.
    + pose proof (sound_job_emit D fuel d x q ch st0 Hs0 Ho0 Hq0) as He.
      destruct (emit fuel ch x st0) as [w st1|e st1|]; [| |done].
      * intros [= <-]. by apply Hfin.
      * intros [= <-]. by apply Hfin.
    + destruct (run_script (k x) st0) as [c st1] eqn:Er. intros [= <-].
      apply Hfin. by eapply sound_job_script.
    + intros [= <-]. apply Hfin. simpl.
      exact (sound_job_resolve D d true x q d0 st0 Hs0 Ho0 Hq0 Hd0r).
    + intros [= <-]. apply Hfin. simpl.
      exact (sound_job_resolve D d false x q d0 st0 Hs0 Ho0 Hq0 Hd0r).
    + intros [= <-]. apply Hfin. simpl.
      exact (sound_job_reject_all D d x q w c i st0 Hs0 Ho0 Hq0 Hw Hi).
    + intros [= <-]. apply Hfin. simpl.
      exact (sound_job_count D d x q w c i st0 Hs0 Ho0 Hq0 Hd0 Hw Hi Ha).
    + destruct (stamp cur x st0) as [e' st1] eqn:Es. intros [= <-].
      apply Hfin. by eapply sound_job_stamp.
  - destruct (sound_pop_thenable D st d q js Hs Hm) as (Hs0 & Ha0 & Hr & Hq).
    fold st0 in Hs0, Ha0. unfold run_job. intros [= <-].
    destruct (sound_job_thenable D d q st0 Hs0) as [H1 H2]; [by eapply resolves_adv|done|].
    split; [done|eauto using adv_trans].
Qed.

Lemma earliest_lookup ts i t : earliest ts = Some (i, t) -> ts !! i = Some t.
Proof.
  revert i t. induction ts as [|t0 ts IH]; intros i t; simpl; [done|].
  destruct (earliest ts) as [[j t']|].
  - case_decide; intros [= <- <-]; [|done]. simpl. by apply IH.
  - by intros [= <- <-].
Qed.

Lemma sound_turn D fuel st st' :
  sound D st -> turn fuel st = Next st' -> sound D st' /\ adv st st'.
Proof.
  intros Hs. unfold turn. destruct (microtasks st) as [|j js] eqn:Hm.
  - destruct (earliest (timers st)) as [[i t]|] eqn:Et; [|done]. intros [= <-].
    apply earliest_lookup in Et.
    set (st1 := set_now _ (set_timers _ st)).
    destruct (sound_frame D st st1) as [Hs1 Ha1]; try done.
    { intros t0 Ht0. left. simpl in Ht0. eapply elem_of_sublist; [done|].
      apply sublist_delete. }
    { intros em s Hin. left. by exists em. }
    pose proof (inv_timers _ (proj1 Hs) t (list_elem_of_lookup_2 _ _ _ Et)) as Ht.
    unfold fire. destruct (action t) as [p v|p e].
    + assert (Ho1 : orig st1 p = Some OPlain) by (by apply Ha1).
      destruct (sound_settle D st1 p false v OPlain Hs1 Ho1) as (Hs2 & Ha2 & _).
      * apply idle_not_then; [apply Hs1|]. intros q f g. by rewrite Ho1.
      * done.
      * done.
      * split; [done|eauto using adv_trans].
    + assert (Ho1 : orig st1 p = Some OTimer) by (by apply Ha1).
      destruct (sound_settle D st1 p true e OTimer Hs1 Ho1) as (Hs2 & Ha2 & _).
      * apply idle_not_then; [apply Hs1|]. intros q f g. by rewrite Ho1.
      * done.
      * intros Hpend v. by rewrite outcome_settle_pending.
      * split; [done|eauto using adv_trans].
  - destruct (run_job fuel j _) as [st1|] eqn:E; [|done]. intros [= <-].
    by eapply sound_run_job.
Qed.

(** ** The invariant holds in every reachable state *)

Lemma sound_init : sound [] init.
Proof.
  split_and!.
  - constructor.
    + done.
    + intros a q f g H. done.
    + intros q rs r H. done.
    + intros q rs H. done.
    + intros h b x d H. by apply elem_of_nil in H.
    + constructor.
    + intros d q H. by apply elem_of_nil in H.
    + intros a q d g H. done.
    + intros t H. by apply elem_of_nil in H.
    + intros em s H. by apply elem_of_nil in H.
    + intros w c H. done.
    + intros p o H. done.
    + intros ec H. by apply elem_of_nil in H.
  - intros w c H. done.
  - intros d q f g H. done.
  - intros d H. by apply elem_of_nil in H.
Qed.

Lemma reachable_sound st : reachable st -> sound [] st.
Proof.
  induction 1 as [|opts st _ IH|obs text body st _ IH|obs tgt st _ IH|obs pred st _ IH
                  |fuel em v st w st' _ IH He|fuel em v st e st' _ IH He
                  |fuel st st' _ IH Ht].
  - apply sound_init.
  - by apply sound_create.
  - by apply sound_subscribe.
  - by apply sound_remove.
  - destruct (next obs pred st) as [p st'] eqn:E. by eapply sound_next.
  - pose proof (sound_emit [] fuel em v st IH) as H. rewrite He in H. apply H.
  - pose proof (sound_emit [] fuel em v st IH) as H. rewrite He in H. apply H.
  - by eapply sound_turn.
Qed.

(** ** What the invariant says when no job is queued *)

Section rest.
Context (st : State) (Hs : sound [] st) (Hq : quiescent st).

Local Abbreviation Hinv := (proj1 Hs : inv st).

  (** A pending promise made by [then] waits for its source, or it was
      resolved with a promise. *)
Lemma pending_at_rest d q f g :
    orig st d = Some (OThen q f g) -> q < d -> pending st d ->
    pending st q \/
    exists a q', orig st a = Some (OThen q' (Some (HResolveFn d)) (Some (HRejectFn d))) /\
      q' < a /\ resolves st d q'.
  Proof.
    intros Ho Hlt Hp. pose proof (proj1 (proj2 (proj2 Hs))) as Hl.
    destruct (Hl d q f g Ho Hlt Hp) as [(rs & r & H1 & _)|[H|[H|H]]].
    - apply not_elem_of_nil.
    - left. by eapply outcome_pending.
    - destruct H as (h & b & x & Hin). rewrite Hq in Hin. by apply elem_of_nil in Hin.
    - destruct H as (q' & Hin). rewrite Hq in Hin. by apply elem_of_nil in Hin.
    - right. destruct H as (a & q' & g' & Ha & Hlt').
      destruct (shape_resolve_inv _ _ _ _ _ (inv_shape _ Hinv _ _ _ _ Ha)) as [Hr ->].
      by exists a, q'.
  Qed.

  (** The same for a promise that is never resolved with a promise. *)
Lemma pending_at_rest_plain d q f g :
    orig st d = Some (OThen q f g) -> q < d -> pending st d ->
    match f with Some (HEmit _) | Some (HScript _) => False | _ => True end ->
    pending st q.
  Proof.
    intros Ho Hlt Hp Hf. destruct (pending_at_rest d q f g Ho Hlt Hp) as [H|H]; [done|].
    destruct H as (a & q' & _ & _ & Hr). unfold resolves in Hr. rewrite Ho in Hr.
    by destruct f as [[]|].
  Qed.

Lemma settled_at_rest d q f g :
    orig st d = Some (OThen q f g) -> q < d -> settled st q ->
    match f with Some (HEmit _) | Some (HScript _) => False | _ => True end ->
    settled st d.
  Proof.
    intros Ho Hlt [y Hy] Hf.
    destruct (orig_outcome _ _ _ Hinv Ho) as [[z|] Hz]; [by exists z|].
    pose proof (pending_at_rest_plain d q f g Ho Hlt Hz Hf) as Hp.
    unfold pending in Hp. congruence.
  Qed.

  (** The promise that a chain was resolved with is pending while the chain
      is. *)
Lemma resolver_at_rest a q d g :
    orig st a = Some (OThen q (Some (HResolveFn d)) g) -> q < a -> pending st d ->
    pending st q.
  Proof.
    intros Ho Hlt Hp.
    destruct (orig_outcome _ _ _ Hinv Ho) as [[z|] Hz].
    - destruct (inv_justified _ Hinv _ _ Ho) as [_ Hspec]. simpl in Hspec.
      destruct Hspec as [y Hy]; [by exists z|]. unfold pending in Hp. congruence.
    - by eapply (pending_at_rest_plain a q).
  Qed.
End rest.

(** ** A returned call of [emit] and its contributions *)

Section emit_call.
Context (st : State) (Hs : sound [] st).
Context (ec : EmitCall) (Hec : ec ∈ emits st).

Local Abbreviation Hinv := (proj1 Hs : inv st).

Lemma emit_call_inputs w c :
    orig st (ec_promise ec) = Some (OWaitAll w) -> counters st !! w = Some c ->
    ec_results ec <> [] -> wa_inputs c = ec_results ec /\ wa_promise c = ec_promise ec /\
    forall i q, wa_inputs c !! i = Some q ->
      orig st (aux c i) =
        Some (OThen q (Some (HCount w)) (Some (HRejectFn (wa_promise c)))).
  Proof.
    intros Ho Hw Hne. destruct (inv_emits _ Hinv ec Hec) as [_ Hok].
    destruct (ec_results ec) as [|c0 rs]; [done|].
    destruct Hok as (w' & c' & Ho' & Hw' & Hi & Hp & Haux).
    rewrite Ho in Ho'. injection Ho' as <-. rewrite Hw in Hw'. by injection Hw' as <-.
  Qed.

Lemma emit_call_fulfilled v c :
    fulfilled st (ec_promise ec) v -> c ∈ ec_results ec -> exists y, fulfilled st c y.
  Proof.
    intros Hv Hc. destruct (inv_emits _ Hinv ec Hec) as [_ Hok].
    destruct (ec_results ec) as [|c0 rs] eqn:Ers; [by apply elem_of_nil in Hc|].
    destruct Hok as (w & c1 & Ho & Hw & Hi & Hp & Haux).
    destruct (inv_justified _ Hinv _ _ Ho) as (c2 & Hw2 & Hf & _).
    rewrite Hw in Hw2. injection Hw2 as <-. apply (Hf v Hv). by rewrite Hi.
  Qed.

Lemma emit_call_failed e :
    failed st (ec_promise ec) e -> exists c, c ∈ ec_results ec /\ failed st c e.
  Proof.
    intros He. destruct (inv_emits _ Hinv ec Hec) as [_ Hok].
    destruct (ec_results ec) as [|c0 rs] eqn:Ers.
    { unfold failed in He. congruence. }
    destruct Hok as (w & c1 & Ho & Hw & Hi & Hp & Haux).
    destruct (inv_justified _ Hinv _ _ Ho) as (c2 & Hw2 & _ & Hr).
    rewrite Hw in Hw2. injection Hw2 as <-. rewrite <- Hi. by apply Hr.
  Qed.

Lemma emit_call_fails c e :
    quiescent st -> c ∈ ec_results ec -> failed st c e ->
    exists e', failed st (ec_promise ec) e'.
  Proof.
    intros Hq Hc He. destruct (inv_emits _ Hinv ec Hec) as [_ Hok].
    destruct (ec_results ec) as [|c0 rs] eqn:Ers; [by apply elem_of_nil in Hc|].
    destruct Hok as (w & c1 & Ho & Hw & Hi & Hp & Haux).
    rewrite <- Hi in Hc. apply list_elem_of_lookup in Hc as [i Hci].
    pose proof (Haux i c Hci) as Ha.
    destruct (inv_counters _ Hinv w c1 Hw) as [_ Hlt].
    assert (Hlt' : c < aux c1 i).
    { apply (Forall_lookup_1 _ _ _ _ Hlt) in Hci. unfold aux. lia. }
    destruct (settled_at_rest st Hs Hq (aux c1 i) c _ _ Ha Hlt') as [y Hy]; [by eexists|done|].
    destruct (inv_justified _ Hinv _ _ Ha) as [_ Hspec]. simpl in Hspec.
    destruct (Hspec (ex_intro _ y Hy) e He) as [[[] z] Hz].
    - exists z. by rewrite <- Hp.
    - exfalso. rewrite Hp in Hz.
      destruct (emit_call_fulfilled z c Hz) as [y' Hy'].
      + rewrite Ers, <- Hi. by eapply list_elem_of_lookup_2.
      + unfold fulfilled, failed in *. congruence.
  Qed.
End emit_call.

(** ** The forward chain of an entry *)

Section chain.
Context (st : State) (Hs : sound [] st).
Context (d l : PromiseId) (ch : EmitterId) (Hd : chain st d l ch).

Local Abbreviation Hinv := (proj1 Hs : inv st).

Lemma chain_fulfilled v :
    fulfilled st d v ->
    exists u w, fulfilled st l u /\ emitted st ch u w /\ fulfilled st w v.
  Proof.
    intros Hv. destruct Hd as [Ho _].
    destruct (inv_justified _ Hinv _ _ Ho) as (_ & Hf & _). by apply Hf.
  Qed.

Lemma chain_failed e :
    failed st d e -> failed st l e \/ exists u, fulfilled st l u.
  Proof.
    intros He. destruct Hd as [Ho _].
    destruct (inv_justified _ Hinv _ _ Ho) as (_ & _ & Hr). by apply Hr.
  Qed.

  (** When the listener has failed, the chain can only fail, with the
      failure of the listener. *)
Lemma chain_of_failed_listener e y :
    failed st l e -> outcome st d = Some (Some y) -> y = (true, e).
  Proof.
    intros He Hy. destruct y as [[] z].
    - destruct (chain_failed z Hy) as [H|[u H]]; unfold failed, fulfilled in *; congruence.
    - destruct (chain_fulfilled z Hy) as (u & w & H & _). unfold failed, fulfilled in *.
      congruence.
  Qed.

Lemma chain_fails e : quiescent st -> failed st l e -> failed st d e.
  Proof.
    intros Hq He. destruct Hd as [Ho Hlt].
    destruct (orig_outcome _ _ _ Hinv Ho) as [[y|] Hy].
    - by rewrite (chain_of_failed_listener e y He Hy) in Hy.
    - exfalso. destruct (pending_at_rest st Hs Hq d l _ _ Ho Hlt Hy) as [H|H].
      + unfold pending, failed in *. congruence.
      + destruct H as (a & q' & _ & _ & Hr). unfold resolves in Hr. rewrite Ho in Hr.
        destruct Hr as (u & Hu & _). unfold failed in *. congruence.
  Qed.

Lemma chain_pending :
    quiescent st -> pending st d ->
    pending st l \/
    exists u w, fulfilled st l u /\ emitted st ch u w /\ pending st w.
  Proof.
    intros Hq Hp. destruct Hd as [Ho Hlt].
    destruct (pending_at_rest st Hs Hq d l _ _ Ho Hlt Hp) as [H|H]; [by left|right].
    destruct H as (a & q' & Ha & Hlt' & Hr). unfold resolves in Hr. rewrite Ho in Hr.
    destruct Hr as (u & Hu & Hem). exists u, q'. split_and!; [done..|].
    by eapply (resolver_at_rest st Hs Hq a q' d).
  Qed.
End chain.

(** ** The contribution of an entry under [emitTimeout] *)

Section timed.
Context (st : State) (Hs : sound [] st).
Context (c r t d a : PromiseId) (Hc : timed st c r t d a).

Local Abbreviation Hinv := (proj1 Hs : inv st).

Lemma race_outcome y :
    outcome st r = Some (Some y) ->
    (exists e, y = (true, e) /\ failed st t e) \/ outcome st d = Some (Some y).
  Proof.
    intros Hy. destruct Hc as (_ & _ & Hr & Ht & _).
    destruct (inv_justified _ Hinv _ _ Hr y Hy) as (q & Hq & Hqy).
    apply elem_of_cons in Hq as [->|Hq].
    - left. pose proof (inv_justified _ Hinv _ _ Ht) as Hj. simpl in Hj.
      destruct y as [[] z]; [by exists z|]. by destruct (Hj z).
    - right. apply list_elem_of_singleton in Hq. by subst q.
  Qed.

Lemma timed_fulfilled v : fulfilled st c v -> fulfilled st d v.
  Proof.
    intros Hv. destruct Hc as ([cur Ho] & _).
    destruct (inv_justified _ Hinv _ _ Ho) as (_ & Hf & _).
    destruct (race_outcome _ (Hf v Hv)) as [(e & He & _)|H]; [done|done].
  Qed.

Lemma timed_failed e :
    failed st c e ->
    exists e0, stamped e0 e /\ (failed st t e0 \/ failed st d e0).
  Proof.
    intros He. destruct Hc as ([cur Ho] & _).
    destruct (inv_justified _ Hinv _ _ Ho) as (_ & _ & Hr).
    destruct (Hr e He) as (e0 & H0 & Hst). exists e0. split; [done|].
    destruct (race_outcome _ H0) as [(e1 & [= <-] & H1)|H]; [by left|by right].
  Qed.

Lemma timed_fails e : quiescent st -> failed st d e -> exists e', failed st c e'.
  Proof.
    intros Hq He. destruct Hc as ([cur Ho] & Hrc & Hr & Ht & Ha & Hda).
    destruct (settled_at_rest st Hs Hq a d _ _ Ha Hda) as [y Hy]; [by eexists|done|].
    destruct (inv_justified _ Hinv _ _ Ha) as [_ Hspec]. simpl in Hspec.
    pose proof (Hspec (ex_intro _ y Hy)) as Hsr.
    destruct (settled_at_rest st Hs Hq c r _ _ Ho Hrc Hsr) as [[[] z] Hz]; [done| |].
    - by exists z.
    - pose proof (timed_fulfilled z Hz) as Hd. unfold fulfilled, failed in *. congruence.
  Qed.
End timed.

(** ** The counter of [waitAll] reaches zero only when its promise settles *)

Lemma calm_settled st st' p : calm st st' -> settled st p -> settled st' p.
Proof.
  intros [_ Hc] [o Ho]. exists o. rewrite Hc; [done|]. by eapply outcome_lt.
Qed.

Lemma zeroed_frame st st' :
  counters st' = counters st -> (forall p, settled st p -> settled st' p) ->
  zeroed st -> zeroed st'.
Proof.
  intros Hc Hs Hz w c Hw. rewrite Hc in Hw. destruct (Hz w c Hw) as [H|H]; [by left|].
  right. by apply Hs.
Qed.

Lemma zeroed_calm st st' :
  counters st' = counters st -> calm st st' -> zeroed st -> zeroed st'.
Proof. intros Hc Hcalm. apply zeroed_frame; [done|]. intros p. by apply calm_settled. Qed.

Lemma zeroed_settle p b x st : zeroed st -> zeroed (settle p b x st).
Proof.
  apply zeroed_frame; [apply counters_settle|].
  intros q [o Ho]. exists o. by apply (settle_adv_any st p b x).
Qed.

Lemma zeroed_then p f g st : zeroed st -> zeroed (then_ p f g st).2.
Proof.
  apply zeroed_calm; [apply counters_then|].
  destruct (then_ p f g st) as [d st'] eqn:E. by eapply calm_then.
Qed.

Lemma counters_set_table em f st : counters (set_table em f st) = counters st.
Proof. done. Qed.

Lemma counters_subscribe obs l st : counters (subscribe obs l st).2 = counters st.
Proof. done. Qed.

Lemma counters_next obs pred st : counters (next obs pred st).2 = counters st.
Proof. done. Qed.

Lemma counters_run_script s st : counters (run_script s st).2 = counters st.
Proof.
  revert st. induction s as [| | | |d k IH|p k IH|obs tgt k IH|obs text body IHb k IH|obs pred k IH];
    intros st; cbn [run_script]; try done.
  - destruct (new_promise _ _ st) as [p st1] eqn:E1.
    destruct (then_ p _ _ _) as [q st3] eqn:E3. simpl.
    change st3 with (q, st3).2. rewrite <- E3, counters_then.
    by injection E1 as <- <-.
  - destruct (then_ p _ _ _) as [q st3] eqn:E3. simpl.
    change st3 with (q, st3).2. by rewrite <- E3, counters_then.
  - by rewrite IH.
  - destruct (subscribe obs _ st) as [sub st1] eqn:E. rewrite IH.
    change st1 with (sub, st1).2. by rewrite <- E.
  - destruct (next obs pred st) as [q st1] eqn:E. rewrite IH.
    change st1 with (q, st1).2. by rewrite <- E.
Qed.

Lemma zeroed_run_script s st : zeroed st -> zeroed (run_script s st).2.
Proof. apply zeroed_calm; [apply counters_run_script|apply calm_run_script]. Qed.

Lemma zeroed_same st st' :
  counters st' = counters st -> promises st' = promises st -> zeroed st -> zeroed st'.
Proof. intros Hc Hp. apply zeroed_calm; [done|by apply calm_same]. Qed.

Lemma zeroed_call_listener l v st : zeroed st -> zeroed (call_listener l v st).2.
Proof.
  intros Hz. unfold call_listener. destruct l as [text body|pred parent sub p].
  - by apply zeroed_run_script.
  - destruct (matches pred v); [|done]. simpl. apply zeroed_settle.
    by apply (zeroed_same st).
Qed.

Lemma zeroed_subscription_emit s v st :
  zeroed st ->
  match subscription_emit s v st with
  | Normal _ st' | Raise _ st' => zeroed st'
  | Diverge => True
  end.
Proof.
  intros Hz. unfold subscription_emit.
  pose proof (zeroed_call_listener (listener s) v
    (set_invoked (fun h => h ++ [(target s, v)]) st)) as H.
  destruct (call_listener _ _ _) as [[u|q|e] st1]; simpl in H.
  - destruct (promise_resolve (inl u) st1) as [l st2] eqn:E2.
    destruct (then_ l _ None st2) as [d st3] eqn:E3.
    pose proof (zeroed_then l (Some (HEmit (target s))) None st2) as H3.
    rewrite E3 in H3. apply H3. simpl in E2.
    eapply (zeroed_calm st1); [by injection E2 as <- <-|by eapply calm_new_promise|].
    apply H. by apply (zeroed_same st).
  - destruct (promise_resolve (inr q) st1) as [l st2] eqn:E2.
    destruct (then_ l _ None st2) as [d st3] eqn:E3.
    pose proof (zeroed_then l (Some (HEmit (target s))) None st2) as H3.
    rewrite E3 in H3. apply H3. simpl in E2. injection E2 as <- <-.
    apply H. by apply (zeroed_same st).
  - apply H. by apply (zeroed_same st).
Qed.

Lemma counters_race_register r ps st : counters (race_register r ps st) = counters st.
Proof.
  revert st. induction ps as [|p ps IH]; intros st; cbn [race_register]; [done|].
  by rewrite IH, counters_then.
Qed.

Lemma counters_timeout p d st : counters (timeout p d st).2 = counters st.
Proof.
  unfold timeout, promise_race.
  destruct (new_TimeoutError st) as [e st1] eqn:E1.
  destruct (new_promise _ _ st1) as [t st2] eqn:E2.
  destruct (new_promise _ _ (setTimeout _ d st2)) as [r st3] eqn:E3.
  cbn [snd]. rewrite counters_race_register.
  injection E3 as <- <-. injection E2 as <- <-. by injection E1 as <- <-.
Qed.

Lemma zeroed_timeout p d st : zeroed st -> zeroed (timeout p d st).2.
Proof.
  apply zeroed_calm; [apply counters_timeout|].
  destruct (timeout p d st) as [r st'] eqn:E. by eapply calm_timeout.
Qed.

Lemma zeroed_emit_loop em t cur fuel : forall k results st,
  zeroed st ->
  match emit_loop fuel em t cur k results st with
  | Normal _ st' | Raise _ st' => zeroed st'
  | Diverge => True
  end.
Proof.
  induction fuel as [|fuel IH]; intros k results st Hz; [done|]. cbn [emit_loop].
  destruct (table st em !! k) as [current|]; [|done].
  pose proof (zeroed_subscription_emit current t
    (set_cells (fun cs => <[cur := Some current]> cs) st)) as H.
  destruct (subscription_emit current t _) as [p st2|e st2|]; [|by apply H, (zeroed_same st)|done].
  assert (H2 : zeroed st2) by by apply H, (zeroed_same st).
  destruct (opts_emitTimeout st2 em) as [delay|].
  - destruct (timeout p delay st2) as [r st'] eqn:Er.
    destruct (then_ r None _ st') as [c st3] eqn:Ec.
    apply IH. pose proof (zeroed_then r None (Some (HStamp cur)) st') as H3.
    rewrite Ec in H3. apply H3. pose proof (zeroed_timeout p delay st2 H2) as H4.
    by rewrite Er in H4.
  - by apply IH.
Qed.

Lemma zeroed_waitAll ps st : zeroed st -> zeroed (waitAll ps st).2.
Proof.
  intros Hz. unfold waitAll. case_decide as Hn.
  - by apply (zeroed_calm st); [|eapply calm_new_promise|].
  - simpl. intros w c Hw. rewrite counters_waitAll_register in Hw. simpl in Hw.
    apply lookup_app_Some in Hw as [Hw|[_ Hw]].
    + destruct (Hz w c Hw) as [H|H]; [by left|]. right.
      eapply calm_settled; [|exact H].
      eapply calm_trans; [by eapply calm_new_promise|].
      eapply calm_trans; [|apply calm_waitAll_register]. by apply calm_same.
    + apply list_lookup_singleton_Some in Hw as [_ <-]. left. simpl. lia.
Qed.

Lemma zeroed_emit fuel em v st :
  zeroed st ->
  match emit fuel em v st with
  | Normal _ st' | Raise _ st' => zeroed st'
  | Diverge => True
  end.
Proof.
  intros Hz. unfold emit.
  pose proof (zeroed_emit_loop em v (length (cells st)) fuel 0 []
    (set_cells (fun cs => cs ++ [None]) st)) as H.
  destruct (emit_loop _ _ _ _ _ _ _) as [rs st1|e st1|]; [|by apply H, (zeroed_same st)|done].
  destruct (waitAll rs st1) as [w st2] eqn:Ew.
  pose proof (zeroed_waitAll rs st1) as H2. rewrite Ew in H2.
  apply (zeroed_same st2); [done..|]. by apply H2, H, (zeroed_same st).
Qed.

Lemma zeroed_count w st :
  (forall c, counters st !! w = Some c -> wa_promise c < length (promises st)) ->
  zeroed st -> zeroed (count w st).
Proof.
  intros Hin Hz. unfold count. destruct (counters st !! w) as [c|] eqn:Hc; [|done].
  specialize (Hin c eq_refl).
  set (c' := mkWaitAll (wa_n c - 1) (wa_inputs c) (wa_promise c)).
  set (st1 := set_counters (fun cs => <[w := c']> cs) st).
  assert (Hst1 : forall p, settled st p -> settled st1 p) by done.
  assert (Hlook : forall w2 c2, counters st1 !! w2 = Some c2 ->
            (w2 = w /\ c2 = c') \/ counters st !! w2 = Some c2).
  { intros w2 c2 H. unfold st1 in H. simpl in H.
    destruct (decide (w2 = w)) as [->|Hne].
    - left. rewrite list_lookup_insert_eq in H by by eapply lookup_lt_Some.
      by injection H as <-.
    - right. by rewrite list_lookup_insert_ne in H. }
  case_decide as Hn.
  - intros w2 c2 H. rewrite counters_settle in H.
    destruct (Hlook w2 c2 H) as [[-> ->]|H2].
    + right. simpl. destruct (outcome st1 (wa_promise c)) as [[y|]|] eqn:Ey.
      * exists y. by apply (settle_adv_any st1).
      * exists (false, VUndefined). by apply outcome_settle_pending.
      * unfold outcome, pstate in Ey. destruct (promises st1 !! wa_promise c) as [[]|] eqn:El;
          try done. apply lookup_ge_None_1 in El. unfold st1 in El. simpl in El. lia.
    + destruct (Hz w2 c2 H2) as [H3|[y Hy]]; [by left|]. right. exists y.
      by apply (settle_adv_any st1).
  - intros w2 c2 H. destruct (Hlook w2 c2 H) as [[-> ->]|H2].
    + destruct (Hz w c Hc) as [H3|H3]; [left; simpl; lia|by right].
    + destruct (Hz w2 c2 H2) as [H3|H3]; [by left|by right].
Qed.

Lemma zeroed_stamp cur e st : zeroed st -> zeroed (stamp cur e st).2.
Proof.
  intros Hz. unfold stamp. destruct e; try done.
  destruct (terrs st !! r); [|done]. destruct (cells st !! cur) as [[c|]|]; try done.
  case_decide; [|done]. by apply (zeroed_same st).
Qed.

Lemma zeroed_resolve_with d c st : zeroed st -> zeroed (resolve_with d c st).
Proof.
  intros Hz. destruct c as [v|q|e]; simpl.
  - by apply zeroed_settle.
  - by apply (zeroed_same st).
  - by apply zeroed_settle.
Qed.

Lemma zeroed_run_job fuel j st st' :
  (forall w c, counters st !! w = Some c -> wa_promise c < length (promises st)) ->
  zeroed st -> run_job fuel j st = Some st' -> zeroed st'.
Proof.
  intros Hin Hz. unfold run_job. destruct j as [[h|] b x d|p q].
  - unfold run_handler. destruct h as [em|p|p|w|cur|k].
    + pose proof (zeroed_emit fuel em x st Hz) as H.
      destruct (emit fuel em x st) as [w st1|e st1|]; [| |done]; intros [= <-].
      * exact (zeroed_resolve_with d (RetP w) st1 H).
      * exact (zeroed_resolve_with d (Threw e) st1 H).
    + intros [= <-].
      exact (zeroed_resolve_with d (RetV VUndefined) _ (zeroed_settle p false x st Hz)).
    + intros [= <-].
      exact (zeroed_resolve_with d (RetV VUndefined) _ (zeroed_settle p true x st Hz)).
    + intros [= <-].
      exact (zeroed_resolve_with d (RetV VUndefined) _ (zeroed_count w st (Hin w) Hz)).
    + pose proof (zeroed_stamp cur x st Hz) as H.
      destruct (stamp cur x st) as [e st1]. intros [= <-].
      exact (zeroed_resolve_with d (Threw e) st1 H).
    + pose proof (zeroed_run_script (k x) st Hz) as H.
      destruct (run_script (k x) st) as [c st1]. intros [= <-].
      exact (zeroed_resolve_with d c st1 H).
  - intros [= <-]. by apply zeroed_settle.
  - intros [= <-]. by apply zeroed_then.
Qed.

Lemma zeroed_turn fuel st st' :
  (forall w c, counters st !! w = Some c -> wa_promise c < length (promises st)) ->
  zeroed st -> turn fuel st = Next st' -> zeroed st'.
Proof.
  intros Hin Hz. unfold turn. destruct (microtasks st) as [|j js].
  - destruct (earliest (timers st)) as [[i t]|]; [|done]. intros [= <-].
    unfold fire. destruct (action t); apply zeroed_settle; by apply (zeroed_same st).
  - destruct (run_job fuel j _) as [st1|] eqn:E; [|done]. intros [= <-].
    eapply zeroed_run_job; [| |exact E]; [exact Hin|by apply (zeroed_same st)].
Qed.

Lemma counters_in st w c :
  inv st -> counters st !! w = Some c -> wa_promise c < length (promises st).
Proof.
  intros Hinv Hw. destruct (inv_counters _ Hinv w c Hw) as [Ho _]. by eapply orig_lt.
Qed.

Lemma reachable_zeroed st : reachable st -> zeroed st.
Proof.
  induction 1 as [|opts st _ IH|obs text body st _ IH|obs tgt st _ IH|obs pred st _ IH
                  |fuel em v st w st' Hr IH He|fuel em v st e st' Hr IH He
                  |fuel st st' Hr IH Ht].
  - intros w c H. done.
  - by apply (zeroed_same st).
  - by apply (zeroed_same st).
  - by apply (zeroed_same st).
  - apply (zeroed_calm st); [apply counters_next| |done].
    destruct (next obs pred st) as [p st'] eqn:E. by eapply calm_next.
  - pose proof (zeroed_emit fuel em v st IH) as H. by rewrite He in H.
  - pose proof (zeroed_emit fuel em v st IH) as H. by rewrite He in H.
  - eapply zeroed_turn; [|exact IH|exact Ht].
    intros w c. apply counters_in. by apply reachable_sound.
Qed.

(** ** Later states *)

Lemma reaches_trans st1 st2 st3 : reaches st1 st2 -> reaches st2 st3 -> reaches st1 st3.
Proof.
  intros H12 H23. induction H23.
  - done.
  - by apply reaches_create.
  - by apply reaches_subscribe.
  - by apply reaches_remove.
  - by apply reaches_next.
  - by eapply reaches_emit.
  - by eapply reaches_emit_raise.
  - by eapply reaches_turn.
Qed.

Lemma reachable_reaches_init st : reachable st <-> reaches init st.
Proof.
  split; induction 1.
  - apply reaches_refl.
  - by apply reaches_create.
  - by apply reaches_subscribe.
  - by apply reaches_remove.
  - by apply reaches_next.
  - by eapply reaches_emit.
  - by eapply reaches_emit_raise.
  - by eapply reaches_turn.
  - apply reach_init.
  - by apply reach_create.
  - by apply reach_subscribe.
  - by apply reach_remove.
  - by apply reach_next.
  - by eapply reach_emit.
  - by eapply reach_emit_raise.
  - by eapply reach_turn.
Qed.

Lemma reachable_reaches st st' : reachable st -> reaches st st' -> reachable st'.
Proof.
  intros H1 H2. apply reachable_reaches_init. eapply reaches_trans; [|exact H2].
  by apply reachable_reaches_init.
Qed.

Lemma reaches_sound st st' : sound [] st -> reaches st st' -> sound [] st' /\ adv st st'.
Proof.
  intros Hs. induction 1 as [|opts st' _ [IH Ha]|obs text body st' _ [IH Ha]|obs tgt st' _ [IH Ha]
                  |obs pred st' _ [IH Ha]|fuel em v st1 w st2 _ [IH Ha] He
                  |fuel em v st1 e st2 _ [IH Ha] He|fuel st1 st2 _ [IH Ha] Ht].
  - split; [done|apply adv_refl].
  - destruct (sound_create [] opts st' IH) as [H1 H2]. split; [done|by eapply adv_trans].
  - destruct (sound_subscribe [] obs (LUser text body) st' IH I) as [H1 H2].
    split; [done|by eapply adv_trans].
  - destruct (sound_remove [] obs tgt st' IH) as [H1 H2]. split; [done|by eapply adv_trans].
  - destruct (next obs pred st') as [p st2] eqn:E.
    destruct (sound_next [] obs pred st' p st2 IH E) as [H1 H2].
    split; [done|by eapply adv_trans].
  - pose proof (sound_emit [] fuel em v st1 IH) as H. rewrite He in H.
    destruct H as (H1 & H2 & _). split; [done|by eapply adv_trans].
  - pose proof (sound_emit [] fuel em v st1 IH) as H. rewrite He in H.
    destruct H as (H1 & H2). split; [done|by eapply adv_trans].
  - destruct (sound_turn [] fuel st1 st2 IH Ht) as [H1 H2]. split; [done|by eapply adv_trans].
Qed.

Lemma reaches_run fuel n : forall st st', run fuel n st = Some st' -> reaches st st'.
Proof.
  induction n as [|n IH]; intros st st'; cbn [run].
  - intros [= <-]. constructor.
  - destruct (turn fuel st) as [| |st1] eqn:E; [intros [= <-]; constructor|done|].
    intros H. eapply reaches_trans; [|by apply IH].
    eapply reaches_turn; [apply reaches_refl|exact E].
Qed.

(** ** The name that a [TimeoutError] carries *)

Lemma named_same st st' r s : terrs st' = terrs st -> named st r s -> named st' r s.
Proof. intros H [H1 H2]. split; [by rewrite H|done]. Qed.

Lemma terrs_race_register r ps st : terrs (race_register r ps st) = terrs st.
Proof.
  revert st. induction ps as [|p ps IH]; intros st; cbn [race_register]; [done|].
  by rewrite IH, terrs_then.
Qed.

Lemma terrs_timeout p d st : terrs (timeout p d st).2 = terrs st ++ [unknown_listener].
Proof.
  unfold timeout, promise_race.
  destruct (new_TimeoutError st) as [e st1] eqn:E1.
  destruct (new_promise _ _ st1) as [t st2] eqn:E2.
  destruct (new_promise _ _ (setTimeout _ d st2)) as [r st3] eqn:E3.
  cbn [snd]. rewrite terrs_race_register.
  injection E3 as <- <-. injection E2 as <- <-. by injection E1 as <- <-.
Qed.

Lemma named_timeout p d st r s : named st r s -> named (timeout p d st).2 r s.
Proof.
  intros [H1 H2]. split; [|done]. rewrite terrs_timeout. by apply lookup_app_l_Some.
Qed.

Lemma named_stamp cur e st r s : named st r s -> named (stamp cur e st).2 r s.
Proof.
  intros [H1 H2]. unfold stamp. destruct e as [| | | |r']; try done.
  destruct (terrs st !! r') as [s'|] eqn:E; [|done].
  destruct (cells st !! cur) as [[c|]|]; try done.
  case_decide as Hs; [|done]. split; [|done]. simpl.
  rewrite list_lookup_insert_ne; [done|]. intros <-. congruence.
Qed.

Lemma named_emit_loop em t cur fuel r s : forall k results st,
  named st r s ->
  match emit_loop fuel em t cur k results st with
  | Normal _ st' | Raise _ st' => named st' r s
  | Diverge => True
  end.
Proof.
  induction fuel as [|fuel IH]; intros k results st Hn; [done|]. cbn [emit_loop].
  destruct (table st em !! k) as [current|]; [|done].
  pose proof (terrs_subscription_emit current t
    (set_cells (fun cs => <[cur := Some current]> cs) st)) as H.
  destruct (subscription_emit current t _) as [p st2|e st2|]; [|by apply (named_same st)|done].
  assert (H2 : named st2 r s) by by apply (named_same st).
  destruct (opts_emitTimeout st2 em) as [delay|].
  - destruct (timeout p delay st2) as [q st'] eqn:Er.
    destruct (then_ q None _ st') as [c st3] eqn:Ec.
    apply IH. apply (named_same st').
    + change st3 with (c, st3).2. by rewrite <- Ec, terrs_then.
    + pose proof (named_timeout p delay st2 r s H2) as H4. by rewrite Er in H4.
  - by apply IH.
Qed.

Lemma named_emit fuel em v st r s :
  named st r s ->
  match emit fuel em v st with
  | Normal _ st' | Raise _ st' => named st' r s
  | Diverge => True
  end.
Proof.
  intros Hn. unfold emit.
  pose proof (named_emit_loop em v (length (cells st)) fuel r s 0 []
    (set_cells (fun cs => cs ++ [None]) st)) as H.
  destruct (emit_loop _ _ _ _ _ _ _) as [rs st1|e st1|]; [|by apply H, (named_same st)|done].
  destruct (waitAll rs st1) as [w st2] eqn:Ew.
  apply (named_same st1); [|by apply H, (named_same st)].
  simpl. change st2 with (w, st2).2. by rewrite <- Ew, terrs_waitAll.
Qed.

Lemma terrs_count w st : terrs (count w st) = terrs st.
Proof.
  unfold count. destruct (counters st !! w); [|done]. case_decide; [|done].
  by rewrite terrs_settle.
Qed.

Lemma terrs_resolve_with d c st : terrs (resolve_with d c st) = terrs st.
Proof. destruct c; simpl; by rewrite ?terrs_settle. Qed.

Lemma named_run_job fuel j st st' r s :
  named st r s -> run_job fuel j st = Some st' -> named st' r s.
Proof.
  intros Hn. unfold run_job. destruct j as [[h|] b x d|p q].
  - unfold run_handler. destruct h as [em|p|p|w|cur|k].
    + pose proof (named_emit fuel em x st r s Hn) as H.
      destruct (emit fuel em x st) as [w st1|e st1|]; [| |done]; intros [= <-].
      * by apply (named_same st1); [apply (terrs_resolve_with d (RetP w))|].
      * by apply (named_same st1); [apply (terrs_resolve_with d (Threw e))|].
    + intros [= <-]. apply (named_same st); [|done]. by rewrite !terrs_settle.
    + intros [= <-]. apply (named_same st); [|done]. by rewrite !terrs_settle.
    + intros [= <-]. apply (named_same st); [|done]. by rewrite terrs_settle, terrs_count.
    + pose proof (named_stamp cur x st r s Hn) as H.
      destruct (stamp cur x st) as [e st1]. intros [= <-].
      by apply (named_same st1); [apply (terrs_resolve_with d (Threw e))|].
    + pose proof (terrs_run_script (k x) st) as H.
      destruct (run_script (k x) st) as [c st1]. intros [= <-].
      apply (named_same st); [|done]. by rewrite (terrs_resolve_with d c).
  - intros [= <-]. apply (named_same st); [by rewrite terrs_settle|done].
  - intros [= <-]. apply (named_same st); [apply terrs_then|done].
Qed.

Lemma named_turn fuel st st' r s :
  named st r s -> turn fuel st = Next st' -> named st' r s.
Proof.
  intros Hn. unfold turn. destruct (microtasks st) as [|j js].
  - destruct (earliest (timers st)) as [[i t]|]; [|done]. intros [= <-].
    apply (named_same st); [|done]. unfold fire. destruct (action t); by rewrite terrs_settle.
  - destruct (run_job fuel j _) as [st1|] eqn:E; [|done]. intros [= <-].
    eapply named_run_job; [|exact E]. by apply (named_same st).
Qed.

Lemma reaches_named st st' r s : reaches st st' -> named st r s -> named st' r s.
Proof.
  intros H Hn. induction H as [|opts st' _ IH|obs text body st' _ IH|obs tgt st' _ IH
                  |obs pred st' _ IH|fuel em v st1 w st2 _ IH He
                  |fuel em v st1 e st2 _ IH He|fuel st1 st2 _ IH Ht].
  - done.
  - by apply (named_same st').
  - by apply (named_same st').
  - by apply (named_same st').
  - by apply (named_same st').
  - pose proof (named_emit fuel em v st1 r s IH) as H. by rewrite He in H.
  - pose proof (named_emit fuel em v st1 r s IH) as H. by rewrite He in H.
  - by eapply named_turn.
Qed.

(** ** When the promise of [emit] settles *)

Lemma filter_all {A} (P : A -> Prop) `{!forall x, Decision (P x)} (l : list A) :
  (forall x, x ∈ l -> P x) -> filter P l = l.
Proof.
  induction l as [|x l IH]; intros Hall; [done|].
  rewrite filter_cons_True by (apply Hall; left).
  f_equal. apply IH. intros y Hy. apply Hall. by right.
Qed.

Lemma Forall2_and_l {A B} (P : A -> B -> Prop) (R : A -> Prop) l k :
  Forall2 P l k -> Forall R l -> Forall2 (fun x y => P x y /\ R x) l k.
Proof.
  induction 1 as [|x y l k Hxy _ IH]; intros HR; [constructor|].
  apply Forall_cons in HR as [Hx HR]. constructor; [done|by apply IH].
Qed.

Lemma contribution_chain st c :
  contribution st c ->
  exists d l ch, chain st d l ch /\ (c = d \/ exists r t a, timed st c r t d a).
Proof.
  intros (d & l & ch & Hd & Hl & H). exists d, l, ch. split; [done|].
  destruct H as [->|(r & t & cur & a & Hc & Hrc & Hr & Ht & Ha & Hda)]; [by left|right].
  exists r, t, a. split_and!; [by exists cur|done..].
Qed.

Section emit_rest.
Context (st : State) (Hs : sound [] st) (Hz : zeroed st) (Hq : quiescent st).
Context (ec : EmitCall) (Hec : ec ∈ emits st).

Local Abbreviation Hinv := (proj1 Hs : inv st).

Lemma emit_call_succeeds :
  Forall (fun c => exists y, fulfilled st c y) (ec_results ec) ->
  exists v, fulfilled st (ec_promise ec) v.
Proof.
  intros Hall. destruct (inv_emits _ Hinv ec Hec) as [_ Hok].
  destruct (ec_results ec) as [|c0 rs] eqn:Ers; [by exists VUndefined|].
  destruct Hok as (w & c & Ho & Hw & Hi & Hp & Haux).
  destruct (inv_counters _ Hinv w c Hw) as [_ Hlt].
  assert (Hdone : forall i, i ∈ seq 0 (length (wa_inputs c)) -> is_done st w c i = true).
  { intros i Hi'. apply elem_of_seq in Hi'. destruct Hi' as [_ Hi']. simpl in Hi'.
    destruct (lookup_lt_is_Some_2 _ _ Hi') as [q Hq'].
    assert (Hf : exists y, fulfilled st q y).
    { rewrite <- Hi in Hall. by apply (Forall_lookup_1 _ _ _ _ Hall Hq'). }
    destruct Hf as [y Hy]. pose proof (Haux i q Hq') as Ha.
    assert (Hlt' : q < aux c i).
    { apply (Forall_lookup_1 _ _ _ _ Hlt) in Hq'. unfold aux. lia. }
    destruct (settled_at_rest st Hs Hq (aux c i) q _ _ Ha Hlt') as [z Hz']; [by eexists|done|].
    unfold is_done. rewrite Ha, Hz', Hq'. unfold fulfilled in Hy. rewrite Hy.
    by rewrite bool_decide_eq_true_2. }
  pose proof (proj1 (proj2 Hs) w c Hw) as Hn. unfold ndone in Hn.
  rewrite (filter_all _ _ Hdone), length_seq in Hn.
  destruct (Hz w c Hw) as [Hpos|[[[] z] Hset]]; [lia| |].
  - exfalso. rewrite Hp in Hset.
    destruct (emit_call_failed st Hs ec Hec z Hset) as (c1 & Hc1 & Hf1).
    rewrite Ers in Hc1. apply (proj1 (Forall_forall _ _) Hall) in Hc1 as [y Hy].
    unfold fulfilled, failed in *. congruence.
  - exists z. by rewrite <- Hp.
Qed.

Lemma emit_call_pending :
  pending st (ec_promise ec) -> exists c, c ∈ ec_results ec /\ pending st c.
Proof.
  intros Hp.
  assert (Hcases : Forall (fun c => exists y, fulfilled st c y) (ec_results ec) \/
                   exists c, c ∈ ec_results ec /\ ~ exists y, fulfilled st c y).
  { induction (ec_results ec) as [|c rs IH]; [by left|].
    destruct (outcome st c) as [[[[] z]|]|] eqn:Ec.
    - right. exists c. split; [left|]. intros [y Hy]. unfold fulfilled in Hy. congruence.
    - destruct IH as [IH|(c' & Hc' & Hn)].
      + left. constructor; [by exists z|done].
      + right. exists c'. split; [by right|done].
    - right. exists c. split; [left|]. intros [y Hy]. unfold fulfilled in Hy. congruence.
    - right. exists c. split; [left|]. intros [y Hy]. unfold fulfilled in Hy. congruence. }
  destruct Hcases as [Hall|(c & Hc & Hn)].
  - destruct (emit_call_succeeds Hall) as [v Hv]. unfold fulfilled, pending in *. congruence.
  - exists c. split; [done|].
    destruct (inv_emits _ Hinv ec Hec) as [Hcon _].
    pose proof (contribution_lt st c Hinv (proj1 (Forall_forall _ _) Hcon c Hc)) as Hlt.
    destruct (outcome st c) as [[[[] z]|]|] eqn:Ec.
    + destruct (emit_call_fails st Hs ec Hec c z Hq Hc Ec) as [e' He'].
      unfold failed, pending in *. congruence.
    + destruct Hn. by exists z.
    + done.
    + unfold outcome, pstate in Ec. destruct (promises st !! c) as [[]|] eqn:El; try done.
      apply lookup_ge_None_1 in El. lia.
Qed.
End emit_rest.

(** ** The race of a chain with its timer, when no job is queued *)

Section timed_rest.
Context (st : State) (Hs : sound [] st) (Hq : quiescent st).
Context (c r t d a : PromiseId) (Hc : timed st c r t d a).

Local Abbreviation Hinv := (proj1 Hs : inv st).

Lemma timed_settles : settled st d -> settled st c.
Proof.
  intros Hd. destruct Hc as ([cur Ho] & Hrc & Hr & Ht & Ha & Hda).
  pose proof (settled_at_rest st Hs Hq a d _ _ Ha Hda Hd I) as Hsa.
  destruct (inv_justified _ Hinv _ _ Ha) as [_ Hspec]. simpl in Hspec.
  by apply (settled_at_rest st Hs Hq c r _ _ Ho Hrc (Hspec Hsa)).
Qed.

Lemma timed_succeeds v :
  fulfilled st d v ->
  fulfilled st c v \/ exists e0 e, failed st t e0 /\ failed st c e /\ stamped e0 e.
Proof.
  intros Hv. destruct timed_settles as [[[] z] Hz]; [by eexists| |].
  - right. destruct (timed_failed st Hs c r t d a Hc z Hz) as (e0 & Hst & [H|H]).
    + by exists e0, z.
    + unfold fulfilled, failed in *. congruence.
  - left. pose proof (timed_fulfilled st Hs c r t d a Hc z Hz) as H.
    unfold fulfilled in *. congruence.
Qed.
End timed_rest.

(** ** The calls of [emit] recorded *)

Lemma emits_then p f g st : emits (then_ p f g st).2 = emits st.
Proof. unfold then_. simpl. by repeat case_match. Qed.

Lemma emits_settle p b x st : emits (settle p b x st) = emits st.
Proof. unfold settle. by repeat case_match. Qed.

Lemma emits_run_script s st : emits (run_script s st).2 = emits st.
Proof.
  revert st. induction s as [| | | |d k IH|p k IH|obs tgt k IH|obs text body IHb k IH|obs pred k IH];
    intros st; cbn [run_script]; try done.
  - destruct (new_promise _ _ st) as [p st1] eqn:E1.
    destruct (then_ p _ _ _) as [q st3] eqn:E3. simpl.
    change st3 with (q, st3).2. rewrite <- E3, emits_then.
    by injection E1 as <- <-.
  - destruct (then_ p _ _ _) as [q st3] eqn:E3. simpl.
    change st3 with (q, st3).2. by rewrite <- E3, emits_then.
  - by rewrite IH.
  - destruct (subscribe obs _ st) as [sub st1] eqn:E. rewrite IH.
    change st1 with (sub, st1).2. by rewrite <- E.
  - destruct (next obs pred st) as [q st1] eqn:E. rewrite IH.
    change st1 with (q, st1).2. by rewrite <- E.
Qed.

Lemma emits_call_listener l v st : emits (call_listener l v st).2 = emits st.
Proof.
  unfold call_listener. destruct l as [text body|pred parent sub p].
  - apply emits_run_script.
  - destruct (matches pred v); simpl; [|done]. by rewrite emits_settle.
Qed.

Lemma emits_subscription_emit s v st :
  match subscription_emit s v st with
  | Normal _ st' | Raise _ st' => emits st' = emits st
  | Diverge => True
  end.
Proof.
  unfold subscription_emit.
  pose proof (emits_call_listener (listener s) v
                (set_invoked (fun h => h ++ [(target s, v)]) st)) as Hc.
  destruct (call_listener _ _ _) as [c st1]. simpl in Hc.
  destruct c as [x|q|e]; [| |done]; unfold promise_resolve.
  - destruct (new_promise _ _ st1) as [l st2] eqn:E1.
    destruct (then_ l _ _ st2) as [d st3] eqn:E3.
    change st3 with (d, st3).2. rewrite <- E3, emits_then.
    by injection E1 as <- <-.
  - destruct (then_ q _ _ st1) as [d st3] eqn:E3.
    change st3 with (d, st3).2. by rewrite <- E3, emits_then.
Qed.

Lemma emits_race_register r ps st : emits (race_register r ps st) = emits st.
Proof.
  revert st. induction ps as [|p ps IH]; intros st; cbn [race_register]; [done|].
  by rewrite IH, emits_then.
Qed.

Lemma emits_timeout p d st : emits (timeout p d st).2 = emits st.
Proof.
  unfold timeout, promise_race.
  destruct (new_TimeoutError st) as [e st1] eqn:E1.
  destruct (new_promise _ _ st1) as [t st2] eqn:E2.
  destruct (new_promise _ _ (setTimeout _ d st2)) as [r st3] eqn:E3.
  cbn [snd]. rewrite emits_race_register.
  injection E3 as <- <-. injection E2 as <- <-. by injection E1 as <- <-.
Qed.

Lemma emit_loop_emits em t cur fuel : forall k results st,
  match emit_loop fuel em t cur k results st with
  | Normal _ st' | Raise _ st' => emits st' = emits st
  | Diverge => True
  end.
Proof.
  induction fuel as [|fuel IH]; intros k results st; [done|]. cbn [emit_loop].
  destruct (table st em !! k) as [current|]; [|done].
  pose proof (emits_subscription_emit current t
    (set_cells (fun cs => <[cur := Some current]> cs) st)) as H.
  destruct (subscription_emit current t _) as [p st2|e st2|]; [|done|done].
  destruct (opts_emitTimeout st2 em) as [delay|].
  - destruct (timeout p delay st2) as [q st'] eqn:Er.
    destruct (then_ q None _ st') as [c st3] eqn:Ec.
    specialize (IH (match table st3 em !! k with
                    | Some s' => if decide (target s' = target current) then S k else k
                    | None => k end) (results ++ [c]) st3).
    assert (H3 : emits st3 = emits st).
    { change st3 with (c, st3).2. rewrite <- Ec, emits_then.
      change st' with (q, st').2. by rewrite <- Er, emits_timeout. }
    destruct (emit_loop fuel em t cur _ _ st3); [| |done]; by rewrite IH.
  - specialize (IH (match table st2 em !! k with
                    | Some s' => if decide (target s' = target current) then S k else k
                    | None => k end) (results ++ [p]) st2).
    destruct (emit_loop fuel em t cur _ _ st2); [| |done]; by rewrite IH.
Qed.

Lemma emits_waitAll_register w r ps st : emits (waitAll_register w r ps st) = emits st.
Proof.
  revert st. induction ps as [|p ps IH]; intros st; cbn [waitAll_register]; [done|].
  by rewrite IH, emits_then.
Qed.

Lemma emits_waitAll ps st w st' : waitAll ps st = (w, st') -> emits st' = emits st.
Proof.
  unfold waitAll. case_decide; [by intros [= <- <-]|].
  destruct (new_promise _ _ st) as [r st1] eqn:E1. intros [= <- <-].
  rewrite emits_waitAll_register. by injection E1 as <- <-.
Qed.

(** ** What [emit] returns *)

Lemma waitAll_pending ps st r st' :
  waitAll ps st = (r, st') -> ps <> [] -> outcome st' r = Some None.
Proof.
  unfold waitAll. case_decide as Hn.
  { intros _ Hne. by destruct ps. }
  destruct (new_promise (Pending []) _ st) as [r' st1] eqn:E1.
  intros [= <- <-] _.
  set (st2 := set_counters _ st1).
  destruct (calm_waitAll_register (length (counters st)) r' ps st2) as [_ Hc].
  injection E1 as <- <-. rewrite Hc.
  - unfold outcome, pstate. simpl. by rewrite lookup_app_r, Nat.sub_diag.
  - simpl. rewrite length_app. simpl. lia.
Qed.

(** The call is the last one recorded; its promise is new, pending when a
    listener was called and fulfilled otherwise. *)
Lemma sound_emit_last D fuel em v st w st' :
  sound D st -> emit fuel em v st = Normal w st' ->
  exists rs tgts,
    emits st' = emits st ++ [mkEmitCall em v rs w] /\
    invoked st' = invoked st ++ map (fun tg => (tg, v)) tgts /\
    Forall2 (fun c tg => contributes st' tg c) rs tgts /\
    outcome st' w = (if decide (rs = []) then Some (Some (false, VUndefined)) else Some None).
Proof.
  intros Hs. unfold emit.
  destruct (sound_set_cells D (fun cs => cs ++ [None]) st Hs) as [Hs0 Ha0].
  pose proof (sound_emit_loop D em v (length (cells st)) fuel 0 [] [] _ Hs0
                ltac:(constructor)) as Hloop.
  pose proof (emit_loop_emits em v (length (cells st)) fuel 0 []
                (set_cells (fun cs => cs ++ [None]) st)) as Hemits.
  destruct (emit_loop fuel em v _ 0 [] _) as [results st1|e st1|]; [|done|done].
  destruct Hloop as (Hs1 & Ha1 & tgts & Hinvk & Hres2).
  assert (Hres : Forall (contribution st1) results).
  { apply Forall_forall. intros c Hc. apply list_elem_of_lookup in Hc as [i Hc].
    destruct (Forall2_lookup_l _ _ _ _ _ Hres2 Hc) as (tg & _ & Hct).
    by eapply contributes_contribution. }
  destruct (waitAll results st1) as [w' st2] eqn:Ew. intros [= <- <-].
  destruct (sound_waitAll D results st1 w' st2 Hs1) as (Hs2 & Ha2 & Hw & Hok); [|done|].
  { eapply Forall_impl; [exact Hres|]. intros c. apply contribution_lt, Hs1. }
  destruct (sound_set_emits D (mkEmitCall em v results w') st2 Hs2) as [Hs3 Ha3].
  { split.
    - simpl. eapply Forall_impl; [exact Hres|]. intros c. by apply contribution_adv.
    - simpl. destruct results; done. }
  exists results, tgts. split_and!.
  - simpl. f_equal. transitivity (emits st1); [by eapply emits_waitAll|exact Hemits].
  - change (invoked st2 = invoked st ++ map (fun tg => (tg, v)) tgts).
    by rewrite (proj2 (waitAll_heap_only _ _ _ _ Ew)), Hinvk.
  - eapply Forall2_impl; [exact Hres2|]. intros c tg.
    apply contributes_adv. eauto using adv_trans.
  - change (outcome st2 w' = if decide (results = []) then Some (Some (false, VUndefined))
                             else Some None).
    case_decide as Hr.
    + subst results. exact Hok.
    + by eapply waitAll_pending.
Qed.

Lemma next_orig st obs pred :
  inv st -> orig (next obs pred st).2 (next obs pred st).1 = Some ONext.
Proof.
  intros Hinv. unfold next, orig. simpl.
  rewrite <- (inv_origins _ Hinv). by rewrite lookup_app_r, Nat.sub_diag.
Qed.

(** ** The scenarios are reachable *)

Lemma emit_and_run_reaches em v st w st' :
  emit_and_run em v st = Some (w, st') ->
  exists st1, emit 16 em v st = Normal w st1 /\ reaches st1 st'.
Proof.
  unfold emit_and_run. destruct (emit 16 em v st) as [w1 st1| |] eqn:E; [|done|done].
  destruct (run 16 200 st1) as [st2|] eqn:Er; [|done]. intros [= <- <-].
  exists st1. split; [done|]. by eapply reaches_run.
Qed.

Lemma emit_and_run_reachable em v st w st' :
  reachable st -> emit_and_run em v st = Some (w, st') -> reachable st'.
Proof.
  intros Hr H. destruct (emit_and_run_reaches _ _ _ _ _ H) as (st1 & He & Hre).
  eapply reachable_reaches; [|exact Hre]. by eapply reach_emit.
Qed.

Lemma two_listeners_reachable opts t1 b1 t2 b2 :
  reachable (two_listeners opts (LUser t1 b1) (LUser t2 b2)).
Proof. unfold two_listeners. apply reach_subscribe, reach_subscribe, reach_create, reach_init. Qed.

Lemma emit_and_run_reaches_from em v st w st' :
  emit_and_run em v st = Some (w, st') -> reaches st st'.
Proof.
  intros H. destruct (emit_and_run_reaches _ _ _ _ _ H) as (st1 & He & Hre).
  eapply reaches_trans; [|exact Hre]. eapply reaches_emit; [apply reaches_refl|exact He].
Qed.

(** ** [then] on a settled promise *)

Lemma then_new p f g st :
  (then_ p f g st).1 = length (promises st) /\
  outcome (then_ p f g st).2 (length (promises st)) = Some None.
Proof.
  unfold then_. simpl. split; [done|]. unfold outcome, pstate.
  destruct (promises st !! p) as [[rs| |]|] eqn:Ep; simpl.
  - rewrite list_lookup_insert_ne.
    + by rewrite lookup_app_r, Nat.sub_diag.
    + apply lookup_lt_Some in Ep. lia.
  - by rewrite lookup_app_r, Nat.sub_diag.
  - by rewrite lookup_app_r, Nat.sub_diag.
  - by rewrite lookup_app_r, Nat.sub_diag.
Qed.

Lemma then_settled_microtasks p f g st b x :
  outcome st p = Some (Some (b, x)) ->
  microtasks (then_ p f g st).2 =
  microtasks st ++ [JReact (if b then g else f) b x (length (promises st))].
Proof.
  unfold then_, outcome, pstate. simpl.
  destruct (promises st !! p) as [[rs|v|e]|] eqn:Ep; try done; intros H; by simplify_eq.
Qed.

(** ** [emit] settles no promise but those of [next] *)

Lemma subscription_emit_keeps s item st d :
  match listener s with LNext _ _ _ p => p <> d | LUser _ _ => True end ->
  outcome st d = Some None ->
  match subscription_emit s item st with
  | Normal _ st' | Raise _ st' => outcome st' d = Some None
  | Diverge => True
  end.
Proof.
  intros Hl Hd. unfold subscription_emit.
  set (st0 := set_invoked (fun h => h ++ [(target s, item)]) st).
  assert (H1 : outcome (call_listener (listener s) item st0).2 d = Some None).
  { unfold call_listener. destruct (listener s) as [text body|pred parent sub p].
    - eapply calm_outcome; [apply calm_run_script|done].
    - destruct (matches pred item); [|done]. simpl.
      rewrite settle_outcome_ne_any by done. done. }
  destruct (call_listener (listener s) item st0) as [[u|q|e] st1]; simpl in H1; [| |done].
  - destruct (promise_resolve (inl u) st1) as [l st2] eqn:E2.
    destruct (then_ l _ None st2) as [c st3] eqn:E3.
    eapply calm_outcome; [eapply calm_then; exact E3|].
    eapply calm_outcome; [eapply calm_new_promise; exact E2|done].
  - destruct (promise_resolve (inr q) st1) as [l st2] eqn:E2.
    destruct (then_ l _ None st2) as [c st3] eqn:E3.
    eapply calm_outcome; [eapply calm_then; exact E3|].
    simpl in E2. by injection E2 as <- <-.
Qed.

Lemma emit_loop_keeps D em t cur fuel d o : forall k results st,
  sound D st -> orig st d = Some o -> o <> ONext -> outcome st d = Some None ->
  match emit_loop fuel em t cur k results st with
  | Normal _ st' | Raise _ st' => outcome st' d = Some None
  | Diverge => True
  end.
Proof.
  induction fuel as [|fuel IH]; intros k results st Hs Ho Hne Hd; [done|].
  cbn [emit_loop].
  destruct (table st em !! k) as [current|] eqn:Ek; [|done].
  destruct (sound_set_cells D (fun cs => <[cur := Some current]> cs) st Hs) as [Hs1 Ha1].
  pose proof (inv_tables _ (proj1 Hs) em current (list_elem_of_lookup_2 _ _ _ Ek)) as Hx.
  assert (Hx1 : match listener current with
                | LNext _ _ _ p => orig (set_cells (fun cs => <[cur := Some current]> cs) st) p
                                   = Some ONext
                | LUser _ _ => True end).
  { destruct (listener current); [done|]. by apply Ha1. }
  assert (Hx2 : match listener current with LNext _ _ _ p => p <> d | LUser _ _ => True end).
  { destruct (listener current); [done|]. intros ->. congruence. }
  pose proof (sound_subscription_emit D current t _ Hs1 Hx1) as Hse.
  pose proof (subscription_emit_keeps current t
                (set_cells (fun cs => <[cur := Some current]> cs) st) d Hx2 Hd) as Hk.
  destruct (subscription_emit current t _) as [p st2|e st2|] eqn:Ese; [|done|done].
  destruct Hse as (Hs2 & Ha2 & _).
  assert (Ho2 : orig st2 d = Some o) by (by apply Ha2, Ha1).
  destruct (opts_emitTimeout st2 em) as [delay|].
  - destruct (timeout p delay st2) as [r st3] eqn:E3.
    destruct (sound_timeout D _ _ _ _ _ Hs2 E3) as (Hs3 & Ha3 & _).
    destruct (then_ r None (Some (HStamp cur)) st3) as [c st4] eqn:E4.
    destruct (sound_then D _ _ _ _ _ _ Hs3 (shape_stamp _ _ _ _) ltac:(done) E4)
      as (Hs4 & Ha4 & _).
    apply IH; [done|by apply Ha4, Ha3|done|].
    eapply calm_outcome; [eapply calm_then; exact E4|].
    eapply calm_outcome; [eapply calm_timeout; exact E3|done].
  - by apply IH.
Qed.

Lemma emit_keeps D fuel em v st d o :
  sound D st -> orig st d = Some o -> o <> ONext -> outcome st d = Some None ->
  match emit fuel em v st with
  | Normal _ st' | Raise _ st' => outcome st' d = Some None
  | Diverge => True
  end.
Proof.
  intros Hs Ho Hne Hd. unfold emit.
  destruct (sound_set_cells D (fun cs => cs ++ [None]) st Hs) as [Hs0 Ha0].
  pose proof (emit_loop_keeps D em v (length (cells st)) fuel d o 0 [] _ Hs0
                (proj1 Ha0 _ _ Ho) Hne Hd) as H.
  destruct (emit_loop fuel em v _ 0 [] _) as [rs st1|e st1|]; [|done|done].
  destruct (waitAll rs st1) as [w st2] eqn:Ew.
  change (outcome st2 d = Some None).
  eapply calm_outcome; [eapply calm_waitAll; exact Ew|done].
Qed.

(** ** Steps that resolve no promise with a promise *)

Lemma ext_refl st : ext st st.
Proof.
  split_and!.
  - exists []. by rewrite app_nil_r.
  - exists []. by rewrite app_nil_r.
  - intros a q d g H. by left.
Qed.

Lemma ext_orig st st' p o : ext st st' -> orig st p = Some o -> orig st' p = Some o.
Proof.
  intros [[os Hos] _] H. unfold orig in *. rewrite Hos. by apply lookup_app_l_Some.
Qed.

Lemma ext_trans st1 st2 st3 : ext st1 st2 -> ext st2 st3 -> ext st1 st3.
Proof.
  intros H12 H23. pose proof H12 as ([os1 Ho1] & (js1 & Hj1 & Hr1) & Hres1).
  pose proof H23 as ([os2 Ho2] & (js2 & Hj2 & Hr2) & Hres2). split_and!.
  - exists (os1 ++ os2). by rewrite Ho2, Ho1, app_assoc.
  - exists (js1 ++ js2). split; [by rewrite Hj2, Hj1, app_assoc|by apply Forall_app].
  - intros a q d g H. destruct (Hres2 a q d g H) as [H2|H2]; [|by right].
    destruct (Hres1 a q d g H2) as [H1|[ps H1]]; [by left|right].
    exists ps. by eapply ext_orig.
Qed.

(** A step that leaves the origins and the jobs as they are. *)
Lemma ext_same st st' :
  origins st' = origins st -> microtasks st' = microtasks st -> ext st st'.
Proof.
  intros Ho Hm. split_and!.
  - exists []. by rewrite app_nil_r.
  - exists []. by rewrite app_nil_r.
  - intros a q d g H. left. unfold orig in *. by rewrite <- Ho.
Qed.

(** A step that makes promises whose origin is not a pair of resolving
    functions, and queues reactions. *)
Lemma ext_grow st st' os js :
  origins st' = origins st ++ os -> microtasks st' = microtasks st ++ js ->
  Forall is_react js ->
  Forall (fun o => match o with
                   | OThen _ (Some (HResolveFn d)) _ => exists ps, orig st' d = Some (ORace ps)
                   | _ => True
                   end) os ->
  ext st st'.
Proof.
  intros Ho Hm Hjs Hos. split_and!; [by exists os|by exists js|].
  intros a q d g H. unfold orig in H. rewrite Ho in H.
  apply lookup_app_Some in H as [H|[_ H]]; [by left|right].
  apply list_elem_of_lookup_2 in H.
  exact (proj1 (Forall_forall _ _) Hos _ H).
Qed.

Lemma ext_new_promise s o st :
  match o with OThen _ (Some (HResolveFn _)) _ => False | _ => True end ->
  ext st (new_promise s o st).2.
Proof.
  intros Ho. apply (ext_grow _ _ [o] []); [done|by rewrite app_nil_r|constructor|].
  constructor; [|constructor]. by destruct o as [| | | | |? [[]|] ?].
Qed.

Lemma ext_settle p b x st : ext st (settle p b x st).
Proof.
  unfold settle. destruct (pstate st p) as [[rs| |]|]; try apply ext_refl.
  apply (ext_grow _ _ [] (map (reaction_job b x) rs)); [by rewrite app_nil_r|done| |constructor].
  apply Forall_forall. intros j Hj. apply list_elem_of_fmap in Hj as (r & -> & _). done.
Qed.

Lemma ext_then p f g st :
  (forall d, f = Some (HResolveFn d) -> exists ps, orig st d = Some (ORace ps)) ->
  ext st (then_ p f g st).2.
Proof.
  intros Hf. unfold then_. simpl.
  assert (Hos : forall st',
            origins st' = origins st ++ [OThen p f g] ->
            Forall (fun o => match o with
                   | OThen _ (Some (HResolveFn d)) _ => exists ps, orig st' d = Some (ORace ps)
                   | _ => True
                   end) [OThen p f g]).
  { intros st' Ho. constructor; [|constructor]. destruct f as [[]|]; try done.
    destruct (Hf _ eq_refl) as [ps Hps]. exists ps. unfold orig in *. rewrite Ho.
    by apply lookup_app_l_Some. }
  destruct (pstate st p) as [[rs|v|e]|].
  - apply (ext_grow _ _ [OThen p f g] []); [done|by rewrite app_nil_r|constructor|by apply Hos].
  - apply (ext_grow _ _ [OThen p f g] [reaction_job false v (mkReaction f g (length (promises st)))]);
      [done|done|by repeat constructor|by apply Hos].
  - apply (ext_grow _ _ [OThen p f g] [reaction_job true e (mkReaction f g (length (promises st)))]);
      [done|done|by repeat constructor|by apply Hos].
  - apply (ext_grow _ _ [OThen p f g] []); [done|by rewrite app_nil_r|constructor|by apply Hos].
Qed.

Lemma ext_then_plain p f g st :
  match f with Some (HResolveFn _) => False | _ => True end ->
  ext st (then_ p f g st).2.
Proof. intros Hf. apply ext_then. intros d ->. done. Qed.

Lemma ext_run_script s st : ext st (run_script s st).2.
Proof.
  revert st. induction s as [| | | |d k IH|p k IH|obs tgt k IH|obs text body IHb k IH|obs pred k IH];
    intros st; cbn [run_script]; try apply ext_refl.
  - by apply (ext_new_promise (Rejected e) OPlain st).
  - by apply (ext_new_promise (Pending []) OPlain st).
  - destruct (new_promise _ _ st) as [p st1] eqn:E1.
    destruct (then_ p _ _ _) as [q st3] eqn:E3. simpl.
    eapply ext_trans; [exact (ext_new_promise (Pending []) OPlain st I)|]. rewrite E1. simpl.
    eapply ext_trans; [apply (ext_same st1 (setTimeout (TResolve p VUndefined) d st1)); done|].
    change st3 with (q, st3).2. rewrite <- E3. by apply ext_then_plain.
  - destruct (then_ p _ _ _) as [q st3] eqn:E3. simpl.
    change st3 with (q, st3).2. rewrite <- E3. by apply ext_then_plain.
  - eapply ext_trans; [|apply IH]. by apply ext_same.
  - destruct (subscribe obs _ st) as [sub st1] eqn:E.
    eapply ext_trans; [|apply IH]. apply ext_same; change st1 with (sub, st1).2; by rewrite <- E.
  - destruct (next obs pred st) as [q st1] eqn:E.
    eapply ext_trans; [|apply IH]. change st1 with (q, st1).2. rewrite <- E.
    unfold next. simpl.
    apply (ext_grow _ _ [ONext] []); [done|by rewrite app_nil_r|constructor|by repeat constructor].
Qed.

Lemma ext_call_listener l v st : ext st (call_listener l v st).2.
Proof.
  unfold call_listener. destruct l as [text body|pred parent sub p].
  - apply ext_run_script.
  - destruct (matches pred v); [|apply ext_refl]. simpl.
    eapply ext_trans; [|apply ext_settle]. by apply ext_same.
Qed.

Lemma ext_subscription_emit s v st :
  match subscription_emit s v st with
  | Normal _ st' | Raise _ st' => ext st st'
  | Diverge => True
  end.
Proof.
  unfold subscription_emit.
  set (st0 := set_invoked (fun h => h ++ [(target s, v)]) st).
  assert (H0 : ext st st0) by (by apply ext_same).
  pose proof (ext_call_listener (listener s) v st0) as H1.
  destruct (call_listener (listener s) v st0) as [[u|q|e] st1]; simpl in H1.
  - destruct (promise_resolve (inl u) st1) as [l st2] eqn:E2.
    destruct (then_ l _ None st2) as [c st3] eqn:E3.
    eapply ext_trans; [exact H0|]. eapply ext_trans; [exact H1|].
    eapply ext_trans; [exact (ext_new_promise (Fulfilled u) OPlain st1 I)|].
    simpl in E2. rewrite E2. simpl.
    change st3 with (c, st3).2. rewrite <- E3. by apply ext_then_plain.
  - destruct (promise_resolve (inr q) st1) as [l st2] eqn:E2.
    destruct (then_ l _ None st2) as [c st3] eqn:E3.
    simpl in E2. injection E2 as <- <-.
    eapply ext_trans; [exact H0|]. eapply ext_trans; [exact H1|].
    change st3 with (c, st3).2. rewrite <- E3. by apply ext_then_plain.
  - exact (ext_trans _ _ _ H0 H1).
Qed.

Lemma ext_race_register r ps0 ps st :
  orig st r = Some (ORace ps0) -> ext st (race_register r ps st).
Proof.
  revert st. induction ps as [|p ps IH]; intros st Hr; cbn [race_register]; [apply ext_refl|].
  assert (H1 : ext st (then_ p (Some (HResolveFn r)) (Some (HRejectFn r)) st).2).
  { apply ext_then. intros d [= <-]. by exists ps0. }
  eapply ext_trans; [exact H1|]. apply IH. by eapply ext_orig.
Qed.

Lemma ext_timeout p d st :
  length (origins st) = length (promises st) -> ext st (timeout p d st).2.
Proof.
  intros Hlen. unfold timeout, promise_race.
  destruct (new_TimeoutError st) as [e st1] eqn:E1.
  destruct (new_promise _ _ st1) as [t st2] eqn:E2.
  destruct (new_promise _ _ (setTimeout _ d st2)) as [r st3] eqn:E3.
  cbn [snd].
  eapply ext_trans; [apply (ext_same st st1); by injection E1 as <- <-|].
  eapply ext_trans; [exact (ext_new_promise (Pending []) OTimer _ I)|]. rewrite E2. cbn [snd].
  eapply ext_trans; [apply (ext_same st2 (setTimeout (TReject t e) d st2)); done|].
  eapply ext_trans; [exact (ext_new_promise (Pending []) (ORace [t; p]) _ I)|]. rewrite E3. cbn [snd].
  apply (ext_race_register r [t; p]).
  injection E3 as <- <-. injection E2 as <- <-. injection E1 as <- <-. unfold orig. simpl.
  rewrite lookup_app_r; rewrite !length_app; simpl; [|lia].
  by replace (length (promises st) + 1 - (length (origins st) + 1)) with 0 by lia.
Qed.

Lemma ext_waitAll_register w r ps st : ext st (waitAll_register w r ps st).
Proof.
  revert st. induction ps as [|p ps IH]; intros st; cbn [waitAll_register]; [apply ext_refl|].
  eapply ext_trans; [|apply IH]. by apply ext_then_plain.
Qed.

Lemma ext_waitAll ps st : ext st (waitAll ps st).2.
Proof.
  unfold waitAll. case_decide.
  - by apply (ext_new_promise (Fulfilled VUndefined) OPlain st).
  - destruct (new_promise (Pending []) _ st) as [r st1] eqn:E1. cbn [snd].
    eapply ext_trans; [exact (ext_new_promise (Pending []) (OWaitAll (length (counters st))) st I)|].
    rewrite E1. simpl.
    eapply ext_trans; [|apply ext_waitAll_register]. by apply ext_same.
Qed.

Lemma ext_emit_loop D em t cur fuel : forall k results st,
  sound D st ->
  match emit_loop fuel em t cur k results st with
  | Normal _ st' | Raise _ st' => ext st st'
  | Diverge => True
  end.
Proof.
  induction fuel as [|fuel IH]; intros k results st Hs; [done|].
  cbn [emit_loop].
  destruct (table st em !! k) as [current|] eqn:Ek; [|apply ext_refl].
  destruct (sound_set_cells D (fun cs => <[cur := Some current]> cs) st Hs) as [Hs1 Ha1].
  pose proof (inv_tables _ (proj1 Hs) em current (list_elem_of_lookup_2 _ _ _ Ek)) as Hx.
  assert (Hx1 : match listener current with
                | LNext _ _ _ p => orig (set_cells (fun cs => <[cur := Some current]> cs) st) p
                                   = Some ONext
                | LUser _ _ => True end).
  { destruct (listener current); [done|]. by apply Ha1. }
  pose proof (sound_subscription_emit D current t _ Hs1 Hx1) as Hse.
  pose proof (ext_subscription_emit current t
                (set_cells (fun cs => <[cur := Some current]> cs) st)) as He.
  assert (H0 : ext st (set_cells (fun cs => <[cur := Some current]> cs) st))
    by (by apply ext_same).
  destruct (subscription_emit current t _) as [p st2|e st2|] eqn:Ese; [| |done].
  2: { exact (ext_trans _ _ _ H0 He). }
  destruct Hse as (Hs2 & Ha2 & _).
  assert (H2 : ext st st2) by exact (ext_trans _ _ _ H0 He).
  destruct (opts_emitTimeout st2 em) as [delay|].
  - pose proof (ext_timeout p delay st2 (inv_origins _ (proj1 Hs2))) as H3.
    destruct (timeout p delay st2) as [r st3] eqn:E3.
    destruct (sound_timeout D _ _ _ _ _ Hs2 E3) as (Hs3 & Ha3 & _).
    pose proof (ext_then_plain r None (Some (HStamp cur)) st3 I) as H4.
    destruct (then_ r None (Some (HStamp cur)) st3) as [c st4] eqn:E4.
    destruct (sound_then D _ _ _ _ _ _ Hs3 (shape_stamp _ _ _ _) ltac:(done) E4)
      as (Hs4 & Ha4 & _).
    simpl in H3, H4.
    specialize (IH (match table st4 em !! k with
                    | Some s' => if decide (target s' = target current) then S k else k
                    | None => k end) (results ++ [c]) st4 Hs4).
    destruct (emit_loop fuel em t cur _ _ st4); [| |done];
      (eapply ext_trans; [exact H2|]; eapply ext_trans; [exact H3|];
       eapply ext_trans; [exact H4|exact IH]).
  - specialize (IH (match table st2 em !! k with
                    | Some s' => if decide (target s' = target current) then S k else k
                    | None => k end) (results ++ [p]) st2 Hs2).
    destruct (emit_loop fuel em t cur _ _ st2); [| |done]; exact (ext_trans _ _ _ H2 IH).
Qed.

Lemma ext_emit D fuel em v st :
  sound D st ->
  match emit fuel em v st with
  | Normal _ st' | Raise _ st' => ext st st'
  | Diverge => True
  end.
Proof.
  intros Hs. unfold emit.
  destruct (sound_set_cells D (fun cs => cs ++ [None]) st Hs) as [Hs0 Ha0].
  pose proof (ext_emit_loop D em v (length (cells st)) fuel 0 [] _ Hs0) as H.
  assert (H0 : ext st (set_cells (fun cs => cs ++ [None]) st)) by (by apply ext_same).
  destruct (emit_loop fuel em v _ 0 [] _) as [rs st1|e st1|]; [| |done].
  2: { exact (ext_trans _ _ _ H0 H). }
  pose proof (ext_waitAll rs st1) as Hw.
  destruct (waitAll rs st1) as [w st2] eqn:Ew. simpl in Hw.
  eapply ext_trans; [exact H0|]. eapply ext_trans; [exact H|].
  eapply ext_trans; [exact Hw|]. by apply ext_same.
Qed.

(** ** A chain takes the outcome of the promise it was resolved with *)

Lemma origins_settle p b x st : origins (settle p b x st) = origins st.
Proof. unfold settle. by repeat case_match. Qed.

Lemma ext_thenable st st' d : ext st st' -> thenable st' d -> thenable st d.
Proof.
  intros (_ & (js & Hm & Hjs) & _) [q Hq]. rewrite Hm in Hq.
  apply elem_of_app in Hq as [Hq|Hq]; [by exists q|].
  by apply (proj1 (Forall_forall _ _) Hjs) in Hq.
Qed.

Lemma ext_lookup_thenable st st' i d q :
  ext st st' -> microtasks st' !! i = Some (JThenable d q) ->
  microtasks st !! i = Some (JThenable d q).
Proof.
  intros (_ & (js & Hm & Hjs) & _) Hi. rewrite Hm in Hi.
  apply lookup_app_Some in Hi as [Hi|[_ Hi]]; [done|].
  apply list_elem_of_lookup_2 in Hi. by apply (proj1 (Forall_forall _ _) Hjs) in Hi.
Qed.

(** The promise that something was resolved with, and the promise that was
    resolved, exist. *)
Lemma resolver_target st a q d :
  inv st -> resolver st a q d -> exists o, orig st d = Some o.
Proof.
  intros Hinv Hr. pose proof (inv_shape _ Hinv _ _ _ _ Hr) as Hsh.
  apply shape_resolve_inv in Hsh as [Hres _]. unfold resolves in Hres.
  destruct (orig st d) as [o|]; [by exists o|done].
Qed.

Lemma thenable_target st d :
  inv st -> thenable st d -> exists o, orig st d = Some o.
Proof.
  intros Hinv [q Hq]. destruct (inv_thenables _ Hinv d q Hq) as (Hres & _).
  unfold resolves in Hres. destruct (orig st d) as [o|]; [by exists o|done].
Qed.

Lemma is_chain_ext st st' d o :
  ext st st' -> orig st d = Some o -> is_chain st' d -> is_chain st d.
Proof.
  intros He Ho (l & ch & Hc). rewrite (ext_orig _ _ _ _ He Ho) in Hc.
  injection Hc as ->. by exists l, ch.
Qed.

Lemma resolver_settled_source st a q d :
  inv st -> resolver st a q d -> settled st a -> settled st q.
Proof.
  intros Hinv Hr Hs. exact (proj1 (inv_justified _ Hinv _ _ Hr) Hs).
Qed.

(** Steps that settle no promise made by [then]. *)
Lemma adopt_frame st st' :
  inv st -> adopt st -> ext st st' -> adv st st' ->
  (forall p, is_chain st p \/ (exists q d, resolver st p q d /\ is_chain st d) ->
     outcome st p = Some None -> outcome st' p = Some None) ->
  adopt st'.
Proof.
  intros Hinv Had He Ha Hk.
  assert (Hkc : forall d, is_chain st d -> outcome st d = Some None ->
                          outcome st' d = Some None).
  { intros d Hd. apply Hk. by left. }
  constructor.
  - intros a q d Hr Hc.
    destruct (proj2 (proj2 He) a q d _ Hr) as [Hr0|[ps Hps]].
    2: { destruct Hc as (l & ch & Hc). congruence. }
    destruct (resolver_target st a q d Hinv Hr0) as [o Ho].
    pose proof (is_chain_ext st st' d o He Ho Hc) as Hc0.
    destruct (adopt_resolver _ Had a q d Hr0 Hc0) as (Hlt & Hnt & Hu & Hp & Hs).
    destruct (orig_outcome st a _ Hinv Hr0) as [ya Hya].
    split_and!.
    + done.
    + intros Ht. by apply Hnt, (ext_thenable st st').
    + intros a' q' Hr'.
      destruct (proj2 (proj2 He) a' q' d _ Hr') as [Hr0'|[ps Hps]]; [by eapply Hu|].
      destruct Hc as (l & ch & Hc). congruence.
    + intros Hpa. destruct ya as [y|].
      * apply Ha in Hya. congruence.
      * by apply Hkc, Hp.
    + intros Hsa. destruct ya as [y|].
      * destruct (resolver_settled_source st a q d Hinv Hr0) as [z Hz]; [by exists y|].
        assert (Hd : outcome st d = Some (Some z)) by (rewrite Hs; [done|by exists y]).
        apply Ha in Hd, Hz. congruence.
      * assert (Hpa : outcome st' a = Some None).
        { apply Hk; [|done]. right. by exists q, d. }
        destruct Hsa as [z Hz]. congruence.
  - intros d Hc Ht. pose proof (ext_thenable st st' d He Ht) as Ht0.
    destruct (thenable_target st d Hinv Ht0) as [o Ho].
    pose proof (is_chain_ext st st' d o He Ho Hc) as Hc0.
    destruct (adopt_thenable _ Had d Hc0 Ht0) as [Hp Hu]. split; [by apply Hkc|].
    intros i j q q' Hi Hj. apply (Hu i j q q'); by eapply ext_lookup_thenable.
Qed.

(** Taking the first job from the queue. *)
Lemma adopt_pop st j js :
  adopt st -> microtasks st = j :: js -> adopt (set_microtasks (fun _ => js) st).
Proof.
  intros Had Hm. set (st0 := set_microtasks (fun _ => js) st).
  assert (Ht : forall d, thenable st0 d -> thenable st d).
  { intros d [q Hq]. exists q. rewrite Hm. by right. }
  constructor.
  - intros a q d Hr Hc.
    destruct (adopt_resolver _ Had a q d Hr Hc) as (Hlt & Hnt & Hu & Hp & Hs).
    split_and!; [done|by intros H; apply Hnt, Ht|done..].
  - intros d Hc Ht0. destruct (adopt_thenable _ Had d Hc (Ht d Ht0)) as [Hp Hu].
    split; [done|]. intros i k q q' Hi Hk.
    assert (S i = S k); [|lia]. apply (Hu (S i) (S k) q q'); by rewrite Hm.
Qed.

(** Settling a promise that is not the promise [then] returned for a
    chain, nor a chain that was resolved with a promise. *)
Lemma adopt_settle st p b x :
  inv st -> adopt st ->
  (forall q d, resolver st p q d -> ~ is_chain st d) ->
  (is_chain st p -> (forall a q, ~ resolver st a q p) /\ ~ thenable st p) ->
  adopt (settle p b x st).
Proof.
  intros Hinv Had Hc1 Hc2.
  destruct (outcome st p) as [[y|]|] eqn:Hp.
  1, 3: by rewrite settle_settled by congruence.
  set (st' := settle p b x st).
  assert (Ho : forall q, orig st' q = orig st q).
  { intros q. unfold orig, st'. by rewrite origins_settle. }
  assert (Hne : forall q, q <> p -> outcome st' q = outcome st q).
  { intros q Hq. by apply settle_outcome_ne_any. }
  pose proof (ext_settle p b x st) as He. fold st' in He.
  constructor.
  - intros a q d Hr Hc. unfold resolver in Hr. unfold is_chain in Hc.
    rewrite Ho in Hr. setoid_rewrite Ho in Hc.
    destruct (adopt_resolver _ Had a q d Hr Hc) as (Hlt & Hnt & Hu & Hpa & Hs).
    assert (Hap : a <> p). { intros ->. by apply (Hc1 q d). }
    assert (Hdp : d <> p). { intros ->. by apply (proj1 (Hc2 Hc) a q). }
    split_and!.
    + done.
    + intros Ht. by apply Hnt, (ext_thenable st st').
    + intros a' q' Hr'. unfold resolver in Hr'. rewrite Ho in Hr'. by eapply Hu.
    + rewrite !Hne by done. done.
    + intros [y Hy]. rewrite Hne in Hy by done. rewrite (Hne d) by done.
      destruct (resolver_settled_source st a q d Hinv Hr) as [z Hz]; [by exists y|].
      rewrite Hne; [apply Hs; by exists y|]. intros ->. congruence.
  - intros d Hc Ht. unfold is_chain in Hc. setoid_rewrite Ho in Hc.
    pose proof (ext_thenable st st' d He Ht) as Ht0.
    destruct (adopt_thenable _ Had d Hc Ht0) as [Hpd Hu].
    assert (Hdp : d <> p). { intros ->. by apply (proj2 (Hc2 Hc)). }
    split; [by rewrite Hne|].
    intros i j q q' Hi Hj. apply (Hu i j q q'); by eapply ext_lookup_thenable.
Qed.

(** The step that resolves [d] with the promise [q]. *)
Lemma adopt_push_thenable st d q :
  adopt st ->
  (is_chain st d ->
   outcome st d = Some None /\ (forall a q', ~ resolver st a q' d) /\ ~ thenable st d) ->
  adopt (set_microtasks (fun js => js ++ [JThenable d q]) st).
Proof.
  intros Had Hd. set (st' := set_microtasks _ st).
  assert (Ht : forall d1, thenable st' d1 -> thenable st d1 \/ d1 = d).
  { intros d1 [q1 Hq1]. simpl in Hq1. apply elem_of_app in Hq1 as [H|H].
    - left. by exists q1.
    - right. apply list_elem_of_singleton in H. by injection H as ->. }
  constructor.
  - intros a q1 d1 Hr Hc.
    destruct (adopt_resolver _ Had a q1 d1 Hr Hc) as (Hlt & Hnt & Hu & Hp & Hs).
    split_and!; [done| |done..].
    intros H. destruct (Ht d1 H) as [H1| ->]; [done|].
    destruct (Hd Hc) as (_ & Hno & _). by apply (Hno a q1).
  - intros d1 Hc H. destruct (decide (d1 = d)) as [->|Hne].
    + destruct (Hd Hc) as (Hp & _ & Hnt). split; [done|].
      assert (Hl : forall i q0, microtasks st' !! i = Some (JThenable d q0) ->
                                i = length (microtasks st)).
      { intros i q0 Hi. simpl in Hi. apply lookup_app_Some in Hi as [Hi|[Hge Hi]].
        - destruct Hnt. exists q0. by eapply list_elem_of_lookup_2.
        - apply list_lookup_singleton_Some in Hi as [Hi _]. lia. }
      intros i j q0 q0' Hi Hj. rewrite (Hl i q0 Hi), (Hl j q0' Hj). done.
    + destruct (Ht d1 H) as [H1|H1]; [|done].
      destruct (adopt_thenable _ Had d1 Hc H1) as [Hp Hu]. split; [done|].
      assert (Hl : forall i q0, microtasks st' !! i = Some (JThenable d1 q0) ->
                                microtasks st !! i = Some (JThenable d1 q0)).
      { intros i q0 Hi. simpl in Hi. apply lookup_app_Some in Hi as [Hi|[Hge Hi]]; [done|].
        apply list_lookup_singleton_Some in Hi as [_ Hi]. by injection Hi as ->. }
      intros i j q0 q0' Hi Hj. apply (Hu i j q0 q0'); by apply Hl.
Qed.

Lemma origins_then p f g st : origins (then_ p f g st).2 = origins st ++ [OThen p f g].
Proof. unfold then_. simpl. by repeat case_match. Qed.

Lemma then_microtasks_react p f g st :
  exists js, microtasks (then_ p f g st).2 = microtasks st ++ js /\ Forall is_react js.
Proof.
  unfold then_. simpl. destruct (pstate st p) as [[rs|v|e]|]; simpl.
  - exists []. by rewrite app_nil_r.
  - eexists. split; [reflexivity|]. by repeat constructor.
  - eexists. split; [reflexivity|]. by repeat constructor.
  - exists []. by rewrite app_nil_r.
Qed.

Lemma then_outcome_old p f g st a :
  a < length (promises st) -> outcome (then_ p f g st).2 a = outcome st a.
Proof.
  intros Ha. destruct (then_ p f g st) as [d st'] eqn:E.
  destruct (calm_then p f g st d st' E) as [_ Hc]. by apply Hc.
Qed.

(** The job that gives the resolving functions of [d] to [then] of the
    promise [d] was resolved with. *)
Lemma adopt_resolver_new st d q :
  inv st -> adopt st -> q < length (promises st) ->
  (is_chain st d ->
   outcome st d = Some None /\ (forall a q', ~ resolver st a q' d) /\ ~ thenable st d) ->
  adopt (then_ q (Some (HResolveFn d)) (Some (HRejectFn d)) st).2.
Proof.
  intros Hinv Had Hq Hd.
  set (st' := (then_ q (Some (HResolveFn d)) (Some (HRejectFn d)) st).2).
  set (n := length (promises st)).
  assert (Hos : origins st' = origins st ++ [OThen q (Some (HResolveFn d)) (Some (HRejectFn d))])
    by apply origins_then.
  assert (Hlen : length (origins st) = n) by apply Hinv.
  assert (Ho : forall a o, orig st' a = Some o ->
            orig st a = Some o \/
            (a = n /\ o = OThen q (Some (HResolveFn d)) (Some (HRejectFn d)))).
  { intros a o H. unfold orig in H. rewrite Hos in H.
    apply lookup_app_Some in H as [H|[Hge H]]; [by left|right].
    apply list_lookup_singleton_Some in H as [H1 H2]. split; [lia|done]. }
  assert (Hold : forall a o, orig st a = Some o -> a < n).
  { intros a o H. rewrite <- Hlen. by eapply lookup_lt_Some. }
  assert (Hoo : forall a o, orig st a = Some o -> orig st' a = Some o).
  { intros a o H. unfold orig in *. rewrite Hos. by apply lookup_app_l_Some. }
  assert (Hout : forall a, a < n -> outcome st' a = outcome st a).
  { intros a Ha. by apply then_outcome_old. }
  assert (Hnew : outcome st' n = Some None) by apply then_new.
  destruct (then_microtasks_react q (Some (HResolveFn d)) (Some (HRejectFn d)) st)
    as (js & Hm & Hjs). fold st' in Hm.
  assert (Ht : forall d1, thenable st' d1 -> thenable st d1).
  { intros d1 [q1 H]. rewrite Hm in H. apply elem_of_app in H as [H|H]; [by exists q1|].
    by apply (proj1 (Forall_forall _ _) Hjs) in H. }
  assert (Hl : forall i d1 q1, microtasks st' !! i = Some (JThenable d1 q1) ->
                               microtasks st !! i = Some (JThenable d1 q1)).
  { intros i d1 q1 H. rewrite Hm in H. apply lookup_app_Some in H as [H|[_ H]]; [done|].
    apply list_elem_of_lookup_2 in H. by apply (proj1 (Forall_forall _ _) Hjs) in H. }
  assert (Hchain : forall d1, is_chain st' d1 -> is_chain st d1).
  { intros d1 (l & ch & H). destruct (Ho _ _ H) as [H1|[_ H1]]; [by exists l, ch|done]. }
  constructor.
  - intros a q1 d1 Hr Hc. pose proof (Hchain d1 Hc) as Hc0.
    destruct Hc0 as (l & ch & Hc0). pose proof (Hold _ _ Hc0) as Hd1.
    destruct (Ho _ _ Hr) as [Hr0|[-> Heq]].
    + destruct (adopt_resolver _ Had a q1 d1 Hr0 (ex_intro _ l (ex_intro _ ch Hc0)))
        as (Hlt & Hnt & Hu & Hp & Hs).
      pose proof (Hold _ _ Hr0) as Ha.
      assert (Hq1 : q1 < n) by lia.
      split_and!.
      * done.
      * intros Hth. by apply Hnt, Ht.
      * intros a' q' Hr'. destruct (Ho _ _ Hr') as [Hr0'|[-> Heq]]; [by eapply Hu|].
        injection Heq as <- <-.
        destruct (Hd (ex_intro _ l (ex_intro _ ch Hc0))) as (_ & Hno & _).
        destruct (Hno a q1 Hr0).
      * rewrite !Hout by done. done.
      * intros [y Hy]. rewrite Hout in Hy by done. rewrite !Hout by done.
        apply Hs. by exists y.
    + injection Heq as <- <-.
      destruct (Hd (ex_intro _ l (ex_intro _ ch Hc0))) as (Hpd & Hno & Hnt).
      split_and!.
      * done.
      * intros Hth. by apply Hnt, Ht.
      * intros a' q' Hr'. destruct (Ho _ _ Hr') as [Hr0'|[-> _]]; [|done].
        destruct (Hno a' q' Hr0').
      * intros _. by rewrite Hout.
      * intros [y Hy]. congruence.
  - intros d1 Hc H. pose proof (Hchain d1 Hc) as Hc0.
    destruct (adopt_thenable _ Had d1 Hc0 (Ht d1 H)) as [Hp Hu].
    destruct Hc0 as (l & ch & Hc0). pose proof (Hold _ _ Hc0) as Hd1.
    split; [by rewrite Hout|].
    intros i j q0 q0' Hi Hj. apply (Hu i j q0 q0'); by apply Hl.
Qed.

(** The job of the promise [a = q.then(resolve_d, reject_d)] when [d] is a
    chain: [d] takes the outcome of [q]. *)
Lemma adopt_resolve st a q d b x :
  inv st -> adopt st -> resolver st a q d -> is_chain st d ->
  outcome st a = Some None -> outcome st q = Some (Some (b, x)) ->
  adopt (settle a false VUndefined (settle d b x st)).
Proof.
  intros Hinv Had Hr Hc Hpa Hq.
  destruct (adopt_resolver _ Had a q d Hr Hc) as (Hlt & Hnt & Hu & Hp & _).
  pose proof (Hp Hpa) as Hpd.
  set (st1 := settle d b x st). set (st2 := settle a false VUndefined st1).
  assert (Had_ne : a <> d).
  { intros ->. destruct Hc as (l & ch & Hc). unfold resolver in Hr. congruence. }
  assert (Ho : forall p, orig st2 p = orig st p).
  { intros p. unfold orig, st2, st1. by rewrite !origins_settle. }
  assert (Hd2 : outcome st2 d = Some (Some (b, x))).
  { unfold st2. rewrite settle_outcome_ne_any by done. by apply outcome_settle_pending. }
  assert (Ha2 : outcome st2 a = Some (Some (false, VUndefined))).
  { unfold st2. apply outcome_settle_pending. unfold st1.
    by rewrite settle_outcome_ne_any. }
  assert (Hne : forall p, p <> a -> p <> d -> outcome st2 p = outcome st p).
  { intros p H1 H2. unfold st2, st1. by rewrite !settle_outcome_ne_any. }
  assert (Hset : forall p y, outcome st p = Some (Some y) -> outcome st2 p = Some (Some y)).
  { intros p y Hy. rewrite Hne; [done| |]; intros ->; congruence. }
  assert (He : ext st st2).
  { eapply ext_trans; apply ext_settle. }
  constructor.
  - intros a1 q1 d1 Hr1 Hc1. unfold resolver in Hr1. unfold is_chain in Hc1.
    rewrite Ho in Hr1. setoid_rewrite Ho in Hc1.
    destruct (adopt_resolver _ Had a1 q1 d1 Hr1 Hc1) as (Hlt1 & Hnt1 & Hu1 & Hp1 & Hs1).
    assert (Hu1' : forall a' q', resolver st2 a' q' d1 -> a' = a1).
    { intros a' q' Hr'. unfold resolver in Hr'. rewrite Ho in Hr'. by eapply Hu1. }
    split; [done|]. split; [by intros H; apply Hnt1, (ext_thenable st st2)|].
    split; [done|].
    destruct (decide (d1 = d)) as [->|Hdd].
    + assert (a1 = a) as -> by (symmetry; by eapply Hu1).
      assert (q1 = q) as -> by (unfold resolver in *; congruence).
      split; [intros H; congruence|]. intros _. rewrite Hd2. symmetry. by apply Hset.
    + assert (Haa : a1 <> a).
      { intros ->. unfold resolver in *. congruence. }
      assert (Ha1d : a1 <> d).
      { intros ->. destruct Hc as (l & ch & Hc). unfold resolver in Hr1. congruence. }
      assert (Hd1a : d1 <> a).
      { intros ->. destruct Hc1 as (l & ch & Hc1). unfold resolver in Hr. congruence. }
      rewrite (Hne a1), (Hne d1) by done. split; [done|].
      intros [y Hy]. rewrite (Hne a1) in Hy by done.
      assert (Hsa : settled st a1) by (by exists y).
      destruct (resolver_settled_source st a1 q1 d1 Hinv Hr1 Hsa) as [z Hz].
      rewrite (Hset _ _ Hz). rewrite Hs1 by done. done.
  - intros d1 Hc1 Ht. unfold is_chain in Hc1. setoid_rewrite Ho in Hc1.
    pose proof (ext_thenable st st2 d1 He Ht) as Ht0.
    destruct (adopt_thenable _ Had d1 Hc1 Ht0) as [Hp1 Hu1].
    assert (Hdd : d1 <> d) by (intros ->; done).
    assert (Hd1a : d1 <> a).
    { intros ->. destruct Hc1 as (l & ch & Hc1). unfold resolver in Hr. congruence. }
    split; [by rewrite Hne|].
    intros i j q0 q0' Hi Hj. apply (Hu1 i j q0 q0'); by eapply ext_lookup_thenable.
Qed.

(** Whether a promise is a chain can be read off its origin. *)
Lemma classic_chain st d : is_chain st d \/ ~ is_chain st d.
Proof.
  unfold is_chain. destruct (orig st d) as [[| | | | |l [[ch| | | | |]|] [g|]]|];
    try (right; intros (l' & ch' & H); discriminate).
  by left; eexists _, _.
Qed.

(** ** The jobs keep the chains and the promises they were resolved with *)

(** A promise that is neither a chain nor what [then] returned for a
    chain. *)
Lemma plain_origin st p o :
  orig st p = Some o ->
  match o with
  | OThen _ (Some (HEmit _)) _ => False
  | OThen _ (Some (HResolveFn d)) _ => ~ is_chain st d
  | _ => True
  end ->
  ~ (is_chain st p \/ exists q d, resolver st p q d /\ is_chain st d).
Proof.
  intros Ho Hp [(l & ch & Hc)|(q & d & Hr & Hc)].
  - rewrite Ho in Hc. injection Hc as ->. done.
  - unfold resolver in Hr. rewrite Ho in Hr. injection Hr as ->. done.
Qed.

(** Steps that settle plain promises only. *)
Lemma adopt_plain st st' (P : PromiseId -> Prop) :
  inv st -> adopt st -> ext st st' -> adv st st' ->
  (forall p, ~ P p -> outcome st' p = outcome st p) ->
  (forall p, P p -> ~ (is_chain st p \/ exists q d, resolver st p q d /\ is_chain st d)) ->
  adopt st'.
Proof.
  intros Hinv Had He Ha Hsame HP. apply (adopt_frame st st'); try done.
  intros p Hp Hpend. rewrite Hsame; [done|]. intros H. by apply (HP p).
Qed.

Lemma ext_count w st : ext st (count w st).
Proof.
  unfold count. destruct (counters st !! w) as [c|]; [|apply ext_refl].
  case_decide.
  - eapply ext_trans; [|apply ext_settle]. by apply ext_same.
  - by apply ext_same.
Qed.

Lemma ext_stamp cur e st : ext st (stamp cur e st).2.
Proof.
  unfold stamp. destruct e; try apply ext_refl.
  destruct (terrs st !! r); [|apply ext_refl].
  destruct (cells st !! cur) as [[c|]|]; try apply ext_refl.
  case_decide; [by apply ext_same|apply ext_refl].
Qed.

Lemma outcome_stamp cur e st p : outcome (stamp cur e st).2 p = outcome st p.
Proof.
  unfold stamp. destruct e; try done.
  destruct (terrs st !! r); [|done]. destruct (cells st !! cur) as [[c|]|]; try done.
  by case_decide.
Qed.

Lemma outcome_count w st p :
  (forall c, counters st !! w = Some c -> wa_promise c <> p) ->
  outcome (count w st) p = outcome st p.
Proof. intros H. unfold outcome. by rewrite pstate_count. Qed.

Section job.
Context (D : list PromiseId) (fuel : nat) (st : State) (js : list Job).
Context (Hs : sound D st) (Had : adopt st).

Local Abbreviation st0 := (set_microtasks (fun _ => js) st).

(** The job of the promise [d] that [then] returned. *)
Lemma adopt_run_react h b x d st' :
  microtasks st = JReact h b x d :: js ->
  run_job fuel (JReact h b x d) st0 = Some st' -> adopt st'.
Proof.
  intros Hm Hrun.
  destruct (sound_run_job D fuel _ js st st' Hs Hm Hrun) as [Hs' Ha'].
  destruct (sound_pop_react D st h b x d js Hs Hm)
    as (Hs0 & Ha0 & q & f & g & Ho & Hh & Hq & Hd & Hsh).
  pose proof (adopt_pop st _ js Had Hm) as Had0.
  assert (Hinv0 : inv st0) by apply Hs0.
  assert (Ho0 : orig st0 d = Some (OThen q f g)) by done.
  assert (Hd0 : outcome st0 d = Some None) by done.
  assert (Hsh0 : shape st0 d q f g) by (by eapply shape_adv).
  assert (Ha0' : adv st0 st').
  { split_and!; intros; by apply Ha'. }
  (* no promise was resolved with a promise while the job of [d] is queued *)
  assert (Hjob : in_jobs st d) by (exists h, b, x; rewrite Hm; left).
  assert (Hnores : forall a q', ~ resolver st0 a q' d).
  { intros a q' Hr. destruct (inv_resolvers _ (proj1 Hs) a q' d _ Hr) as [_ Hnj]. done. }
  assert (Hnoth : ~ thenable st0 d).
  { intros [q' Hq']. destruct (inv_thenables _ (proj1 Hs) d q') as (_ & [_ Hnj] & _); [|done].
    rewrite Hm. by right. }
  unfold run_job in Hrun. destruct h as [h|].
  2: { injection Hrun as <-. apply adopt_settle; [done..| |].
       - intros q' d' Hr. unfold resolver in Hr. rewrite Ho0 in Hr.
         injection Hr as -> -> ->. by destruct b.
       - done. }
  destruct Hsh0 as [ch|k|d0 Hd0r|w c i Hw Hi Hai|cur];
    destruct b; simpl in Hh; try done; injection Hh as ->; unfold run_handler in Hrun.
  - (* the callback is [emit] of the child *)
    pose proof (sound_emit (d :: D) fuel ch x st0 Hs0) as Hse.
    pose proof (ext_emit (d :: D) fuel ch x st0 Hs0) as Hee.
    pose proof (emit_keeps (d :: D) fuel ch x st0) as Hek.
    destruct (emit fuel ch x st0) as [w st1|e st1|] eqn:Ee; [| |done];
      injection Hrun as <-.
    + destruct Hse as (Hs1 & Ha1 & _).
      assert (Had1 : adopt st1).
      { apply (adopt_frame st0 st1); try done.
        intros p Hp Hpend. destruct Hp as [(l & c' & Hp)|(q' & d' & Hp & _)].
        - by apply (Hek p _ Hs0 Hp).
        - by apply (Hek p _ Hs0 Hp). }
      apply adopt_push_thenable; [done|]. intros _. split_and!.
      * by apply (Hek d _ Hs0 Ho0).
      * intros a q' Hr. destruct (proj2 (proj2 Hee) a q' d _ Hr) as [Hr0|[ps Hps]].
        -- by apply (Hnores a q').
        -- apply (proj1 Ha1) in Ho0. congruence.
      * intros Ht. by apply Hnoth, (ext_thenable st0 st1).
    + destruct Hse as (Hs1 & Ha1).
      assert (Had1 : adopt st1).
      { apply (adopt_frame st0 st1); try done.
        intros p Hp Hpend. destruct Hp as [(l & c' & Hp)|(q' & d' & Hp & _)].
        - by apply (Hek p _ Hs0 Hp).
        - by apply (Hek p _ Hs0 Hp). }
      apply adopt_settle; [apply Hs1|done| |].
      * intros q' d' Hr. apply (proj1 Ha1) in Ho0. unfold resolver in Hr. congruence.
      * intros _. split.
        -- intros a q' Hr. destruct (proj2 (proj2 Hee) a q' d _ Hr) as [Hr0|[ps Hps]].
           ++ by apply (Hnores a q').
           ++ apply (proj1 Ha1) in Ho0. congruence.
        -- intros Ht. by apply Hnoth, (ext_thenable st0 st1).
  - (* a continuation of user code *)
    destruct (run_script (k x) st0) as [c st1] eqn:Er. injection Hrun as <-.
    destruct (sound_run_script _ _ _ _ _ Hs0 Er) as (Hs1 & Ha1 & _).
    pose proof (ext_run_script (k x) st0) as He1. rewrite Er in He1. simpl in He1.
    pose proof (calm_run_script (k x) st0) as Hc1. rewrite Er in Hc1. simpl in Hc1.
    assert (Had1 : adopt st1).
    { apply (adopt_frame st0 st1); try done.
      intros p _ Hpend. by eapply calm_outcome. }
    assert (Ho1 : orig st1 d = Some (OThen q (Some (HScript k)) None)) by (by apply Ha1).
    assert (Hnc : ~ is_chain st1 d).
    { intros (l & ch & Hc). congruence. }
    destruct c as [v|p|e]; simpl.
    + apply adopt_settle; [apply Hs1|done| |done].
      intros q' d' Hr. unfold resolver in Hr. congruence.
    + apply adopt_push_thenable; [done|]. intros Hc. done.
    + apply adopt_settle; [apply Hs1|done| |done].
      intros q' d' Hr. unfold resolver in Hr. congruence.
  - (* [reject] of the promise that was resolved with [q] *)
    injection Hrun as <-. simpl.
    destruct (classic_chain st0 d0) as [Hc|Hc].
    + by apply (adopt_resolve st0 d q d0 true x).
    + apply (adopt_plain st0 _ (fun p => p = d0 \/ p = d)); try done.
      * eapply ext_trans; apply ext_settle.
      * intros p Hp. rewrite !settle_outcome_ne_any; [done| |]; intros ->; apply Hp; auto.
      * intros p [->| ->].
        -- intros [Hx|(q' & d' & Hr & _)]; [done|].
           unfold resolver in Hr. unfold resolves in Hd0r. by rewrite Hr in Hd0r.
        -- by apply (plain_origin st0 d _ Ho0).
  - (* [resolve] of the promise that was resolved with [q] *)
    injection Hrun as <-. simpl.
    destruct (classic_chain st0 d0) as [Hc|Hc].
    + by apply (adopt_resolve st0 d q d0 false x).
    + apply (adopt_plain st0 _ (fun p => p = d0 \/ p = d)); try done.
      * eapply ext_trans; apply ext_settle.
      * intros p Hp. rewrite !settle_outcome_ne_any; [done| |]; intros ->; apply Hp; auto.
      * intros p [->| ->].
        -- intros [Hx|(q' & d' & Hr & _)]; [done|].
           unfold resolver in Hr. unfold resolves in Hd0r. by rewrite Hr in Hd0r.
        -- by apply (plain_origin st0 d _ Ho0).
  - (* [reject] of [waitAll] *)
    injection Hrun as <-. simpl.
    destruct (inv_counters _ Hinv0 w c Hw) as [Hwo _].
    apply (adopt_plain st0 _ (fun p => p = wa_promise c \/ p = d)); try done.
    + eapply ext_trans; apply ext_settle.
    + intros p Hp. rewrite !settle_outcome_ne_any; [done| |]; intros ->; apply Hp; auto.
    + intros p [->| ->].
      * by apply (plain_origin st0 _ _ Hwo).
      * by apply (plain_origin st0 d _ Ho0).
  - (* [count] of [waitAll] *)
    injection Hrun as <-. simpl.
    destruct (inv_counters _ Hinv0 w c Hw) as [Hwo _].
    apply (adopt_plain st0 _ (fun p => p = wa_promise c \/ p = d)); try done.
    + eapply ext_trans; [apply ext_count|apply ext_settle].
    + intros p Hp. rewrite settle_outcome_ne_any by (intros ->; apply Hp; auto).
      apply outcome_count. intros c' Hc'. rewrite Hw in Hc'. injection Hc' as <-.
      intros <-. apply Hp. auto.
    + intros p [->| ->].
      * by apply (plain_origin st0 _ _ Hwo).
      * by apply (plain_origin st0 d _ Ho0).
  - (* the catch callback of [emit] *)
    pose proof (ext_stamp cur x st0) as He1.
    pose proof (outcome_stamp cur x st0) as Hout1.
    destruct (stamp cur x st0) as [e' st1] eqn:Es. injection Hrun as <-. simpl in *.
    apply (adopt_plain st0 _ (fun p => p = d)); try done.
    + eapply ext_trans; [exact He1|apply ext_settle].
    + intros p Hp. rewrite settle_outcome_ne_any by (intros ->; by apply Hp). apply Hout1.
    + intros p ->. by apply (plain_origin st0 d _ Ho0).
Qed.
End job.

Lemma adopt_run_thenable D st js d q :
  sound D st -> adopt st -> microtasks st = JThenable d q :: js ->
  adopt (then_ q (Some (HResolveFn d)) (Some (HRejectFn d))
           (set_microtasks (fun _ => js) st)).2.
Proof.
  intros Hs Had Hm.
  destruct (sound_pop_thenable D st d q js Hs Hm) as (Hs0 & Ha0 & Hres & Hq).
  pose proof (adopt_pop st _ js Had Hm) as Had0.
  apply adopt_resolver_new; [apply Hs0|done|done|].
  intros Hc.
  assert (Hc' : is_chain st d) by done.
  assert (Ht : thenable st d) by (exists q; rewrite Hm; left).
  destruct (adopt_thenable _ Had d Hc' Ht) as [Hp Hu]. split_and!.
  - done.
  - intros a q' Hr. by destruct (adopt_resolver _ Had a q' d Hr Hc') as (_ & Hnt & _).
  - intros [q' Hq']. simpl in Hq'. apply list_elem_of_lookup in Hq' as [i Hi].
    assert (S i = 0); [|lia]. apply (Hu (S i) 0 q' q); by rewrite Hm.
Qed.

Lemma adopt_run_job D fuel j js st st' :
  sound D st -> adopt st -> microtasks st = j :: js ->
  run_job fuel j (set_microtasks (fun _ => js) st) = Some st' -> adopt st'.
Proof.
  intros Hs Had Hm Hrun. destruct j as [h b x d|d q].
  - by eapply adopt_run_react.
  - unfold run_job in Hrun. injection Hrun as <-. by eapply adopt_run_thenable.
Qed.

Lemma adopt_turn D fuel st st' :
  sound D st -> adopt st -> turn fuel st = Next st' -> adopt st'.
Proof.
  intros Hs Had Ht. destruct (sound_turn D fuel st st' Hs Ht) as [Hs' Ha'].
  unfold turn in Ht. destruct (microtasks st) as [|j js] eqn:Hm.
  - destruct (earliest (timers st)) as [[i t]|] eqn:Et; [|done]. injection Ht as <-.
    apply earliest_lookup in Et.
    pose proof (inv_timers _ (proj1 Hs) t (list_elem_of_lookup_2 _ _ _ Et)) as Hot.
    set (st1 := set_now _ (set_timers _ st)) in *.
    assert (He1 : ext st st1) by (by apply ext_same).
    unfold fire in *. destruct (action t) as [p v|p e].
    + apply (adopt_plain st _ (fun p' => p' = p)); try done; [apply Hs| | |].
      * eapply ext_trans; [exact He1|apply ext_settle].
      * intros p' Hp'. by rewrite settle_outcome_ne_any.
      * intros p' ->. by apply (plain_origin st p _ Hot).
    + apply (adopt_plain st _ (fun p' => p' = p)); try done; [apply Hs| | |].
      * eapply ext_trans; [exact He1|apply ext_settle].
      * intros p' Hp'. by rewrite settle_outcome_ne_any.
      * intros p' ->. by apply (plain_origin st p _ Hot).
  - destruct (run_job fuel j _) as [st1|] eqn:E; [|done]. injection Ht as <-.
    exact (adopt_run_job D fuel j js st st1 Hs Had Hm E).
Qed.

Lemma adopt_init : adopt init.
Proof.
  constructor.
  - intros a q d Hr. done.
  - intros d Hc. by destruct Hc as (l & ch & Hc).
Qed.

Lemma adopt_emit D fuel em v st :
  sound D st -> adopt st ->
  match emit fuel em v st with
  | Normal _ st' | Raise _ st' => adopt st'
  | Diverge => True
  end.
Proof.
  intros Hs Had.
  pose proof (sound_emit D fuel em v st Hs) as Hse.
  pose proof (ext_emit D fuel em v st Hs) as Hee.
  pose proof (emit_keeps D fuel em v st) as Hek.
  assert (Hk : forall st', (forall d o, sound D st -> orig st d = Some o -> o <> ONext ->
                              outcome st d = Some None -> outcome st' d = Some None) ->
             forall p, is_chain st p \/ (exists q d, resolver st p q d /\ is_chain st d) ->
               outcome st p = Some None -> outcome st' p = Some None).
  { intros st' H p Hp Hpend. destruct Hp as [(l & c' & Hp)|(q' & d' & Hp & _)].
    - by apply (H p _ Hs Hp).
    - by apply (H p _ Hs Hp). }
  destruct (emit fuel em v st) as [w st'|e st'|]; [| |done].
  - destruct Hse as (_ & Ha & _). apply (adopt_frame st st'); try done; [apply Hs|].
    apply Hk. intros d o. apply Hek.
  - destruct Hse as (_ & Ha). apply (adopt_frame st st'); try done; [apply Hs|].
    apply Hk. intros d o. apply Hek.
Qed.

Lemma reachable_adopt st : reachable st -> adopt st.
Proof.
  induction 1 as [|opts st Hr IH|obs text body st Hr IH|obs tgt st Hr IH|obs pred st Hr IH
                  |fuel em v st w st' Hr IH He|fuel em v st e st' Hr IH He
                  |fuel st st' Hr IH Ht]; try pose proof (reachable_sound st Hr) as Hs.
  - apply adopt_init.
  - destruct (sound_create [] opts st Hs) as [_ Ha].
    apply (adopt_frame st _ (proj1 Hs) IH); [by apply ext_same|done|done].
  - destruct (sound_subscribe [] obs (LUser text body) st Hs I) as [_ Ha].
    apply (adopt_frame st _ (proj1 Hs) IH); [by apply ext_same|done|done].
  - destruct (sound_remove [] obs tgt st Hs) as [_ Ha].
    apply (adopt_frame st _ (proj1 Hs) IH); [by apply ext_same|done|done].
  - destruct (next obs pred st) as [p st'] eqn:E.
    destruct (sound_next [] obs pred st p st' Hs E) as [_ Ha].
    apply (adopt_frame st _ (proj1 Hs) IH); [|done|].
    + unfold next in E. simpl in E. injection E as <- <-.
      apply (ext_grow _ _ [ONext] []); [done|by rewrite app_nil_r|constructor|by repeat constructor].
    + intros q _ Hq. eapply calm_outcome; [eapply calm_next; exact E|done].
  - pose proof (adopt_emit [] fuel em v st Hs IH) as H. by rewrite He in H.
  - pose proof (adopt_emit [] fuel em v st Hs IH) as H. by rewrite He in H.
  - by eapply adopt_turn.
Qed.

(** A chain that was resolved with a promise, read with the facts of the
    state. *)
Lemma resolved_chain st d l ch a q :
  sound [] st -> adopt st -> chain st d l ch -> resolver st a q d ->
  (exists u, fulfilled st l u /\ emitted st ch u q) /\
  (forall a' q', resolver st a' q' d -> a' = a /\ q' = q) /\
  (settled st d -> outcome st d = outcome st q) /\
  (quiescent st -> outcome st d = outcome st q).
Proof.
  intros Hs Had Hd Hres.
  assert (Hc : is_chain st d) by (exists l, ch; apply Hd).
  destruct (adopt_resolver _ Had a q d Hres Hc) as (Hlt & _ & Hu & Hp & Hset).
  destruct (orig_outcome _ _ _ (proj1 Hs) Hres) as [ya Hya].
  split_and!.
  - pose proof (inv_shape _ (proj1 Hs) _ _ _ _ Hres) as Hsh.
    apply shape_resolve_inv in Hsh as [Hrs _]. unfold resolves in Hrs.
    by rewrite (proj1 Hd) in Hrs.
  - intros a' q' Hr'. pose proof (Hu a' q' Hr') as ->. split; [done|].
    unfold resolver in *. congruence.
  - intros [y Hy]. destruct ya as [z|]; [apply Hset; by exists z|].
    rewrite (Hp Hya) in Hy. discriminate.
  - intros Hq. destruct ya as [z|]; [apply Hset; by exists z|].
    rewrite (Hp Hya). symmetry.
    exact (resolver_at_rest st Hs Hq a q d _ Hres Hlt (Hp Hya)).
Qed.

(** * The theorems at concrete inputs *)


Lemma remove_absent_is_noop_witness :
  wf (two_listeners None fast slow) /\
  ((1 ∉ map target (table (two_listeners None fast slow) 0) ->
    remove 0 1 (two_listeners None fast slow) = two_listeners None fast slow) /\
   unlink 0 1 (unlink 0 1 (two_listeners None fast slow)) =
   unlink 0 1 (two_listeners None fast slow)).
Proof.
  split; [by_decide|]. apply remove_absent_is_noop. by_decide.
Defined.

Lemma child_emitters_have_no_timeout_witness :
  reachable (two_listeners (Some 10) fast slow) /\
  (forall em s, s ∈ table (two_listeners (Some 10) fast slow) em ->
     opts_emitTimeout (two_listeners (Some 10) fast slow) (target s) = None).
Proof.
  assert (H : reachable (two_listeners (Some 10) fast slow)).
  { unfold two_listeners, fast, slow, delay_listener.
    apply reach_subscribe, reach_subscribe, reach_create, reach_init. }
  split; [exact H|]. apply (child_emitters_have_no_timeout _ H).
Defined.


(** In that scene the fourth entry is removed before its turn: the entries
    called are the first, second, third and fifth, and the second is no
    longer registered afterwards. *)
Example removal_scene_calls :
  exists w st',
    emit 6 0 (VNum 7) removal_scene = Normal w st' /\
    invoked st' = [(1, VNum 7); (2, VNum 7); (3, VNum 7); (5, VNum 7)] /\
    map target (table st' 0) = [1; 3; 5].
Proof. eexists _, _. split; [vm_compute; reflexivity|]. by vm_compute. Qed.


(** The entry that [adder] subscribes gets the child 3 and is called in the
    same emission, after the two entries that were there. *)
Example adder_scene_calls :
  exists w st',
    emit 6 0 (VNum 7) (two_listeners None adder fast) = Normal w st' /\
    invoked st' = [(1, VNum 7); (2, VNum 7); (3, VNum 7)] /\
    map target (table st' 0) = [1; 2; 3].
Proof. eexists _, _. split; [vm_compute; reflexivity|]. by vm_compute. Qed.

Lemma emit_raises_listener_throw_witness :
  wf (two_listeners None fast thrower) /\
  table (two_listeners None fast thrower) 0 =
    [mkSubscription 1 fast] ++ mkSubscription 2 thrower :: [] /\
  Forall (fun x => listener_idle 0 (VNum 0) (listener x)) [mkSubscription 1 fast] /\
  1 < 5 /\
  (exists st', emit 5 0 (VNum 0) (two_listeners None fast thrower) =
                 Raise (VError "boom") st' /\
     invoked st' = invoked (two_listeners None fast thrower) ++
       map (fun x => (target x, VNum 0)) ([mkSubscription 1 fast] ++ [mkSubscription 2 thrower])).
Proof.
  assert (Hwf : wf (two_listeners None fast thrower)) by by_decide.
  assert (Hidle : Forall (fun x => listener_idle 0 (VNum 0) (listener x))
                    [mkSubscription 1 fast]) by (repeat constructor).
  split_and!; [exact Hwf|reflexivity|exact Hidle|lia|].
  refine (proj1 (emit_raises_listener_throw (two_listeners None fast thrower) 0 (VNum 0)
            (VError "boom") [mkSubscription 1 fast] [] (mkSubscription 2 thrower)
            _ _ 5 Hwf eq_refl Hidle eq_refl eq_refl _)).
  simpl. lia.
Defined.

(** [next(v => v === 2)] while 1, 2 and 3 are emitted: pending after 1,
    fulfilled with 2 and unsubscribed after 2, unchanged by 3. *)
Example next_scene :
  exists p st1 w1 st2 w2 st3 w3 st4,
    next 0 (Some (is_num 2)) (two_listeners None fast slow) = (p, st1) /\
    emit 6 0 (VNum 1) st1 = Normal w1 st2 /\
    emit 6 0 (VNum 2) st2 = Normal w2 st3 /\
    emit 6 0 (VNum 3) st3 = Normal w3 st4 /\
    outcome st2 p = Some None /\ map target (table st2 0) = [1; 2; 3] /\
    pstate st3 p = Some (Fulfilled (VNum 2)) /\ map target (table st3 0) = [1; 2] /\
    pstate st4 p = Some (Fulfilled (VNum 2)) /\ map target (table st4 0) = [1; 2].
Proof.
  eexists _, _, _, _, _, _, _, _.
  split; [vm_compute; reflexivity|]. split; [vm_compute; reflexivity|].
  split; [vm_compute; reflexivity|]. split; [vm_compute; reflexivity|].
  by vm_compute.
Qed.

Lemma waitAll_settles_witness :
  let st := (new_promise (Pending []) OPlain (new_promise (Pending []) OPlain init).2).2 in
  Forall (fun q => q < length (promises st)) [0; 1] /\
  exists r st1,
    waitAll [0; 1] st = (r, st1) /\
    outcome st1 r = Some None /\
    outcome (foldl (fun s o => waitAll_callback (length (counters st)) r o s) st1
               [(false, VNum 1); (true, VError "boom")]) r =
      Some (Some (true, VError "boom")).
Proof.
  intros st.
  assert (H : Forall (fun q => q < length (promises st)) [0; 1]).
  { repeat constructor; vm_compute; lia. }
  split; [exact H|].
  destruct (waitAll_settles st [0; 1] H) as (r & st1 & E & _ & Hne).
  destruct (Hne ltac:(discriminate)) as (Hp & _ & Hos).
  exists r, st1. split_and!; [exact E|exact Hp|].
  exact (Hos [(false, VNum 1); (true, VError "boom")] ltac:(simpl; lia)).
Defined.

(** * How an emission settles *)

(** X1. (index.ts, emit and the closure built by subscribe; helpers.ts,
    waitAll).  Once [emit(v)] has returned the promise [w], in every later
    state in which [w] is fulfilled the whole first level of the tree is
    done: the call is recorded with the array [rs] of the promises it
    pushed, and for the entry of each listener that the call invoked
    ([tgts] are their targets, in call order) the promise that [emit]
    pushed for it is fulfilled, the result [l] of the listener was
    fulfilled with some [u], the child emitter of the entry was made to
    emit [u], and the promise [w'] that this call of the child returned is
    fulfilled as well.  The call of the child is again a returned call of
    [emit], so the statement applies to it in turn. *)
Theorem emit_success_covers_children st fuel em v w st1 st2 y :
  reachable st -> emit fuel em v st = Normal w st1 -> reaches st1 st2 ->
  fulfilled st2 w y ->
  exists rs tgts,
    mkEmitCall em v rs w ∈ emits st1 /\ mkEmitCall em v rs w ∈ emits st2 /\
    invoked st1 = invoked st ++ map (fun tg => (tg, v)) tgts /\
    Forall2 (fun c tg => exists d l u w' z,
               chain st2 d l tg /\ (c = d \/ exists r t a, timed st2 c r t d a) /\
               fulfilled st2 c z /\ fulfilled st2 l u /\
               emitted st2 tg u w' /\ fulfilled st2 w' z) rs tgts.
Proof.
  intros Hr He Hre Hy. pose proof (reachable_sound st Hr) as Hs.
  pose proof (sound_emit [] fuel em v st Hs) as H. rewrite He in H.
  destruct H as (Hs1 & Ha1 & _ & _ & rs & tgts & Hrec & Hinvk & Hf2).
  destruct (reaches_sound st1 st2 Hs1 Hre) as [Hs2 Ha2].
  assert (Hrec2 : mkEmitCall em v rs w ∈ emits st2) by by apply Ha2.
  exists rs, tgts. split; [done|]. split; [done|]. split; [done|].
  assert (Hall : Forall (fun c => exists z, fulfilled st2 c z) rs).
  { apply Forall_forall. intros c Hc.
    exact (emit_call_fulfilled st2 Hs2 _ Hrec2 y c Hy Hc). }
  eapply Forall2_impl; [exact (Forall2_and_l _ _ _ _ Hf2 Hall)|].
  intros c tg [Hcon [z Hz]]. simpl in Hcon.
  apply (contributes_adv st1 st2 tg c Ha2) in Hcon. destruct Hcon as (d & l & Hd & Hor).
  assert (Hdz : fulfilled st2 d z).
  { destruct Hor as [->|(r & t & a & Ht)]; [done|].
    exact (timed_fulfilled st2 Hs2 c r t d a Ht z Hz). }
  destruct (chain_fulfilled st2 Hs2 d l tg Hd z Hdz) as (u & w' & Hl & Hemit & Hw').
  by exists d, l, u, w', z.
Qed.

Lemma emit_success_covers_children_witness :
  exists w st1 st2,
    reachable (two_listeners None fast slow) /\
    emit 16 0 (VNum 0) (two_listeners None fast slow) = Normal w st1 /\
    reaches st1 st2 /\ fulfilled st2 w VUndefined /\
    exists rs tgts,
      mkEmitCall 0 (VNum 0) rs w ∈ emits st1 /\ mkEmitCall 0 (VNum 0) rs w ∈ emits st2 /\
      invoked st1 = invoked (two_listeners None fast slow) ++
                    map (fun tg => (tg, VNum 0)) tgts /\
      Forall2 (fun c tg => exists d l u w' z,
                 chain st2 d l tg /\ (c = d \/ exists r t a, timed st2 c r t d a) /\
                 fulfilled st2 c z /\ fulfilled st2 l u /\
                 emitted st2 tg u w' /\ fulfilled st2 w' z) rs tgts.
Proof.
  assert (Hr : reachable (two_listeners None fast slow)) by apply two_listeners_reachable.
  destruct (emit_and_run 0 (VNum 0) (two_listeners None fast slow)) as [[w st2]|] eqn:E;
    [|by vm_compute in E].
  destruct (emit_and_run_reaches _ _ _ _ _ E) as (st1 & He & Hre).
  assert (Hy : fulfilled st2 w VUndefined).
  { vm_compute in E. injection E as <- <-. reflexivity. }
  exists w, st1, st2. split_and!; [exact Hr|exact He|exact Hre|exact Hy|].
  exact (emit_success_covers_children _ 16 0 (VNum 0) w st1 st2 VUndefined Hr He Hre Hy).
Defined.

(** X2. (helpers.ts, waitAll; index.ts, emit).  In every reachable state,
    when the promise of a returned call of [emit] is rejected with [e], one
    of the promises that the call pushed to [results] is rejected with the
    same [e]: [emit] fails only with a failure of one of its entries. *)
Theorem emit_rejection_comes_from_a_result st ec e :
  reachable st -> ec ∈ emits st -> failed st (ec_promise ec) e ->
  exists c, c ∈ ec_results ec /\ failed st c e.
Proof.
  intros Hr Hec He. exact (emit_call_failed st (reachable_sound st Hr) ec Hec e He).
Qed.

Lemma emit_rejection_comes_from_a_result_witness :
  exists w st,
    emit_and_run 0 (VNum 0) (two_listeners None fast failing) = Some (w, st) /\
    reachable st /\ mkEmitCall 0 (VNum 0) [2; 5] w ∈ emits st /\
    failed st w (VError "boom") /\
    exists c, c ∈ [2; 5] /\ failed st c (VError "boom").
Proof.
  destruct (emit_and_run 0 (VNum 0) (two_listeners None fast failing)) as [[w st]|] eqn:E;
    [|by vm_compute in E].
  assert (Hr : reachable st).
  { eapply emit_and_run_reachable; [|exact E]. apply two_listeners_reachable. }
  assert (Hec : mkEmitCall 0 (VNum 0) [2; 5] w ∈ emits st).
  { vm_compute in E. injection E as <- <-. left. }
  assert (He : failed st w (VError "boom")).
  { vm_compute in E. injection E as <- <-. reflexivity. }
  exists w, st. split_and!; [reflexivity|exact Hr|exact Hec|exact He|].
  exact (emit_rejection_comes_from_a_result st _ (VError "boom") Hr Hec He).
Defined.

(** X3. (helpers.ts, waitAll; index.ts, emit).  In a reachable state with no
    queued microtask, the promise of a returned call of [emit] has followed
    its entries: it is fulfilled when all the promises pushed to [results]
    are fulfilled, it is rejected when one of them is rejected, and when it
    is still pending one of them is still pending. *)
Theorem emit_promise_at_rest st ec :
  reachable st -> quiescent st -> ec ∈ emits st ->
  (Forall (fun c => exists y, fulfilled st c y) (ec_results ec) ->
   exists v, fulfilled st (ec_promise ec) v) /\
  (forall c e, c ∈ ec_results ec -> failed st c e ->
     exists e', failed st (ec_promise ec) e') /\
  (pending st (ec_promise ec) -> exists c, c ∈ ec_results ec /\ pending st c).
Proof.
  intros Hr Hq Hec. pose proof (reachable_sound st Hr) as Hs.
  pose proof (reachable_zeroed st Hr) as Hz. split_and!.
  - exact (emit_call_succeeds st Hs Hz Hq ec Hec).
  - intros c e Hc He. exact (emit_call_fails st Hs ec Hec c e Hq Hc He).
  - exact (emit_call_pending st Hs Hz Hq ec Hec).
Qed.

Lemma emit_promise_at_rest_witness :
  exists w st,
    emit 16 0 (VNum 0) (two_listeners None fast slow) = Normal w st /\
    reachable st /\ quiescent st /\ mkEmitCall 0 (VNum 0) [2; 5] w ∈ emits st /\
    (Forall (fun c => exists y, fulfilled st c y) [2; 5] -> exists v, fulfilled st w v) /\
    (forall c e, c ∈ [2; 5] -> failed st c e -> exists e', failed st w e') /\
    (pending st w -> exists c, c ∈ [2; 5] /\ pending st c).
Proof.
  destruct (emit 16 0 (VNum 0) (two_listeners None fast slow)) as [w st| |] eqn:E;
    [|by vm_compute in E..].
  assert (Hr : reachable st).
  { eapply reach_emit; [|exact E]. apply two_listeners_reachable. }
  assert (Hq : quiescent st).
  { vm_compute in E. injection E as <- <-. reflexivity. }
  assert (Hec : mkEmitCall 0 (VNum 0) [2; 5] w ∈ emits st).
  { vm_compute in E. injection E as <- <-. left. }
  exists w, st. split_and!; [reflexivity|exact Hr|exact Hq|exact Hec|..];
    apply (emit_promise_at_rest st _ Hr Hq Hec).
Defined.

(** * The promises of one entry *)

(** X4. (index.ts, the closure [item => Promise.resolve(listener(item)).then(emitter.emit)]
    built by subscribe).  In every reachable state, when the result [l] of
    a listener is rejected with [e], the forward chain [d = l.then(child.emit)]
    is never fulfilled and never rejected with another value: it can only
    be rejected with [e]; and it is rejected with [e] as soon as no
    microtask is queued. *)
Theorem failed_listener_fails_its_chain st d l ch e :
  reachable st -> chain st d l ch -> failed st l e ->
  (forall y, outcome st d = Some (Some y) -> y = (true, e)) /\
  (quiescent st -> failed st d e).
Proof.
  intros Hr Hd He. pose proof (reachable_sound st Hr) as Hs. split.
  - intros y Hy. exact (chain_of_failed_listener st Hs d l ch Hd e y He Hy).
  - intros Hq. exact (chain_fails st Hs d l ch Hd e Hq He).
Qed.

Lemma failed_listener_fails_its_chain_witness :
  exists w st,
    emit_and_run 0 (VNum 0) (two_listeners None fast failing) = Some (w, st) /\
    reachable st /\ chain st 5 4 2 /\ failed st 4 (VError "boom") /\
    (forall y, outcome st 5 = Some (Some y) -> y = (true, VError "boom")) /\
    (quiescent st -> failed st 5 (VError "boom")).
Proof.
  destruct (emit_and_run 0 (VNum 0) (two_listeners None fast failing)) as [[w st]|] eqn:E;
    [|by vm_compute in E].
  assert (Hr : reachable st).
  { eapply emit_and_run_reachable; [|exact E]. apply two_listeners_reachable. }
  assert (Hd : chain st 5 4 2).
  { vm_compute in E. injection E as <- <-. split; [reflexivity|]. lia. }
  assert (He : failed st 4 (VError "boom")).
  { vm_compute in E. injection E as <- <-. reflexivity. }
  exists w, st. split_and!; [reflexivity|exact Hr|exact Hd|exact He|..];
    apply (failed_listener_fails_its_chain st 5 4 2 (VError "boom") Hr Hd He).
Defined.

(** X5. (index.ts, the closure built by subscribe).  In a reachable state
    with no queued microtask, a forward chain [d = l.then(child.emit)] that
    is still pending has a reason: the result [l] of the listener is still
    pending, or it was fulfilled with some [u], the child was made to emit
    [u] and the promise of that call of the child is still pending. *)
Theorem pending_chain_waits st d l ch :
  reachable st -> quiescent st -> chain st d l ch -> pending st d ->
  pending st l \/
  exists u w, fulfilled st l u /\ emitted st ch u w /\ pending st w.
Proof.
  intros Hr Hq Hd Hp. exact (chain_pending st (reachable_sound st Hr) d l ch Hd Hq Hp).
Qed.

Lemma pending_chain_waits_witness :
  exists w st,
    emit 16 0 (VNum 0) (two_listeners None fast slow) = Normal w st /\
    reachable st /\ quiescent st /\ chain st 2 1 1 /\ pending st 2 /\
    (pending st 1 \/
     exists u w', fulfilled st 1 u /\ emitted st 1 u w' /\ pending st w').
Proof.
  destruct (emit 16 0 (VNum 0) (two_listeners None fast slow)) as [w st| |] eqn:E;
    [|by vm_compute in E..].
  assert (Hr : reachable st).
  { eapply reach_emit; [|exact E]. apply two_listeners_reachable. }
  assert (Hq : quiescent st).
  { vm_compute in E. injection E as <- <-. reflexivity. }
  assert (Hd : chain st 2 1 1).
  { vm_compute in E. injection E as <- <-. split; [reflexivity|]. lia. }
  assert (Hp : pending st 2).
  { vm_compute in E. injection E as <- <-. reflexivity. }
  exists w, st. split_and!; [reflexivity|exact Hr|exact Hq|exact Hd|exact Hp|].
  exact (pending_chain_waits st 2 1 1 Hr Hq Hd Hp).
Defined.

(** X6. (index.ts, timeout and the catch callback of emit).  With
    [emitTimeout], [emit] pushes for an entry the catch [c] of the race [r]
    of a timer promise [t] with the forward chain [d].  In every reachable
    state: [t] is never fulfilled; [c] is fulfilled only with the value
    that [d] is fulfilled with; a rejection of [c] is the rejection of [t]
    or of [d], with [undefined] replaced by the TypeError that the callback
    throws on it.  When no microtask is queued, a rejected [d] has rejected
    [c], and a fulfilled [d] has fulfilled [c] with the same value unless
    the timer has fired and rejected [c]. *)
Theorem timed_result_follows_the_race st c r t d a :
  reachable st -> timed st c r t d a ->
  (forall v, ~ fulfilled st t v) /\
  (forall v, fulfilled st c v -> fulfilled st d v) /\
  (forall e, failed st c e ->
     exists e0, stamped e0 e /\ (failed st t e0 \/ failed st d e0)) /\
  (quiescent st -> forall e, failed st d e -> exists e', failed st c e') /\
  (quiescent st -> forall v, fulfilled st d v ->
     fulfilled st c v \/
     exists e0 e, failed st t e0 /\ failed st c e /\ stamped e0 e).
Proof.
  intros Hr Hc. pose proof (reachable_sound st Hr) as Hs. split_and!.
  - intros v Hv. destruct Hc as (_ & _ & _ & Ht & _).
    exact (inv_justified _ (proj1 Hs) _ _ Ht v Hv).
  - intros v. exact (timed_fulfilled st Hs c r t d a Hc v).
  - intros e. exact (timed_failed st Hs c r t d a Hc e).
  - intros Hq e. exact (timed_fails st Hs c r t d a Hc e Hq).
  - intros Hq v. exact (timed_succeeds st Hs Hq c r t d a Hc v).
Qed.

Lemma timed_result_follows_the_race_witness :
  exists w st,
    emit_and_run 0 (VNum 0) (two_listeners (Some 10) fast slow) = Some (w, st) /\
    reachable st /\ timed st 15 12 11 10 14 /\
    (forall v, ~ fulfilled st 11 v) /\
    (forall v, fulfilled st 15 v -> fulfilled st 10 v) /\
    (forall e, failed st 15 e ->
       exists e0, stamped e0 e /\ (failed st 11 e0 \/ failed st 10 e0)) /\
    (quiescent st -> forall e, failed st 10 e -> exists e', failed st 15 e') /\
    (quiescent st -> forall v, fulfilled st 10 v ->
       fulfilled st 15 v \/
       exists e0 e, failed st 11 e0 /\ failed st 15 e /\ stamped e0 e).
Proof.
  destruct (emit_and_run 0 (VNum 0) (two_listeners (Some 10) fast slow)) as [[w st]|] eqn:E;
    [|by vm_compute in E].
  assert (Hr : reachable st).
  { eapply emit_and_run_reachable; [|exact E]. apply two_listeners_reachable. }
  assert (Hc : timed st 15 12 11 10 14).
  { vm_compute in E. injection E as <- <-.
    split_and!; [by exists 0|lia|reflexivity|reflexivity|reflexivity|lia]. }
  exists w, st. split_and!; [reflexivity|exact Hr|exact Hc|..];
    apply (timed_result_follows_the_race st 15 12 11 10 14 Hr Hc).
Defined.

(** * What the calls leave behind *)

(** X7. (index.ts, emit).  A call of [emit(v)] that returns [w] has called
    listeners with [v] only, has pushed one promise per listener call, in
    call order, and the promise pushed for a call is the forward chain into
    the child of the called entry, or with [emitTimeout] the catch of its
    race with a timer.  The promise [w] is new to every earlier call; on
    return it is already fulfilled with [undefined] when no listener was
    called, and pending otherwise. *)
Theorem emit_pushes_one_result_per_call st fuel em v w st' :
  reachable st -> emit fuel em v st = Normal w st' ->
  exists rs tgts,
    emits st' = emits st ++ [mkEmitCall em v rs w] /\
    invoked st' = invoked st ++ map (fun tg => (tg, v)) tgts /\
    Forall2 (fun c tg => contributes st' tg c) rs tgts /\
    outcome st' w =
      (if decide (rs = []) then Some (Some (false, VUndefined)) else Some None).
Proof.
  intros Hr He. exact (sound_emit_last [] fuel em v st w st' (reachable_sound st Hr) He).
Qed.

Lemma emit_pushes_one_result_per_call_witness :
  exists w st',
    reachable (two_listeners (Some 10) fast slow) /\
    emit 16 0 (VNum 0) (two_listeners (Some 10) fast slow) = Normal w st' /\
    exists rs tgts,
      emits st' = emits (two_listeners (Some 10) fast slow) ++
                  [mkEmitCall 0 (VNum 0) rs w] /\
      invoked st' = invoked (two_listeners (Some 10) fast slow) ++
                    map (fun tg => (tg, VNum 0)) tgts /\
      Forall2 (fun c tg => contributes st' tg c) rs tgts /\
      outcome st' w =
        (if decide (rs = []) then Some (Some (false, VUndefined)) else Some None).
Proof.
  assert (Hr : reachable (two_listeners (Some 10) fast slow))
    by apply two_listeners_reachable.
  destruct (emit 16 0 (VNum 0) (two_listeners (Some 10) fast slow)) as [w st'| |] eqn:E;
    [|by vm_compute in E..].
  exists w, st'. split_and!; [exact Hr|reflexivity|].
  exact (emit_pushes_one_result_per_call _ 16 0 (VNum 0) w st' Hr E).
Defined.

(** X8. (index.ts, next).  The promise that [next] returns is never
    rejected, in any state that follows the call. *)
Theorem next_promise_never_rejects st obs pred st' e :
  reachable st -> reaches (next obs pred st).2 st' ->
  ~ failed st' (next obs pred st).1 e.
Proof.
  intros Hr Hre. pose proof (reachable_sound st Hr) as Hs.
  destruct (next obs pred st) as [p st1] eqn:En.
  destruct (sound_next [] obs pred st p st1 Hs En) as [Hs1 _].
  destruct (reaches_sound st1 st' Hs1 Hre) as [Hs' Ha].
  pose proof (next_orig st obs pred (proj1 Hs)) as Ho. rewrite En in Ho. simpl in *.
  apply Ha in Ho. exact (inv_justified _ (proj1 Hs') _ _ Ho e).
Qed.

Lemma next_promise_never_rejects_witness :
  exists w st',
    emit_and_run 0 (VNum 2) (next 0 (Some (is_num 2)) (two_listeners None fast failing)).2
      = Some (w, st') /\
    reachable (two_listeners None fast failing) /\
    reaches (next 0 (Some (is_num 2)) (two_listeners None fast failing)).2 st' /\
    failed st' w (VError "boom") /\
    ~ failed st' (next 0 (Some (is_num 2)) (two_listeners None fast failing)).1
        (VError "boom").
Proof.
  assert (Hr : reachable (two_listeners None fast failing))
    by apply two_listeners_reachable.
  destruct (emit_and_run 0 (VNum 2) _) as [[w st']|] eqn:E; [|by vm_compute in E].
  pose proof (emit_and_run_reaches_from _ _ _ _ _ E) as Hre.
  assert (Hw : failed st' w (VError "boom")).
  { vm_compute in E. injection E as <- <-. reflexivity. }
  exists w, st'. split_and!; [reflexivity|exact Hr|exact Hre|exact Hw|].
  exact (next_promise_never_rejects _ 0 (Some (is_num 2)) st' (VError "boom") Hr Hre).
Defined.

(** X9. (helpers.ts, waitAll).  In every reachable state the variable [n]
    of each [waitAll] call is the number of inputs minus the number of
    inputs whose callback [count] has run; it stays between zero and the
    number of inputs, and when it is zero the promise of the call is
    settled. *)
Theorem waitAll_counter_counts st w c :
  reachable st -> counters st !! w = Some c ->
  wa_n c = (Z.of_nat (length (wa_inputs c)) - Z.of_nat (ndone st w c))%Z /\
  (0 <= wa_n c <= Z.of_nat (length (wa_inputs c)))%Z /\
  (wa_n c = 0%Z -> settled st (wa_promise c)).
Proof.
  intros Hr Hw. pose proof (reachable_sound st Hr) as Hs.
  pose proof (proj1 (proj2 Hs) w c Hw) as Hn.
  assert (Hle : ndone st w c <= length (wa_inputs c)).
  { unfold ndone. etransitivity; [apply length_filter|]. by rewrite length_seq. }
  split_and!; [done|lia|lia|].
  intros H0. destruct (reachable_zeroed st Hr w c Hw) as [H|H]; [lia|done].
Qed.

Lemma waitAll_counter_counts_witness :
  exists w st c,
    emit_and_run 0 (VNum 0) (two_listeners None fast slow) = Some (w, st) /\
    reachable st /\ counters st !! 0 = Some c /\ wa_promise c = w /\
    (wa_n c = (Z.of_nat (length (wa_inputs c)) - Z.of_nat (ndone st 0 c))%Z /\
     (0 <= wa_n c <= Z.of_nat (length (wa_inputs c)))%Z /\
     (wa_n c = 0%Z -> settled st (wa_promise c))).
Proof.
  destruct (emit_and_run 0 (VNum 0) (two_listeners None fast slow)) as [[w st]|] eqn:E;
    [|by vm_compute in E].
  assert (Hr : reachable st).
  { eapply emit_and_run_reachable; [|exact E]. apply two_listeners_reachable. }
  assert (Hc : counters st !! 0 = Some (mkWaitAll 0 [2; 5] w)).
  { vm_compute in E. injection E as <- <-. reflexivity. }
  exists w, st, (mkWaitAll 0 [2; 5] w).
  split; [reflexivity|]. split; [exact Hr|]. split; [exact Hc|]. split; [reflexivity|].
  exact (waitAll_counter_counts st 0 _ Hr Hc).
Defined.

(** X10. (index.ts, class TimeoutError and the catch callback of emit).
    The field [timedoutListener] of a [TimeoutError] is written at most
    once: when it holds a text other than ['<unknown>'], it holds the same
    text in every later state, whatever calls of [emit] see the error
    afterwards. *)
Theorem timeout_error_name_is_final st st' r s :
  reaches st st' -> terrs st !! r = Some s -> s <> unknown_listener ->
  terrs st' !! r = Some s.
Proof.
  intros Hre Hs Hne. exact (proj1 (reaches_named st st' r s Hre (conj Hs Hne))).
Qed.

Lemma timeout_error_name_is_final_witness :
  exists w st w' st',
    emit_and_run 0 (VNum 0) (two_listeners (Some 10) fast slow) = Some (w, st) /\
    emit_and_run 0 (VNum 1) st = Some (w', st') /\
    reaches st st' /\
    terrs st !! 1 = Some "function slow() { return delay(50); }"%string /\
    "function slow() { return delay(50); }"%string <> unknown_listener /\
    terrs st' !! 1 = Some "function slow() { return delay(50); }"%string.
Proof.
  destruct (emit_and_run 0 (VNum 0) (two_listeners (Some 10) fast slow)) as [[w st]|] eqn:E;
    [|by vm_compute in E].
  destruct (emit_and_run 0 (VNum 1) st) as [[w' st']|] eqn:E'.
  2: { vm_compute in E. injection E as <- <-. by vm_compute in E'. }
  pose proof (emit_and_run_reaches_from _ _ _ _ _ E') as Hre.
  assert (Hs : terrs st !! 1 = Some "function slow() { return delay(50); }"%string).
  { vm_compute in E. injection E as <- <-. reflexivity. }
  assert (Hne : "function slow() { return delay(50); }"%string <> unknown_listener)
    by discriminate.
  exists w, st, w', st'. split_and!; [reflexivity|exact E'|exact Hre|exact Hs|exact Hne|].
  exact (timeout_error_name_is_final st st' 1 _ Hre Hs Hne).
Defined.

(** * The subscription tables *)

(** X11. (index.ts, subscribe and remove).  In every reachable state the
    entries of one table have pairwise different targets, and every target
    is an emitter that exists: [subscribe] makes a new child for each
    entry, so the first match that [remove] looks for is the only one. *)
Theorem tables_have_distinct_targets st em :
  reachable st ->
  NoDup (map target (table st em)) /\
  forall s, s ∈ table st em -> target s < length (emitters st).
Proof.
  intros Hr. destruct (wf_table st em (reachable_wf st Hr)) as [Hnd Hall].
  split; [done|]. intros s Hs. apply (wf_entry_lt (emitters st)).
  by apply (proj1 (Forall_forall _ _) Hall).
Qed.

Lemma tables_have_distinct_targets_witness :
  reachable removal_scene /\
  NoDup (map target (table removal_scene 0)) /\
  forall s, s ∈ table removal_scene 0 -> target s < length (emitters removal_scene).
Proof.
  assert (Hr : reachable removal_scene).
  { unfold removal_scene, remover, fast, slow, delay_listener.
    do 5 apply reach_subscribe. apply reach_create, reach_init. }
  split; [exact Hr|]. exact (tables_have_distinct_targets removal_scene 0 Hr).
Defined.

(** X12. (index.ts, remove).  In every reachable state [remove(target)]
    deletes from the table of its emitter the entry with that target and
    no other: the other entries stay, in their order; the tables of the
    other emitters, the options, the promises, the queued jobs and the
    timers are left as they are. *)
Theorem remove_deletes_exactly_that_entry st obs tgt :
  reachable st ->
  table (remove obs tgt st) obs = filter (fun s => target s <> tgt) (table st obs) /\
  (forall em, em <> obs -> table (remove obs tgt st) em = table st em) /\
  (forall em, opts_emitTimeout (remove obs tgt st) em = opts_emitTimeout st em) /\
  promises (remove obs tgt st) = promises st /\
  microtasks (remove obs tgt st) = microtasks st /\
  timers (remove obs tgt st) = timers st.
Proof.
  intros Hr. destruct (wf_table st obs (reachable_wf st Hr)) as [Hnd _]. split_and!.
  - rewrite table_remove, decide_True by done. by apply remove_entry_filter.
  - intros em Hne. by apply table_remove_ne.
  - intros em. apply opts_set_table.
  - done.
  - done.
  - done.
Qed.

Lemma remove_deletes_exactly_that_entry_witness :
  reachable removal_scene /\
  table (remove 0 3 removal_scene) 0 =
    filter (fun s => target s <> 3) (table removal_scene 0) /\
  (forall em, em <> 0 -> table (remove 0 3 removal_scene) em = table removal_scene em) /\
  (forall em, opts_emitTimeout (remove 0 3 removal_scene) em =
              opts_emitTimeout removal_scene em) /\
  promises (remove 0 3 removal_scene) = promises removal_scene /\
  microtasks (remove 0 3 removal_scene) = microtasks removal_scene /\
  timers (remove 0 3 removal_scene) = timers removal_scene.
Proof.
  assert (Hr : reachable removal_scene).
  { unfold removal_scene, remover, fast, slow, delay_listener.
    do 5 apply reach_subscribe. apply reach_create, reach_init. }
  split; [exact Hr|]. exact (remove_deletes_exactly_that_entry removal_scene 0 3 Hr).
Defined.

(** X13. (index.ts, subscribe and unlink).  In every reachable state,
    [subscribe(listener)] on an existing emitter appends one entry whose
    target is a new emitter with an empty table, and [unlink] of what it
    returned gives back the table as it was before. *)
Theorem subscribe_then_unlink_restores st obs l :
  reachable st -> obs < length (emitters st) ->
  let sub := (subscribe obs l st).1 in
  let st1 := (subscribe obs l st).2 in
  sub = length (emitters st) /\
  table st1 obs = table st obs ++ [mkSubscription sub l] /\
  table st1 sub = [] /\
  table (unlink obs sub st1) obs = table st obs.
Proof.
  intros Hr Hlt sub st1. pose proof (reachable_wf st Hr) as Hwf.
  assert (E : subscribe obs l st = (sub, st1)) by (unfold sub, st1; by destruct (subscribe _ _ _)).
  destruct (table_subscribe_eq obs l st sub st1 E Hlt) as [Hsub Htab].
  pose proof (wf_subscribe obs l st sub st1 E Hwf) as Hwf1.
  split_and!; [done|done| |].
  - rewrite (table_subscribe_ne obs l st sub st1 sub E) by lia.
    unfold table. by rewrite lookup_ge_None_2 by lia.
  - unfold unlink. rewrite table_remove_eq by done. rewrite Htab.
    unfold without. rewrite filter_app.
    rewrite filter_cons_False, filter_nil, app_nil_r
      by (simpl; intros H; apply H; by apply list_elem_of_singleton).
    apply filter_all. intros s Hs Hin. apply list_elem_of_singleton in Hin.
    destruct (wf_table st obs Hwf) as [_ Hall].
    pose proof (wf_entry_lt _ _ (proj1 (Forall_forall _ _) Hall s Hs)). lia.
Qed.

Lemma subscribe_then_unlink_restores_witness :
  reachable (two_listeners None fast slow) /\
  0 < length (emitters (two_listeners None fast slow)) /\
  (subscribe 0 failing (two_listeners None fast slow)).1 = 3 /\
  table (subscribe 0 failing (two_listeners None fast slow)).2 0 =
    table (two_listeners None fast slow) 0 ++
    [mkSubscription (subscribe 0 failing (two_listeners None fast slow)).1 failing] /\
  table (subscribe 0 failing (two_listeners None fast slow)).2
    (subscribe 0 failing (two_listeners None fast slow)).1 = [] /\
  table (unlink 0 (subscribe 0 failing (two_listeners None fast slow)).1
           (subscribe 0 failing (two_listeners None fast slow)).2) 0 =
    table (two_listeners None fast slow) 0.
Proof.
  assert (Hr : reachable (two_listeners None fast slow)) by apply two_listeners_reachable.
  assert (Hlt : 0 < length (emitters (two_listeners None fast slow))) by (vm_compute; lia).
  split; [exact Hr|]. split; [exact Hlt|].
  exact (subscribe_then_unlink_restores (two_listeners None fast slow) 0 failing Hr Hlt).
Defined.

(** X14. (index.ts, emit; helpers.ts, waitAll on an empty array).  On an
    emitter without subscriptions [emit] calls nobody and returns at once
    a new promise that is already fulfilled with [undefined]; it queues no
    job and sets no timer. *)
Theorem emit_without_listeners fuel em v st :
  table st em = [] ->
  exists st',
    emit (S fuel) em v st = Normal (length (promises st)) st' /\
    fulfilled st' (length (promises st)) VUndefined /\
    emits st' = emits st ++ [mkEmitCall em v [] (length (promises st))] /\
    invoked st' = invoked st /\ emitters st' = emitters st /\
    microtasks st' = microtasks st /\ timers st' = timers st.
Proof.
  intros Ht. unfold emit. rewrite emit_loop_end.
  2: { change (table st em !! 0 = None). by rewrite Ht. }
  unfold waitAll. simpl. eexists. split; [reflexivity|]. split_and!; try done.
  unfold fulfilled, outcome, pstate. simpl. by rewrite lookup_app_r, Nat.sub_diag.
Qed.

Lemma emit_without_listeners_witness :
  table (create None init).2 0 = [] /\
  exists st',
    emit 1 0 (VNum 7) (create None init).2 = Normal 0 st' /\
    fulfilled st' 0 VUndefined /\
    emits st' = emits (create None init).2 ++ [mkEmitCall 0 (VNum 7) [] 0] /\
    invoked st' = invoked (create None init).2 /\
    emitters st' = emitters (create None init).2 /\
    microtasks st' = microtasks (create None init).2 /\
    timers st' = timers (create None init).2.
Proof.
  split; [reflexivity|].
  exact (emit_without_listeners 0 0 (VNum 7) (create None init).2 eq_refl).
Defined.

(** * helpers.ts: composePromise *)

(** X15. (helpers.ts, composePromise).  When [f2(x)] returns a promise [p],
    [comp(x)] returns a promise [d] without calling [f1], and in every
    later state: [d] is settled only if [p] is; when the job of [d] is the
    next microtask, [p] is settled, and the turn that runs the job rejects
    [d] with the failure of [p] without calling [f1], or calls [f1] with
    the value of [p] and gives [d] its result (fulfilled with the value
    returned, rejected with the exception thrown, or resolved with the
    promise returned); and when no microtask is queued and [d] is pending,
    either [p] is pending or [f1] has returned a promise that is pending. *)
Theorem composePromise_follows_the_promise st f1 f2 x p st1 st3 fuel :
  reachable st -> run_script (f2 x) st = (RetP p, st1) ->
  reaches (composePromise f1 f2 x st).2 st3 ->
  exists d,
    (composePromise f1 f2 x st).1 = RetP d /\
    (settled st3 d -> settled st3 p) /\
    (forall h b y js, microtasks st3 = JReact h b y d :: js ->
       outcome st3 p = Some (Some (b, y)) /\
       exists c st' st4,
         turn fuel st3 = Next st4 /\ st4 = resolve_with d c st' /\
         (if b then c = Threw y /\ st' = set_microtasks (fun _ => js) st3
          else run_script (f1 y) (set_microtasks (fun _ => js) st3) = (c, st')) /\
         match c with
         | RetV v => fulfilled st4 d v
         | Threw e => failed st4 d e
         | RetP q => pending st4 d /\ JThenable d q ∈ microtasks st4
         end) /\
    (quiescent st3 -> pending st3 d ->
       pending st3 p \/
       exists a q, orig st3 a = Some (OThen q (Some (HResolveFn d)) (Some (HRejectFn d))) /\
         settled st3 p /\ pending st3 q).
Proof.
  intros Hr Hf2 Hre. pose proof (reachable_sound st Hr) as Hs.
  destruct (sound_run_script [] _ _ _ _ Hs Hf2) as (Hs1 & Ha1 & Hp).
  specialize (Hp p eq_refl).
  unfold composePromise in *. rewrite Hf2 in *.
  destruct (then_ p (Some (HScript f1)) None st1) as [d st2] eqn:Et. simpl in *.
  destruct (sound_then [] st1 p (Some (HScript f1)) None d st2 Hs1) as
    (Hs2 & Ha2 & -> & Ho2 & Hd2); [constructor|done|done|].
  destruct (reaches_sound st2 st3 Hs2 Hre) as [Hs3 Ha3].
  assert (Ho3 : orig st3 (length (promises st1)) = Some (OThen p (Some (HScript f1)) None))
    by (by apply Ha3).
  exists (length (promises st1)). split; [done|]. split_and!.
  - exact (proj1 (inv_justified _ (proj1 Hs3) _ _ Ho3)).
  - intros h b y js Hm.
    destruct (inv_jobs _ (proj1 Hs3) h b y (length (promises st1))) as
      (q & f & g & Ho & -> & Hq & Hpd); [rewrite Hm; left|].
    rewrite Ho3 in Ho. injection Ho as <- <- <-. split; [done|].
    assert (Hpd' : outcome (set_microtasks (fun _ => js) st3) (length (promises st1)) = Some None)
      by done.
    destruct b.
    + exists (Threw y), (set_microtasks (fun _ => js) st3), 
        (resolve_with (length (promises st1)) (Threw y) (set_microtasks (fun _ => js) st3)).
      split_and!; [by apply (turn_job_next fuel _ js st3 _ Hm)|done|done|done|].
      by apply outcome_settle_pending.
    + destruct (run_script (f1 y) (set_microtasks (fun _ => js) st3)) as [c st'] eqn:Er.
      exists c, st', (resolve_with (length (promises st1)) c st').
      split_and!; [|done|done|].
      { apply (turn_job_next fuel _ js st3 _ Hm). unfold run_job, run_handler. by rewrite Er. }
      assert (Hp3 : outcome st' (length (promises st1)) = Some None).
      { pose proof (calm_run_script (f1 y) (set_microtasks (fun _ => js) st3)) as Hc.
        rewrite Er in Hc. eapply calm_outcome; [exact Hc|exact Hpd']. }
      destruct c as [v|q|e]; simpl.
      * by apply outcome_settle_pending.
      * split; [done|]. apply elem_of_app. right. by apply list_elem_of_singleton.
      * by apply outcome_settle_pending.
  - intros Hq Hpend.
    destruct (pending_at_rest st3 Hs3 Hq _ p _ _ Ho3 Hp Hpend) as [H|(a & q & Ha & Hlt & Hres)];
      [by left|right].
    exists a, q. split_and!; [done| |].
    + unfold resolves in Hres. by rewrite Ho3 in Hres.
    + exact (resolver_at_rest st3 Hs3 Hq a q _ _ Ha Hlt Hpend).
Qed.

Lemma composePromise_follows_the_promise_witness :
  reachable init /\
  run_script ((fun _ => SReject (VError "boom")) VUndefined) init
    = (RetP 0, (new_promise (Rejected (VError "boom")) OPlain init).2) /\
  reaches (composePromise (fun v => SReturn v) (fun _ => SReject (VError "boom"))
             VUndefined init).2
    (composePromise (fun v => SReturn v) (fun _ => SReject (VError "boom"))
             VUndefined init).2 /\
  microtasks (composePromise (fun v => SReturn v) (fun _ => SReject (VError "boom"))
             VUndefined init).2 = [JReact None true (VError "boom") 1] /\
  exists st4,
    turn 1 (composePromise (fun v => SReturn v) (fun _ => SReject (VError "boom"))
              VUndefined init).2 = Next st4 /\
    failed st4 1 (VError "boom").
Proof.
  split; [apply reach_init|]. split; [reflexivity|]. split; [apply reaches_refl|].
  split; [reflexivity|].
  destruct (composePromise_follows_the_promise init (fun v => SReturn v)
              (fun _ => SReject (VError "boom")) VUndefined 0 _ _ 1
              reach_init eq_refl (reaches_refl _)) as (d & Hd & _ & Hjob & _).
  injection Hd as <-.
  destruct (Hjob None true (VError "boom") [] eq_refl) as (_ & c & st' & st4 & Ht & _ & [-> _] & Hc).
  by exists st4.
Defined.

(** * The turn that forwards a result to the child *)

(** X16. (index.ts, the closure [item => Promise.resolve(listener(item)).then(emitter.emit)]
    built by subscribe.)  In every reachable state, when the next microtask
    is the job of a forward chain [d = l.then(child.emit)], the result [l]
    of the listener is settled and [d] is pending, and the turn does this:
    if [l] is rejected with [y], [d] is rejected with [y] and the child is
    not made to emit (no listener is called, no call of [emit] is
    recorded); if [l] is fulfilled with [y], the child is made to emit [y]:
    when that call returns a promise [w], [d] stays pending and is resolved
    with [w], and when it throws [e] (a listener of the child threw), [d]
    is rejected with [e]. *)
Theorem chain_job_forwards_to_the_child st d l ch h b y js fuel :
  reachable st -> chain st d l ch -> microtasks st = JReact h b y d :: js ->
  let st0 := set_microtasks (fun _ => js) st in
  outcome st l = Some (Some (b, y)) /\ pending st d /\
  if b then
    turn fuel st = Next (settle d true y st0) /\
    failed (settle d true y st0) d y /\
    invoked (settle d true y st0) = invoked st /\
    emits (settle d true y st0) = emits st
  else
    match emit fuel ch y st0 with
    | Normal w st1 =>
        turn fuel st = Next (set_microtasks (fun q => q ++ [JThenable d w]) st1) /\
        pending st1 d /\ emitted st1 ch y w
    | Raise e st1 =>
        turn fuel st = Next (settle d true e st1) /\ failed (settle d true e st1) d e
    | Diverge => turn fuel st = Stuck
    end.
Proof.
  intros Hr [Ho Hlt] Hm st0. pose proof (reachable_sound st Hr) as Hs.
  destruct (sound_pop_react [] st h b y d js Hs Hm) as
    (Hs0 & Ha0 & q & f & g & Ho' & -> & Hq & Hd & _).
  rewrite Ho in Ho'. injection Ho' as <- <- <-.
  split; [done|]. split; [done|].
  assert (Hd0 : outcome st0 d = Some None) by done.
  destruct b.
  - split_and!.
    + by apply (turn_job_next fuel _ js st _ Hm).
    + by apply outcome_settle_pending.
    + by rewrite (proj2 (settle_heap_only d true y st0)).
    + by rewrite emits_settle.
  - pose proof (emit_keeps [d] fuel ch y st0 d _ Hs0 (proj1 Ha0 _ _ Ho) ltac:(done) Hd0) as Hk.
    pose proof (sound_emit [d] fuel ch y st0 Hs0) as Hse.
    destruct (emit fuel ch y st0) as [w st1|e st1|] eqn:Ee.
    + split_and!; [|done|apply Hse].
      apply (turn_job_next fuel _ js st _ Hm). unfold run_job, run_handler.
      fold st0. by rewrite Ee.
    + split.
      * apply (turn_job_next fuel _ js st _ Hm). unfold run_job, run_handler.
        fold st0. by rewrite Ee.
      * by apply outcome_settle_pending.
    + rewrite (turn_job fuel _ js st Hm). unfold run_job, run_handler.
      fold st0. by rewrite Ee.
Qed.

Lemma chain_job_forwards_to_the_child_witness :
  exists w st1 st,
    emit 16 0 (VNum 0) (two_listeners None fast failing) = Normal w st1 /\
    run 16 8 st1 = Some st /\
    reachable st /\ chain st 5 4 2 /\
    microtasks st = JReact None true (VError "boom") 5 :: [] /\
    outcome st 4 = Some (Some (true, VError "boom")) /\ pending st 5 /\
    turn 16 st = Next (settle 5 true (VError "boom") (set_microtasks (fun _ => []) st)) /\
    failed (settle 5 true (VError "boom") (set_microtasks (fun _ => []) st)) 5
      (VError "boom") /\
    invoked (settle 5 true (VError "boom") (set_microtasks (fun _ => []) st)) = invoked st /\
    emits (settle 5 true (VError "boom") (set_microtasks (fun _ => []) st)) = emits st.
Proof.
  destruct (emit 16 0 (VNum 0) (two_listeners None fast failing)) as [w st1| |] eqn:E;
    [|by vm_compute in E..].
  destruct (run 16 8 st1) as [st|] eqn:Er.
  2: { vm_compute in E. injection E as <- <-. by vm_compute in Er. }
  assert (Hr : reachable st).
  { eapply reachable_reaches; [|eapply reaches_run; exact Er].
    eapply reach_emit; [|exact E]. apply two_listeners_reachable. }
  assert (Hst : chain st 5 4 2 /\
                microtasks st = JReact None true (VError "boom") 5 :: []).
  { vm_compute in E. injection E as <- <-. vm_compute in Er. injection Er as <-.
    split; [split; [reflexivity|lia]|reflexivity]. }
  destruct Hst as [Hd Hm].
  exists w, st1, st. split; [reflexivity|]. split; [exact Er|].
  split; [exact Hr|]. split; [exact Hd|]. split; [exact Hm|].
  exact (chain_job_forwards_to_the_child st 5 4 2 None true (VError "boom") [] 16 Hr Hd Hm).
Defined.

(** * What a call of emit settles *)

(** X17. (index.ts, emit and next.)  A call of [emit], whether it returns
    or throws, changes the outcome of no promise that existed before it,
    except that it may fulfil pending promises of [next]: a settled promise
    keeps its outcome, and a pending promise that was not made by [next] is
    still pending afterwards.  All other settlements happen in later turns
    of the event loop. *)
Theorem emit_settles_only_next_promises st fuel em v d :
  reachable st ->
  match emit fuel em v st with
  | Normal _ st' | Raise _ st' =>
      (forall x, outcome st d = Some (Some x) -> outcome st' d = Some (Some x)) /\
      (pending st d -> orig st d <> Some ONext -> pending st' d)
  | Diverge => True
  end.
Proof.
  intros Hr. pose proof (reachable_sound st Hr) as Hs.
  pose proof (sound_emit [] fuel em v st Hs) as Hse.
  assert (Hk : pending st d -> orig st d <> Some ONext ->
               match emit fuel em v st with
               | Normal _ st' | Raise _ st' => outcome st' d = Some None
               | Diverge => True
               end).
  { intros Hp Hne. destruct (orig st d) as [o|] eqn:Ho.
    - apply (emit_keeps [] fuel em v st d o Hs Ho); [congruence|done].
    - apply outcome_lt in Hp. unfold orig in Ho. apply lookup_ge_None_1 in Ho.
      rewrite (inv_origins _ (proj1 Hs)) in Ho. lia. }
  destruct (emit fuel em v st) as [w st'|e st'|]; [| |done].
  - destruct Hse as (_ & Ha & _). split; [intros x; apply Ha|exact Hk].
  - destruct Hse as (_ & Ha). split; [intros x; apply Ha|exact Hk].
Qed.

Lemma emit_settles_only_next_promises_witness :
  exists w1 st1 w2 st2,
    emit 16 0 (VNum 0) (two_listeners None fast slow) = Normal w1 st1 /\
    emit 16 0 (VNum 1) (next 0 None st1).2 = Normal w2 st2 /\
    reachable (next 0 None st1).2 /\
    pending (next 0 None st1).2 2 /\ orig (next 0 None st1).2 2 <> Some ONext /\
    pending (next 0 None st1).2 (next 0 None st1).1 /\
    fulfilled st2 (next 0 None st1).1 (VNum 1) /\
    (forall x, outcome (next 0 None st1).2 2 = Some (Some x) ->
               outcome st2 2 = Some (Some x)) /\
    (pending (next 0 None st1).2 2 -> orig (next 0 None st1).2 2 <> Some ONext ->
     pending st2 2).
Proof.
  destruct (emit 16 0 (VNum 0) (two_listeners None fast slow)) as [w1 st1| |] eqn:E1;
    [|by vm_compute in E1..].
  destruct (emit 16 0 (VNum 1) (next 0 None st1).2) as [w2 st2| |] eqn:E2.
  2, 3: vm_compute in E1; injection E1 as <- <-; by vm_compute in E2.
  assert (Hr : reachable (next 0 None st1).2).
  { apply reach_next. eapply reach_emit; [|exact E1]. apply two_listeners_reachable. }
  assert (Hfacts : pending (next 0 None st1).2 2 /\
                   orig (next 0 None st1).2 2 <> Some ONext /\
                   pending (next 0 None st1).2 (next 0 None st1).1 /\
                   fulfilled st2 (next 0 None st1).1 (VNum 1)).
  { vm_compute in E1. injection E1 as <- <-. vm_compute in E2. injection E2 as <- <-.
    split_and!; [reflexivity|discriminate|reflexivity|reflexivity]. }
  destruct Hfacts as (Hp & Hne & Hpn & Hfn).
  exists w1, st1, w2, st2.
  split; [reflexivity|]. split; [exact E2|]. split; [exact Hr|]. split; [exact Hp|].
  split; [exact Hne|]. split; [exact Hpn|]. split; [exact Hfn|].
  pose proof (emit_settles_only_next_promises (next 0 None st1).2 16 0 (VNum 1) 2 Hr) as H.
  rewrite E2 in H. exact H.
Defined.

(** * The whole tree of an emission *)

(** X18. (index.ts, emit and the closure built by subscribe; helpers.ts,
    waitAll.)  In every reachable state, when the promise of a returned
    call of [emit] is fulfilled, the tree below it is done to every depth:
    each promise the call pushed is fulfilled, the result of each listener
    it called was fulfilled, each child was made to emit that result, and
    the promise of each such call of a child is fulfilled and has the same
    property in turn. *)
Theorem emit_success_covers_the_tree st n : forall ec v,
  reachable st -> ec ∈ emits st -> fulfilled st (ec_promise ec) v ->
  covered st n (ec_promise ec).
Proof.
  induction n as [|n IH]; intros ec v Hr Hec Hv; [done|].
  pose proof (reachable_sound st Hr) as Hs.
  exists ec. split; [done|]. split; [done|].
  apply Forall_forall. intros c Hc.
  destruct (inv_emits _ (proj1 Hs) ec Hec) as [Hcon _].
  destruct (contribution_chain st c (proj1 (Forall_forall _ _) Hcon c Hc))
    as (d & l & ch & Hd & Hor).
  destruct (emit_call_fulfilled st Hs ec Hec v c Hv Hc) as [z Hz].
  assert (Hdz : fulfilled st d z).
  { destruct Hor as [->|(r & t & a & Ht)]; [done|].
    exact (timed_fulfilled st Hs c r t d a Ht z Hz). }
  destruct (chain_fulfilled st Hs d l ch Hd z Hdz) as (u & w' & Hl & Hemit & Hw').
  exists d, l, ch, u, w'. split_and!; [done|done|by exists z|done|done|by exists z|].
  destruct Hemit as [rs Hrec]. exact (IH (mkEmitCall ch u rs w') z Hr Hrec Hw').
Qed.

Lemma emit_success_covers_the_tree_witness :
  exists w st rs,
    emit_and_run 0 (VNum 0) nested_scene = Some (w, st) /\
    reachable st /\ mkEmitCall 0 (VNum 0) rs w ∈ emits st /\
    fulfilled st w VUndefined /\ covered st 3 w.
Proof.
  destruct (emit_and_run 0 (VNum 0) nested_scene) as [[w st]|] eqn:E;
    [|by vm_compute in E].
  assert (Hr : reachable st).
  { eapply emit_and_run_reachable; [|exact E].
    unfold nested_scene, slow, delay_listener. apply reach_subscribe.
    apply two_listeners_reachable. }
  assert (Hec : mkEmitCall 0 (VNum 0) [2; 5] w ∈ emits st).
  { vm_compute in E. injection E as <- <-. left. }
  assert (Hv : fulfilled st w VUndefined).
  { vm_compute in E. injection E as <- <-. reflexivity. }
  exists w, st, [2; 5]. split; [reflexivity|]. split; [exact Hr|]. split; [exact Hec|].
  split; [exact Hv|].
  exact (emit_success_covers_the_tree st 3 _ VUndefined Hr Hec Hv).
Defined.

(** X19. (index.ts, emit and the closure built by subscribe; helpers.ts,
    waitAll.)  In a reachable state with no queued microtask, a promise of
    [emit] that is still pending waits for a listener somewhere below it:
    one of the promises it pushed is pending, and for the entry of that
    promise either the result of the listener is pending, or the child was
    made to emit that result and the promise of that call is pending for
    the same reason, to every depth. *)
Theorem pending_emit_waits_for_a_listener st n : forall ec,
  reachable st -> quiescent st -> ec ∈ emits st -> pending st (ec_promise ec) ->
  waiting st n (ec_promise ec).
Proof.
  induction n as [|n IH]; intros ec Hr Hq Hec Hp; [done|].
  pose proof (reachable_sound st Hr) as Hs.
  pose proof (reachable_zeroed st Hr) as Hz.
  destruct (emit_call_pending st Hs Hz Hq ec Hec Hp) as (c & Hc & Hpc).
  destruct (inv_emits _ (proj1 Hs) ec Hec) as [Hcon _].
  destruct (contribution_chain st c (proj1 (Forall_forall _ _) Hcon c Hc))
    as (d & l & ch & Hd & Hor).
  assert (Hpd : pending st d).
  { destruct Hor as [->|(r & t & a & Ht)]; [done|].
    destruct (orig_outcome st d _ (proj1 Hs) (proj1 Hd)) as [[y|] Hy]; [|done].
    destruct (timed_settles st Hs Hq c r t d a Ht) as [x Hx]; [by exists y|].
    unfold pending in Hpc. congruence. }
  exists ec, c, d, l, ch. split_and!; [done..|].
  destruct (chain_pending st Hs d l ch Hd Hq Hpd) as [Hl|(u & w' & Hu & Hemit & Hw')];
    [by left|right].
  exists u, w'. split_and!; [done..|].
  destruct Hemit as [rs Hrec]. exact (IH (mkEmitCall ch u rs w') Hr Hq Hrec Hw').
Qed.

Lemma pending_emit_waits_for_a_listener_witness :
  exists w st1 st,
    emit 16 0 (VNum 0) nested_scene = Normal w st1 /\ run 16 4 st1 = Some st /\
    reachable st /\ quiescent st /\ mkEmitCall 0 (VNum 0) [2; 5] w ∈ emits st /\
    pending st w /\ waiting st 2 w.
Proof.
  destruct (emit 16 0 (VNum 0) nested_scene) as [w st1| |] eqn:E;
    [|by vm_compute in E..].
  destruct (run 16 4 st1) as [st|] eqn:Er.
  2: { vm_compute in E. injection E as <- <-. by vm_compute in Er. }
  assert (Hr : reachable st).
  { eapply reachable_reaches; [|eapply reaches_run; exact Er].
    eapply reach_emit; [|exact E].
    unfold nested_scene, slow, delay_listener. apply reach_subscribe.
    apply two_listeners_reachable. }
  assert (Hst : quiescent st /\ mkEmitCall 0 (VNum 0) [2; 5] w ∈ emits st /\ pending st w).
  { vm_compute in E. injection E as <- <-. vm_compute in Er. injection Er as <-.
    split_and!; [reflexivity|left|reflexivity]. }
  destruct Hst as (Hq & Hec & Hp).
  exists w, st1, st. split; [reflexivity|]. split; [exact Er|]. split; [exact Hr|].
  split; [exact Hq|]. split; [exact Hec|]. split; [exact Hp|].
  exact (pending_emit_waits_for_a_listener st 2 _ Hr Hq Hec Hp).
Defined.

(** * A chain that was resolved with the promise of the child *)

(** X20. (index.ts, the closure built by subscribe and emit.)  In every
    reachable state, when the forward chain [d = l.then(child.emit)] of an
    entry was resolved with a promise [q] ([a] is what [q.then] returned
    for the resolving functions of [d]): [q] is the promise that the child
    returned when it was made to emit the result of the listener, this
    happened once, a settled chain has the outcome of [q], and when no
    microtask is queued the chain and [q] have the same outcome, pending
    included. *)
Theorem chain_follows_the_emission_of_the_child st d l ch a q :
  reachable st -> chain st d l ch -> resolver st a q d ->
  (exists u, fulfilled st l u /\ emitted st ch u q) /\
  (forall a' q', resolver st a' q' d -> a' = a /\ q' = q) /\
  (settled st d -> outcome st d = outcome st q) /\
  (quiescent st -> outcome st d = outcome st q).
Proof.
  intros Hr Hd Hres.
  exact (resolved_chain st d l ch a q (reachable_sound st Hr) (reachable_adopt st Hr) Hd Hres).
Qed.

Lemma chain_follows_the_emission_of_the_child_witness :
  exists w st,
    emit_and_run 0 (VNum 0) nested_scene = Some (w, st) /\
    reachable st /\ chain st 2 1 1 /\ resolver st 14 12 2 /\
    (exists u, fulfilled st 1 u /\ emitted st 1 u 12) /\
    (forall a' q', resolver st a' q' 2 -> a' = 14 /\ q' = 12) /\
    (settled st 2 -> outcome st 2 = outcome st 12) /\
    (quiescent st -> outcome st 2 = outcome st 12).
Proof.
  destruct (emit_and_run 0 (VNum 0) nested_scene) as [[w st]|] eqn:E;
    [|by vm_compute in E].
  assert (Hr : reachable st).
  { eapply emit_and_run_reachable; [|exact E].
    unfold nested_scene, slow, delay_listener. apply reach_subscribe.
    apply two_listeners_reachable. }
  assert (Hst : chain st 2 1 1 /\ resolver st 14 12 2).
  { vm_compute in E. injection E as <- <-. split; [split; [reflexivity|lia]|reflexivity]. }
  destruct Hst as [Hd Hres].
  exists w, st. split; [reflexivity|]. split; [exact Hr|]. split; [exact Hd|].
  split; [exact Hres|].
  exact (chain_follows_the_emission_of_the_child st 2 1 1 14 12 Hr Hd Hres).
Defined.

(** X21. (index.ts, emit and the closure built by subscribe; helpers.ts,
    waitAll.)  In a reachable state with no queued microtask, a failure
    anywhere below a returned call of [emit] has reached its promise: when
    for an entry of the call the result of the listener or the forward
    chain is rejected, or the chain was resolved with the promise of an
    emission of the child below which something has failed in the same
    way, to any depth, the promise of the call is rejected. *)
Theorem failure_below_rejects_the_emission st n : forall w,
  reachable st -> quiescent st -> broken st n w -> exists e, failed st w e.
Proof.
  induction n as [|n IH]; intros w Hr Hq Hb.
  { by destruct Hb as [Hb|Hb]. }
  destruct Hb as [Hb|(ec & c & d & l & ch & Hec & <- & Hc & Hd & Hor & Hb)]; [done|].
  pose proof (reachable_sound st Hr) as Hs.
  assert (Hfd : exists e, failed st d e).
  { destruct Hb as [[e He]|[Hb|(a & q & Hres & Hb)]]; [|done|].
    - exists e. exact (chain_fails st Hs d l ch Hd e Hq He).
    - destruct (IH q Hr Hq Hb) as [e He]. exists e.
      pose proof (reachable_adopt st Hr) as Had.
      destruct (resolved_chain st d l ch a q Hs Had Hd Hres) as (_ & _ & _ & Heq).
      unfold failed. by rewrite (Heq Hq). }
  destruct Hfd as [e He].
  assert (Hfc : exists e', failed st c e').
  { destruct Hor as [->|(r & t & a & Ht)]; [by exists e|].
    exact (timed_fails st Hs c r t d a Ht e Hq He). }
  destruct Hfc as [e' He'].
  exact (emit_call_fails st Hs ec Hec c e' Hq Hc He').
Qed.

Lemma failure_below_rejects_the_emission_witness :
  exists w st,
    emit_and_run 0 (VNum 0) (subscribe 1 failing (two_listeners None fast slow)).2
      = Some (w, st) /\
    reachable st /\ quiescent st /\ broken st 2 w /\ exists e, failed st w e.
Proof.
  destruct (emit_and_run 0 (VNum 0) (subscribe 1 failing (two_listeners None fast slow)).2)
    as [[w st]|] eqn:E; [|by vm_compute in E].
  assert (Hr : reachable st).
  { eapply emit_and_run_reachable; [|exact E].
    unfold failing. apply reach_subscribe. apply two_listeners_reachable. }
  assert (Hst : quiescent st /\ broken st 2 w).
  { vm_compute in E. injection E as <- <-. split; [reflexivity|].
    right. exists (mkEmitCall 0 (VNum 0) [2; 5] 6), 2, 2, 1, 1.
    split; [left|]. split; [reflexivity|]. split; [left|].
    split; [split; [reflexivity|lia]|]. split; [by left|].
    right. right. exists 14, 12. split; [reflexivity|].
    right. exists (mkEmitCall 1 VUndefined [11] 12), 11, 11, 10, 3.
    split; [right; left|]. split; [reflexivity|]. split; [left|].
    split; [split; [reflexivity|lia]|]. split; [by left|].
    left. by exists (VError "boom"). }
  destruct Hst as [Hq Hb].
  exists w, st. split; [reflexivity|]. split; [exact Hr|]. split; [exact Hq|].
  split; [exact Hb|].
  exact (failure_below_rejects_the_emission st 2 w Hr Hq Hb).
Defined.

(** * Where the entries of a table come from *)
























(** * The loop of emit and the entry of a call of next *)




(** * What an emission does to the promise of next *)









(** * What a job settles *)




(** ** The promise of next, in every later state *)


(** * next *)






(** * The timers that are set *)



























(** * The race that emit sets up under emitTimeout *)








(** ** The race in later states *)



(** * emitTimeout *)





(** * Entries that the loop of emit passes over *)



(** * The promise of emit and the tree below it *)





